(** * NURBS knot vectors, patches and multi-patch numbering (mesh/nurbs.cpp)

    A shallow embedding of the parts of [mesh/nurbs.cpp] that the
    specification talks about: the knot-vector algebra of [KnotVector], the
    patch-replacing operators of [NURBSPatch] and the offset and boundary
    tables of [NURBSExtension].

    Conventions of the embedding.
    - [int] is [Z]; signed overflow is undefined in C++ and is not modelled.
    - [real_t] is [Qc], exact rational arithmetic with Leibniz equality.
      Rounding is outside the model: every statement about values of type
      [real_t] is a statement about the exact recurrences the code runs.
    - [Vector], [Array<T>] and raw buffers are lists; an access outside the
      bounds is undefined behaviour in a release build and an assertion in a
      debug build, and is the failure [OutOfBounds] here.
    - [mfem_error], [MFEM_VERIFY] and [MFEM_ABORT] are the failure [Abort].
      [MFEM_ASSERT] is compiled out of release builds and is not modelled.
    - Objects reached through pointers that a claim distinguishes (control
      point buffers, the knot vectors owned by a patch) live in an explicit
      store. *)

From Stdlib Require Import ZArith QArith Qcanon Lia Lqa String.
From stdpp Require Import base numbers list sorting gmap strings.

Local Open Scope Z_scope.

(** ** Failures and the result monad *)

Inductive failure : Type :=
| Abort (msg : string)
| OutOfBounds
| OutOfFuel.

Inductive Res (A : Type) : Type :=
| Ok (a : A)
| Err (e : failure).
Arguments Ok {A} a.
Arguments Err {A} e.

Definition rbind {A B} (m : Res A) (k : A -> Res B) : Res B :=
  match m with
  | Ok a => k a
  | Err e => Err e
  end.

Declare Scope res_scope.
Delimit Scope res_scope with res.
Notation "x ← y ; z" := (rbind y (fun x => z))
  (at level 20, y at level 100, z at level 200, only parsing) : res_scope.
Notation "' x ← y ; z" := (rbind y (fun x => z))
  (at level 20, x pattern, y at level 100, z at level 200, only parsing) : res_scope.
Local Open Scope res_scope.

Definition mfem_error {A} (msg : string) : Res A := Err (Abort msg).

Definition MFEM_VERIFY (c : bool) (msg : string) : Res unit :=
  if c then Ok tt else Err (Abort msg).

(** ** Loops *)

Fixpoint for_iter {St} (n : nat) (i : Z) (body : Z -> St -> Res St) (s : St) : Res St :=
  match n with
  | O => Ok s
  | S n' => s' ← body i s; for_iter n' (i + 1) body s'
  end.

(** [for (int i = lo; i < hi; i++) body] *)
Definition for_loop {St} (lo hi : Z) (body : Z -> St -> Res St) (s : St) : Res St :=
  for_iter (Z.to_nat (hi - lo)) lo body s.

Fixpoint for_iter_down {St} (n : nat) (i : Z) (body : Z -> St -> Res St) (s : St) : Res St :=
  match n with
  | O => Ok s
  | S n' => s' ← body i s; for_iter_down n' (i - 1) body s'
  end.

(** [for (int i = hi; i >= lo; i--) body] *)
Definition for_down {St} (hi lo : Z) (body : Z -> St -> Res St) (s : St) : Res St :=
  for_iter_down (Z.to_nat (hi - lo + 1)) hi body s.

(** [while (cond) body], cut off after [fuel] iterations. *)
Fixpoint while_loop {St} (fuel : nat) (cond : St -> Res bool) (body : St -> Res St)
    (s : St) : Res St :=
  match fuel with
  | O => Err OutOfFuel
  | S f =>
      c ← cond s;
      if c then s' ← body s; while_loop f cond body s' else Ok s
  end.

(** ** Arrays *)

Definition rd {A} (v : list A) (i : Z) : Res A :=
  if bool_decide (0 <= i) then
    match v !! Z.to_nat i with
    | Some x => Ok x
    | None => Err OutOfBounds
    end
  else Err OutOfBounds.

Definition wr {A} (v : list A) (i : Z) (x : A) : Res (list A) :=
  if bool_decide (0 <= i < Z.of_nat (length v)) then Ok (<[Z.to_nat i := x]> v)
  else Err OutOfBounds.

Definition zlen {A} (v : list A) : Z := Z.of_nat (length v).

(** [Array2D<T>]: [rows x cols] entries stored row by row. *)
Module Array2D.
Record t (A : Type) : Type := mk { rows : Z; cols : Z; cells : list A }.
Arguments mk {A} _ _ _.
Arguments rows {A} _.
Arguments cols {A} _.
Arguments cells {A} _.

Definition create {A} (m n : Z) (x : A) : t A :=
  mk m n (replicate (Z.to_nat (m * n)) x).

Definition get {A} (a : t A) (i j : Z) : Res A :=
  if bool_decide (0 <= i < rows a /\ 0 <= j < cols a)
  then rd (cells a) (i * cols a + j)
  else Err OutOfBounds.

Definition set {A} (a : t A) (i j : Z) (x : A) : Res (t A) :=
  if bool_decide (0 <= i < rows a /\ 0 <= j < cols a)
  then c ← wr (cells a) (i * cols a + j) x; Ok (mk (rows a) (cols a) c)
  else Err OutOfBounds.
End Array2D.

(** ** real_t *)

Abbreviation real_t := Qc.

Definition Qcabs (x : Qc) : Qc := if bool_decide (x < 0)%Qc then (- x)%Qc else x.

Definition Qc_ltb (x y : Qc) : bool := bool_decide (x < y)%Qc.
Definition Qc_leb (x y : Qc) : bool := bool_decide (x <= y)%Qc.
Definition Qc_eqb (x y : Qc) : bool := bool_decide (x = y).

(** ** KnotVector *)

Module KnotVector.

Definition MaxOrder : Z := 10.

(** The [spacing] member is a shared pointer to a spacing function; only its
    identity is copied around by the code below, so it is an opaque handle. *)
Record t : Type := mk {
  knot : list real_t;
  Order : Z;
  NumOfControlPoints : Z;
  NumOfElements : Z;
  coarse : bool;
  spacing : option positive
}.

Definition GetOrder (kv : t) : Z := Order kv.
Definition GetNCP (kv : t) : Z := NumOfControlPoints kv.
Definition GetNE (kv : t) : Z := NumOfElements kv.
Definition GetNKS (kv : t) : Z := NumOfControlPoints kv - Order kv.
Definition Size (kv : t) : Z := zlen (knot kv).

(** [knot(i)] and [operator[]] for reading. *)
Definition at_ (kv : t) (i : Z) : Res real_t := rd (knot kv) i.

(** [kv[i] = x] *)
Definition set (kv : t) (i : Z) (x : real_t) : Res t :=
  k ← wr (knot kv) i x;
  Ok (mk k (Order kv) (NumOfControlPoints kv) (NumOfElements kv) (coarse kv)
         (spacing kv)).

(** [KnotVector(int order, int NCP)]: every knot is set to -1. *)
Definition create (order NCP : Z) : t :=
  mk (replicate (Z.to_nat (NCP + order + 1)) (Q2Qc (-1))) order NCP 0 false None.

(** What a pointer that has not been assigned yet stands for. *)
Definition null : t := mk [] 0 0 0 false None.

(** [operator=]: the spacing function is cloned when the source has one and
    is kept otherwise. *)
Definition assign (dst src : t) : t :=
  mk (knot src) (Order src) (NumOfControlPoints src) (NumOfElements src) (coarse src)
     (match spacing src with Some f => Some f | None => spacing dst end).

(** [GetElements()] *)
Definition count_elements (kv : t) : Res Z :=
  for_loop (Order kv) (NumOfControlPoints kv)
    (fun i n =>
       a ← at_ kv i;
       b ← at_ kv (i + 1);
       Ok (if Qc_eqb a b then n else n + 1))
    0.

Definition GetElements (kv : t) : Res t :=
  n ← count_elements kv;
  Ok (mk (knot kv) (Order kv) (NumOfControlPoints kv) n (coarse kv) (spacing kv)).

(** [isElement(i)] is declared in the header:
    [knot(Order+i) != knot(Order+i+1)], the test [GetElements] counts. *)
Definition isElement (kv : t) (i : Z) : Res bool :=
  a ← at_ kv (Order kv + i);
  b ← at_ kv (Order kv + i + 1);
  Ok (negb (Qc_eqb a b)).

(** [DegreeElevate(int t)] *)
Definition DegreeElevate (kv : t) (t_ : Z) : Res t :=
  _ ← (if bool_decide (t_ < 0)
        then mfem_error "KnotVector::DegreeElevate : Parent KnotVector order higher than child"
        else Ok tt);
  let nOrder := Order kv + t_ in
  let newkv := create nOrder (GetNCP kv + t_) in
  k0 ← at_ kv 0;
  newkv ← for_loop 0 (nOrder + 1) (fun i nk => set nk i k0) newkv;
  newkv ← for_loop (nOrder + 1) (GetNCP newkv)
             (fun i nk => x ← at_ kv (i - t_); set nk i x) newkv;
  klast ← at_ kv (Size kv - 1);
  newkv ← for_loop 0 (nOrder + 1)
             (fun i nk => set nk (GetNCP nk + i) klast) newkv;
  GetElements newkv.

(** [Flip()] *)
Definition Flip (kv : t) : Res t :=
  k0 ← at_ kv 0;
  kl ← at_ kv (Size kv - 1);
  let apb := (k0 + kl)%Qc in
  let ns := (NumOfControlPoints kv - Order kv) `quot` 2 in
  for_loop 1 (ns + 1)
    (fun i kv =>
       a ← at_ kv (Order kv + i);
       let tmp := (apb - a)%Qc in
       b ← at_ kv (NumOfControlPoints kv - i);
       kv ← set kv (Order kv + i) (apb - b)%Qc;
       set kv (NumOfControlPoints kv - i) tmp)
    kv.

(** [Difference(const KnotVector &kv, Vector &diff)]. [eps] is
    [std::numeric_limits<real_t>::epsilon()]. The vector [diff] is resized
    without being initialised; the run either overwrites all of it or fails,
    so the initial content is immaterial and is 0 here. The recursive call
    of the source swaps the operands once. *)
Definition Difference_loop (eps : real_t) (self kv : t) (s0 : Z) : Res (list real_t) :=
  '(_, _, diff) ←
    for_loop 0 (Size kv)
      (fun j '(i, s, diff) =>
         a ← at_ self i;
         b ← at_ kv j;
         if Qc_ltb (Qcabs (a - b)) (2 * eps)%Qc
         then Ok (i + 1, s, diff)
         else diff ← wr diff s b; Ok (i, s + 1, diff))
      (0, 0, replicate (Z.to_nat s0) (Q2Qc 0));
  Ok diff.

Definition Difference_ordered (eps : real_t) (self kv : t) : Res (list real_t) :=
  _ ← (if bool_decide (Order self ≠ GetOrder kv)
        then mfem_error "KnotVector::Difference : Can not compare knot vectors with different orders!"
        else Ok tt);
  let s := Size kv - Size self in
  if bool_decide (s = 0) then Ok [] else Difference_loop eps self kv s.

Definition Difference (eps : real_t) (self kv : t) : Res (list real_t) :=
  _ ← (if bool_decide (Order self ≠ GetOrder kv)
        then mfem_error "KnotVector::Difference : Can not compare knot vectors with different orders!"
        else Ok tt);
  let s := Size kv - Size self in
  if bool_decide (s < 0) then Difference_ordered eps kv self
  else if bool_decide (s = 0) then Ok [] else Difference_loop eps self kv s.

(** [findKnotSpan(u)]: a bisection between [Order] and
    [NumOfControlPoints + 1]. A round either narrows the bracket or leaves it
    as it is, and then the source loops for ever; [high - low + 1] tests of
    the condition tell the two cases apart. *)
Definition findKnotSpan (kv : t) (u : real_t) : Res Z :=
  e ← at_ kv (NumOfControlPoints kv + Order kv);
  if Qc_eqb u e then Ok (NumOfControlPoints kv)
  else
    let low := Order kv in
    let high := NumOfControlPoints kv + 1 in
    '(_, _, mid) ←
      while_loop (S (Z.to_nat (high - low)))
        (fun '(low, high, mid) =>
           a ← at_ kv (mid - 1);
           if Qc_ltb u a then Ok true
           else b ← at_ kv mid; Ok (Qc_ltb b u))
        (fun '(low, high, mid) =>
           a ← at_ kv (mid - 1);
           let '(low, high) := if Qc_ltb u a then (low, mid) else (mid, high) in
           Ok (low, high, (low + high) `quot` 2))
        (low, high, (low + high) `quot` 2);
    Ok mid.

End KnotVector.


(** *** Basis evaluation *)

Section CalcShape.

(** [getKnotLocation(xi, ni)] is an inline member of the header, which is not
    among the sources; it is a parameter of [CalcShape]. *)
Variable getKnotLocation : KnotVector.t -> real_t -> Z -> Res real_t.

(** [CalcShape(Vector &shape, int i, real_t xi)], Algorithm A2.2. [shape] is
    the caller's vector; [left] and [right] are the two local arrays of
    [MaxOrder+1] entries. *)
Definition CalcShape (kv : KnotVector.t) (shape : list real_t) (i : Z) (xi : real_t)
    : Res (list real_t) :=
  let p := KnotVector.Order kv in
  let ip := if bool_decide (0 <= i) then i + p else -1 - i + p in
  u ← getKnotLocation kv (if bool_decide (0 <= i) then xi else (1 - xi)%Qc) ip;
  let left := replicate (Z.to_nat (KnotVector.MaxOrder + 1)) (Q2Qc 0) in
  let right := replicate (Z.to_nat (KnotVector.MaxOrder + 1)) (Q2Qc 0) in
  shape ← wr shape 0 (Q2Qc 1);
  '(shape, _, _) ←
    for_loop 1 (p + 1)
      (fun j '(shape, left, right) =>
         a ← KnotVector.at_ kv (ip + 1 - j);
         left ← wr left j (u - a)%Qc;
         b ← KnotVector.at_ kv (ip + j);
         right ← wr right j (b - u)%Qc;
         '(shape, saved) ←
           for_loop 0 j
             (fun r '(shape, saved) =>
                sr ← rd shape r;
                rr ← rd right (r + 1);
                lj ← rd left (j - r);
                let tmp := (sr / (rr + lj))%Qc in
                shape ← wr shape r (saved + rr * tmp)%Qc;
                Ok (shape, (lj * tmp)%Qc))
             (shape, Q2Qc 0);
         shape ← wr shape j saved;
         Ok (shape, left, right))
      (shape, left, right);
  Ok shape.

End CalcShape.

(** The sum of the first [n] entries of a vector. *)
Definition sum_first (n : nat) (v : list real_t) : real_t :=
  foldr Qcplus (Q2Qc 0) (take n v).

(** Knots are non-decreasing. *)
Definition nondecreasing (ks : list real_t) : Prop :=
  forall (i j : nat) x y, (i <= j)%nat -> ks !! i = Some x -> ks !! j = Some y -> (x <= y)%Qc.

(** The knot array has [NumOfControlPoints + Order + 1] entries. *)
Definition well_sized (kv : KnotVector.t) : Prop :=
  KnotVector.Size kv = KnotVector.NumOfControlPoints kv + KnotVector.Order kv + 1.

(** The number of entries of a knot vector equal to [u]. *)
Definition multiplicity (u : real_t) (ks : list real_t) : Z :=
  zlen (filter (fun x => x = u) ks).

(** ** Concrete knot vectors used in the examples *)

Definition qc (n : Z) (d : positive) : Qc := Q2Qc (n # d).

(** [std::numeric_limits<double>::epsilon()] *)
Definition epsilon_double : real_t := qc 1 (2 ^ 52).

Definition kv_of (order : Z) (ne : Z) (ks : list Qc) : KnotVector.t :=
  KnotVector.mk ks order (zlen ks - order - 1) ne false None.

(** Order 1 on [0, 1/2, 1]: two elements, one interior knot. *)
Definition kv_lin2 : KnotVector.t :=
  kv_of 1 2 [qc 0 1; qc 0 1; qc 1 2; qc 1 1; qc 1 1].

(** Order 1 on [0, 1]: one element. *)
Definition kv_lin1 : KnotVector.t :=
  kv_of 1 1 [qc 0 1; qc 0 1; qc 1 1; qc 1 1].

(** Order 1 with the interior knot at 1/4. *)
Definition kv_lin2' : KnotVector.t :=
  kv_of 1 2 [qc 0 1; qc 0 1; qc 1 4; qc 1 1; qc 1 1].

(** Order 1 with interior knots 3/10 and 6/10. *)
Definition kv_lin3 : KnotVector.t :=
  kv_of 1 3 [qc 0 1; qc 0 1; qc 3 10; qc 6 10; qc 1 1; qc 1 1].

(** Order 2 on [0, 1/2, 1]. *)
Definition kv_quad2 : KnotVector.t :=
  kv_of 2 2 [qc 0 1; qc 0 1; qc 0 1; qc 1 2; qc 1 1; qc 1 1; qc 1 1].

(** ** The claim on KnotVector::DegreeElevate, as the specification states it *)

(** An interior knot value: it occurs in the vector and differs from both end
    knots. *)
Definition interior_value (kv : KnotVector.t) (u : real_t) : Prop :=
  u ∈ KnotVector.knot kv /\
  head (KnotVector.knot kv) <> Some u /\ last (KnotVector.knot kv) <> Some u.

Definition DegreeElevate_as_specified (kv : KnotVector.t) (t_ : Z) : Prop :=
  exists kv',
    KnotVector.DegreeElevate kv t_ = Ok kv' /\
    KnotVector.Order kv' = KnotVector.Order kv + t_ /\
    (forall u, interior_value kv u ->
       multiplicity u (KnotVector.knot kv') = multiplicity u (KnotVector.knot kv) + t_) /\
    KnotVector.NumOfControlPoints kv' =
      KnotVector.NumOfControlPoints kv + KnotVector.NumOfElements kv * t_.

(** ** The greedy matching that Difference performs, on lists *)




(** Boolean check of [nondecreasing], for concrete vectors. *)
Fixpoint nondecreasingb (ks : list real_t) : bool :=
  match ks with
  | [] => true
  | x :: ks' =>
      match ks' with
      | [] => true
      | y :: _ => Qc_leb x y && nondecreasingb ks'
      end
  end.

(** The header's [getKnotLocation]: [xi*knot(ni+1) + (1. - xi)*knot(ni)]. *)
Definition getKnotLocation (kv : KnotVector.t) (xi : real_t) (ni : Z) : Res real_t :=
  a ← KnotVector.at_ kv (ni + 1);
  b ← KnotVector.at_ kv ni;
  Ok (xi * a + (1 - xi) * b)%Qc.

(** ** The patch topology *)

(** The coarse mesh of patches is the external class [Mesh]; the queries that
    [nurbs.cpp] makes are the fields of this record. A query that fills
    [edges] and [orient] returns both arrays. *)
Module Mesh.
Record t : Type := mk {
  Dimension : Z;
  GetNV : Z;
  GetNEdges : Z;
  GetNFaces : Z;
  GetNE : Z;
  GetNBE : Z;
  GetElementVertices : Z -> list Z;
  GetElementEdges : Z -> list Z * list Z;
  GetEdgeVertices : Z -> list Z;
  GetFaceEdges : Z -> list Z * list Z;
  GetBdrElementFaceIndex : Z -> Z
}.
End Mesh.

(** ** NURBSExtension *)

Inductive Mode : Type := H_1 | H_DIV | H_CURL.

Record Connection : Type := mkConnection { from : Z; to : Z }.

Module NURBSExtension.

Record t : Type := mk {
  mode : Mode;
  patchTopo : Mesh.t;
  edge_to_ukv : list Z;
  knotVectors : list KnotVector.t;
  knotVectorsCompr : list KnotVector.t;
  mOrders : list Z;
  NumOfKnotVectors : Z;
  NumOfActiveBdrElems : Z;
  activeBdrElem : list bool;
  v_meshOffsets : list Z;
  e_meshOffsets : list Z;
  f_meshOffsets : list Z;
  p_meshOffsets : list Z;
  v_spaceOffsets : list Z;
  e_spaceOffsets : list Z;
  f_spaceOffsets : list Z;
  p_spaceOffsets : list Z;
  NumOfVertices : Z;
  NumOfDofs : Z
}.

Definition Dimension (ext : t) : Z := Mesh.Dimension (patchTopo ext).
Definition GetNP (ext : t) : Z := Mesh.GetNE (patchTopo ext).
Definition GetNBP (ext : t) : Z := Mesh.GetNBE (patchTopo ext).
Definition GetNKV (ext : t) : Z := NumOfKnotVectors ext.

(** [KnotInd(edge)] and [KnotVec(edge)] are inline members of the header: the
    entry of [edge_to_ukv], un-negated as [CheckPatches] does ([-1 - kv]),
    indexes [knotVectors]. *)
Definition KnotInd (ext : t) (edge : Z) : Res Z :=
  kv ← rd (edge_to_ukv ext) edge;
  Ok (if bool_decide (0 <= kv) then kv else -1 - kv).

Definition KnotVec (ext : t) (edge : Z) : Res KnotVector.t :=
  k ← KnotInd ext edge;
  rd (knotVectors ext) k.

Definition set_offsets (ext : t) (vm em fm pm vs es fs ps : list Z) (nvert ndof : Z) : t :=
  mk (mode ext) (patchTopo ext) (edge_to_ukv ext) (knotVectors ext)
     (knotVectorsCompr ext) (mOrders ext) (NumOfKnotVectors ext)
     (NumOfActiveBdrElems ext) (activeBdrElem ext)
     vm em fm pm vs es fs ps nvert ndof.

Definition set_knotVectorsCompr (ext : t) (kvc : list KnotVector.t) : t :=
  mk (mode ext) (patchTopo ext) (edge_to_ukv ext) (knotVectors ext)
     kvc (mOrders ext) (NumOfKnotVectors ext)
     (NumOfActiveBdrElems ext) (activeBdrElem ext)
     (v_meshOffsets ext) (e_meshOffsets ext) (f_meshOffsets ext) (p_meshOffsets ext)
     (v_spaceOffsets ext) (e_spaceOffsets ext) (f_spaceOffsets ext) (p_spaceOffsets ext)
     (NumOfVertices ext) (NumOfDofs ext).

Definition set_knotVectors (ext : t) (kvs : list KnotVector.t) : t :=
  mk (mode ext) (patchTopo ext) (edge_to_ukv ext) kvs
     (knotVectorsCompr ext) (mOrders ext) (NumOfKnotVectors ext)
     (NumOfActiveBdrElems ext) (activeBdrElem ext)
     (v_meshOffsets ext) (e_meshOffsets ext) (f_meshOffsets ext) (p_meshOffsets ext)
     (v_spaceOffsets ext) (e_spaceOffsets ext) (f_spaceOffsets ext) (p_spaceOffsets ext)
     (NumOfVertices ext) (NumOfDofs ext).

(** [GenerateOffsets()]. The arrays are resized and then written entry by
    entry; the counters are threaded through the four loops. *)
Definition GenerateOffsets (ext : t) : Res t :=
  let nv := Mesh.GetNV (patchTopo ext) in
  let ne := Mesh.GetNEdges (patchTopo ext) in
  let nf := Mesh.GetNFaces (patchTopo ext) in
  let np := Mesh.GetNE (patchTopo ext) in
  let dim := Dimension ext in
  let arr n := replicate (Z.to_nat n) 0 in
  (* Get vertex offsets *)
  '(vm, vs) ←
    for_loop 0 nv
      (fun meshCounter '(vm, vs) =>
         vm ← wr vm meshCounter meshCounter;
         vs ← wr vs meshCounter meshCounter;
         Ok (vm, vs))
      (arr nv, arr nv);
  let meshCounter := Z.max 0 nv in
  let spaceCounter := meshCounter in
  (* Get edge offsets *)
  '(em, es, meshCounter, spaceCounter) ←
    for_loop 0 ne
      (fun e '(em, es, meshCounter, spaceCounter) =>
         em ← wr em e meshCounter;
         es ← wr es e spaceCounter;
         kv ← KnotVec ext e;
         Ok (em, es, meshCounter + (KnotVector.GetNE kv - 1),
             spaceCounter + (KnotVector.GetNCP kv - 2)))
      (arr ne, arr ne, meshCounter, spaceCounter);
  (* Get face offsets *)
  '(fm, fs, meshCounter, spaceCounter) ←
    for_loop 0 nf
      (fun f '(fm, fs, meshCounter, spaceCounter) =>
         fm ← wr fm f meshCounter;
         fs ← wr fs f spaceCounter;
         let '(edges, orient) := Mesh.GetFaceEdges (patchTopo ext) f in
         e0 ← rd edges 0;
         e1 ← rd edges 1;
         kv0 ← KnotVec ext e0;
         kv1 ← KnotVec ext e1;
         Ok (fm, fs,
             meshCounter + (KnotVector.GetNE kv0 - 1) * (KnotVector.GetNE kv1 - 1),
             spaceCounter + (KnotVector.GetNCP kv0 - 2) * (KnotVector.GetNCP kv1 - 2)))
      (arr nf, arr nf, meshCounter, spaceCounter);
  (* Get patch offsets *)
  '(pm, ps, meshCounter, spaceCounter) ←
    for_loop 0 np
      (fun p '(pm, ps, meshCounter, spaceCounter) =>
         pm ← wr pm p meshCounter;
         ps ← wr ps p spaceCounter;
         if bool_decide (dim = 1) then
           kv0 ← KnotVec ext 0;
           Ok (pm, ps, meshCounter + (KnotVector.GetNE kv0 - 1),
               spaceCounter + (KnotVector.GetNCP kv0 - 2))
         else if bool_decide (dim = 2) then
           let '(edges, orient) := Mesh.GetElementEdges (patchTopo ext) p in
           e0 ← rd edges 0;
           e1 ← rd edges 1;
           kv0 ← KnotVec ext e0;
           kv1 ← KnotVec ext e1;
           Ok (pm, ps,
               meshCounter + (KnotVector.GetNE kv0 - 1) * (KnotVector.GetNE kv1 - 1),
               spaceCounter + (KnotVector.GetNCP kv0 - 2) * (KnotVector.GetNCP kv1 - 2))
         else
           let '(edges, orient) := Mesh.GetElementEdges (patchTopo ext) p in
           e0 ← rd edges 0;
           e3 ← rd edges 3;
           e8 ← rd edges 8;
           kv0 ← KnotVec ext e0;
           kv3 ← KnotVec ext e3;
           kv8 ← KnotVec ext e8;
           Ok (pm, ps,
               meshCounter + (KnotVector.GetNE kv0 - 1) * (KnotVector.GetNE kv3 - 1)
                             * (KnotVector.GetNE kv8 - 1),
               spaceCounter + (KnotVector.GetNCP kv0 - 2) * (KnotVector.GetNCP kv3 - 2)
                              * (KnotVector.GetNCP kv8 - 2)))
      (arr np, arr np, meshCounter, spaceCounter);
  Ok (set_offsets ext vm em fm pm vs es fs ps meshCounter spaceCounter).

(** [GetPatchKnotVectors(p, kv)] *)
Definition GetPatchKnotVectors (ext : t) (p : Z) : Res (list KnotVector.t) :=
  let dim := Dimension ext in
  if bool_decide (dim = 1) then
    k0 ← rd (knotVectorsCompr ext) (dim * p);
    Ok [k0]
  else if bool_decide (dim = 2) then
    k0 ← rd (knotVectorsCompr ext) (dim * p);
    k1 ← rd (knotVectorsCompr ext) (dim * p + 1);
    Ok [k0; k1]
  else
    k0 ← rd (knotVectorsCompr ext) (dim * p);
    k1 ← rd (knotVectorsCompr ext) (dim * p + 1);
    k2 ← rd (knotVectorsCompr ext) (dim * p + 2);
    Ok [k0; k1; k2].

(** What [NURBSPatchMap::SetPatchDofMap(p, kv)] stores for the interior of
    patch [p]: the interior counts [I], [J], [K] along the patch's own knot
    vectors ([J] and [K] only in the dimensions that set them) and
    [pOffset]. *)
Record PatchDofMap : Type := mkPatchDofMap {
  I_ : Z;
  J_ : option Z;
  K_ : option Z;
  pOffset : Z
}.

Definition SetPatchDofMap (ext : t) (p : Z) : Res PatchDofMap :=
  kv ← GetPatchKnotVectors ext p;
  kv0 ← rd kv 0;
  let i_ := KnotVector.GetNCP kv0 - 2 in
  j_ ← (if bool_decide (2 <= Dimension ext)
        then kv1 ← rd kv 1; Ok (Some (KnotVector.GetNCP kv1 - 2))
        else Ok None);
  k_ ← (if bool_decide (Dimension ext = 3)
        then kv2 ← rd kv 2; Ok (Some (KnotVector.GetNCP kv2 - 2))
        else Ok None);
  po ← rd (p_spaceOffsets ext) p;
  Ok (mkPatchDofMap i_ j_ k_ po).

(** [edgevert[a] == patchvert[b] && edgevert[c] == patchvert[d]], read left
    to right. *)
Definition same_vertices (edgevert patchvert : list Z) (a b c d : Z) : Res bool :=
  x ← rd edgevert a;
  y ← rd patchvert b;
  if bool_decide (x = y) then
    x' ← rd edgevert c;
    y' ← rd patchvert d;
    Ok (bool_decide (x' = y'))
  else Ok false.

(** [CheckKVDirection(p, kvdir)] *)
Definition CheckKVDirection (ext : t) (p : Z) : Res (list Z) :=
  _ ← MFEM_VERIFY (bool_decide (1 < Dimension ext)) "1D not yet implemented.";
  let kvdir := replicate (Z.to_nat (Dimension ext)) 0 in
  let patchvert := Mesh.GetElementVertices (patchTopo ext) p in
  let '(edges, orient) := Mesh.GetElementEdges (patchTopo ext) p in
  kvdir ←
    for_loop 0 (zlen edges)
      (fun i kvdir =>
         e ← rd edges i;
         let edgevert := Mesh.GetEdgeVertices (patchTopo ext) e in
         (* First side *)
         c ← same_vertices edgevert patchvert 0 0 1 1;
         kvdir ← (if c then wr kvdir 0 1 else Ok kvdir);
         c ← same_vertices edgevert patchvert 0 1 1 0;
         kvdir ← (if c then wr kvdir 0 (-1) else Ok kvdir);
         (* Second side *)
         c ← same_vertices edgevert patchvert 0 1 1 2;
         kvdir ← (if c then wr kvdir 1 1 else Ok kvdir);
         c ← same_vertices edgevert patchvert 0 2 1 1;
         (if c then wr kvdir 1 (-1) else Ok kvdir))
      kvdir;
  kvdir ←
    (if bool_decide (Dimension ext = 3) then
       (* Third side *)
       for_loop 0 (zlen edges)
         (fun i kvdir =>
            e ← rd edges i;
            let edgevert := Mesh.GetEdgeVertices (patchTopo ext) e in
            c ← same_vertices edgevert patchvert 0 0 1 4;
            kvdir ← (if c then wr kvdir 2 1 else Ok kvdir);
            c ← same_vertices edgevert patchvert 0 4 1 0;
            (if c then wr kvdir 2 (-1) else Ok kvdir))
         kvdir
     else Ok kvdir);
  _ ← MFEM_VERIFY (forallb (fun x => negb (bool_decide (x = 0))) kvdir)
        "Could not find direction of knotvector.";
  Ok kvdir.

(** The edge slots [e[d]] that carry the knot vector of direction [d]. *)
Definition direction_edges (dim : Z) : list Z :=
  if bool_decide (dim = 2) then [0; 1]
  else if bool_decide (dim = 3) then [0; 3; 8]
  else 0 :: replicate (Z.to_nat (dim - 1)) 0.

(** One pass of the inner loop of [ConsistentKVSets()] over direction [d] of
    patch [p]: [Some false] is the early [return false]. The comprehensive
    knot vector is flipped in place before the comparison and flipped back
    after it. *)
Definition ConsistentKVSets_direction (eps : real_t) (ext : t) (edges kvdir e : list Z)
    (p d : Z) : Res (option bool * t) :=
  kd ← rd kvdir d;
  let flip := bool_decide (kd = -1) in
  (* Indices in unique and comprehensive sets of the KnotVector *)
  ed ← rd e d;
  iun ← rd edges ed;
  let icomp := Dimension ext * p + d in
  (* Check if KnotVectors are of equal order *)
  ku ← KnotVec ext iun;
  kc ← rd (knotVectorsCompr ext) icomp;
  let o1 := KnotVector.GetOrder ku in
  let o2 := KnotVector.GetOrder kc in
  let diffo := Z.abs (o1 - o2) in
  if negb (bool_decide (diffo = 0)) then Ok (Some false, ext)
  else
    (* Check if Knotvectors have the same knots *)
    kc ← (if flip then KnotVector.Flip kc else Ok kc);
    diff ← KnotVector.Difference eps ku kc;
    kc ← (if flip then KnotVector.Flip kc else Ok kc);
    kvc ← wr (knotVectorsCompr ext) icomp kc;
    let ext := set_knotVectorsCompr ext kvc in
    if bool_decide (0 < zlen diff) then Ok (Some false, ext) else Ok (None, ext).

(** [ConsistentKVSets()]; the extension is returned with the result because
    the comprehensive knot vectors are written while they are compared. *)
Definition ConsistentKVSets (eps : real_t) (ext : t) : Res (bool * t) :=
  _ ← MFEM_VERIFY (bool_decide (1 < Dimension ext)) "1D not yet implemented.";
  let e := direction_edges (Dimension ext) in
  '(r, ext) ←
    for_loop 0 (GetNP ext)
      (fun p '(r, ext) =>
         match r with
         | Some b => Ok (Some b, ext)
         | None =>
             let '(edges, orient) := Mesh.GetElementEdges (patchTopo ext) p in
             kvdir ← CheckKVDirection ext p;
             for_loop 0 (Dimension ext)
               (fun d '(r, ext) =>
                  match r with
                  | Some b => Ok (Some b, ext)
                  | None => ConsistentKVSets_direction eps ext edges kvdir e p d
                  end)
               (None, ext)
         end)
      (None, ext);
  Ok (match r with Some b => b | None => true end, ext).

(** [CreateComprehensiveKV()]. A freshly resized array of pointers holds
    [KnotVector.null] until it is assigned. *)
Definition CreateComprehensiveKV (eps : real_t) (ext : t) : Res t :=
  let dim := Dimension ext in
  if bool_decide (dim = 1) then
    (* 1D: comprehensive and unique KV are the same *)
    kvc ←
      for_loop 0 (GetNKV ext)
        (fun i kvc => k ← KnotVec ext i; wr kvc i k)
        (replicate (Z.to_nat (GetNKV ext)) KnotVector.null);
    Ok (set_knotVectorsCompr ext kvc)
  else
    let e := direction_edges dim in
    let kvc0 :=
      if bool_decide (dim = 2 \/ dim = 3)
      then replicate (Z.to_nat (GetNP ext * dim)) KnotVector.null
      else knotVectorsCompr ext in
    kvc ←
      for_loop 0 (GetNP ext)
        (fun p kvc =>
           kvdir ← CheckKVDirection ext p;
           let '(edges, orient) := Mesh.GetElementEdges (patchTopo ext) p in
           for_loop 0 dim
             (fun d kvc =>
                (* Indices in unique and comprehensive sets of the KnotVector *)
                ed ← rd e d;
                iun ← rd edges ed;
                let icomp := dim * p + d in
                k ← KnotVec ext iun;
                kd ← rd kvdir d;
                k ← (if bool_decide (kd = -1) then KnotVector.Flip k else Ok k);
                wr kvc icomp k)
             kvc)
        kvc0;
    let ext := set_knotVectorsCompr ext kvc in
    '(ok, ext) ← ConsistentKVSets eps ext;
    _ ← MFEM_VERIFY ok "Mismatch in KnotVectors";
    Ok ext.

(** [*(KnotVec(iun)) = kv] *)
Definition assign_KnotVec (ext : t) (iun : Z) (kv : KnotVector.t) : Res t :=
  k ← KnotInd ext iun;
  old ← rd (knotVectors ext) k;
  kvs ← wr (knotVectors ext) k (KnotVector.assign old kv);
  Ok (set_knotVectors ext kvs).

(** [UpdateUniqueKV()] *)
Definition UpdateUniqueKV (eps : real_t) (ext : t) : Res t :=
  let dim := Dimension ext in
  if bool_decide (dim = 1) then
    (* 1D: comprehensive and unique KV are the same *)
    for_loop 0 (GetNKV ext)
      (fun i ext => k ← rd (knotVectorsCompr ext) i; assign_KnotVec ext i k)
      ext
  else
    let e := direction_edges dim in
    ext ←
      for_loop 0 (GetNP ext)
        (fun p ext =>
           let '(edges, orient) := Mesh.GetElementEdges (patchTopo ext) p in
           kvdir ← CheckKVDirection ext p;
           for_loop 0 dim
             (fun d ext =>
                kd ← rd kvdir d;
                let flip := bool_decide (kd = -1) in
                (* Indices in unique and comprehensive sets of the KnotVector *)
                ed ← rd e d;
                iun ← rd edges ed;
                let icomp := dim * p + d in
                (* Check if difference in order *)
                ku ← KnotVec ext iun;
                kc ← rd (knotVectorsCompr ext) icomp;
                let diffo := Z.abs (KnotVector.GetOrder ku - KnotVector.GetOrder kc) in
                ext ←
                  (if negb (bool_decide (diffo = 0)) then
                     (* Update reduced set of knotvectors *)
                     ext ← assign_KnotVec ext iun kc;
                     (* Give correct direction to unique knotvector. *)
                     if flip then
                       ku ← KnotVec ext iun;
                       ku ← KnotVector.Flip ku;
                       assign_KnotVec ext iun ku
                     else Ok ext
                   else Ok ext);
                (* Check if difference between knots *)
                kc ← (if flip then KnotVector.Flip kc else Ok kc);
                ku ← KnotVec ext iun;
                diffknot ← KnotVector.Difference eps ku kc;
                kc ← (if flip then KnotVector.Flip kc else Ok kc);
                kvc ← wr (knotVectorsCompr ext) icomp kc;
                let ext := set_knotVectorsCompr ext kvc in
                if bool_decide (0 < zlen diffknot) then
                  (* Update reduced set of knotvectors *)
                  ext ← assign_KnotVec ext iun kc;
                  (* Give correct direction to unique knotvector. *)
                  if flip then
                    ku ← KnotVec ext iun;
                    ku ← KnotVector.Flip ku;
                    assign_KnotVec ext iun ku
                  else Ok ext
                else Ok ext)
             ext)
        ext;
    '(ok, ext) ← ConsistentKVSets eps ext;
    _ ← MFEM_VERIFY ok "Mismatch in KnotVectors";
    Ok ext.

(** *** Boundary element DOF tables *)

(** The patch-to-global map [p2g] after [SetBdrPatchDofMap(b, kv, okv)]: the
    knot vectors and orientations of the boundary patch, [nx()] and [ny()],
    and the index operators [p2g[i]] and [p2g(i, j)]. *)
Record BdrPatchDofMap : Type := mkBdrPatchDofMap {
  bkv : list KnotVector.t;
  okv : list Z;
  nx : Z;
  ny : Z;
  index1 : Z -> Res Z;
  index2 : Z -> Z -> Res Z
}.

Record BdrElementDofTable : Type := mkBdrElementDofTable {
  bel_dof_list : list Connection;
  bel_to_patch : list Z;
  bel_to_IJK : Array2D.t Z
}.

(** [Array<int>::Max()] *)
Definition Max (a : list Z) : Res Z :=
  match a with
  | [] => Err OutOfBounds
  | x :: a' => Ok (foldl Z.max x a')
  end.

Section BdrElementDofTable.

(** The index operators of [NURBSPatchMap], the orientation-aware
    [KnotVec(edge, oedge, okv)] and [DofMap(dof)] are inline members of the
    header, which is not among the sources; they are parameters. *)
Variable SetBdrPatchDofMap : t -> Z -> Res BdrPatchDofMap.
Variable DofMap : t -> Z -> Res Z.

(** [add_dofs] and [s] of [Generate2DBdrElementDofTable()] *)
Definition bdr_flags_2D (ext : t) (b : Z) (ord0 : Z) : Res (bool * Z) :=
  match mode ext with
  | H_DIV =>
      let fn := Mesh.GetBdrElementFaceIndex (patchTopo ext) b in
      mx ← Max (mOrders ext);
      let add_dofs := if bool_decide (ord0 = mx) then false else true in
      let s := if bool_decide (fn = 0) then -1 else 1 in
      let s := if bool_decide (fn = 2) then -1 else s in
      Ok (add_dofs, s)
  | H_CURL =>
      mx ← Max (mOrders ext);
      Ok (if bool_decide (ord0 = mx) then false else true, 1)
  | H_1 => Ok (true, 1)
  end.

(** [Generate2DBdrElementDofTable()] *)
Definition Generate2DBdrElementDofTable (ext : t) : Res BdrElementDofTable :=
  let n := NumOfActiveBdrElems ext in
  '(_, _, lst, b2p, ijk) ←
    for_loop 0 (GetNBP ext)
      (fun b '(gbe, lbe, lst, b2p, ijk) =>
         p2g ← SetBdrPatchDofMap ext b;
         kv0 ← rd (bkv p2g) 0;
         okv0 ← rd (okv p2g) 0;
         let nx := nx p2g in
         (* Load dofs *)
         let nks0 := KnotVector.GetNKS kv0 in
         let ord0 := KnotVector.GetOrder kv0 in
         '(add_dofs, s) ← bdr_flags_2D ext b ord0;
         for_loop 0 nks0
           (fun i '(gbe, lbe, lst, b2p, ijk) =>
              el ← KnotVector.isElement kv0 i;
              if el then
                act ← rd (activeBdrElem ext) gbe;
                '(lbe, lst, b2p, ijk) ←
                  (if (act : bool) then
                     lst ←
                       (if (add_dofs : bool) then
                          for_loop 0 (ord0 + 1)
                            (fun ii lst =>
                               g ← index1 p2g (if bool_decide (0 <= okv0)
                                               then i + ii else nx - i - ii);
                               dof ← DofMap ext g;
                               let conn_to := if bool_decide (s = -1) then -1 - dof else dof in
                               Ok (lst ++ [mkConnection lbe conn_to]))
                            lst
                        else Ok lst);
                     b2p ← wr b2p lbe b;
                     ijk ← Array2D.set ijk lbe 0
                             (if bool_decide (0 <= okv0) then i else -1 - i);
                     Ok (lbe + 1, lst, b2p, ijk)
                   else Ok (lbe, lst, b2p, ijk));
                Ok (gbe + 1, lbe, lst, b2p, ijk)
              else Ok (gbe, lbe, lst, b2p, ijk))
           (gbe, lbe, lst, b2p, ijk))
      (0, 0, [], replicate (Z.to_nat n) 0, Array2D.create n 1 0);
  (* We must NOT sort bel_dof_list in this case. *)
  Ok (mkBdrElementDofTable lst b2p ijk).

(** [add_dofs] and [s] of [Generate3DBdrElementDofTable()] *)
Definition bdr_flags_3D (ext : t) (b : Z) (ord0 ord1 : Z) : Res (bool * Z) :=
  match mode ext with
  | H_DIV =>
      let fn := Mesh.GetBdrElementFaceIndex (patchTopo ext) b in
      let add_dofs := if negb (bool_decide (ord0 = ord1)) then false else true in
      let s := if bool_decide (fn = 4) then -1 else 1 in
      let s := if bool_decide (fn = 1) then -1 else s in
      let s := if bool_decide (fn = 0) then -1 else s in
      Ok (add_dofs, s)
  | H_CURL => Ok (if bool_decide (ord0 = ord1) then false else true, 1)
  | H_1 => Ok (true, 1)
  end.

(** [Generate3DBdrElementDofTable()] *)
Definition Generate3DBdrElementDofTable (ext : t) : Res BdrElementDofTable :=
  let n := NumOfActiveBdrElems ext in
  '(_, _, lst, b2p, ijk) ←
    for_loop 0 (GetNBP ext)
      (fun b '(gbe, lbe, lst, b2p, ijk) =>
         p2g ← SetBdrPatchDofMap ext b;
         kv0 ← rd (bkv p2g) 0;
         kv1 ← rd (bkv p2g) 1;
         okv0 ← rd (okv p2g) 0;
         okv1 ← rd (okv p2g) 1;
         let nx := nx p2g in
         let ny := ny p2g in
         (* Load dofs *)
         let nks0 := KnotVector.GetNKS kv0 in
         let ord0 := KnotVector.GetOrder kv0 in
         let nks1 := KnotVector.GetNKS kv1 in
         let ord1 := KnotVector.GetOrder kv1 in
         (* Check if dofs are actually defined on boundary *)
         '(add_dofs, s) ← bdr_flags_3D ext b ord0 ord1;
         for_loop 0 nks1
           (fun j st =>
              elj ← KnotVector.isElement kv1 j;
              if elj then
                for_loop 0 nks0
                  (fun i '(gbe, lbe, lst, b2p, ijk) =>
                     eli ← KnotVector.isElement kv0 i;
                     if eli then
                       act ← rd (activeBdrElem ext) gbe;
                       '(lbe, lst, b2p, ijk) ←
                         (if (act : bool) then
                            lst ←
                              (if (add_dofs : bool) then
                                 for_loop 0 (ord1 + 1)
                                   (fun jj lst =>
                                      let jj_ := if bool_decide (0 <= okv1)
                                                 then j + jj else ny - j - jj in
                                      for_loop 0 (ord0 + 1)
                                        (fun ii lst =>
                                           let ii_ := if bool_decide (0 <= okv0)
                                                      then i + ii else nx - i - ii in
                                           g ← index2 p2g ii_ jj_;
                                           dof ← DofMap ext g;
                                           let conn_to :=
                                             if bool_decide (s = -1) then -1 - dof else dof in
                                           Ok (lst ++ [mkConnection lbe conn_to]))
                                        lst)
                                   lst
                               else Ok lst);
                            b2p ← wr b2p lbe b;
                            ijk ← Array2D.set ijk lbe 0
                                    (if bool_decide (0 <= okv0) then i else -1 - i);
                            ijk ← Array2D.set ijk lbe 1
                                    (if bool_decide (0 <= okv1) then j else -1 - j);
                            Ok (lbe + 1, lst, b2p, ijk)
                          else Ok (lbe, lst, b2p, ijk));
                       Ok (gbe + 1, lbe, lst, b2p, ijk)
                     else Ok (gbe, lbe, lst, b2p, ijk))
                  st
              else Ok st)
           (gbe, lbe, lst, b2p, ijk))
      (0, 0, [], replicate (Z.to_nat n) 0, Array2D.create n 2 0);
  (* We must NOT sort bel_dof_list in this case. *)
  Ok (mkBdrElementDofTable lst b2p ijk).

End BdrElementDofTable.

End NURBSExtension.

(** ** The boundary-table claim, per connection *)

Section BdrClaims.

Variable SetBdrPatchDofMap : NURBSExtension.t -> Z -> Res NURBSExtension.BdrPatchDofMap.
Variable DofMap : NURBSExtension.t -> Z -> Res Z.

(** The face indices for which the H(div) branch sets [s = -1]. *)
Definition sign_flipped_2D (ext : NURBSExtension.t) (b : Z) : bool :=
  match NURBSExtension.mode ext with
  | H_DIV =>
      let fn := Mesh.GetBdrElementFaceIndex (NURBSExtension.patchTopo ext) b in
      bool_decide (fn = 0 \/ fn = 2)
  | _ => false
  end.

Definition sign_flipped_3D (ext : NURBSExtension.t) (b : Z) : bool :=
  match NURBSExtension.mode ext with
  | H_DIV =>
      let fn := Mesh.GetBdrElementFaceIndex (NURBSExtension.patchTopo ext) b in
      bool_decide (fn = 0 \/ fn = 1 \/ fn = 4)
  | _ => false
  end.

(** Connection [c] is a DOF of boundary patch [b] that the 2D table may hold. *)
Definition included_2D (ext : NURBSExtension.t) (b : Z) (c : Connection) : Prop :=
  exists p2g kv0 idx g dof,
    SetBdrPatchDofMap ext b = Ok p2g /\
    rd (NURBSExtension.bkv p2g) 0 = Ok kv0 /\
    NURBSExtension.index1 p2g idx = Ok g /\
    DofMap ext g = Ok dof /\
    (NURBSExtension.mode ext <> H_1 ->
       exists mx, NURBSExtension.Max (NURBSExtension.mOrders ext) = Ok mx /\
                  KnotVector.Order kv0 <> mx) /\
    to c = if sign_flipped_2D ext b then -1 - dof else dof.

Definition included_3D (ext : NURBSExtension.t) (b : Z) (c : Connection) : Prop :=
  exists p2g kv0 kv1 i j g dof,
    SetBdrPatchDofMap ext b = Ok p2g /\
    rd (NURBSExtension.bkv p2g) 0 = Ok kv0 /\
    rd (NURBSExtension.bkv p2g) 1 = Ok kv1 /\
    NURBSExtension.index2 p2g i j = Ok g /\
    DofMap ext g = Ok dof /\
    match NURBSExtension.mode ext with
    | H_DIV => KnotVector.Order kv0 = KnotVector.Order kv1
    | H_CURL => KnotVector.Order kv0 <> KnotVector.Order kv1
    | H_1 => True
    end /\
    to c = if sign_flipped_3D ext b then -1 - dof else dof.

(** Every connection of the table belongs to a boundary patch, recorded in
    [bel_to_patch], for which [included] holds. *)
Definition table_entries (ext : NURBSExtension.t)
    (included : NURBSExtension.t -> Z -> Connection -> Prop)
    (tbl : NURBSExtension.BdrElementDofTable) : Prop :=
  forall c, c ∈ NURBSExtension.bel_dof_list tbl ->
    exists b, 0 <= b < NURBSExtension.GetNBP ext /\
              rd (NURBSExtension.bel_to_patch tbl) (from c) = Ok b /\
              included ext b c.

(** The claim as the specification states it for H(div): no connection comes
    from a face whose order equals the maximal order. *)
Definition omits_faces_of_maximal_order (ext : NURBSExtension.t)
    (tbl : NURBSExtension.BdrElementDofTable) : Prop :=
  NURBSExtension.mode ext = H_DIV ->
  forall c b p2g kv0 mx,
    c ∈ NURBSExtension.bel_dof_list tbl ->
    rd (NURBSExtension.bel_to_patch tbl) (from c) = Ok b ->
    SetBdrPatchDofMap ext b = Ok p2g ->
    rd (NURBSExtension.bkv p2g) 0 = Ok kv0 ->
    NURBSExtension.Max (NURBSExtension.mOrders ext) = Ok mx ->
    KnotVector.Order kv0 <> mx.

End BdrClaims.

(** ** Invariants of the boundary-table loops *)

Section BdrInvariants.

Variable ext : NURBSExtension.t.
Variable included : NURBSExtension.t -> Z -> Connection -> Prop.

(** The invariant of the loops: every connection listed so far has a local
    boundary element below [lbe] whose patch is recorded and passes it. *)
Definition listed (lbe : Z) (lst : list Connection) (b2p : list Z) : Prop :=
  0 <= lbe /\
  forall c, c ∈ lst ->
    0 <= from c < lbe /\
    exists b, 0 <= b < NURBSExtension.GetNBP ext /\ rd b2p (from c) = Ok b /\
              included ext b c.

(** The same while the DOFs of element [lbe] of patch [b] are appended. *)
Definition listing (b lbe : Z) (lst : list Connection) (b2p : list Z) : Prop :=
  0 <= lbe /\
  forall c, c ∈ lst ->
    (0 <= from c < lbe /\
     exists b', 0 <= b' < NURBSExtension.GetNBP ext /\ rd b2p (from c) = Ok b' /\
                included ext b' c) \/
    (from c = lbe /\ included ext b c).

End BdrInvariants.

(** ** Concrete extensions used in the examples *)

Definition no_edges : Z -> list Z * list Z := fun _ => ([], []).

(** One hexahedral patch seen through a single boundary face, face index 0,
    whose two knot vectors have order 1, the maximal order. *)
Definition topo_face0 : Mesh.t :=
  Mesh.mk 3 8 12 6 1 1 (fun _ => []) no_edges (fun _ => []) no_edges (fun _ => 0).

Definition ext_face (m : Mode) : NURBSExtension.t :=
  NURBSExtension.mk m topo_face0 [] [kv_lin1] [] [1] 1 1 [true]
    [] [] [] [] [] [] [] [] 0 0.

Definition p2g_face (ext : NURBSExtension.t) (b : Z) : Res NURBSExtension.BdrPatchDofMap :=
  Ok (NURBSExtension.mkBdrPatchDofMap [kv_lin1; kv_lin1] [1; 1] 1 1
        (fun i => Ok i) (fun i j => Ok (i + 2 * j))).

Definition DofMap_id (ext : NURBSExtension.t) (dof : Z) : Res Z := Ok dof.

(** Order 2 on [0, 1]: one element, three control points. *)
Definition kv_quad1 : KnotVector.t :=
  kv_of 2 1 [qc 0 1; qc 0 1; qc 0 1; qc 1 1; qc 1 1; qc 1 1].

(** Order 2 on [0, 1/3, 2/3, 1]: three elements, five control points. *)
Definition kv_quad3 : KnotVector.t :=
  kv_of 2 3 [qc 0 1; qc 0 1; qc 0 1; qc 1 3; qc 2 3; qc 1 1; qc 1 1; qc 1 1].

(** A 1D topology of two segments on three vertices; in 1D the mesh has
    neither edges nor faces, and [edge_to_ukv] maps patch [p] to its knot
    vector. *)
Definition topo_two_segments : Mesh.t :=
  Mesh.mk 1 3 0 0 2 2 (fun p => [p; p + 1]) no_edges (fun _ => []) no_edges (fun _ => 0).

(** Two 1D patches with different knot vectors, before the comprehensive set
    and the offsets are generated. *)
Definition ext_two_segments : NURBSExtension.t :=
  NURBSExtension.mk H_1 topo_two_segments [0; 1] [kv_quad1; kv_quad3] [] [2; 2] 2 2
    [true; true] [] [] [] [] [] [] [] [] 0 0.

(** One quadrilateral patch: vertices 0..3, edges (0,1), (1,2), (3,2), (0,3),
    the last two traversed backwards by the patch. *)
Definition topo_quad : Mesh.t :=
  Mesh.mk 2 4 4 0 1 4
    (fun _ => [0; 1; 2; 3])
    (fun _ => ([0; 1; 2; 3], [1; 1; -1; -1]))
    (fun e => if bool_decide (e = 0) then [0; 1]
              else if bool_decide (e = 1) then [1; 2]
              else if bool_decide (e = 2) then [3; 2]
              else [0; 3])
    no_edges (fun b => b).

(** The unique knot vectors have their interior knot at 1/2; the
    comprehensive knot vector of direction 0 has it at 1/4. *)
Definition ext_quad_mismatch : NURBSExtension.t :=
  NURBSExtension.mk H_1 topo_quad [0; 1; 0; 1] [kv_lin2; kv_lin2] [kv_lin2'; kv_lin2]
    [1; 1] 2 4 [true; true; true; true] [] [] [] [] [] [] [] [] 0 0.

(** ** The store: control-point buffers and knot vectors behind pointers *)

Module Store.
Record t : Type := mk {
  bufs : gmap positive (list real_t);
  kvs : gmap positive KnotVector.t
}.
Definition empty : t := mk ∅ ∅.
End Store.

(** A computation on the store. The store is returned with a failure too: it
    is the state in which the program stopped. *)
Definition M (A : Type) : Type := Store.t -> Res A * Store.t.

Definition mret {A} (a : A) : M A := fun h => (Ok a, h).

Definition mbind {A B} (m : M A) (k : A -> M B) : M B :=
  fun h => match m h with
           | (Ok a, h') => k a h'
           | (Err e, h') => (Err e, h')
           end.

Definition lift {A} (r : Res A) : M A := fun h => (r, h).

Definition mfail {A} (e : failure) : M A := fun h => (Err e, h).

Declare Scope m_scope.
Delimit Scope m_scope with M.
Notation "x ← y ; z" := (mbind y (fun x => z))
  (at level 20, y at level 100, z at level 200, only parsing) : m_scope.
Notation "' x ← y ; z" := (mbind y (fun x => z))
  (at level 20, x pattern, y at level 100, z at level 200, only parsing) : m_scope.

Fixpoint for_iterM {St} (n : nat) (i : Z) (body : Z -> St -> M St) (s : St) : M St :=
  match n with
  | O => mret s
  | S n' => mbind (body i s) (fun s' => for_iterM n' (i + 1) body s')
  end.

Definition for_loopM {St} (lo hi : Z) (body : Z -> St -> M St) (s : St) : M St :=
  for_iterM (Z.to_nat (hi - lo)) lo body s.

Fixpoint for_iter_downM {St} (n : nat) (i : Z) (body : Z -> St -> M St) (s : St) : M St :=
  match n with
  | O => mret s
  | S n' => mbind (body i s) (fun s' => for_iter_downM n' (i - 1) body s')
  end.

Definition for_downM {St} (hi lo : Z) (body : Z -> St -> M St) (s : St) : M St :=
  for_iter_downM (Z.to_nat (hi - lo + 1)) hi body s.

Fixpoint while_loopM {St} (fuel : nat) (cond : St -> M bool) (body : St -> M St)
    (s : St) : M St :=
  match fuel with
  | O => mfail OutOfFuel
  | S f =>
      mbind (cond s) (fun c : bool =>
        if c then mbind (body s) (fun s' => while_loopM f cond body s') else mret s)
  end.

(** [new real_t[n]]: the content is indeterminate; it is the debug build's
    filler -999.99 here. *)
Definition filler : real_t := Q2Qc (-99999 # 100).

Definition new_buf (n : Z) : M positive :=
  fun h =>
    if bool_decide (0 <= n) then
      let l := fresh (dom (Store.bufs h)) in
      (Ok l, Store.mk (<[l := replicate (Z.to_nat n) filler]> (Store.bufs h)) (Store.kvs h))
    else (Err OutOfBounds, h).

(** [delete [] data] *)
Definition delete_buf (l : positive) : M unit :=
  fun h =>
    match Store.bufs h !! l with
    | Some _ => (Ok tt, Store.mk (delete l (Store.bufs h)) (Store.kvs h))
    | None => (Err OutOfBounds, h)
    end.

Definition buf_rd (l : positive) (i : Z) : M real_t :=
  fun h =>
    match Store.bufs h !! l with
    | Some b => (rd b i, h)
    | None => (Err OutOfBounds, h)
    end.

Definition buf_wr (l : positive) (i : Z) (x : real_t) : M unit :=
  fun h =>
    match Store.bufs h !! l with
    | Some b =>
        match wr b i x with
        | Ok b' => (Ok tt, Store.mk (<[l := b']> (Store.bufs h)) (Store.kvs h))
        | Err e => (Err e, h)
        end
    | None => (Err OutOfBounds, h)
    end.

(** [new KnotVector(...)] *)
Definition new_kv (kv : KnotVector.t) : M positive :=
  fun h =>
    let l := fresh (dom (Store.kvs h)) in
    (Ok l, Store.mk (Store.bufs h) (<[l := kv]> (Store.kvs h))).

(** [delete kv[i]] *)
Definition delete_kv (l : positive) : M unit :=
  fun h =>
    match Store.kvs h !! l with
    | Some _ => (Ok tt, Store.mk (Store.bufs h) (delete l (Store.kvs h)))
    | None => (Err OutOfBounds, h)
    end.

(** [*kv[i]], read *)
Definition kv_load (l : positive) : M KnotVector.t :=
  fun h =>
    match Store.kvs h !! l with
    | Some kv => (Ok kv, h)
    | None => (Err OutOfBounds, h)
    end.

(** [*kv[i]], written *)
Definition kv_store (l : positive) (kv : KnotVector.t) : M unit :=
  fun h =>
    match Store.kvs h !! l with
    | Some _ => (Ok tt, Store.mk (Store.bufs h) (<[l := kv]> (Store.kvs h)))
    | None => (Err OutOfBounds, h)
    end.

(** [kv[i]] for a knot vector behind a pointer *)
Definition kv_at (l : positive) (i : Z) : M real_t :=
  mbind (kv_load l) (fun kv => lift (KnotVector.at_ kv i)).

(** [kv[i] = x] for a knot vector behind a pointer *)
Definition kv_set (l : positive) (i : Z) (x : real_t) : M unit :=
  mbind (kv_load l) (fun kv =>
  mbind (lift (KnotVector.set kv i x)) (fun kv' => kv_store l kv')).

(** [kv.GetElements()] for a knot vector behind a pointer *)
Definition kv_GetElements (l : positive) : M unit :=
  mbind (kv_load l) (fun kv =>
  mbind (lift (KnotVector.GetElements kv)) (fun kv' => kv_store l kv')).

(** [Vector::Norml2() >= tol], decided on the squares: the norm is the
    non-negative root of the sum of the squared entries. *)
Definition sum_squares (v : list real_t) : real_t :=
  foldr (fun x acc => (x * x + acc)%Qc) (Q2Qc 0) v.

Definition Norml2_ge (v : list real_t) (tol : real_t) : bool :=
  Qc_leb tol (Q2Qc 0) || Qc_leb (tol * tol)%Qc (sum_squares v).

(** ** Degree elevation: the coefficients *)

(** An [int] used as a [real_t]. *)
Definition of_int (z : Z) : real_t := Q2Qc (inject_Z z).

(** The binomial coefficients up to [ph]. *)
Definition binomials (ph : Z) : Res (Array2D.t Z) :=
  for_loop 0 (ph + 1)
    (fun i binom =>
       binom ← Array2D.set binom i i 1;
       binom ← Array2D.set binom i 0 1;
       for_loop 1 i
         (fun j binom =>
            x ← Array2D.get binom (i - 1) j;
            y ← Array2D.get binom (i - 1) (j - 1);
            Array2D.set binom i j (x + y))
         binom)
    (Array2D.create (ph + 1) (ph + 1) 0).

(** The Bezier degree elevation coefficients. *)
Definition elevation_coefficients (p t_ : Z) : Res (Array2D.t real_t) :=
  let ph := p + t_ in
  let ph2 := ph `quot` 2 in
  binom ← binomials ph;
  bezalfs ← Array2D.set (Array2D.create (p + t_ + 1) (p + 1) (Q2Qc 0)) 0 0 (Q2Qc 1);
  bezalfs ← Array2D.set bezalfs ph p (Q2Qc 1);
  bezalfs ←
    for_loop 1 (ph2 + 1)
      (fun i bezalfs =>
         bi ← Array2D.get binom ph i;
         let inv := (1 / of_int bi)%Qc in
         let mpi := Z.min p i in
         for_loop (Z.max 0 (i - t_)) (mpi + 1)
           (fun j bezalfs =>
              bp ← Array2D.get binom p j;
              bt ← Array2D.get binom t_ (i - j);
              Array2D.set bezalfs i j (inv * of_int bp * of_int bt)%Qc)
           bezalfs)
      bezalfs;
  for_loop (ph2 + 1) ph
    (fun i bezalfs =>
       let mpi := Z.min p i in
       for_loop (Z.max 0 (i - t_)) (mpi + 1)
         (fun j bezalfs =>
            x ← Array2D.get bezalfs (ph - i) (p - j);
            Array2D.set bezalfs i j x)
         bezalfs)
    bezalfs.

(** ** NURBSPatch *)

Module NURBSPatch.

Local Open Scope m_scope.

(** The members of the class. [data] and the entries of [kv] are pointers
    into the store. *)
Record t : Type := mk {
  ni : Z;
  nj : Z;
  nk : Z;
  Dim : Z;
  data : option positive;
  kv : list positive;
  nd : Z;
  ls : Z;
  sd : Z
}.

Definition set_loop (p : t) (sd' nd' ls' : Z) : t :=
  mk (ni p) (nj p) (nk p) (Dim p) (data p) (kv p) nd' ls' sd'.

(** [SetLoopDirection(dir)]: the stride triple and the slice length. *)
Definition SetLoopDirection (p : t) (dir : Z) : M (Z * t) :=
  if bool_decide (nj p = -1) then (* 1D case *)
    if bool_decide (dir = 0) then mret (Dim p, set_loop p (Dim p) (ni p) (Dim p))
    else mfail (Abort "NURBSPatch::SetLoopDirection : Direction error in 1D patch")
  else if bool_decide (nk p = -1) then (* 2D case *)
    if bool_decide (dir = 0)
    then mret (nj p * Dim p, set_loop p (Dim p) (ni p) (nj p * Dim p))
    else if bool_decide (dir = 1)
    then mret (ni p * Dim p, set_loop p (ni p * Dim p) (nj p) (ni p * Dim p))
    else mfail (Abort "NURBSPatch::SetLoopDirection : Direction error in 2D patch")
  else (* 3D case *)
    if bool_decide (dir = 0)
    then mret (nj p * nk p * Dim p, set_loop p (Dim p) (ni p) (nj p * nk p * Dim p))
    else if bool_decide (dir = 1)
    then mret (ni p * nk p * Dim p, set_loop p (ni p * Dim p) (nj p) (ni p * nk p * Dim p))
    else if bool_decide (dir = 2)
    then mret (ni p * nj p * Dim p,
               set_loop p (ni p * nj p * Dim p) (nk p) (ni p * nj p * Dim p))
    else mfail (Abort "NURBSPatch::SetLoopDirection : Direction error in 3D patch").

(** [slice(i, j)] is an inline member of the header:
    [data[j%sd + sd*(i + (j/sd)*nd)]]. The model checks the address against
    the buffer, as a release build would fault. *)
Definition slice_index (p : t) (i j : Z) : Z :=
  j `rem` sd p + sd p * (i + j `quot` sd p * nd p).

Definition slice (p : t) (i j : Z) : M real_t :=
  if bool_decide (sd p = 0) then mfail OutOfBounds
  else match data p with
       | Some l => buf_rd l (slice_index p i j)
       | None => mfail OutOfBounds
       end.

Definition set_slice (p : t) (i j : Z) (x : real_t) : M unit :=
  if bool_decide (sd p = 0) then mfail OutOfBounds
  else match data p with
       | Some l => buf_wr l (slice_index p i j) x
       | None => mfail OutOfBounds
       end.

(** [init(dim)], on an object whose [kv] array is set. *)
Definition init (kvs : list positive) (dim : Z) : M t :=
  match kvs with
  | [l0] =>
      k0 ← kv_load l0;
      let ni := KnotVector.GetNCP k0 in
      d ← new_buf (ni * dim);
      mret (mk ni (-1) (-1) dim (Some d) kvs (-1) 0 (-1))
  | [l0; l1] =>
      k0 ← kv_load l0;
      k1 ← kv_load l1;
      let ni := KnotVector.GetNCP k0 in
      let nj := KnotVector.GetNCP k1 in
      d ← new_buf (ni * nj * dim);
      mret (mk ni nj (-1) dim (Some d) kvs (-1) 0 (-1))
  | [l0; l1; l2] =>
      k0 ← kv_load l0;
      k1 ← kv_load l1;
      k2 ← kv_load l2;
      let ni := KnotVector.GetNCP k0 in
      let nj := KnotVector.GetNCP k1 in
      let nk := KnotVector.GetNCP k2 in
      d ← new_buf (ni * nj * nk * dim);
      mret (mk ni nj nk dim (Some d) kvs (-1) 0 (-1))
  | _ => mfail (Abort "NURBSPatch::init : Wrong dimension of knotvectors!")
  end.

(** [new KnotVector] from an existing knot vector: the copy constructor
    assigns to a fresh object. *)
Definition copy_kv (l : positive) : M positive :=
  k ← kv_load l;
  new_kv (KnotVector.assign KnotVector.null k).

(** [NURBSPatch(NURBSPatch *parent, int dir, int Order, int NCP)] *)
Definition create_from (parent : t) (dir order ncp : Z) : M t :=
  kvs ←
    for_loopM 0 (zlen (kv parent))
      (fun i kvs =>
         if negb (bool_decide (i = dir)) then
           l ← lift (rd (kv parent) i);
           l' ← copy_kv l;
           mret (kvs ++ [l'])
         else
           l' ← new_kv (KnotVector.create order ncp);
           mret (kvs ++ [l']))
      [];
  init kvs (Dim parent).

(** [NURBSPatch(Array<const KnotVector *> &kvs, int dim)] *)
Definition create_of (kvs : list positive) (dim : Z) : M t :=
  kvs' ←
    for_loopM 0 (zlen kvs)
      (fun i acc =>
         l ← lift (rd kvs i);
         l' ← copy_kv l;
         mret (acc ++ [l']))
      [];
  init kvs' dim.

(** The two deletions that [swap] and the destructor share. *)
Definition release (p : t) : M unit :=
  _ ← (match data p with
       | Some l => delete_buf l
       | None => mret tt
       end);
  for_loopM 0 (zlen (kv p))
    (fun i _ => l ← lift (rd (kv p) i); delete_kv l)
    tt.

(** [~NURBSPatch()] *)
Definition destroy (p : t) : M unit := release p.

(** [swap(np)]: the old buffer and knot vectors are deleted, the pointers and
    sizes of [np] are taken over, and the emptied [np] is deleted. *)
Definition swap (self np : t) : M t :=
  _ ← release self;
  mret (mk (ni np) (nj np) (nk np) (Dim np) (data np) (kv np) (nd self) (ls self) (sd self)).

(** One pass of the loop over [t] in [KnotRemove], when no earlier pass has
    failed. The result is [Some t] when the pass fails the tolerance test. *)
Record removal_state : Type := mkRemoval {
  failed : option Z;
  first : Z;
  last : Z;
  i_ : Z;
  j_ : Z;
  temp : Array2D.t real_t
}.

Definition KnotRemove_pass (oldp tmpp : t) (oldkv : positive) (p size : Z)
    (knot tol : real_t) (t_ : Z) (st : removal_state) : M removal_state :=
  let first := first st in
  let last := last st in
  let off := first - 1 in (* Difference in index between temp and P. *)
  temp ←
    for_loopM 0 size
      (fun ll temp =>
         x ← slice oldp off ll;
         temp ← lift (Array2D.set temp 0 ll x);
         y ← slice oldp (last + 1) ll;
         lift (Array2D.set temp (last + 1 - off) ll y))
      (temp st);
  '(i, j, ii, jj, temp) ←
    while_loopM (S (Z.to_nat (j_ st - i_ st)))
      (fun '(i, j, ii, jj, temp) => mret (bool_decide (t_ < j - i)))
      (fun '(i, j, ii, jj, temp) =>
         (* Compute new control points for one removal step *)
         ki ← kv_at oldkv i;
         kip ← kv_at oldkv (i + p + 1);
         let a_i := ((knot - ki) / (kip - ki))%Qc in
         kj ← kv_at oldkv j;
         kjp ← kv_at oldkv (j + p + 1);
         let a_j := ((knot - kj) / (kjp - kj))%Qc in
         temp ←
           for_loopM 0 size
             (fun ll temp =>
                pi ← slice oldp i ll;
                tp ← lift (Array2D.get temp (ii - 1) ll);
                temp ← lift (Array2D.set temp ii ll
                               ((1 / a_i) * pi - ((1 / a_i) - 1) * tp)%Qc);
                pj ← slice oldp j ll;
                tn ← lift (Array2D.get temp (jj + 1) ll);
                lift (Array2D.set temp jj ll ((1 / (1 - a_j)) * (pj - (a_j * tn)))%Qc))
             temp;
         mret (i + 1, j - 1, ii + 1, jj - 1, temp))
      (i_ st, j_ st, 1, last - off, temp);
  (* Check whether knot is removable *)
  diff ←
    (if bool_decide (j - i < t_) then
       for_loopM 0 size
         (fun ll diff =>
            a ← lift (Array2D.get temp (ii - 1) ll);
            b ← lift (Array2D.get temp (jj + 1) ll);
            lift (wr diff ll (a - b)%Qc))
         (replicate (Z.to_nat size) filler)
     else
       ki ← kv_at oldkv i;
       kip ← kv_at oldkv (i + p + 1);
       let a_i := ((knot - ki) / (kip - ki))%Qc in
       for_loopM 0 size
         (fun ll diff =>
            pi ← slice oldp i ll;
            tn ← lift (Array2D.get temp (ii + 1) ll);
            tp ← lift (Array2D.get temp (ii - 1) ll);
            lift (wr diff ll (pi - (a_i * tn) - ((1 - a_i) * tp))%Qc))
         (replicate (Z.to_nat size) filler));
  if Norml2_ge diff tol then
    (* Removal failed. Return the number of successful removals. *)
    mret (mkRemoval (Some t_) first last i j temp)
  else
    (* Note that the new weights may not be positive. *)
    (* Save new control points *)
    '(i, j) ←
      while_loopM (S (Z.to_nat (last - first)))
        (fun '(i, j) => mret (bool_decide (t_ < j - i)))
        (fun '(i, j) =>
           _ ← for_loopM 0 size
                 (fun ll _ =>
                    x ← lift (Array2D.get temp (i - off) ll);
                    _ ← set_slice tmpp i ll x;
                    y ← lift (Array2D.get temp (j - off) ll);
                    set_slice tmpp j ll y)
                 tt;
           mret (i + 1, j - 1))
        (first, last);
    mret (mkRemoval None (first - 1) (last + 1) i j temp).

(** The scan of [KnotRemove] for the index of the last occurrence of the knot
    and its multiplicity. *)
Definition find_knot (oldkv : positive) (knot : real_t) : M (Z * Z) :=
  okv ← kv_load oldkv;
  for_loopM 0 (KnotVector.Size okv)
    (fun i '(id, multiplicity) =>
       x ← kv_at oldkv i;
       mret (if Qc_eqb x knot then (i, multiplicity + 1) else (id, multiplicity)))
    (-1, 0).

(** [KnotRemove(int dir, real_t knot, int ntimes, real_t tol)], Algorithm
    A5.8. The local patch [tmpp] is destroyed on both ways out. *)
Definition KnotRemove (self : t) (dir : Z) (knot : real_t) (ntimes : Z) (tol : real_t)
    : M (Z * t) :=
  _ ← (if bool_decide (zlen (kv self) <= dir \/ dir < 0)
       then mfail (Abort "NURBSPatch::KnotRemove : Invalid direction!")
       else mret tt);
  oldkv ← lift (rd (kv self) dir);
  (* Find the index of the last occurrence of the knot. *)
  '(id, multiplicity) ← find_knot oldkv knot;
  okv ← kv_load oldkv;
  _ ← lift (MFEM_VERIFY
              (bool_decide (0 < id) && bool_decide (id < KnotVector.Size okv - 1)
               && bool_decide (ntimes <= multiplicity))
              "Only interior knots of sufficient multiplicity may be removed.");
  let p := KnotVector.GetOrder okv in
  tmpp ← create_from self dir p (KnotVector.GetNCP okv);
  '(size, self) ← SetLoopDirection self dir;
  '(size', tmpp) ← SetLoopDirection tmpp dir;
  _ ← (if negb (bool_decide (size = size'))
       then mfail (Abort "NURBSPatch::KnotRemove : Size mismatch!")
       else mret tt);
  (* Copy old data *)
  _ ← for_loopM 0 (nd self)
        (fun k _ =>
           for_loopM 0 size
             (fun ll _ => x ← slice self k ll; set_slice tmpp k ll x)
             tt)
        tt;
  let r := id in
  let s := multiplicity in
  let last := r - s in
  let first := r - p in
  st ←
    for_loopM 0 ntimes
      (fun t_ st =>
         match failed st with
         | Some _ => mret st
         | None => KnotRemove_pass self tmpp oldkv p size knot tol t_ st
         end)
      (mkRemoval None first last first last
         (Array2D.create (last + ntimes + 1) size filler));
  match failed st with
  | Some t_ =>
      _ ← destroy tmpp;
      mret (t_, self)
  | None =>
      let fout := (2 * r - s - p) `quot` 2 in (* First control point out *)
      '(i, j) ←
        for_loopM 1 ntimes
          (fun k '(i, j) =>
             mret (if bool_decide (k `rem` 2 = 1) then (i + 1, j) else (i, j - 1)))
          (fout, fout);
      newp ← create_from self dir p (KnotVector.GetNCP okv - ntimes);
      '(size'', newp) ← SetLoopDirection newp dir;
      _ ← (if negb (bool_decide (size = size''))
           then mfail (Abort "NURBSPatch::KnotRemove : Size mismatch!")
           else mret tt);
      _ ← for_loopM 0 fout
            (fun k _ =>
               for_loopM 0 size
                 (fun ll _ => x ← slice self k ll; set_slice newp k ll x) (* Copy old data *)
                 tt)
            tt;
      _ ← for_loopM (i + 1) (nd self)
            (fun k j =>
               _ ← for_loopM 0 size
                     (fun ll _ => x ← slice tmpp k ll; set_slice newp j ll x) (* Shift *)
                     tt;
               mret (j + 1))
            j;
      newkv ← lift (rd (kv newp) dir);
      nkv ← kv_load newkv;
      _ ← lift (MFEM_VERIFY
                  (bool_decide (KnotVector.Size nkv = KnotVector.Size okv - ntimes)) "");
      _ ← kv_store newkv
            (KnotVector.mk (KnotVector.knot nkv) (KnotVector.Order nkv)
               (KnotVector.NumOfControlPoints nkv) (KnotVector.NumOfElements nkv)
               (KnotVector.coarse okv) (KnotVector.spacing okv));
      _ ← for_loopM 0 (id - ntimes + 1)
            (fun k _ => x ← kv_at oldkv k; kv_set newkv k x)
            tt;
      _ ← for_loopM (id + 1) (KnotVector.Size okv)
            (fun k _ => x ← kv_at oldkv k; kv_set newkv (k - ntimes) x)
            tt;
      _ ← kv_GetElements newkv;
      self ← swap self newp;
      _ ← destroy tmpp;
      mret (ntimes, self)
  end.

(** [FlipDirection(int dir)]: the rows of the patch's own buffer are
    exchanged and the knot vector is flipped where it is. *)
Definition FlipDirection (self : t) (dir : Z) : M t :=
  '(size, self) ← SetLoopDirection self dir;
  _ ← for_loopM 0 (nd self `quot` 2)
        (fun id _ =>
           for_loopM 0 size
             (fun i _ =>
                a ← slice self id i;
                b ← slice self (nd self - 1 - id) i;
                _ ← set_slice self id i b;
                set_slice self (nd self - 1 - id) i a)
             tt)
        tt;
  l ← lift (rd (kv self) dir);
  k ← kv_load l;
  k' ← lift (KnotVector.Flip k);
  _ ← kv_store l k';
  mret self.

(** [KnotInsert(int dir, const Vector &knot)], Algorithm A5.5. *)
Definition KnotInsert (self : t) (dir : Z) (knot : list real_t) : M t :=
  if bool_decide (zlen knot = 0) then mret self
  else
    _ ← (if bool_decide (zlen (kv self) <= dir \/ dir < 0)
         then mfail (Abort "NURBSPatch::KnotInsert : Invalid direction!")
         else mret tt);
    oldkv ← lift (rd (kv self) dir);
    okv ← kv_load oldkv;
    newp ← create_from self dir (KnotVector.GetOrder okv)
             (KnotVector.GetNCP okv + zlen knot);
    newkv ← lift (rd (kv newp) dir);
    nkv ← kv_load newkv;
    _ ← kv_store newkv
          (KnotVector.mk (KnotVector.knot nkv) (KnotVector.Order nkv)
             (KnotVector.NumOfControlPoints nkv) (KnotVector.NumOfElements nkv)
             (KnotVector.coarse nkv) (KnotVector.spacing okv));
    '(size, self) ← SetLoopDirection self dir;
    '(size', newp) ← SetLoopDirection newp dir;
    _ ← (if negb (bool_decide (size = size'))
         then mfail (Abort "NURBSPatch::KnotInsert : Size mismatch!")
         else mret tt);
    let rr := zlen knot - 1 in
    u0 ← lift (rd knot 0);
    a0 ← lift (KnotVector.findKnotSpan okv u0);
    ur ← lift (rd knot rr);
    b0 ← lift (KnotVector.findKnotSpan okv ur);
    let a := a0 - 1 in
    let b := b0 - 1 in
    let pl := KnotVector.GetOrder okv in
    let ml := KnotVector.GetNCP okv in
    _ ← for_loopM 0 (a + 1)
          (fun j _ => x ← kv_at oldkv j; kv_set newkv j x)
          tt;
    _ ← for_loopM (b + pl) (ml + pl + 1)
          (fun j _ => x ← kv_at oldkv j; kv_set newkv (j + rr + 1) x)
          tt;
    _ ← for_loopM 0 (a - pl + 1)
          (fun k _ =>
             for_loopM 0 size
               (fun ll _ => x ← slice self k ll; set_slice newp k ll x)
               tt)
          tt;
    _ ← for_loopM (b - 1) ml
          (fun k _ =>
             for_loopM 0 size
               (fun ll _ => x ← slice self k ll; set_slice newp (k + rr + 1) ll x)
               tt)
          tt;
    _ ← for_downM rr 0
          (fun j '(i, k) =>
             '(i, k) ←
               while_loopM (S (Z.to_nat (i - a)))
                 (fun '(i, k) =>
                    u ← lift (rd knot j);
                    x ← kv_at oldkv i;
                    mret (Qc_leb u x && bool_decide (a < i)))
                 (fun '(i, k) =>
                    x ← kv_at oldkv i;
                    _ ← kv_set newkv k x;
                    _ ← for_loopM 0 size
                          (fun ll _ =>
                             y ← slice self (i - pl - 1) ll;
                             set_slice newp (k - pl - 1) ll y)
                          tt;
                    mret (i - 1, k - 1))
                 (i, k);
             _ ← for_loopM 0 size
                   (fun ll _ => y ← slice newp (k - pl) ll; set_slice newp (k - pl - 1) ll y)
                   tt;
             _ ← for_loopM 1 (pl + 1)
                   (fun l _ =>
                      let ind := k - pl + l in
                      nk ← kv_at newkv (k + l);
                      u ← lift (rd knot j);
                      let alfa := (nk - u)%Qc in
                      if Qc_eqb (Qcabs alfa) (Q2Qc 0) then
                        for_loopM 0 size
                          (fun ll _ => y ← slice newp ind ll; set_slice newp (ind - 1) ll y)
                          tt
                      else
                        nk' ← kv_at newkv (k + l);
                        ok ← kv_at oldkv (i - pl + l);
                        let alfa := (alfa / (nk' - ok))%Qc in
                        for_loopM 0 size
                          (fun ll _ =>
                             y0 ← slice newp (ind - 1) ll;
                             y1 ← slice newp ind ll;
                             set_slice newp (ind - 1) ll (alfa * y0 + (1 - alfa) * y1)%Qc)
                          tt)
                   tt;
             u ← lift (rd knot j);
             _ ← kv_set newkv k u;
             mret (i, k - 1))
          (b + pl - 1, b + pl + rr);
    _ ← kv_GetElements newkv;
    swap self newp.

(** [SwapDirections(int dir1, int dir2)] *)
Definition SwapDirections (self : t) (dir1 dir2 : Z) : M t :=
  _ ← (if bool_decide (Z.abs (dir1 - dir2) = 2)
       then mfail (Abort "NURBSPatch::SwapDirections : directions 0 and 2 are not supported!")
       else mret tt);
  k1 ← lift (rd (kv self) dir1);
  k2 ← lift (rd (kv self) dir2);
  nkv ← lift (wr (kv self) dir1 k2);
  nkv ← lift (wr nkv dir2 k1);
  newp ← create_of nkv (Dim self);
  '(size, self) ← SetLoopDirection self dir1;
  '(_, newp) ← SetLoopDirection newp dir2;
  _ ← for_loopM 0 (nd self)
        (fun id _ =>
           for_loopM 0 size
             (fun i _ => x ← slice self id i; set_slice newp id i x)
             tt)
        tt;
  swap self newp.

(** The locals that live across the rounds of the main loop. *)
Record elevation_state : Type := mkElevation {
  e_mh : Z;
  e_kind : Z;
  e_r : Z;
  e_a : Z;
  e_b : Z;
  e_cind : Z;
  e_ua : real_t;
  e_bpts : Array2D.t real_t;
  e_ebpts : Array2D.t real_t;
  e_nextbpts : Array2D.t real_t;
  e_alphas : list real_t
}.

(** One round of [while (b < m)]: one knot span of the old patch. *)
Definition DegreeElevate_segment (oldp newp : t) (oldkv newkv : positive)
    (bezalfs : Array2D.t real_t) (p t_ m size : Z) (st : elevation_state)
    : M elevation_state :=
  let ph := p + t_ in
  let mh := e_mh st in
  let kind := e_kind st in
  let a := e_a st in
  let cind := e_cind st in
  let ua := e_ua st in
  let i := e_b st in
  b ← while_loopM (S (Z.to_nat (m - e_b st)))
        (fun b =>
           if bool_decide (b < m) then
             x ← kv_at oldkv b;
             y ← kv_at oldkv (b + 1);
             mret (Qc_eqb x y)
           else mret false)
        (fun b => mret (b + 1))
        (e_b st);
  let mul := b - i + 1 in
  let mh := mh + mul + t_ in
  ub ← kv_at oldkv b;
  let oldr := e_r st in
  let r := p - mul in
  let lbz := if bool_decide (0 < oldr) then (oldr + 2) `quot` 2 else 1 in
  let rbz := if bool_decide (0 < r) then ph - (r + 1) `quot` 2 else ph in
  '(alphas, bpts, nextbpts) ←
    (if bool_decide (0 < r) then
       let numer := (ub - ua)%Qc in
       alphas ←
         for_downM p (mul + 1)
           (fun k alphas =>
              x ← kv_at oldkv (a + k);
              lift (wr alphas (k - mul - 1) (numer / (x - ua))%Qc))
           (e_alphas st);
       '(bpts, nextbpts) ←
         for_loopM 1 (r + 1)
           (fun j '(bpts, nextbpts) =>
              let save := r - j in
              let s := mul + j in
              bpts ←
                for_downM p s
                  (fun k bpts =>
                     for_loopM 0 size
                       (fun l bpts =>
                          al ← lift (rd alphas (k - s));
                          x ← lift (Array2D.get bpts k l);
                          y ← lift (Array2D.get bpts (k - 1) l);
                          lift (Array2D.set bpts k l (al * x + (1 - al) * y)%Qc))
                       bpts)
                  bpts;
              nextbpts ←
                for_loopM 0 size
                  (fun l nextbpts =>
                     x ← lift (Array2D.get bpts p l);
                     lift (Array2D.set nextbpts save l x))
                  nextbpts;
              mret (bpts, nextbpts))
           (e_bpts st, e_nextbpts st);
       mret (alphas, bpts, nextbpts)
     else mret (e_alphas st, e_bpts st, e_nextbpts st));
  ebpts ←
    for_loopM lbz (ph + 1)
      (fun i ebpts =>
         ebpts ←
           for_loopM 0 size (fun l ebpts => lift (Array2D.set ebpts i l (Q2Qc 0))) ebpts;
         let mpi := Z.min p i in
         for_loopM (Z.max 0 (i - t_)) (mpi + 1)
           (fun j ebpts =>
              for_loopM 0 size
                (fun l ebpts =>
                   e ← lift (Array2D.get ebpts i l);
                   bz ← lift (Array2D.get bezalfs i j);
                   bp ← lift (Array2D.get bpts j l);
                   lift (Array2D.set ebpts i l (e + bz * bp)%Qc))
                ebpts)
           ebpts)
      (e_ebpts st);
  ebpts ←
    (if bool_decide (1 < oldr) then
       let den := (ub - ua)%Qc in
       nk ← kv_at newkv (kind - 1);
       let bet := ((ub - nk) / den)%Qc in
       '(_, _, ebpts) ←
         for_loopM 1 oldr
           (fun tr '(first, last, ebpts) =>
              '(_, _, _, ebpts) ←
                while_loopM (S (Z.to_nat (last - first)))
                  (fun '(i, j, kj, ebpts) => mret (bool_decide (tr < j - i)))
                  (fun '(i, j, kj, ebpts) =>
                     _ ← (if bool_decide (i < cind) then
                            ni ← kv_at newkv i;
                            let alf := ((ub - ni) / (ua - ni))%Qc in
                            for_loopM 0 size
                              (fun l _ =>
                                 x ← slice newp i l;
                                 y ← slice newp (i - 1) l;
                                 set_slice newp i l (alf * x - (1 - alf) * y)%Qc)
                              tt
                          else mret tt);
                     ebpts ←
                       (if bool_decide (lbz <= j) then
                          if bool_decide (j - tr <= kind - ph + oldr) then
                            nj ← kv_at newkv (j - tr);
                            let gam := ((ub - nj) / den)%Qc in
                            for_loopM 0 size
                              (fun l ebpts =>
                                 x ← lift (Array2D.get ebpts kj l);
                                 y ← lift (Array2D.get ebpts (kj + 1) l);
                                 lift (Array2D.set ebpts kj l (gam * x + (1 - gam) * y)%Qc))
                              ebpts
                          else
                            for_loopM 0 size
                              (fun l ebpts =>
                                 x ← lift (Array2D.get ebpts kj l);
                                 y ← lift (Array2D.get ebpts (kj + 1) l);
                                 lift (Array2D.set ebpts kj l (bet * x + (1 - bet) * y)%Qc))
                              ebpts
                        else mret ebpts);
                     mret (i + 1, j - 1, kj - 1, ebpts))
                  (first, last, last - kind + 1, ebpts);
              mret (first - 1, last + 1, ebpts))
           (kind - 2, kind, ebpts);
       mret ebpts
     else mret ebpts);
  kind ←
    (if negb (bool_decide (a = p)) then
       for_loopM 0 (ph - oldr)
         (fun i kind => _ ← kv_set newkv kind ua; mret (kind + 1))
         kind
     else mret kind);
  cind ←
    for_loopM lbz (rbz + 1)
      (fun j cind =>
         _ ← for_loopM 0 size
               (fun l _ => x ← lift (Array2D.get ebpts j l); set_slice newp cind l x)
               tt;
         mret (cind + 1))
      cind;
  if bool_decide (b < m) then
    bpts ←
      for_loopM 0 r
        (fun j bpts =>
           for_loopM 0 size
             (fun l bpts =>
                x ← lift (Array2D.get nextbpts j l);
                lift (Array2D.set bpts j l x))
             bpts)
        bpts;
    bpts ←
      for_loopM r (p + 1)
        (fun j bpts =>
           for_loopM 0 size
             (fun l bpts =>
                x ← slice oldp (b - p + j) l;
                lift (Array2D.set bpts j l x))
             bpts)
        bpts;
    mret (mkElevation mh kind r b (b + 1) cind ub bpts ebpts nextbpts alphas)
  else
    _ ← for_loopM 0 (ph + 1) (fun i _ => kv_set newkv (kind + i) ub) tt;
    mret (mkElevation mh kind r a b cind ua bpts ebpts nextbpts alphas).

(** [DegreeElevate(int dir, int t)], the routine of "The NURBS Book". The
    assertion [t >= 0] is compiled only in debug builds. [binom] and the
    matrices [bezalfs], [bpts], [ebpts], [nextbpts] and the vector [alphas]
    are locals. *)
Definition DegreeElevate (self : t) (dir t_ : Z) : M t :=
  _ ← (if bool_decide (zlen (kv self) <= dir \/ dir < 0)
       then mfail (Abort "NURBSPatch::DegreeElevate : Incorrect direction!")
       else mret tt);
  oldkv ← lift (rd (kv self) dir);
  _ ← kv_GetElements oldkv;
  okv ← kv_load oldkv;
  newp ← create_from self dir (KnotVector.GetOrder okv + t_)
           (KnotVector.GetNCP okv + KnotVector.GetNE okv * t_);
  newkv ← lift (rd (kv newp) dir);
  _ ← (match KnotVector.spacing okv with
       | Some _ =>
           nkv ← kv_load newkv;
           kv_store newkv
             (KnotVector.mk (KnotVector.knot nkv) (KnotVector.Order nkv)
                (KnotVector.NumOfControlPoints nkv) (KnotVector.NumOfElements nkv)
                (KnotVector.coarse nkv) (KnotVector.spacing okv))
       | None => mret tt
       end);
  '(size, self) ← SetLoopDirection self dir;
  '(size', newp) ← SetLoopDirection newp dir;
  _ ← (if negb (bool_decide (size = size'))
       then mfail (Abort "NURBSPatch::DegreeElevate : Size mismatch!")
       else mret tt);
  let p := KnotVector.GetOrder okv in
  let n := KnotVector.GetNCP okv - 1 in
  let m := n + p + 1 in
  let ph := p + t_ in
  bezalfs ← lift (elevation_coefficients p t_);
  ua ← kv_at oldkv 0;
  _ ← for_loopM 0 size (fun l _ => x ← slice self 0 l; set_slice newp 0 l x) tt;
  _ ← for_loopM 0 (ph + 1) (fun i _ => kv_set newkv i ua) tt;
  bpts ←
    for_loopM 0 (p + 1)
      (fun i bpts =>
         for_loopM 0 size
           (fun l bpts => x ← slice self i l; lift (Array2D.set bpts i l x))
           bpts)
      (Array2D.create (p + 1) size (Q2Qc 0));
  _ ← while_loopM (S (Z.to_nat (m - (p + 1))))
        (fun st => mret (bool_decide (e_b st < m)))
        (DegreeElevate_segment self newp oldkv newkv bezalfs p t_ m size)
        (mkElevation ph (ph + 1) (-1) p (p + 1) 1 ua bpts
           (Array2D.create (p + t_ + 1) size (Q2Qc 0))
           (Array2D.create (p - 1) size (Q2Qc 0))
           (replicate (Z.to_nat (p - 1)) filler));
  _ ← kv_GetElements newkv;
  swap self newp.

End NURBSPatch.

(** ** Concrete patches used in the examples *)

(** A 1D patch on knot vector [k] with [dim] components per control point
    and the control points [ctrl], built in the empty store. *)
Definition make_patch_1D (k : KnotVector.t) (dim : Z) (ctrl : list real_t)
    : M NURBSPatch.t :=
  mbind (new_kv k) (fun l =>
  mbind (NURBSPatch.init [l] dim) (fun p =>
  mbind (for_loopM 0 (zlen ctrl)
           (fun i _ =>
              mbind (lift (rd ctrl i)) (fun x =>
              match NURBSPatch.data p with
              | Some d => buf_wr d i x
              | None => mfail OutOfBounds
              end))
           tt) (fun _ =>
  mret p))).

(** A quadratic curve with four control points (x, w) on [0 0 0 1/2 1 1 1];
    it is the refinement of the curve with control points 0, 1, 3 on
    [0 0 0 1 1 1] by the knot 1/2, so that knot can be removed exactly. *)
Definition curve_ctrl : list real_t :=
  [qc 0 1; qc 1 1; qc 1 2; qc 1 1; qc 2 1; qc 1 1; qc 3 1; qc 1 1].

Definition curve : M NURBSPatch.t := make_patch_1D kv_quad2 2 curve_ctrl.

(** The same knot vector with control points that allow no exact removal. *)
Definition bent_ctrl : list real_t :=
  [qc 0 1; qc 1 1; qc 5 1; qc 1 1; qc 2 1; qc 1 1; qc 3 1; qc 1 1].

Definition bent_curve : M NURBSPatch.t := make_patch_1D kv_quad2 2 bent_ctrl.

(** Run an operation on the patch that [mk] builds in the empty store. *)
Definition run_on {A} (mk : M NURBSPatch.t) (op : NURBSPatch.t -> M A) : Res A * Store.t :=
  mbind mk op Store.empty.

(** The patch that [mk] builds in the empty store, and the store it is in. *)
Definition built (mk : M NURBSPatch.t) : NURBSPatch.t * Store.t :=
  match mk Store.empty with
  | (Ok p, h) => (p, h)
  | (Err _, h) => (NURBSPatch.mk 0 0 0 0 None [] 0 0 0, h)
  end.

(** ** Specifications of computations on the store *)

(** [m] returns normally from [h], with a value and a store that satisfy [Q]. *)
Definition returns {A} (m : M A) (h : Store.t) (Q : A -> Store.t -> Prop) : Prop :=
  exists a h', m h = (Ok a, h') /\ Q a h'.

(** The outcome of [m] from [h]: [E] holds of the store in which it stops on
    a failure, [Q] of the value and the store with which it returns. *)
Definition outcome {A} (m : M A) (h : Store.t) (E : Store.t -> Prop)
    (Q : A -> Store.t -> Prop) : Prop :=
  match m h with
  | (Ok a, h') => Q a h'
  | (Err _, h') => E h'
  end.

(** Every object of [h] is still in [h'], unchanged. *)
Definition keeps (h h' : Store.t) : Prop :=
  (forall l b, Store.bufs h !! l = Some b -> Store.bufs h' !! l = Some b) /\
  (forall l k, Store.kvs h !! l = Some k -> Store.kvs h' !! l = Some k).

(** The number of entries of the control-point buffer. *)
Definition total (p : NURBSPatch.t) : Z :=
  match NURBSPatch.kv p with
  | [_] => NURBSPatch.ni p * NURBSPatch.Dim p
  | [_; _] => NURBSPatch.ni p * NURBSPatch.nj p * NURBSPatch.Dim p
  | [_; _; _] => NURBSPatch.ni p * NURBSPatch.nj p * NURBSPatch.nk p * NURBSPatch.Dim p
  | _ => 0
  end.

(** The class invariant of a patch in store [h]: one to three knot vectors,
    whose control-point counts are the extents [ni], [nj], [nk] (-1 for an
    absent direction), and a buffer of [total] entries. *)
Definition extents_ok (h : Store.t) (p : NURBSPatch.t) : Prop :=
  match NURBSPatch.kv p with
  | [l0] =>
      exists k0, Store.kvs h !! l0 = Some k0 /\
        NURBSPatch.ni p = KnotVector.NumOfControlPoints k0 /\ 0 < NURBSPatch.ni p /\
        NURBSPatch.nj p = -1 /\ NURBSPatch.nk p = -1
  | [l0; l1] =>
      exists k0 k1, Store.kvs h !! l0 = Some k0 /\ Store.kvs h !! l1 = Some k1 /\
        NURBSPatch.ni p = KnotVector.NumOfControlPoints k0 /\ 0 < NURBSPatch.ni p /\
        NURBSPatch.nj p = KnotVector.NumOfControlPoints k1 /\ 0 < NURBSPatch.nj p /\
        NURBSPatch.nk p = -1
  | [l0; l1; l2] =>
      exists k0 k1 k2, Store.kvs h !! l0 = Some k0 /\ Store.kvs h !! l1 = Some k1 /\
        Store.kvs h !! l2 = Some k2 /\
        NURBSPatch.ni p = KnotVector.NumOfControlPoints k0 /\ 0 < NURBSPatch.ni p /\
        NURBSPatch.nj p = KnotVector.NumOfControlPoints k1 /\ 0 < NURBSPatch.nj p /\
        NURBSPatch.nk p = KnotVector.NumOfControlPoints k2 /\ 0 < NURBSPatch.nk p
  | _ => False
  end.

Definition patch_ok (h : Store.t) (p : NURBSPatch.t) : Prop :=
  0 < NURBSPatch.Dim p /\
  (exists ld b, NURBSPatch.data p = Some ld /\ Store.bufs h !! ld = Some b /\
                zlen b = total p) /\
  extents_ok h p.

(** The stride [sd] along direction [dir] and the number [q] of blocks of
    [sd] entries in one slice, as [SetLoopDirection] sets them: the slice
    length is [sd * q]. *)
Definition stride (p : NURBSPatch.t) (dir : Z) : Z * Z :=
  match NURBSPatch.kv p with
  | [_] => (NURBSPatch.Dim p, 1)
  | [_; _] =>
      if bool_decide (dir = 0) then (NURBSPatch.Dim p, NURBSPatch.nj p)
      else (NURBSPatch.ni p * NURBSPatch.Dim p, 1)
  | _ =>
      if bool_decide (dir = 0) then (NURBSPatch.Dim p, NURBSPatch.nj p * NURBSPatch.nk p)
      else if bool_decide (dir = 1)
      then (NURBSPatch.ni p * NURBSPatch.Dim p, NURBSPatch.nk p)
      else (NURBSPatch.ni p * NURBSPatch.nj p * NURBSPatch.Dim p, 1)
  end.

(** The patch is set to walk a direction of [n] slices of [sd * q] entries,
    in a buffer of [sd * n * q] entries. *)
Definition walks (p : NURBSPatch.t) (sd n q : Z) : Prop :=
  NURBSPatch.sd p = sd /\ NURBSPatch.nd p = n /\ 0 < sd /\ 0 < n /\ 0 < q.

(** The extent of a patch along direction [j]. *)
Definition extent_at (p : NURBSPatch.t) (j : Z) : Z :=
  if bool_decide (j = 0) then NURBSPatch.ni p
  else if bool_decide (j = 1) then NURBSPatch.nj p
  else NURBSPatch.nk p.

(** The knot vectors of the patch under construction by a constructor: the
    directions built so far are allocated, fresh, and have the intended
    control-point counts. *)
Definition kv_built (h : Store.t) (p : NURBSPatch.t) (dir order ncp : Z)
    (acc : list positive) (hc : Store.t) : Prop :=
  Store.bufs hc = Store.bufs h /\
  NoDup acc /\
  (forall l, l ∉ acc -> Store.kvs hc !! l = Store.kvs h !! l) /\
  (forall l, l ∈ acc -> Store.kvs h !! l = None) /\
  (forall (j : nat) l', acc !! j = Some l' ->
     exists k', Store.kvs hc !! l' = Some k' /\
       (Z.of_nat j = dir -> k' = KnotVector.create order ncp) /\
       KnotVector.NumOfControlPoints k' =
         (if bool_decide (Z.of_nat j = dir) then ncp else extent_at p (Z.of_nat j))).

(** What [NURBSPatch(parent, dir, Order, NCP)] leaves: a well-formed patch
    [np] in fresh locations, with the extents of [p] except along [dir]. *)
Definition created (h : Store.t) (p : NURBSPatch.t) (dir order ncp : Z)
    (np : NURBSPatch.t) (h1 : Store.t) : Prop :=
  (exists lt, NURBSPatch.data np = Some lt /\ Store.bufs h !! lt = None /\
     Store.bufs h1 = <[lt := replicate (Z.to_nat (total np)) filler]> (Store.bufs h)) /\
  NoDup (NURBSPatch.kv np) /\
  (forall l, l ∉ NURBSPatch.kv np -> Store.kvs h1 !! l = Store.kvs h !! l) /\
  (forall l, l ∈ NURBSPatch.kv np ->
     Store.kvs h !! l = None /\ is_Some (Store.kvs h1 !! l)) /\
  (exists ln, rd (NURBSPatch.kv np) dir = Ok ln /\
     Store.kvs h1 !! ln = Some (KnotVector.create order ncp)) /\
  patch_ok h1 np /\
  NURBSPatch.Dim np = NURBSPatch.Dim p /\
  stride np dir = stride p dir /\
  zlen (NURBSPatch.kv np) = zlen (NURBSPatch.kv p) /\
  (forall j, 0 <= j < zlen (NURBSPatch.kv p) ->
     extent_at np j = if bool_decide (j = dir) then ncp else extent_at p j).

(** Between [h] and [h'] only the content of the buffer [lt] has changed; it
    holds [n] entries. *)
Definition alters (lt : positive) (n : Z) (h h' : Store.t) : Prop :=
  Store.kvs h' = Store.kvs h /\
  (forall l, l <> lt -> Store.bufs h' !! l = Store.bufs h !! l) /\
  exists b, Store.bufs h' !! lt = Some b /\ zlen b = n.

(** An [m x n] array that holds all its cells. *)
Definition sized (a : Array2D.t real_t) (m n : Z) : Prop :=
  Array2D.rows a = m /\ Array2D.cols a = n /\ zlen (Array2D.cells a) = m * n.


(** Two knot vectors of the same order, number of control points and size. *)
Definition kv_fields_like (a b : KnotVector.t) : Prop :=
  KnotVector.Order a = KnotVector.Order b /\
  KnotVector.NumOfControlPoints a = KnotVector.NumOfControlPoints b /\
  KnotVector.Size a = KnotVector.Size b.


(** ** The claim on KnotVector::Difference, as the specification states it *)





(** ** Replacing a patch *)

(** No object of [h] is deleted in [h']. *)
Definition grows (h h' : Store.t) : Prop :=
  (forall l, is_Some (Store.bufs h !! l) -> is_Some (Store.bufs h' !! l)) /\
  (forall l, is_Some (Store.kvs h !! l) -> is_Some (Store.kvs h' !! l)).

(** However [m] stops, it leaves the objects of [h0] as they are and deletes
    nothing. *)
Definition tame {A} (h0 : Store.t) (m : M A) : Prop :=
  forall h, keeps h0 h -> keeps h0 (m h).2 /\ grows h (m h).2.

(** The buffer and the knot vectors of [p] are objects of [h], the knot
    vectors distinct ones. *)
Definition owned (h : Store.t) (p : NURBSPatch.t) : Prop :=
  (exists l, NURBSPatch.data p = Some l /\ is_Some (Store.bufs h !! l)) /\
  NoDup (NURBSPatch.kv p) /\
  (forall l, l ∈ NURBSPatch.kv p -> is_Some (Store.kvs h !! l)).


Definition same_objects (p p' : NURBSPatch.t) : Prop :=
  NURBSPatch.data p' = NURBSPatch.data p /\ NURBSPatch.kv p' = NURBSPatch.kv p.



(** The buffer and the knot vectors of [p] are deleted between [h] and [h'],
    and nothing else has changed. *)
Definition released (p : NURBSPatch.t) (h h' : Store.t) : Prop :=
  Store.bufs h' = match NURBSPatch.data p with
                  | Some l => delete l (Store.bufs h)
                  | None => Store.bufs h
                  end /\
  (forall l, l ∈ NURBSPatch.kv p -> Store.kvs h' !! l = None) /\
  (forall l, l ∉ NURBSPatch.kv p -> Store.kvs h' !! l = Store.kvs h !! l).



(** ** Further operations of KnotVector *)

(** Two knot vectors that agree in every member but the knots. *)
Definition same_fields (a b : KnotVector.t) : Prop :=
  KnotVector.Order a = KnotVector.Order b /\
  KnotVector.NumOfControlPoints a = KnotVector.NumOfControlPoints b /\
  KnotVector.NumOfElements a = KnotVector.NumOfElements b /\
  KnotVector.coarse a = KnotVector.coarse b /\
  KnotVector.spacing a = KnotVector.spacing b /\
  KnotVector.Size a = KnotVector.Size b.

(** The knot at index [j] after [k] rounds of the loop of [Flip]: the rounds
    have mirrored the indices [Order+1 .. Order+k] and
    [NumOfControlPoints-k .. NumOfControlPoints-1] about [apb / 2]. *)
Definition flipped (kv : KnotVector.t) (apb : real_t) (k j : Z) : Res real_t :=
  let p := KnotVector.Order kv in
  let n := KnotVector.NumOfControlPoints kv in
  if bool_decide (p < j <= p + k \/ n - k <= j < n)
  then y ← KnotVector.at_ kv (p + n - j); Ok (apb - y)%Qc
  else KnotVector.at_ kv j.

(** What [findKnotSpan] promises of the index [mid] it returns:
    [knot(mid-1) <= u <= knot(mid)]. *)
Definition brackets (kv : KnotVector.t) (u : real_t) (mid : Z) : Prop :=
  exists a b, KnotVector.at_ kv (mid - 1) = Ok a /\ KnotVector.at_ kv mid = Ok b /\
              (a <= u)%Qc /\ (u <= b)%Qc.

(** *** Uniform refinement *)

(** [UniformRefinement(Vector &newknots, int rf)]. [newknots] is the caller's
    vector: [SetSize] keeps the entries it has and leaves new ones
    indeterminate. *)
Definition UniformRefinement (kv : KnotVector.t) (newknots : list real_t) (rf : Z)
    : Res (list real_t) :=
  _ ← MFEM_VERIFY (bool_decide (1 < rf)) "Refinement factor must be at least 2.";
  let h := (1 / of_int rf)%Qc in
  let newknots :=
    resize (Z.to_nat (KnotVector.NumOfElements kv * (rf - 1))) filler newknots in
  '(newknots, _) ←
    for_loop 0 (KnotVector.Size kv - 1)
      (fun i '(newknots, j) =>
         a ← KnotVector.at_ kv i;
         b ← KnotVector.at_ kv (i + 1);
         if negb (Qc_eqb a b) then
           for_loop 1 rf
             (fun m '(newknots, j) =>
                newknots ← wr newknots j ((1 - of_int m * h) * a + of_int m * h * b)%Qc;
                Ok (newknots, j + 1))
             (newknots, j)
         else Ok (newknots, j))
      (newknots, 0);
  Ok newknots.

(** The spans of a knot array that are not empty: the pairs of neighbouring
    knots that differ. *)
Fixpoint spans (ks : list real_t) : list (real_t * real_t) :=
  match ks with
  | [] => []
  | a :: ks' =>
      match ks' with
      | [] => []
      | b :: _ => if Qc_eqb a b then spans ks' else (a, b) :: spans ks'
      end
  end.

(** The [rf - 1] knots that divide the span from [a] to [b] into [rf] equal
    parts, as [UniformRefinement] computes them. *)
Definition subdivide (rf : Z) (ab : real_t * real_t) : list real_t :=
  (fun m => ((1 - of_int m * (1 / of_int rf)) * ab.1 + of_int m * (1 / of_int rf) * ab.2)%Qc)
    <$> seqZ 1 (rf - 1).

Definition refined (rf : Z) (ks : list real_t) : list real_t :=
  concat (subdivide rf <$> spans ks).

(** *** Derivatives of the basis functions *)

Section CalcDShape.

(** [getKnotLocation(xi, ni)] is an inline member of the header, as for
    [CalcShape]. *)
Variable getKnotLocation : KnotVector.t -> real_t -> Z -> Res real_t.

(** [CalcDShape(Vector &grad, int i, real_t xi)], Algorithm A2.3. [grad] is
    the caller's vector; [ndu], [left] and [right] are the local arrays.
    [grad *= c] scales every entry of the vector. *)
Definition CalcDShape (kv : KnotVector.t) (grad : list real_t) (i : Z) (xi : real_t)
    : Res (list real_t) :=
  let p := KnotVector.Order kv in
  let ip := if bool_decide (0 <= i) then i + p else -1 - i + p in
  u ← getKnotLocation kv (if bool_decide (0 <= i) then xi else (1 - xi)%Qc) ip;
  let left := replicate (Z.to_nat (KnotVector.MaxOrder + 1)) (Q2Qc 0) in
  let right := replicate (Z.to_nat (KnotVector.MaxOrder + 1)) (Q2Qc 0) in
  ndu ← Array2D.set
          (Array2D.create (KnotVector.MaxOrder + 1) (KnotVector.MaxOrder + 1) (Q2Qc 0))
          0 0 (Q2Qc 1);
  '(ndu, _, _) ←
    for_loop 1 (p + 1)
      (fun j '(ndu, left, right) =>
         a ← KnotVector.at_ kv (ip - j + 1);
         left ← wr left j (u - a)%Qc;
         b ← KnotVector.at_ kv (ip + j);
         right ← wr right j (b - u)%Qc;
         '(ndu, saved) ←
           for_loop 0 j
             (fun r '(ndu, saved) =>
                rr ← rd right (r + 1);
                lj ← rd left (j - r);
                ndu ← Array2D.set ndu j r (rr + lj)%Qc;
                x ← Array2D.get ndu r (j - 1);
                y ← Array2D.get ndu j r;
                let temp := (x / y)%Qc in
                ndu ← Array2D.set ndu r j (saved + rr * temp)%Qc;
                Ok (ndu, (lj * temp)%Qc))
             (ndu, Q2Qc 0);
         ndu ← Array2D.set ndu j j saved;
         Ok (ndu, left, right))
      (ndu, left, right);
  grad ←
    for_loop 0 (p + 1)
      (fun r grad =>
         let rk := r - 1 in
         let pk := p - 1 in
         d ← (if bool_decide (1 <= r)
              then x ← Array2D.get ndu rk pk; y ← Array2D.get ndu p rk; Ok (x / y)%Qc
              else Ok (Q2Qc 0));
         d ← (if bool_decide (r <= pk)
              then x ← Array2D.get ndu r pk; y ← Array2D.get ndu p r; Ok (d - x / y)%Qc
              else Ok d);
         wr grad r d)
      grad;
  ka ← KnotVector.at_ kv (ip + 1);
  kb ← KnotVector.at_ kv ip;
  let c := if bool_decide (0 <= i) then (of_int p * (ka - kb))%Qc
           else (of_int p * (kb - ka))%Qc in
  Ok ((fun x => (x * c)%Qc) <$> grad).

End CalcDShape.

(** The quotient [ndu[k][p-1] / ndu[p][k]] that [CalcDShape] adds to
    [grad(k+1)] and subtracts from [grad(k)]. *)
Definition ndu_quotient (ndu : Array2D.t real_t) (p k : Z) : real_t :=
  match Array2D.get ndu k (p - 1), Array2D.get ndu p k with
  | Ok x, Ok y => (x / y)%Qc
  | _, _ => Q2Qc 0
  end.

(** ** Further operations of NURBSExtension *)

(** [a || b] of C++: [b] is evaluated only when [a] is false. *)
Definition orelse (a b : Res bool) : Res bool :=
  c ← a; if (c : bool) then Ok true else b.

(** [edges[i] != f(edges[j])] *)
Definition differ (edges : list Z) (i j : Z) (f : Z -> Z) : Res bool :=
  a ← rd edges i;
  b ← rd edges j;
  Ok (negb (bool_decide (a = f b))).

(** The loop of [CheckPatches()] and [CheckBdrPatches()] that replaces every
    edge by its entry of [edge_to_ukv], negated as [-1 - kv] where the patch
    runs against the edge. *)
Definition signed_edges (ext : NURBSExtension.t) (edges oedge : list Z) : Res (list Z) :=
  for_loop 0 (zlen edges)
    (fun i edges =>
       e ← rd edges i;
       u ← rd (NURBSExtension.edge_to_ukv ext) e;
       edges ← wr edges i u;
       o ← rd oedge i;
       if bool_decide (o < 0) then x ← rd edges i; wr edges i (-1 - x)
       else Ok edges)
    edges.

(** The test of [CheckPatches()] on the signed entries of one patch. *)
Definition inconsistent_edges (ext : NURBSExtension.t) (edges : list Z) : Res bool :=
  orelse
    (if bool_decide (NURBSExtension.Dimension ext = 2)
     then orelse (differ edges 0 2 (fun x => -1 - x))
                 (differ edges 1 3 (fun x => -1 - x))
     else Ok false)
    (if bool_decide (NURBSExtension.Dimension ext = 3)
     then orelse (differ edges 0 2 id)
         (orelse (differ edges 0 4 id)
         (orelse (differ edges 0 6 id)
         (orelse (differ edges 1 3 id)
         (orelse (differ edges 1 5 id)
         (orelse (differ edges 1 7 id)
         (orelse (differ edges 8 9 id)
         (orelse (differ edges 8 10 id)
                 (differ edges 8 11 id))))))))
     else Ok false).

(** [CheckPatches()] *)
Definition CheckPatches (ext : NURBSExtension.t) : Res unit :=
  if bool_decide (NURBSExtension.Dimension ext = 1) then Ok tt
  else
    for_loop 0 (NURBSExtension.GetNP ext)
      (fun p _ =>
         let '(edges, oedge) := Mesh.GetElementEdges (NURBSExtension.patchTopo ext) p in
         edges ← signed_edges ext edges oedge;
         bad ← inconsistent_edges ext edges;
         if (bad : bool)
         then mfem_error "NURBSExtension::CheckPatch : Inconsistent edge-to-knotvector mapping!"
         else Ok tt)
      tt.

(** The edges in the slots [slots] of a patch all carry the unique knot
    vector of one index. *)
Definition share_knot_vector (ext : NURBSExtension.t) (edges : list Z) (slots : list Z)
    : Prop :=
  exists k, forall i, i ∈ slots ->
    exists e, rd edges i = Ok e /\ NURBSExtension.KnotInd ext e = Ok k.

(** The entry of slot [i] after the loop of [signed_edges]. *)
Definition signed_edge (ext : NURBSExtension.t) (edges oedge : list Z) (i : Z) : Res Z :=
  e ← rd edges i;
  u ← rd (NURBSExtension.edge_to_ukv ext) e;
  o ← rd oedge i;
  Ok (if bool_decide (o < 0) then -1 - u else u).

(** The entries of [kvdir] while [CheckKVDirection] fills it: 0, 1 or -1, and
    still 0 from index [b] on. *)
Definition directions (b : nat) (kvdir : list Z) : Prop :=
  forall (i : nat) x, kvdir !! i = Some x ->
    (x = 0 \/ x = 1 \/ x = -1) /\ ((b <= i)%nat -> x = 0).


(** *** The offsets in closed form *)







(** The quadrilateral patch with edge 0 stored from vertex 1 to vertex 0, so
    that the patch runs against it and [CheckKVDirection] gives -1 for
    direction 0. *)
Definition topo_quad_reversed : Mesh.t :=
  Mesh.mk 2 4 4 0 1 4
    (fun _ => [0; 1; 2; 3])
    (fun _ => ([0; 1; 2; 3], [-1; 1; -1; -1]))
    (fun e => if bool_decide (e = 0) then [1; 0]
              else if bool_decide (e = 1) then [1; 2]
              else if bool_decide (e = 2) then [3; 2]
              else [0; 3])
    no_edges (fun b => b).

(** Order 1 with the interior knot at 3/4: [kv_lin2'] flipped. *)
Definition kv_lin2_flipped : KnotVector.t :=
  kv_of 1 2 [qc 0 1; qc 0 1; qc 3 4; qc 1 1; qc 1 1].

(** The unique knot vector of direction 0 has its interior knot at 1/4; the
    comprehensive one is stored flipped. *)
Definition ext_quad_reversed : NURBSExtension.t :=
  NURBSExtension.mk H_1 topo_quad_reversed [0; 1; 0; 1] [kv_lin2'; kv_lin2]
    [kv_lin2_flipped; kv_lin2] [1; 1] 2 4 [true; true; true; true]
    [] [] [] [] [] [] [] [] 0 0.


(** ** The shape of the objects of a store *)

(** Every buffer of [h] is in [h'] with the length it had, and every knot
    vector of [h] is in [h'] with the order and the sizes it had. *)
Definition same_shape (h h' : Store.t) : Prop :=
  (forall l b, Store.bufs h !! l = Some b ->
     exists b', Store.bufs h' !! l = Some b' /\ zlen b' = zlen b) /\
  (forall l k, Store.kvs h !! l = Some k ->
     exists k', Store.kvs h' !! l = Some k' /\ kv_fields_like k' k).

(** However [m] stops, it has resized nothing. *)
Definition steady {A} (m : M A) : Prop :=
  forall h, same_shape h (m h).2.

(** What an operator that replaces the patch along [dir] leaves when it
    returns: a well-formed patch [p'] with [ncp] control points and a knot
    vector of order [order] along [dir], and the extents of [self] in the
    other directions. *)
Definition reshaped (self : NURBSPatch.t) (dir order ncp : Z) (p' : NURBSPatch.t)
    (h' : Store.t) : Prop :=
  patch_ok h' p' /\
  NoDup (NURBSPatch.kv p') /\
  NURBSPatch.Dim p' = NURBSPatch.Dim self /\
  zlen (NURBSPatch.kv p') = zlen (NURBSPatch.kv self) /\
  (forall j, 0 <= j < zlen (NURBSPatch.kv self) ->
     extent_at p' j = if bool_decide (j = dir) then ncp else extent_at self j) /\
  exists l' nkv,
    rd (NURBSPatch.kv p') dir = Ok l' /\ Store.kvs h' !! l' = Some nkv /\
    KnotVector.Order nkv = order /\ KnotVector.NumOfControlPoints nkv = ncp /\
    KnotVector.Size nkv = Z.max 0 (ncp + order + 1).

(** ** NURBSPatch::FlipDirection *)

(** Which control points [FlipDirection] has exchanged when its outer loop is
    at row [id0] and its inner loop at column [i0]. *)
Definition exchanged (n id0 i0 i j : Z) : bool :=
  bool_decide (i < id0 \/ n - 1 - i < id0 \/ (i = id0 \/ n - 1 - i = id0) /\ j < i0).

(** The content [b'] of the buffer of [p] at that point, from the content
    [b] before the call. *)
Definition rows_exchanged (p : NURBSPatch.t) (n size id0 i0 : Z) (b b' : list real_t)
    : Prop :=
  zlen b' = zlen b /\
  forall i j, 0 <= i < n -> 0 <= j < size ->
    rd b' (NURBSPatch.slice_index p i j) =
    rd b (NURBSPatch.slice_index p (if exchanged n id0 i0 i j then n - 1 - i else i) j).

(** ** NURBSExtension::CreateComprehensiveKV *)

(** The comprehensive knot vector of direction [d] of patch [p], as the
    patch loop of [CreateComprehensiveKV] makes it: a copy of the unique knot
    vector of the edge [edges[e[d]]], flipped when [CheckKVDirection] gives
    that direction the sign -1. *)
Definition comprehensive_kv (ext : NURBSExtension.t) (p d : Z) : Res KnotVector.t :=
  kvdir ← NURBSExtension.CheckKVDirection ext p;
  let '(edges, orient) := Mesh.GetElementEdges (NURBSExtension.patchTopo ext) p in
  ed ← rd (NURBSExtension.direction_edges (NURBSExtension.Dimension ext)) d;
  iun ← rd edges ed;
  k ← NURBSExtension.KnotVec ext iun;
  kd ← rd kvdir d;
  if bool_decide (kd = -1) then KnotVector.Flip k else Ok k.

(** ** NURBSExtension::CheckBdrPatches *)

(** [edges[i] < 0] *)
Definition negative (edges : list Z) (i : Z) : Res bool :=
  a ← rd edges i;
  Ok (bool_decide (a < 0)).

(** The test of [CheckBdrPatches()] on the signed entries of one boundary
    patch. *)
Definition bad_orientation (ext : NURBSExtension.t) (edges : list Z) : Res bool :=
  orelse
    (if bool_decide (NURBSExtension.Dimension ext = 2) then negative edges 0 else Ok false)
    (if bool_decide (NURBSExtension.Dimension ext = 3)
     then orelse (negative edges 0) (negative edges 1)
     else Ok false).

Section CheckBdrPatches.

(** [patchTopo->GetBdrElementEdges(p, edges, oedge)], a query of the external
    class [Mesh]. *)
Variable GetBdrElementEdges : Z -> list Z * list Z.

(** [CheckBdrPatches()] *)
Definition CheckBdrPatches (ext : NURBSExtension.t) : Res unit :=
  for_loop 0 (NURBSExtension.GetNBP ext)
    (fun p _ =>
       let '(edges, oedge) := GetBdrElementEdges p in
       edges ← signed_edges ext edges oedge;
       bad ← bad_orientation ext edges;
       if (bad : bool)
       then mfem_error "NURBSExtension::CheckBdrPatch : Bad orientation!"
       else Ok tt)
    tt.

End CheckBdrPatches.

(** The edge in slot [i] of a boundary patch runs with its knot vector: its
    entry of [edge_to_ukv] is not negative and the patch follows the edge, or
    the entry is negative and the patch runs against the edge. *)
Definition runs_forward (ext : NURBSExtension.t) (edges oedge : list Z) (i : Z) : Prop :=
  exists e u o, rd edges i = Ok e /\ rd (NURBSExtension.edge_to_ukv ext) e = Ok u /\
    rd oedge i = Ok o /\ (0 <= u <-> 0 <= o).

(** The boundary edges of [topo_quad]: boundary patch [b] is the edge [b],
    followed in its own direction. *)
Definition bdr_edges_quad (b : Z) : list Z * list Z := ([b], [1]).

(** ** KnotVector: the constructor from intervals and continuities *)

(** [Array<int>::Sum()] *)
Definition Sum (a : list Z) : Z := foldr Z.add 0 a.

(** [KnotVector(int order, const Vector& intervals, const Array<int>&
    continuity)]. The assertions are compiled out of a release build;
    [SetSize] of a negative number leaves no entry to write to. *)
Definition KnotVector_of_intervals (order : Z) (intervals : list real_t)
    (continuity : list Z) : Res KnotVector.t :=
  let num_knots := order * zlen continuity - Sum continuity in
  _ ← (if bool_decide (num_knots < 0) then Err OutOfBounds else Ok tt);
  let ncp := num_knots - order - 1 in
  let knot := replicate (Z.to_nat num_knots) filler in
  '(knot, _, _) ←
    for_loop 0 (zlen continuity)
      (fun i '(knot, accum, iknot) =>
         c ← rd continuity i;
         let multiplicity := order - c in
         '(knot, iknot) ←
           for_loop 0 multiplicity
             (fun j '(knot, iknot) =>
                knot ← wr knot iknot accum;
                Ok (knot, iknot + 1))
             (knot, iknot);
         if bool_decide (i < zlen intervals)
         then iv ← rd intervals i; Ok (knot, (accum + iv)%Qc, iknot)
         else Ok (knot, accum, iknot))
      (knot, Q2Qc 0, 0);
  (* Calculate the number of elements provided by the knot vector *)
  let kv := KnotVector.mk knot order ncp 0 false None in
  ne ←
    for_loop 0 (KnotVector.GetNKS kv)
      (fun i ne => e ← KnotVector.isElement kv i; Ok (if (e : bool) then ne + 1 else ne))
      0;
  Ok (KnotVector.mk knot order ncp ne false None).

(** The knots that the constructor is meant to lay out: [order - c] copies
    of the running sum of the intervals for each continuity [c]. *)
Fixpoint blocks (order : Z) (accum : real_t) (continuity : list Z)
    (intervals : list real_t) : list real_t :=
  match continuity with
  | [] => []
  | c :: cs =>
      replicate (Z.to_nat (order - c)) accum ++
      match intervals with
      | [] => blocks order accum cs []
      | iv :: ivs => blocks order (accum + iv)%Qc cs ivs
      end
  end.

(** ** NURBSExtension::SetOrderFromOrders and SetOrdersFromKnotVectors *)

Definition set_mOrders (ext : NURBSExtension.t) (mo : list Z) : NURBSExtension.t :=
  NURBSExtension.mk (NURBSExtension.mode ext) (NURBSExtension.patchTopo ext)
     (NURBSExtension.edge_to_ukv ext) (NURBSExtension.knotVectors ext)
     (NURBSExtension.knotVectorsCompr ext) mo (NURBSExtension.NumOfKnotVectors ext)
     (NURBSExtension.NumOfActiveBdrElems ext) (NURBSExtension.activeBdrElem ext)
     (NURBSExtension.v_meshOffsets ext) (NURBSExtension.e_meshOffsets ext)
     (NURBSExtension.f_meshOffsets ext) (NURBSExtension.p_meshOffsets ext)
     (NURBSExtension.v_spaceOffsets ext) (NURBSExtension.e_spaceOffsets ext)
     (NURBSExtension.f_spaceOffsets ext) (NURBSExtension.p_spaceOffsets ext)
     (NURBSExtension.NumOfVertices ext) (NURBSExtension.NumOfDofs ext).

Section SetOrder.

(** [NURBSFECollection::VariableOrder], a constant of another class. *)
Variable VariableOrder : Z.

(** [SetOrderFromOrders()]; the result is the new value of [mOrder]. The
    state [Some v] of the loop is the early [return]. *)
Definition SetOrderFromOrders (mOrders : list Z) : Res Z :=
  _ ← MFEM_VERIFY (bool_decide (0 < zlen mOrders)) "";
  mOrder ← rd mOrders 0;
  r ← for_loop 1 (zlen mOrders)
        (fun i r =>
           match r with
           | Some v => Ok (Some v)
           | None =>
               x ← rd mOrders i;
               if bool_decide (x ≠ mOrder) then Ok (Some VariableOrder) else Ok None
           end)
        None;
  Ok (match r with Some v => v | None => mOrder end).

(** [SetOrdersFromKnotVectors()]: the extension with [mOrders] refilled, and
    the new value of [mOrder]. *)
Definition SetOrdersFromKnotVectors (ext : NURBSExtension.t) : Res (NURBSExtension.t * Z) :=
  let n := NURBSExtension.NumOfKnotVectors ext in
  mo ← for_loop 0 n
         (fun i mo =>
            k ← rd (NURBSExtension.knotVectors ext) i;
            wr mo i (KnotVector.GetOrder k))
         (resize (Z.to_nat n) 0 (NURBSExtension.mOrders ext));
  m ← SetOrderFromOrders mo;
  Ok (set_mOrders ext mo, m).

End SetOrder.

(** ** KnotVector::GetFineKnots *)

(** [GetFineKnots(const int cf)]. A round of the inner loop moves [i] on by
    one and reads [knot(i)], so the loop ends or fails within [Size] rounds. *)
Definition GetFineKnots (kv : KnotVector.t) (cf : Z) : Res (list real_t) :=
  if bool_decide (cf < 2) then Ok []
  else
    let cne := KnotVector.NumOfElements kv `quot` cf in (* Coarse number of elements *)
    _ ← MFEM_VERIFY (bool_decide (0 < cne) &&
                     bool_decide (cne * cf = KnotVector.NumOfElements kv))
          "Invalid coarsening factor";
    let fine := replicate (Z.to_nat (cne * (cf - 1))) filler in
    kprev ← KnotVector.at_ kv (KnotVector.Order kv);
    '(fine, fcnt, _, _) ←
      for_loop 0 cne (* Loop over coarse elements *)
        (fun c '(fine, fcnt, i, kprev) =>
           '(fine, fcnt, i, kprev, _) ←
             while_loop (Z.to_nat (KnotVector.Size kv + 1))
               (fun '(_, _, _, _, cnt) => Ok (bool_decide (cnt < cf)))
               (fun '(fine, fcnt, i, kprev, cnt) =>
                  let i := i + 1 in
                  ki ← KnotVector.at_ kv i;
                  if negb (Qc_eqb ki kprev) then
                    let cnt := cnt + 1 in
                    if bool_decide (cnt < cf) then
                      fine ← wr fine fcnt ki;
                      Ok (fine, fcnt + 1, i, ki, cnt)
                    else Ok (fine, fcnt, i, ki, cnt)
                  else Ok (fine, fcnt, i, kprev, cnt))
               (fine, fcnt, i, kprev, 0);
           Ok (fine, fcnt, i, kprev))
        (fine, 0, KnotVector.Order kv, kprev);
    _ ← MFEM_VERIFY (bool_decide (fcnt = zlen fine)) "";
    Ok fine.

(** The knots of [l] that differ from the knot before them, [prev] being the
    knot before the first. *)
Fixpoint changes (prev : real_t) (l : list real_t) : list real_t :=
  match l with
  | [] => []
  | x :: l' => if Qc_eqb x prev then changes prev l' else x :: changes x l'
  end.

(** Of [n] groups of [cf] knots, all but the last knot of each group. *)
Fixpoint keep_fine (n : nat) (cf : Z) (d : list real_t) : list real_t :=
  match n with
  | O => []
  | S n' => take (Z.to_nat (cf - 1)) d ++ keep_fine n' cf (drop (Z.to_nat cf) d)
  end.

(** ** NURBSPatch::SwapDirections *)

(** What [NURBSPatch(Array<const KnotVector *> &kvs, int dim)] leaves: a
    well-formed patch [np] of [dim] components in fresh locations, whose knot
    vectors are copies of the knot vectors [kvs]. *)
Definition copied (h : Store.t) (kvs : list positive) (dim : Z) (np : NURBSPatch.t)
    (h1 : Store.t) : Prop :=
  (exists lt, NURBSPatch.data np = Some lt /\ Store.bufs h !! lt = None /\
     Store.bufs h1 = <[lt := replicate (Z.to_nat (total np)) filler]> (Store.bufs h)) /\
  NoDup (NURBSPatch.kv np) /\
  (forall l, l ∉ NURBSPatch.kv np -> Store.kvs h1 !! l = Store.kvs h !! l) /\
  (forall l, l ∈ NURBSPatch.kv np -> Store.kvs h !! l = None) /\
  zlen (NURBSPatch.kv np) = zlen kvs /\
  (forall (j : nat) l', NURBSPatch.kv np !! j = Some l' ->
     exists l k, kvs !! j = Some l /\ Store.kvs h !! l = Some k /\
       Store.kvs h1 !! l' = Some (KnotVector.assign KnotVector.null k)) /\
  patch_ok h1 np /\
  NURBSPatch.Dim np = dim.

(** The direction that [SwapDirections(dir1, dir2)] moves to position [j]. *)
Definition swapped (dir1 dir2 j : Z) : Z :=
  if bool_decide (j = dir1) then dir2 else if bool_decide (j = dir2) then dir1 else j.

(** A 2D patch on the knot vectors [k0] and [k1] with [dim] components per
    control point and the control points [ctrl], built in the empty store. *)
Definition make_patch_2D (k0 k1 : KnotVector.t) (dim : Z) (ctrl : list real_t)
    : M NURBSPatch.t :=
  mbind (new_kv k0) (fun l0 =>
  mbind (new_kv k1) (fun l1 =>
  mbind (NURBSPatch.init [l0; l1] dim) (fun p =>
  mbind (for_loopM 0 (zlen ctrl)
           (fun i _ =>
              mbind (lift (rd ctrl i)) (fun x =>
              match NURBSPatch.data p with
              | Some d => buf_wr d i x
              | None => mfail OutOfBounds
              end))
           tt) (fun _ =>
  mret p)))).

(** A bilinear-by-linear surface of 2 x 3 control points with one component. *)
Definition surface_ctrl : list real_t :=
  [qc 1 1; qc 2 1; qc 3 1; qc 4 1; qc 5 1; qc 6 1].

Definition surface : M NURBSPatch.t := make_patch_2D kv_lin1 kv_lin2 1 surface_ctrl.

(** ** NURBSPatch::DegreeElevate(int) and NURBSPatch::MakeUniformDegree *)

(** The knot vector of [p] along direction [j] has order [o]. *)
Definition order_along (h : Store.t) (p : NURBSPatch.t) (j o : Z) : Prop :=
  exists l k, rd (NURBSPatch.kv p) j = Ok l /\ Store.kvs h !! l = Some k /\
    KnotVector.Order k = o.

(** [NURBSPatch::DegreeElevate(int t)]. The array [kv] has the same size
    after every round: [swap] takes over the array of a patch that the
    constructor has given one knot vector per direction of the old one. *)
Definition DegreeElevate_all (self : NURBSPatch.t) (t : Z) : M NURBSPatch.t :=
  for_loopM 0 (zlen (NURBSPatch.kv self))
    (fun dir self => NURBSPatch.DegreeElevate self dir t)
    self.

(** [NURBSPatch::MakeUniformDegree(int degree)]; the result is [maxd] and the
    patch. *)
Definition MakeUniformDegree (self : NURBSPatch.t) (degree : Z) : M (Z * NURBSPatch.t) :=
  mbind
    (if bool_decide (degree = -1) then
       for_loopM 0 (zlen (NURBSPatch.kv self))
         (fun dir maxd =>
            mbind (lift (rd (NURBSPatch.kv self) dir)) (fun l =>
            mbind (kv_load l) (fun k =>
            mret (Z.max maxd (KnotVector.GetOrder k)))))
         degree
     else mret degree) (fun maxd =>
  mbind
    (for_loopM 0 (zlen (NURBSPatch.kv self))
       (fun dir self =>
          mbind (lift (rd (NURBSPatch.kv self) dir)) (fun l =>
          mbind (kv_load l) (fun k =>
          if bool_decide (KnotVector.GetOrder k < maxd)
          then NURBSPatch.DegreeElevate self dir (maxd - KnotVector.GetOrder k)
          else mret self)))
       self) (fun self =>
  mret (maxd, self))).

(** A surface of order 1 in direction 0 and order 2 in direction 1, with
    2 x 4 control points of dimension 1. *)
Definition mixed : M NURBSPatch.t := make_patch_2D kv_lin1 kv_quad2 1 bent_ctrl.

(** The orders of the knot vectors of a patch, direction by direction. *)
Definition orders_of (h : Store.t) (p : NURBSPatch.t) : list (option Z) :=
  map (fun l => KnotVector.Order <$> Store.kvs h !! l) (NURBSPatch.kv p).
(** ** Generic facts about the loops and the arrays *)

Lemma rbind_ok {A B} (m : Res A) (k : A -> Res B) b :
  rbind m k = Ok b <-> exists a, m = Ok a /\ k a = Ok b.
Proof.
  destruct m as [a|e]; simpl; split.
  - intros H; eauto.
  - intros (a' & [= ->] & H); exact H.
  - discriminate.
  - intros (a' & [=] & _).
Qed.

Lemma for_iter_inv {St} (I : Z -> St -> Prop) (body : Z -> St -> Res St) n :
  forall i s,
    I i s ->
    (forall j s, i <= j < i + Z.of_nat n -> I j s ->
       exists s', body j s = Ok s' /\ I (j + 1) s') ->
    exists s', for_iter n i body s = Ok s' /\ I (i + Z.of_nat n) s'.
Proof.
  induction n as [|n IH]; intros i s Hi Hstep; simpl.
  - exists s. rewrite Z.add_0_r. auto.
  - destruct (Hstep i s) as (s1 & -> & H1); [lia | assumption |]. simpl.
    destruct (IH (i + 1) s1 H1) as (s2 & -> & H2).
    + intros j s' Hj. apply Hstep. lia.
    + exists s2. split; [reflexivity |].
      replace (i + Z.of_nat (S n)) with (i + 1 + Z.of_nat n) by lia. exact H2.
Qed.

Lemma for_loop_inv {St} (I : Z -> St -> Prop) lo hi (body : Z -> St -> Res St) s :
  lo <= hi ->
  I lo s ->
  (forall j s, lo <= j < hi -> I j s -> exists s', body j s = Ok s' /\ I (j + 1) s') ->
  exists s', for_loop lo hi body s = Ok s' /\ I hi s'.
Proof.
  intros Hle H0 Hstep. unfold for_loop.
  destruct (for_iter_inv I body (Z.to_nat (hi - lo)) lo s H0) as (s' & E & H').
  - intros j s0 Hj. apply Hstep. lia.
  - exists s'. split; [exact E |].
    replace hi with (lo + Z.of_nat (Z.to_nat (hi - lo))) by lia. exact H'.
Qed.

Lemma for_loop_empty {St} lo hi (body : Z -> St -> Res St) s :
  hi <= lo -> for_loop lo hi body s = Ok s.
Proof.
  intros H. unfold for_loop. replace (Z.to_nat (hi - lo)) with O by lia. reflexivity.
Qed.

Lemma for_iter_sound {St} (I : Z -> St -> Prop) (body : Z -> St -> Res St) n :
  forall i s s',
    I i s ->
    (forall j s s1, i <= j < i + Z.of_nat n -> I j s -> body j s = Ok s1 -> I (j + 1) s1) ->
    for_iter n i body s = Ok s' ->
    I (i + Z.of_nat n) s'.
Proof.
  induction n as [|n IH]; intros i s s' Hi Hstep E; simpl in E.
  - injection E as <-. rewrite Z.add_0_r. exact Hi.
  - destruct (body i s) as [s1|e] eqn:Eb; simpl in E; [| discriminate].
    replace (i + Z.of_nat (S n)) with (i + 1 + Z.of_nat n) by lia.
    apply (IH (i + 1) s1 s').
    + apply (Hstep i s s1); [lia | exact Hi | exact Eb].
    + intros j s0 s2 Hj. apply Hstep. lia.
    + exact E.
Qed.

(** Partial-correctness form of the loop invariant. *)
Lemma for_loop_sound {St} (I : Z -> St -> Prop) lo hi (body : Z -> St -> Res St) s s' :
  lo <= hi ->
  I lo s ->
  (forall j s s1, lo <= j < hi -> I j s -> body j s = Ok s1 -> I (j + 1) s1) ->
  for_loop lo hi body s = Ok s' ->
  I hi s'.
Proof.
  intros Hle H0 Hstep E. unfold for_loop in E.
  replace hi with (lo + Z.of_nat (Z.to_nat (hi - lo))) by lia.
  apply (for_iter_sound I body _ lo s s' H0); [| exact E].
  intros j s0 s1 Hj. apply Hstep. lia.
Qed.

(** An invariant that does not mention the loop counter. *)
Lemma for_loop_preserves {St} (P : St -> Prop) lo hi (body : Z -> St -> Res St) s s' :
  P s ->
  (forall j s s1, lo <= j < hi -> P s -> body j s = Ok s1 -> P s1) ->
  for_loop lo hi body s = Ok s' ->
  P s'.
Proof.
  intros H0 Hstep E. destruct (Z_le_gt_dec lo hi) as [Hle|Hgt].
  - apply (for_loop_sound (fun _ => P) lo hi body s s' Hle H0 Hstep E).
  - rewrite for_loop_empty in E by lia. injection E as <-. exact H0.
Qed.

Lemma rd_Ok {A} (v : list A) i x :
  rd v i = Ok x <-> 0 <= i /\ v !! Z.to_nat i = Some x.
Proof.
  unfold rd. case_bool_decide.
  - destruct (v !! Z.to_nat i) as [y|]; split.
    + intros [= ->]. auto.
    + intros [_ [= ->]]. reflexivity.
    + discriminate.
    + intros [_ [=]].
  - split; [discriminate | lia].
Qed.

Lemma rd_lookup {A} (v : list A) i x :
  0 <= i -> v !! Z.to_nat i = Some x -> rd v i = Ok x.
Proof. intros. apply rd_Ok. auto. Qed.

Lemma rd_in_range {A} (v : list A) i :
  0 <= i < zlen v -> exists x, rd v i = Ok x /\ v !! Z.to_nat i = Some x.
Proof.
  intros H. unfold zlen in H.
  destruct (lookup_lt_is_Some_2 v (Z.to_nat i)) as [x Hx]; [lia |].
  exists x. split; [apply rd_lookup; [lia | exact Hx] | exact Hx].
Qed.

Lemma wr_Ok {A} (v : list A) i x :
  0 <= i < zlen v -> wr v i x = Ok (<[Z.to_nat i := x]> v).
Proof. intros H. unfold wr. rewrite bool_decide_eq_true_2; auto. Qed.

Lemma wr_inv {A} (v : list A) i x v' :
  wr v i x = Ok v' -> 0 <= i < zlen v /\ v' = <[Z.to_nat i := x]> v.
Proof. unfold wr. case_bool_decide; [intros [= <-]; auto | discriminate]. Qed.

(** ** KnotVector: reading and writing knots *)

Lemma at_Ok kv i x :
  KnotVector.at_ kv i = Ok x <-> 0 <= i /\ KnotVector.knot kv !! Z.to_nat i = Some x.
Proof. apply rd_Ok. Qed.

Lemma at_in_range kv i :
  0 <= i < KnotVector.Size kv -> exists x, KnotVector.at_ kv i = Ok x.
Proof.
  intros H. destruct (rd_in_range (KnotVector.knot kv) i H) as (x & Hx & _). eauto.
Qed.

Lemma at_range kv i x :
  KnotVector.at_ kv i = Ok x -> 0 <= i < KnotVector.Size kv.
Proof.
  intros H. apply at_Ok in H as [H0 H1]. apply lookup_lt_Some in H1.
  unfold KnotVector.Size, zlen. lia.
Qed.

Lemma set_total kv i x :
  0 <= i < KnotVector.Size kv ->
  exists kv',
    KnotVector.set kv i x = Ok kv' /\
    KnotVector.knot kv' = <[Z.to_nat i := x]> (KnotVector.knot kv) /\
    KnotVector.Order kv' = KnotVector.Order kv /\
    KnotVector.NumOfControlPoints kv' = KnotVector.NumOfControlPoints kv /\
    KnotVector.NumOfElements kv' = KnotVector.NumOfElements kv /\
    KnotVector.coarse kv' = KnotVector.coarse kv /\
    KnotVector.spacing kv' = KnotVector.spacing kv /\
    KnotVector.Size kv' = KnotVector.Size kv.
Proof.
  intros H. unfold KnotVector.set. rewrite wr_Ok by exact H. simpl.
  eexists. split; [reflexivity |]. simpl. repeat split.
  unfold KnotVector.Size, zlen. simpl. rewrite length_insert. reflexivity.
Qed.

Lemma at_insert_eq kv kv' i x :
  0 <= i < KnotVector.Size kv ->
  KnotVector.knot kv' = <[Z.to_nat i := x]> (KnotVector.knot kv) ->
  KnotVector.at_ kv' i = Ok x.
Proof.
  intros H E. apply at_Ok. split; [lia |]. rewrite E.
  apply list_lookup_insert_eq. unfold KnotVector.Size, zlen in H. lia.
Qed.

Lemma at_insert_ne kv kv' i j x :
  0 <= i -> 0 <= j -> i <> j ->
  KnotVector.knot kv' = <[Z.to_nat i := x]> (KnotVector.knot kv) ->
  KnotVector.at_ kv' j = KnotVector.at_ kv j.
Proof.
  intros Hi Hj Hne E. unfold KnotVector.at_, rd. rewrite E.
  rewrite list_lookup_insert_ne by lia. reflexivity.
Qed.

Lemma at_neg kv i : i < 0 -> KnotVector.at_ kv i = Err OutOfBounds.
Proof.
  intros H. unfold KnotVector.at_, rd. rewrite bool_decide_eq_false_2 by lia. reflexivity.
Qed.

(** [GetElements] succeeds on a vector that holds the knots it reads. *)
Lemma count_elements_total kv :
  0 <= KnotVector.Order kv ->
  KnotVector.NumOfControlPoints kv + 1 <= KnotVector.Size kv ->
  exists n, KnotVector.count_elements kv = Ok n.
Proof.
  intros Hp Hs. unfold KnotVector.count_elements.
  destruct (Z_le_gt_dec (KnotVector.Order kv) (KnotVector.NumOfControlPoints kv)) as [Hle|Hgt].
  - destruct (for_loop_inv (fun _ _ => True) (KnotVector.Order kv)
                (KnotVector.NumOfControlPoints kv)
                (fun i n =>
                   a ← KnotVector.at_ kv i;
                   b ← KnotVector.at_ kv (i + 1);
                   Ok (if Qc_eqb a b then n else n + 1)) 0 Hle I) as (n & E & _).
    + intros j s Hj _.
      destruct (at_in_range kv j) as [a ->]; [lia |].
      destruct (at_in_range kv (j + 1)) as [b ->]; [lia |].
      simpl. eauto.
    + eauto.
  - rewrite for_loop_empty by lia. eauto.
Qed.

(** ** C10: equal lengths give an empty difference *)

(** C10. For two knot vectors of equal order whose knot arrays have the same
    length, [Difference] returns the empty vector, whatever the knot values
    are: the early return precedes every comparison. *)
Theorem Difference_equal_size_is_empty (eps : real_t) (a b : KnotVector.t) :
  KnotVector.Order a = KnotVector.Order b ->
  KnotVector.Size a = KnotVector.Size b ->
  KnotVector.Difference eps a b = Ok [].
Proof.
  intros Ho Hs. unfold KnotVector.Difference, KnotVector.GetOrder.
  rewrite bool_decide_eq_false_2 by (intros H; apply H; exact Ho). simpl.
  rewrite bool_decide_eq_false_2 by lia.
  rewrite bool_decide_eq_true_2 by lia. reflexivity.
Qed.

Lemma Difference_equal_size_is_empty_witness :
  KnotVector.knot kv_lin2 <> KnotVector.knot kv_lin2' /\
  KnotVector.Difference epsilon_double kv_lin2 kv_lin2' = Ok [].
Proof.
  split.
  - intros H. apply (f_equal (fun l => this <$> l)) in H. vm_compute in H. discriminate H.
  - apply (Difference_equal_size_is_empty epsilon_double kv_lin2 kv_lin2'); reflexivity.
Defined.

(** ** C2: KnotVector::DegreeElevate *)

(** C2, as stated, fails: on the order-1 vector [0 0 1/2 1 1] (two elements)
    elevation by 1 leaves the interior knot 1/2 with multiplicity 1 and adds
    one control point, not two. *)
Lemma DegreeElevate_as_specified_fails : ~ DegreeElevate_as_specified kv_lin2 1.
Proof.
  intros (kv' & E & _ & _ & Hncp).
  vm_compute in E. injection E as <-. vm_compute in Hncp. discriminate Hncp.
Qed.

Lemma DegreeElevate_interior_multiplicity_kept :
  exists kv', KnotVector.DegreeElevate kv_lin2 1 = Ok kv' /\
    interior_value kv_lin2 (qc 1 2) /\
    multiplicity (qc 1 2) (KnotVector.knot kv_lin2) = 1 /\
    multiplicity (qc 1 2) (KnotVector.knot kv') = 1.
Proof.
  eexists. split; [vm_compute; reflexivity |].
  split; [| split; vm_compute; reflexivity].
  split; [| split].
  - apply list_elem_of_lookup. exists 2%nat. reflexivity.
  - intros H. vm_compute in H. discriminate H.
  - intros H. vm_compute in H. discriminate H.
Qed.

Lemma set_step kv i x :
  0 <= i < KnotVector.Size kv ->
  exists kv',
    KnotVector.set kv i x = Ok kv' /\ kv_fields_like kv' kv /\
    KnotVector.at_ kv' i = Ok x /\
    (forall j, i <> j -> KnotVector.at_ kv' j = KnotVector.at_ kv j).
Proof.
  intros H. destruct (set_total kv i x H) as (kv' & E & Hk & Ho & Hn & _ & _ & _ & Hs).
  exists kv'. split; [exact E |]. split; [repeat split; assumption |]. split.
  - eapply at_insert_eq; eauto.
  - intros j Hne. destruct (Z_lt_ge_dec j 0) as [Hj|Hj].
    + rewrite !at_neg by lia. reflexivity.
    + eapply at_insert_ne; eauto; lia.
Qed.

Lemma Size_create order ncp :
  0 <= ncp + order + 1 ->
  KnotVector.Size (KnotVector.create order ncp) = ncp + order + 1.
Proof.
  intros H. unfold KnotVector.Size, KnotVector.create, zlen. simpl.
  rewrite length_replicate. lia.
Qed.

(** C2, amended. [DegreeElevate(t)] aborts for [t < 0]. For [t >= 0], on a
    knot vector with [Order+1 <= NumOfControlPoints] whose array has
    [NumOfControlPoints+Order+1] entries, it returns a vector of order
    [Order+t] with [NumOfControlPoints+t] control points: its first and its
    last [Order+t+1] entries are the first and the last old knot, and the
    entries at the interior indices [Order+1 .. NumOfControlPoints-1] are
    copied unchanged, so no interior multiplicity grows; the element count is
    recomputed by [GetElements]. *)
Theorem DegreeElevate_repeats_end_knots (kv : KnotVector.t) (t_ : Z) :
  (t_ < 0 -> exists msg, KnotVector.DegreeElevate kv t_ = Err (Abort msg)) /\
  (0 <= t_ ->
   well_sized kv ->
   0 <= KnotVector.Order kv ->
   KnotVector.Order kv + 1 <= KnotVector.NumOfControlPoints kv ->
   exists kv' k0 kl,
     KnotVector.at_ kv 0 = Ok k0 /\
     KnotVector.at_ kv (KnotVector.Size kv - 1) = Ok kl /\
     KnotVector.DegreeElevate kv t_ = Ok kv' /\
     KnotVector.Order kv' = KnotVector.Order kv + t_ /\
     KnotVector.NumOfControlPoints kv' = KnotVector.NumOfControlPoints kv + t_ /\
     KnotVector.Size kv' = KnotVector.Size kv + 2 * t_ /\
     (forall i, 0 <= i <= KnotVector.Order kv + t_ -> KnotVector.at_ kv' i = Ok k0) /\
     (forall i, KnotVector.Order kv + 1 <= i <= KnotVector.NumOfControlPoints kv - 1 ->
        KnotVector.at_ kv' (i + t_) = KnotVector.at_ kv i) /\
     (forall i, 0 <= i <= KnotVector.Order kv + t_ ->
        KnotVector.at_ kv' (KnotVector.NumOfControlPoints kv + t_ + i) = Ok kl) /\
     KnotVector.count_elements kv' = Ok (KnotVector.NumOfElements kv')).
Proof.
  split.
  { intros Ht. unfold KnotVector.DegreeElevate.
    rewrite bool_decide_eq_true_2 by exact Ht. simpl. eauto. }
  intros Ht Hws Hp Hn. unfold well_sized in Hws.
  set (p := KnotVector.Order kv) in *.
  set (n := KnotVector.NumOfControlPoints kv) in *.
  destruct (at_in_range kv 0) as [k0 Hk0]; [lia |].
  destruct (at_in_range kv (KnotVector.Size kv - 1)) as [kl Hkl]; [lia |].
  unfold KnotVector.DegreeElevate.
  rewrite bool_decide_eq_false_2 by lia. simpl.
  fold p. unfold KnotVector.GetNCP. fold n. rewrite Hk0. simpl.
  set (nk0 := KnotVector.create (p + t_) (n + t_)).
  assert (Hs0 : KnotVector.Size nk0 = n + t_ + (p + t_) + 1)
    by (apply Size_create; lia).
  pose (shape := fun nk : KnotVector.t =>
                   KnotVector.Order nk = p + t_ /\
                   KnotVector.NumOfControlPoints nk = n + t_ /\
                   KnotVector.Size nk = n + t_ + (p + t_) + 1).
  assert (Hsh0 : shape nk0) by (repeat split; assumption).
  (* first loop *)
  destruct (for_loop_inv
              (fun i nk => shape nk /\ forall k, 0 <= k < i -> KnotVector.at_ nk k = Ok k0)
              0 (p + t_ + 1) (fun i nk => KnotVector.set nk i k0) nk0)
    as (nk1 & -> & Hsh1 & H1).
  { lia. }
  { split; [exact Hsh0 | intros k Hk; lia]. }
  { intros j nk Hj [(Ho & Hc & Hs) Hin].
    destruct (set_step nk j k0) as (nk' & E & (Ho' & Hc' & Hs') & Heq & Hne); [lia |].
    exists nk'. split; [exact E |]. split; [unfold shape; lia |].
    intros k Hk. destruct (Z.eq_dec k j) as [->|Hkj]; [exact Heq |].
    rewrite Hne by lia. apply Hin. lia. }
  simpl. destruct Hsh1 as (Ho1 & Hc1 & Hs1). rewrite Hc1.
  (* second loop *)
  destruct (for_loop_inv
              (fun i nk => shape nk /\
                 (forall k, 0 <= k < p + t_ + 1 -> KnotVector.at_ nk k = Ok k0) /\
                 (forall k, p + t_ + 1 <= k < i ->
                    KnotVector.at_ nk k = KnotVector.at_ kv (k - t_)))
              (p + t_ + 1) (n + t_)
              (fun i nk => x ← KnotVector.at_ kv (i - t_); KnotVector.set nk i x) nk1)
    as (nk2 & -> & Hsh2 & H2a & H2b).
  { lia. }
  { split; [repeat split; assumption |]. split; [exact H1 | intros k Hk; lia]. }
  { intros j nk Hj [(Ho & Hc & Hs) [Ha Hb]].
    destruct (at_in_range kv (j - t_)) as [x Hx]; [lia |]. rewrite Hx. simpl.
    destruct (set_step nk j x) as (nk' & E & (Ho' & Hc' & Hs') & Heq & Hne); [lia |].
    exists nk'. split; [exact E |]. split; [unfold shape; lia |]. split.
    - intros k Hk. rewrite Hne by lia. apply Ha. lia.
    - intros k Hk. destruct (Z.eq_dec k j) as [->|Hkj]; [congruence |].
      rewrite Hne by lia. apply Hb. lia. }
  simpl. rewrite Hkl. simpl. destruct Hsh2 as (Ho2 & Hc2 & Hs2).
  (* third loop *)
  destruct (for_loop_inv
              (fun i nk => shape nk /\
                 (forall k, 0 <= k < p + t_ + 1 -> KnotVector.at_ nk k = Ok k0) /\
                 (forall k, p + t_ + 1 <= k < n + t_ ->
                    KnotVector.at_ nk k = KnotVector.at_ kv (k - t_)) /\
                 (forall k, n + t_ <= k < n + t_ + i -> KnotVector.at_ nk k = Ok kl))
              0 (p + t_ + 1)
              (fun i nk => KnotVector.set nk (KnotVector.NumOfControlPoints nk + i) kl) nk2)
    as (nk3 & -> & Hsh3 & H3a & H3b & H3c).
  { lia. }
  { split; [repeat split; assumption |]. split; [exact H2a |].
    split; [exact H2b | intros k Hk; lia]. }
  { intros j nk Hj [(Ho & Hc & Hs) (Ha & Hb & Hcc)].
    rewrite Hc.
    destruct (set_step nk (n + t_ + j) kl) as (nk' & E & (Ho' & Hc' & Hs') & Heq & Hne);
      [lia |].
    exists nk'. split; [exact E |]. split; [unfold shape; lia |]. split; [| split].
    - intros k Hk. rewrite Hne by lia. apply Ha. lia.
    - intros k Hk. rewrite Hne by lia. apply Hb. lia.
    - intros k Hk. destruct (Z.eq_dec k (n + t_ + j)) as [->|Hkj]; [exact Heq |].
      rewrite Hne by lia. apply Hcc. lia. }
  simpl. destruct Hsh3 as (Ho3 & Hc3 & Hs3).
  unfold KnotVector.GetElements.
  destruct (count_elements_total nk3) as [ne Hne]; [lia | lia |].
  rewrite Hne. simpl.
  eexists _, k0, kl. split; [reflexivity |]. split; [reflexivity |].
  split; [reflexivity |]. simpl.
  split; [exact Ho3 |]. split; [exact Hc3 |].
  split; [unfold KnotVector.Size in *; simpl; lia |].
  assert (Hat : forall i, KnotVector.at_
            {| KnotVector.knot := KnotVector.knot nk3;
               KnotVector.Order := KnotVector.Order nk3;
               KnotVector.NumOfControlPoints := KnotVector.NumOfControlPoints nk3;
               KnotVector.NumOfElements := ne;
               KnotVector.coarse := KnotVector.coarse nk3;
               KnotVector.spacing := KnotVector.spacing nk3 |} i = KnotVector.at_ nk3 i)
    by reflexivity.
  split; [intros i Hi; rewrite Hat; apply H3a; lia |].
  split; [intros i Hi; rewrite Hat, H3b by lia; f_equal; lia |].
  split; [intros i Hi; rewrite Hat; apply H3c; lia |].
  exact Hne.
Qed.

Lemma DegreeElevate_repeats_end_knots_witness :
  exists kv' k0 kl,
     KnotVector.at_ kv_lin2 0 = Ok k0 /\
     KnotVector.at_ kv_lin2 (KnotVector.Size kv_lin2 - 1) = Ok kl /\
     KnotVector.DegreeElevate kv_lin2 1 = Ok kv' /\
     KnotVector.Order kv' = KnotVector.Order kv_lin2 + 1 /\
     KnotVector.NumOfControlPoints kv' = KnotVector.NumOfControlPoints kv_lin2 + 1 /\
     KnotVector.Size kv' = KnotVector.Size kv_lin2 + 2 * 1 /\
     (forall i, 0 <= i <= KnotVector.Order kv_lin2 + 1 -> KnotVector.at_ kv' i = Ok k0) /\
     (forall i, KnotVector.Order kv_lin2 + 1 <= i <= KnotVector.NumOfControlPoints kv_lin2 - 1 ->
        KnotVector.at_ kv' (i + 1) = KnotVector.at_ kv_lin2 i) /\
     (forall i, 0 <= i <= KnotVector.Order kv_lin2 + 1 ->
        KnotVector.at_ kv' (KnotVector.NumOfControlPoints kv_lin2 + 1 + i) = Ok kl) /\
     KnotVector.count_elements kv' = Ok (KnotVector.NumOfElements kv').
Proof.
  apply (proj2 (DegreeElevate_repeats_end_knots kv_lin2 1)).
  - lia.
  - reflexivity.
  - vm_compute. discriminate.
  - vm_compute. discriminate.
Defined.

(** ** C4: partition of unity of CalcShape *)

Lemma sum_first_snoc (n : nat) (v : list real_t) x :
  v !! n = Some x -> sum_first (S n) v = (sum_first n v + x)%Qc.
Proof.
  unfold sum_first. revert v. induction n as [|n IH]; intros [|y v] H; try discriminate.
  - simpl in H. injection H as ->. destruct v; cbn; ring.
  - simpl in H. simpl. rewrite (IH v H). ring.
Qed.

Lemma sum_first_ext (n : nat) (v w : list real_t) :
  (forall k, (k < n)%nat -> v !! k = w !! k) -> sum_first n v = sum_first n w.
Proof.
  unfold sum_first. intros H. f_equal. apply list_eq. intros k.
  destruct (decide (k < n)%nat) as [Hk|Hk].
  - rewrite !lookup_take_lt by exact Hk. apply H. exact Hk.
  - rewrite !lookup_take_ge by lia. reflexivity.
Qed.

Lemma sum_first_insert_ge (n k : nat) (v : list real_t) x :
  (n <= k)%nat -> sum_first n (<[k := x]> v) = sum_first n v.
Proof.
  intros H. apply sum_first_ext. intros i Hi. apply list_lookup_insert_ne. lia.
Qed.

Lemma Qc_gap_nonzero (a b u : Qc) : (b < a)%Qc -> ((a - u) + (u - b))%Qc <> Q2Qc 0.
Proof.
  intros Hlt H. apply (Qclt_not_eq _ _ Hlt).
  transitivity (b + ((a - u) + (u - b)))%Qc; [rewrite H; ring | ring].
Qed.

Lemma nondecreasing_at kv i j x y :
  nondecreasing (KnotVector.knot kv) -> i <= j ->
  KnotVector.at_ kv i = Ok x -> KnotVector.at_ kv j = Ok y -> (x <= y)%Qc.
Proof.
  intros Hs Hij Hx Hy. apply at_Ok in Hx as [Hi Hx]. apply at_Ok in Hy as [Hj Hy].
  apply (Hs (Z.to_nat i) (Z.to_nat j)); [lia | assumption | assumption].
Qed.

(** C4. On a knot vector with non-decreasing knots and order at most
    [MaxOrder], for a span that is an element (mirrored spans are addressed
    by [-1 - e]) and any local parameter, the [Order+1] values that
    [CalcShape] leaves in [shape] sum to 1. The arithmetic is exact; the
    location [u] that [getKnotLocation] returns is arbitrary. *)
Theorem CalcShape_partition_of_unity
    (getKnotLocation : KnotVector.t -> real_t -> Z -> Res real_t)
    (kv : KnotVector.t) (shape : list real_t) (i : Z) (xi u : real_t) :
  let p := KnotVector.Order kv in
  let e := if bool_decide (0 <= i) then i else -1 - i in
  well_sized kv ->
  0 <= p <= KnotVector.MaxOrder ->
  nondecreasing (KnotVector.knot kv) ->
  p + 1 <= zlen shape ->
  0 <= e < KnotVector.GetNKS kv ->
  KnotVector.isElement kv e = Ok true ->
  getKnotLocation kv (if bool_decide (0 <= i) then xi else (1 - xi)%Qc) (e + p) = Ok u ->
  exists shape',
    CalcShape getKnotLocation kv shape i xi = Ok shape' /\
    sum_first (Z.to_nat (p + 1)) shape' = Q2Qc 1.
Proof.
  intros p e Hws Hp Hsorted Hlen He Helem Hu.
  unfold well_sized in Hws. unfold KnotVector.GetNKS in He. fold p in Hws, He.
  set (n := KnotVector.NumOfControlPoints kv) in *.
  unfold CalcShape. fold p.
  assert (Hip : (if bool_decide (0 <= i) then i + p else -1 - i + p) = e + p).
  { unfold e. case_bool_decide; lia. }
  rewrite Hip, Hu. simpl.
  set (ip := e + p) in *.
  (* the two knots of the span differ *)
  unfold KnotVector.isElement in Helem. fold p in Helem.
  destruct (at_in_range kv ip) as [ka Hka]; [unfold ip; lia |].
  destruct (at_in_range kv (ip + 1)) as [kb Hkb]; [unfold ip; lia |].
  replace (p + e) with ip in Helem by (unfold ip; lia).
  rewrite Hka, Hkb in Helem. simpl in Helem. injection Helem as Hneq.
  apply negb_true_iff in Hneq. unfold Qc_eqb in Hneq. apply bool_decide_eq_false in Hneq.
  assert (Hlt : (ka < kb)%Qc).
  { destruct (Qcle_lt_or_eq ka kb) as [H|H]; [| exact H | contradiction].
    apply (nondecreasing_at kv ip (ip + 1) ka kb Hsorted); [lia | exact Hka | exact Hkb]. }
  pose (K := fun k => match KnotVector.at_ kv k with Ok x => x | Err _ => Q2Qc 0 end).
  assert (HK : forall k, 0 <= k < KnotVector.Size kv -> KnotVector.at_ kv k = Ok (K k)).
  { intros k Hk. unfold K. destruct (at_in_range kv k Hk) as [x ->]. reflexivity. }
  assert (Hgap : forall lo hi, 0 <= lo <= ip -> ip + 1 <= hi < KnotVector.Size kv ->
                   (K lo < K hi)%Qc).
  { intros lo hi Hlo Hhi.
    apply Qcle_lt_trans with ka.
    - eapply nondecreasing_at; [exact Hsorted | | apply HK | exact Hka]; lia.
    - apply Qclt_le_trans with kb; [exact Hlt |].
      eapply nondecreasing_at; [exact Hsorted | | exact Hkb | apply HK]; lia. }
  rewrite wr_Ok by (unfold zlen in *; lia). simpl.
  set (sh0 := <[Z.to_nat 0 := Q2Qc 1]> shape).
  set (z11 := replicate (Z.to_nat (KnotVector.MaxOrder + 1)) (Q2Qc 0)).
  assert (Hz11 : zlen z11 = KnotVector.MaxOrder + 1).
  { unfold z11, zlen. rewrite length_replicate. unfold KnotVector.MaxOrder. lia. }
  pose (Outer := fun (j : Z) (st : list real_t * list real_t * list real_t) =>
     let '(sh, lf, rg) := st in
     zlen sh = zlen shape /\ zlen lf = KnotVector.MaxOrder + 1 /\
     zlen rg = KnotVector.MaxOrder + 1 /\
     (forall k, 1 <= k < j -> rd lf k = Ok (u - K (ip + 1 - k)%Z)%Qc /\
                              rd rg k = Ok (K (ip + k)%Z - u)%Qc) /\
     sum_first (Z.to_nat j) sh = Q2Qc 1).
  match goal with
  | |- context [for_loop 1 (p + 1) ?body ?init] =>
      destruct (for_loop_inv Outer 1 (p + 1) body init) as ([[sh lf] rg] & -> & HO)
  end.
  { lia. }
  { unfold Outer. split; [unfold sh0, zlen; rewrite length_insert; reflexivity |].
    split; [exact Hz11 |]. split; [exact Hz11 |]. split; [intros k Hk; lia |].
    change (Z.to_nat 1) with 1%nat. rewrite (sum_first_snoc 0 sh0 (Q2Qc 1)).
    - unfold sum_first. rewrite take_0. simpl. ring.
    - unfold sh0. apply list_lookup_insert_eq. unfold zlen in Hlen. simpl. lia. }
  { intros j [[sh lf] rg] Hj (Hsl & Hll & Hrl & Hlr & Hsum).
    rewrite (HK (ip + 1 - j)%Z) by (unfold ip; lia). simpl.
    rewrite wr_Ok by (unfold KnotVector.MaxOrder in *; lia). simpl.
    rewrite (HK (ip + j)%Z) by (unfold ip; lia). simpl.
    rewrite wr_Ok by (unfold KnotVector.MaxOrder in *; lia). simpl.
    set (lf' := <[Z.to_nat j := (u - K (ip + 1 - j)%Z)%Qc]> lf).
    set (rg' := <[Z.to_nat j := (K (ip + j)%Z - u)%Qc]> rg).
    assert (Hlr' : forall k, 1 <= k < j + 1 ->
                     rd lf' k = Ok (u - K (ip + 1 - k)%Z)%Qc /\
                     rd rg' k = Ok (K (ip + k)%Z - u)%Qc).
    { intros k Hk. destruct (Z.eq_dec k j) as [->|Hkj].
      - split; apply rd_lookup; try lia; unfold lf', rg';
          apply list_lookup_insert_eq; unfold zlen, KnotVector.MaxOrder in *; lia.
      - destruct (Hlr k) as [Hl Hr]; [lia |].
        apply rd_Ok in Hl as [_ Hl]. apply rd_Ok in Hr as [_ Hr].
        split; apply rd_lookup; try lia; unfold lf', rg';
          rewrite list_lookup_insert_ne by lia; assumption. }
    pose (Inner := fun (r : Z) (st : list real_t * real_t) =>
       let '(sh', saved) := st in
       zlen sh' = zlen shape /\
       (forall k : nat, (Z.to_nat r <= k)%nat -> sh' !! k = sh !! k) /\
       (sum_first (Z.to_nat r) sh' + saved)%Qc = sum_first (Z.to_nat r) sh).
    match goal with
    | |- context [for_loop 0 j ?body ?init] =>
        destruct (for_loop_inv Inner 0 j body init) as ([sh' saved] & -> & HI)
    end.
    { lia. }
    { unfold Inner. split; [exact Hsl |]. split; [reflexivity |]. ring. }
    { intros r [sh' saved] Hr (Hsl' & Hun & Hs).
      destruct (rd_in_range sh' r) as (sr & -> & Hsr); [lia |]. simpl.
      destruct (Hlr' (r + 1)) as [_ ->]; [lia |]. simpl.
      destruct (Hlr' (j - r)) as [-> _]; [lia |]. simpl.
      rewrite wr_Ok by lia. simpl. eexists. split; [reflexivity |].
      unfold Inner. split; [unfold zlen in *; rewrite length_insert; exact Hsl' |].
      split.
      - intros k Hk. rewrite list_lookup_insert_ne by lia. apply Hun. lia.
      - replace (Z.to_nat (r + 1)) with (S (Z.to_nat r)) by lia.
        rewrite (sum_first_snoc _ _ (saved + (K (ip + (r + 1))%Z - u) *
                   (sr / (K (ip + (r + 1))%Z - u + (u - K (ip + 1 - (j - r))%Z))))%Qc).
        2:{ apply list_lookup_insert_eq. unfold zlen in *. lia. }
        rewrite sum_first_insert_ge by lia.
        rewrite (sum_first_snoc _ sh sr).
        2:{ rewrite <- Hun by lia. exact Hsr. }
        rewrite <- Hs.
        assert (Hd : (K (ip + (r + 1))%Z - u + (u - K (ip + 1 - (j - r))%Z))%Qc <> Q2Qc 0).
        { apply Qc_gap_nonzero. apply Hgap; unfold ip; lia. }
        field. exact Hd. }
    simpl. destruct HI as (Hsl' & Hun & Hs).
    rewrite wr_Ok by lia. simpl. eexists. split; [reflexivity |].
    unfold Outer. split; [unfold zlen in *; rewrite length_insert; exact Hsl' |].
    split; [unfold lf', zlen in *; rewrite length_insert; exact Hll |].
    split; [unfold rg', zlen in *; rewrite length_insert; exact Hrl |].
    split; [exact Hlr' |].
    replace (Z.to_nat (j + 1)) with (S (Z.to_nat j)) by lia.
    rewrite (sum_first_snoc _ _ saved).
    2:{ apply list_lookup_insert_eq. unfold zlen in *. lia. }
    rewrite sum_first_insert_ge by lia. rewrite Hs. exact Hsum. }
  simpl. destruct HO as (_ & _ & _ & _ & Hsum).
  eexists. split; [reflexivity | exact Hsum].
Qed.

Lemma nondecreasing_cons_inv x ks :
  nondecreasing (x :: ks) -> nondecreasing ks /\ forall y, y ∈ ks -> (x <= y)%Qc.
Proof.
  intros H. split.
  - intros i j a b Hij Ha Hb. apply (H (S i) (S j) a b); [lia | exact Ha | exact Hb].
  - intros y Hy. apply list_elem_of_lookup in Hy as [k Hk].
    apply (H 0%nat (S k) x y); [lia | reflexivity | exact Hk].
Qed.

Lemma nondecreasing_cons x ks :
  nondecreasing ks -> (forall y, y ∈ ks -> (x <= y)%Qc) -> nondecreasing (x :: ks).
Proof.
  intros Hs Hx i j a b Hij Ha Hb. destruct i as [|i], j as [|j]; simpl in *.
  - injection Ha as <-. injection Hb as <-. apply Qcle_refl.
  - injection Ha as <-. apply Hx. apply list_elem_of_lookup. eauto.
  - lia.
  - apply (Hs i j a b); [lia | exact Ha | exact Hb].
Qed.

Lemma nondecreasingb_sound ks : nondecreasingb ks = true -> nondecreasing ks.
Proof.
  induction ks as [|x ks IH]; intros H.
  - intros i j a b _ Ha. rewrite lookup_nil in Ha. discriminate.
  - destruct ks as [|y ks'].
    + apply nondecreasing_cons; [| intros y Hy; inversion Hy].
      intros i j a b _ Ha. rewrite lookup_nil in Ha. discriminate.
    + simpl in H. apply andb_true_iff in H as [Hxy Hrest].
      unfold Qc_leb in Hxy. apply bool_decide_eq_true in Hxy.
      specialize (IH Hrest). apply nondecreasing_cons; [exact IH |].
      intros z Hz. apply elem_of_cons in Hz as [->|Hz]; [exact Hxy |].
      apply Qcle_trans with y; [exact Hxy |].
      apply (proj2 (nondecreasing_cons_inv y ks' IH)). exact Hz.
Qed.

Lemma CalcShape_partition_of_unity_witness :
  exists shape',
    CalcShape getKnotLocation kv_quad2 (replicate 3 (Q2Qc 0)) 1 (qc 1 3) = Ok shape' /\
    sum_first (Z.to_nat (KnotVector.Order kv_quad2 + 1)) shape' = Q2Qc 1.
Proof.
  apply (CalcShape_partition_of_unity getKnotLocation kv_quad2 (replicate 3 (Q2Qc 0)) 1
           (qc 1 3) (qc 2 3)).
  - reflexivity.
  - vm_compute. split; discriminate.
  - apply nondecreasingb_sound. vm_compute. reflexivity.
  - vm_compute. discriminate.
  - vm_compute. split; [discriminate | reflexivity].
  - vm_compute. reflexivity.
  - vm_compute. f_equal. apply Qc_is_canon. reflexivity.
Defined.

(** ** C6: boundary element DOF tables *)

Example Generate3DBdrElementDofTable_face0_Hdiv :
  (fun t => (fun c => (from c, to c)) <$> NURBSExtension.bel_dof_list t) <$>
    (match NURBSExtension.Generate3DBdrElementDofTable p2g_face DofMap_id (ext_face H_DIV)
     with Ok t => Some t | Err _ => None end)
  = Some [(0, -1); (0, -2); (0, -3); (0, -4)].
Proof. vm_compute. reflexivity. Qed.

Example Generate3DBdrElementDofTable_face0_Hcurl :
  (fun t => (fun c => (from c, to c)) <$> NURBSExtension.bel_dof_list t) <$>
    (match NURBSExtension.Generate3DBdrElementDofTable p2g_face DofMap_id (ext_face H_CURL)
     with Ok t => Some t | Err _ => None end)
  = Some [].
Proof. vm_compute. reflexivity. Qed.

Example Generate2DBdrElementDofTable_Hcurl :
  (fun t => (fun c => (from c, to c)) <$> NURBSExtension.bel_dof_list t) <$>
    (match NURBSExtension.Generate2DBdrElementDofTable p2g_face DofMap_id (ext_face H_CURL)
     with Ok t => Some t | Err _ => None end)
  = Some [].
Proof. vm_compute. reflexivity. Qed.

(** C6, as stated, fails: in H(div) mode the 3D table keeps the DOFs of a
    face both of whose orders equal the maximal order. *)
Lemma omits_faces_of_maximal_order_fails :
  exists tbl,
    NURBSExtension.Generate3DBdrElementDofTable p2g_face DofMap_id (ext_face H_DIV) = Ok tbl /\
    ~ omits_faces_of_maximal_order p2g_face (ext_face H_DIV) tbl.
Proof.
  eexists. split; [vm_compute; reflexivity |].
  intros H.
  apply (H eq_refl (mkConnection 0 (-1)) 0
           (NURBSExtension.mkBdrPatchDofMap [kv_lin1; kv_lin1] [1; 1] 1 1
              (fun i => Ok i) (fun i j => Ok (i + 2 * j))) kv_lin1 1).
  - apply list_elem_of_lookup. exists 0%nat. reflexivity.
  - reflexivity.
  - reflexivity.
  - reflexivity.
  - reflexivity.
  - reflexivity.
Qed.

Ltac inv_bind H :=
  repeat match type of H with
         | rbind _ _ = Ok _ =>
             let x := fresh "x" in
             let E := fresh "E" in
             apply rbind_ok in H as (x & E & H)
         | (let '(_, _) := ?p in _) = Ok _ => destruct p
         | match ?p with (_, _) => _ end = Ok _ => destruct p
         end.

Lemma bdr_flags_2D_spec ext b ord0 add s :
  NURBSExtension.bdr_flags_2D ext b ord0 = Ok (add, s) ->
  (add = true ->
     NURBSExtension.mode ext <> H_1 ->
     exists mx, NURBSExtension.Max (NURBSExtension.mOrders ext) = Ok mx /\ ord0 <> mx) /\
  bool_decide (s = -1) = sign_flipped_2D ext b.
Proof.
  unfold NURBSExtension.bdr_flags_2D, sign_flipped_2D.
  destruct (NURBSExtension.mode ext); intros H.
  - injection H as <- <-. split; [intros _ Hm; contradiction | reflexivity].
  - apply rbind_ok in H as (mx & Emx & H). injection H as <- <-. split.
    + intros Ha _. exists mx. split; [exact Emx |]. case_bool_decide; [discriminate | assumption].
    + repeat case_bool_decide; try reflexivity; lia.
  - apply rbind_ok in H as (mx & Emx & H). injection H as <- <-. split.
    + intros Ha _. exists mx. split; [exact Emx |]. case_bool_decide; [discriminate | assumption].
    + reflexivity.
Qed.

Lemma bdr_flags_3D_spec ext b ord0 ord1 add s :
  NURBSExtension.bdr_flags_3D ext b ord0 ord1 = Ok (add, s) ->
  (add = true ->
     match NURBSExtension.mode ext with
     | H_DIV => ord0 = ord1
     | H_CURL => ord0 <> ord1
     | H_1 => True
     end) /\
  bool_decide (s = -1) = sign_flipped_3D ext b.
Proof.
  unfold NURBSExtension.bdr_flags_3D, sign_flipped_3D.
  destruct (NURBSExtension.mode ext); intros H; injection H as <- <-.
  - split; [trivial | reflexivity].
  - split.
    + case_bool_decide; simpl; [trivial | discriminate].
    + repeat case_bool_decide; try reflexivity; lia.
  - split; [case_bool_decide; [discriminate | trivial] | reflexivity].
Qed.

Section BdrTables.

Variable ext : NURBSExtension.t.
Variable included : NURBSExtension.t -> Z -> Connection -> Prop.

Lemma listed_listing b lbe lst b2p : listed ext included lbe lst b2p -> listing ext included b lbe lst b2p.
Proof. intros [H0 H]. split; [exact H0 |]. intros c Hc. left. apply H. exact Hc. Qed.

Lemma listing_listed b lbe lst b2p b2p' :
  0 <= b < NURBSExtension.GetNBP ext ->
  listing ext included b lbe lst b2p -> wr b2p lbe b = Ok b2p' ->
  listed ext included (lbe + 1) lst b2p'.
Proof.
  intros Hb [H0 H] Hw. apply wr_inv in Hw as [Hr ->]. split; [lia |].
  intros c Hc. destruct (H c Hc) as [(Hf & b' & Hb' & Hrd & Hin) | (Hf & Hin)].
  - split; [lia |]. exists b'. split; [exact Hb' |]. split; [| exact Hin].
    apply rd_Ok in Hrd as [_ Hrd]. apply rd_lookup; [lia |].
    rewrite list_lookup_insert_ne by lia. exact Hrd.
  - split; [lia |]. exists b. split; [exact Hb |]. split; [| exact Hin].
    rewrite Hf. apply rd_lookup; [lia |]. apply list_lookup_insert_eq.
    unfold zlen in Hr. lia.
Qed.

Lemma listing_snoc b lbe lst b2p c :
  listing ext included b lbe lst b2p -> from c = lbe -> included ext b c ->
  listing ext included b lbe (lst ++ [c]) b2p.
Proof.
  intros [H0 H] Hf Hin. split; [exact H0 |]. intros c' Hc'.
  apply elem_of_app in Hc' as [Hc'|Hc'].
  - apply H. exact Hc'.
  - apply list_elem_of_singleton in Hc'. subst c'. right. auto.
Qed.

End BdrTables.

Lemma Generate2DBdrElementDofTable_entries SetB DofMap ext tbl :
  NURBSExtension.Generate2DBdrElementDofTable SetB DofMap ext = Ok tbl ->
  table_entries ext (included_2D SetB DofMap) tbl.
Proof.
  intros H. unfold NURBSExtension.Generate2DBdrElementDofTable in H.
  apply rbind_ok in H as ([[[[gbe lbe] lst] b2p] ijk] & E & H).
  injection H as <-. unfold table_entries. simpl.
  pose (P := fun st : Z * Z * list Connection * list Z * Array2D.t Z =>
               let '(_, lbe, lst, b2p, _) := st in
               listed ext (included_2D SetB DofMap) lbe lst b2p).
  assert (HP : P (gbe, lbe, lst, b2p, ijk)).
  { revert E. apply for_loop_preserves.
    - split; [lia | intros c Hc; inversion Hc].
    - clear. intros b [[[[gbe lbe] lst] b2p] ijk] st1 Hb HP Hbody.
      apply rbind_ok in Hbody as (p2g & Ep2g & Hbody).
      apply rbind_ok in Hbody as (kv0 & Ekv0 & Hbody).
      apply rbind_ok in Hbody as (okv0 & Eokv0 & Hbody).
      apply rbind_ok in Hbody as ([add s] & Eflags & Hbody).
      apply bdr_flags_2D_spec in Eflags as [Hadd Hs].
      revert Hbody. apply for_loop_preserves; [exact HP |].
      clear gbe lbe lst b2p ijk HP st1.
      intros i [[[[gbe lbe] lst] b2p] ijk] st1 Hi HP Hbody.
      apply rbind_ok in Hbody as (el & Eel & Hbody).
      destruct el; [| injection Hbody as <-; exact HP].
      apply rbind_ok in Hbody as (act & Eact & Hbody).
      apply rbind_ok in Hbody as ([[[lbe' lst'] b2p'] ijk'] & Hin & Hbody).
      injection Hbody as <-. simpl.
      destruct act; [| injection Hin as <- <- <- <-; exact HP].
      apply rbind_ok in Hin as (lst1 & Elst & Hin).
      apply rbind_ok in Hin as (b2p1 & Eb2p & Hin).
      apply rbind_ok in Hin as (ijk1 & Eijk & Hin).
      injection Hin as <- <- <- <-.
      apply (listing_listed ext (included_2D SetB DofMap) b lbe lst1 b2p);
        [exact Hb | | exact Eb2p].
      destruct add; [| injection Elst as <-; apply listed_listing; exact HP].
      revert Elst.
      apply (for_loop_preserves (fun l => listing ext (included_2D SetB DofMap) b lbe l b2p)).
      + apply listed_listing. exact HP.
      + intros ii l l1 Hii Hl Hstep.
        apply rbind_ok in Hstep as (g & Eg & Hstep).
        apply rbind_ok in Hstep as (dof & Edof & Hstep).
        injection Hstep as <-.
        apply listing_snoc; [exact Hl | reflexivity |].
        exists p2g, kv0. eexists. exists g, dof. simpl.
        split; [exact Ep2g |]. split; [exact Ekv0 |]. split; [exact Eg |].
        split; [exact Edof |]. split; [apply Hadd; reflexivity |].
        rewrite <- Hs. reflexivity. }
  destruct HP as [_ HP]. intros c Hc. apply (HP c Hc).
Qed.

Lemma Generate3DBdrElementDofTable_entries SetB DofMap ext tbl :
  NURBSExtension.Generate3DBdrElementDofTable SetB DofMap ext = Ok tbl ->
  table_entries ext (included_3D SetB DofMap) tbl.
Proof.
  intros H. unfold NURBSExtension.Generate3DBdrElementDofTable in H.
  apply rbind_ok in H as ([[[[gbe lbe] lst] b2p] ijk] & E & H).
  injection H as <-. unfold table_entries. simpl.
  pose (P := fun st : Z * Z * list Connection * list Z * Array2D.t Z =>
               let '(_, lbe, lst, b2p, _) := st in
               listed ext (included_3D SetB DofMap) lbe lst b2p).
  assert (HP : P (gbe, lbe, lst, b2p, ijk)).
  { revert E. apply for_loop_preserves.
    - split; [lia | intros c Hc; inversion Hc].
    - clear. intros b [[[[gbe lbe] lst] b2p] ijk] st1 Hb HP Hbody.
      apply rbind_ok in Hbody as (p2g & Ep2g & Hbody).
      apply rbind_ok in Hbody as (kv0 & Ekv0 & Hbody).
      apply rbind_ok in Hbody as (kv1 & Ekv1 & Hbody).
      apply rbind_ok in Hbody as (okv0 & Eokv0 & Hbody).
      apply rbind_ok in Hbody as (okv1 & Eokv1 & Hbody).
      apply rbind_ok in Hbody as ([add s] & Eflags & Hbody).
      apply bdr_flags_3D_spec in Eflags as [Hadd Hs].
      revert Hbody. apply for_loop_preserves; [exact HP |].
      clear gbe lbe lst b2p ijk HP st1.
      intros j st0 st1 Hj HP Hbody.
      apply rbind_ok in Hbody as (elj & Eelj & Hbody).
      destruct elj; [| injection Hbody as <-; exact HP].
      revert Hbody. apply for_loop_preserves; [exact HP |].
      clear st0 HP st1.
      intros i [[[[gbe lbe] lst] b2p] ijk] st1 Hi HP Hbody.
      apply rbind_ok in Hbody as (el & Eel & Hbody).
      destruct el; [| injection Hbody as <-; exact HP].
      apply rbind_ok in Hbody as (act & Eact & Hbody).
      apply rbind_ok in Hbody as ([[[lbe' lst'] b2p'] ijk'] & Hin & Hbody).
      injection Hbody as <-. simpl.
      destruct act; [| injection Hin as <- <- <- <-; exact HP].
      apply rbind_ok in Hin as (lst1 & Elst & Hin).
      apply rbind_ok in Hin as (b2p1 & Eb2p & Hin).
      apply rbind_ok in Hin as (ijk1 & Eijk & Hin).
      apply rbind_ok in Hin as (ijk2 & Eijk2 & Hin).
      injection Hin as <- <- <- <-.
      apply (listing_listed ext (included_3D SetB DofMap) b lbe lst1 b2p);
        [exact Hb | | exact Eb2p].
      destruct add; [| injection Elst as <-; apply listed_listing; exact HP].
      revert Elst.
      apply (for_loop_preserves (fun l => listing ext (included_3D SetB DofMap) b lbe l b2p)).
      + apply listed_listing. exact HP.
      + intros jj l l1 Hjj Hl.
        apply (for_loop_preserves
                 (fun l => listing ext (included_3D SetB DofMap) b lbe l b2p));
          [exact Hl |].
        clear l l1 Hl. intros ii l l1 Hii Hl Hstep.
        apply rbind_ok in Hstep as (g & Eg & Hstep).
        apply rbind_ok in Hstep as (dof & Edof & Hstep).
        injection Hstep as <-.
        apply listing_snoc; [exact Hl | reflexivity |].
        exists p2g, kv0, kv1. do 2 eexists. exists g, dof. simpl.
        split; [exact Ep2g |]. split; [exact Ekv0 |]. split; [exact Ekv1 |].
        split; [exact Eg |]. split; [exact Edof |].
        split; [apply Hadd; reflexivity |].
        rewrite <- Hs. reflexivity. }
  destruct HP as [_ HP]. intros c Hc. apply (HP c Hc).
Qed.

(** C6, amended. Every connection of the boundary tables belongs to a
    boundary patch that passes the test of its mode: in the 2D table, in
    H(div) and in H(curl) mode alike, the order of the patch differs from the
    maximal order; in the 3D table the two orders of the face are equal in
    H(div) mode and different in H(curl) mode. The connection holds
    [-1 - dof] exactly in H(div) mode on face 0 or 2 (2D) and on face 0, 1 or
    4 (3D), and the plain [dof] in every other case, H(curl) included. *)
Theorem bdr_tables_omit_and_flip SetB DofMap (ext : NURBSExtension.t)
    (tbl : NURBSExtension.BdrElementDofTable) :
  (NURBSExtension.Generate2DBdrElementDofTable SetB DofMap ext = Ok tbl ->
   table_entries ext (included_2D SetB DofMap) tbl) /\
  (NURBSExtension.Generate3DBdrElementDofTable SetB DofMap ext = Ok tbl ->
   table_entries ext (included_3D SetB DofMap) tbl).
Proof.
  split.
  - apply Generate2DBdrElementDofTable_entries.
  - apply Generate3DBdrElementDofTable_entries.
Qed.

Lemma bdr_tables_omit_and_flip_witness :
  exists tbl,
    NURBSExtension.Generate3DBdrElementDofTable p2g_face DofMap_id (ext_face H_DIV) = Ok tbl /\
    table_entries (ext_face H_DIV) (included_3D p2g_face DofMap_id) tbl.
Proof.
  eexists. split.
  - vm_compute. reflexivity.
  - apply (proj2 (bdr_tables_omit_and_flip p2g_face DofMap_id (ext_face H_DIV) _)).
    vm_compute. reflexivity.
Defined.

(** ** C5: GenerateOffsets *)

(** C5 at the failing input. Two 1D patches with 3 and 5 control points:
    [GenerateOffsets] sizes both patch ranges by knot vector 0, so the second
    patch starts at 4 and [NumOfDofs] is 5, while the DOF map of the second
    patch, which uses the patch's own knot vector, has 3 interior DOFs from
    offset 4: its range [4, 7) leaves [0, NumOfDofs). *)
Theorem GenerateOffsets_1D_sizes_every_patch_by_knot_vector_0 :
  exists ext1 ext2 m,
    NURBSExtension.CreateComprehensiveKV epsilon_double ext_two_segments = Ok ext1 /\
    NURBSExtension.GenerateOffsets ext1 = Ok ext2 /\
    NURBSExtension.p_spaceOffsets ext2 = [3; 4] /\
    NURBSExtension.NumOfDofs ext2 = 5 /\
    NURBSExtension.SetPatchDofMap ext2 1 = Ok m /\
    NURBSExtension.I_ m = 3 /\
    NURBSExtension.pOffset m = 4 /\
    NURBSExtension.NumOfDofs ext2 < NURBSExtension.pOffset m + NURBSExtension.I_ m.
Proof.
  do 3 eexists.
  split; [vm_compute; reflexivity |].
  split; [vm_compute; reflexivity |].
  split; [reflexivity |].
  split; [reflexivity |].
  split; [vm_compute; reflexivity |].
  split; [reflexivity |].
  split; [reflexivity |].
  vm_compute. reflexivity.
Qed.

(** ** C7: ConsistentKVSets *)

(** C7 at the failing input. The comprehensive knot vector of direction 0
    has the same order and length as the unique knot vector of its edge but
    a different interior knot; [ConsistentKVSets] returns true, and
    [UpdateUniqueKV] completes and leaves both sets as they were. *)
Theorem ConsistentKVSets_accepts_different_knots :
  exists ku kc ext1 ext2,
    NURBSExtension.KnotVec ext_quad_mismatch 0 = Ok ku /\
    rd (NURBSExtension.knotVectorsCompr ext_quad_mismatch) 0 = Ok kc /\
    NURBSExtension.CheckKVDirection ext_quad_mismatch 0 = Ok [1; 1] /\
    KnotVector.Order ku = KnotVector.Order kc /\
    KnotVector.knot ku <> KnotVector.knot kc /\
    NURBSExtension.ConsistentKVSets epsilon_double ext_quad_mismatch = Ok (true, ext1) /\
    NURBSExtension.UpdateUniqueKV epsilon_double ext_quad_mismatch = Ok ext2 /\
    NURBSExtension.knotVectors ext2 = NURBSExtension.knotVectors ext_quad_mismatch /\
    NURBSExtension.knotVectorsCompr ext2 = NURBSExtension.knotVectorsCompr ext_quad_mismatch.
Proof.
  do 4 eexists.
  split; [vm_compute; reflexivity |].
  split; [vm_compute; reflexivity |].
  split; [vm_compute; reflexivity |].
  split; [reflexivity |].
  split.
  { intros H. apply (f_equal (fun l => this <$> l)) in H. vm_compute in H. discriminate H. }
  split; [vm_compute; reflexivity |].
  split; [vm_compute; reflexivity |].
  split; reflexivity.
Qed.

(** ** Reasoning about computations on the store *)

Lemma returns_ret {A} (a : A) h (Q : A -> Store.t -> Prop) :
  Q a h -> returns (mret a) h Q.
Proof. intros H. exists a, h. split; [reflexivity | exact H]. Qed.

Lemma returns_bind {A B} (m : M A) (k : A -> M B) h (Q : B -> Store.t -> Prop) :
  returns m h (fun a h' => returns (k a) h' Q) -> returns (mbind m k) h Q.
Proof.
  intros (a & h' & E & b & h'' & E' & H). exists b, h''. split; [| exact H].
  unfold mbind. rewrite E. exact E'.
Qed.

Lemma returns_lift {A} (r : Res A) a h (Q : A -> Store.t -> Prop) :
  r = Ok a -> Q a h -> returns (lift r) h Q.
Proof. intros -> H. exists a, h. split; [reflexivity | exact H]. Qed.

Lemma returns_weaken {A} (m : M A) h (Q Q' : A -> Store.t -> Prop) :
  returns m h Q -> (forall a h', Q a h' -> Q' a h') -> returns m h Q'.
Proof. intros (a & h' & E & H) HQ. exists a, h'. split; [exact E | apply HQ; exact H]. Qed.

Lemma returns_for_iter {St} (I : Z -> St -> Store.t -> Prop) (body : Z -> St -> M St) n :
  forall i s h,
    I i s h ->
    (forall j s h, i <= j < i + Z.of_nat n -> I j s h -> returns (body j s) h (I (j + 1))) ->
    returns (for_iterM n i body s) h (I (i + Z.of_nat n)).
Proof.
  induction n as [|n IH]; intros i s h Hi Hstep; simpl.
  - apply returns_ret. rewrite Z.add_0_r. exact Hi.
  - apply returns_bind. eapply returns_weaken; [apply (Hstep i s h); [lia | exact Hi] |].
    intros s1 h1 H1. simpl in H1.
    replace (i + Z.of_nat (S n)) with (i + 1 + Z.of_nat n) by lia.
    apply IH; [exact H1 |]. intros j s' h' Hj. apply Hstep. lia.
Qed.

Lemma returns_for {St} (I : Z -> St -> Store.t -> Prop) lo hi (body : Z -> St -> M St) s h
    (Q : St -> Store.t -> Prop) :
  lo <= hi ->
  I lo s h ->
  (forall j s h, lo <= j < hi -> I j s h -> returns (body j s) h (I (j + 1))) ->
  (forall s h, I hi s h -> Q s h) ->
  returns (for_loopM lo hi body s) h Q.
Proof.
  intros Hle H0 Hstep HQ. unfold for_loopM.
  eapply returns_weaken.
  - apply (returns_for_iter I body (Z.to_nat (hi - lo)) lo s h H0).
    intros j s' h' Hj. apply Hstep. lia.
  - intros s' h' H'. apply HQ.
    replace hi with (lo + Z.of_nat (Z.to_nat (hi - lo))) by lia. exact H'.
Qed.




(** *** The primitives *)

Lemma returns_kv_load l kv h (Q : KnotVector.t -> Store.t -> Prop) :
  Store.kvs h !! l = Some kv -> Q kv h -> returns (kv_load l) h Q.
Proof.
  intros E H. exists kv, h. split; [| exact H]. unfold kv_load. rewrite E. reflexivity.
Qed.

Lemma returns_kv_at l kv i x h (Q : real_t -> Store.t -> Prop) :
  Store.kvs h !! l = Some kv -> KnotVector.at_ kv i = Ok x -> Q x h ->
  returns (kv_at l i) h Q.
Proof.
  intros E Ex H. unfold kv_at. apply returns_bind. apply (returns_kv_load l kv); [exact E |].
  apply (returns_lift _ x); [exact Ex | exact H].
Qed.

Lemma returns_buf_rd l b i x h (Q : real_t -> Store.t -> Prop) :
  Store.bufs h !! l = Some b -> rd b i = Ok x -> Q x h -> returns (buf_rd l i) h Q.
Proof.
  intros E Ex H. exists x, h. split; [| exact H]. unfold buf_rd. rewrite E, Ex. reflexivity.
Qed.

Lemma returns_buf_wr l b i x h (Q : unit -> Store.t -> Prop) :
  Store.bufs h !! l = Some b -> 0 <= i < zlen b ->
  Q tt (Store.mk (<[l := <[Z.to_nat i := x]> b]> (Store.bufs h)) (Store.kvs h)) ->
  returns (buf_wr l i x) h Q.
Proof.
  intros E Hi H. eexists tt, _. split; [| exact H].
  unfold buf_wr. rewrite E, wr_Ok by exact Hi. reflexivity.
Qed.

(** ** C8: the precondition check of KnotRemove *)

Lemma multiplicity_nil u : multiplicity u [] = 0.
Proof. reflexivity. Qed.

Lemma multiplicity_cons u x ks :
  multiplicity u (x :: ks) = (if bool_decide (x = u) then 1 else 0) + multiplicity u ks.
Proof.
  unfold multiplicity, zlen. rewrite filter_cons. case_bool_decide as H.
  - rewrite decide_True by exact H. simpl. lia.
  - rewrite decide_False by exact H. lia.
Qed.

Lemma multiplicity_app u ks ks' :
  multiplicity u (ks ++ ks') = multiplicity u ks + multiplicity u ks'.
Proof.
  induction ks as [|x ks IH]; [rewrite multiplicity_nil; simpl; lia |].
  simpl. rewrite !multiplicity_cons, IH. lia.
Qed.

Lemma multiplicity_nonneg u ks : 0 <= multiplicity u ks.
Proof. unfold multiplicity, zlen. lia. Qed.

Lemma multiplicity_take_S u ks (n : nat) x :
  ks !! n = Some x ->
  multiplicity u (take (S n) ks) =
  multiplicity u (take n ks) + (if bool_decide (x = u) then 1 else 0).
Proof.
  intros H. rewrite (take_S_r ks n x H), multiplicity_app, multiplicity_cons,
    multiplicity_nil. lia.
Qed.

Lemma multiplicity_zero u ks : multiplicity u ks = 0 <-> u ∉ ks.
Proof.
  induction ks as [|x ks IH].
  - split; [intros _ H; inversion H | reflexivity].
  - rewrite multiplicity_cons, not_elem_of_cons. pose proof (multiplicity_nonneg u ks).
    case_bool_decide as Hx; split.
    + lia.
    + intros [Hne _]. congruence.
    + intros H0. split; [congruence | apply IH; lia].
    + intros [_ Hn]. apply IH in Hn. lia.
Qed.

(** The scan finds the index of the last occurrence, or -1, and the
    multiplicity. *)
Lemma find_knot_spec l okv u h :
  Store.kvs h !! l = Some okv ->
  exists id m,
    NURBSPatch.find_knot l u h = (Ok (id, m), h) /\
    m = multiplicity u (KnotVector.knot okv) /\
    -1 <= id < KnotVector.Size okv /\
    (m = 0 -> id = -1) /\
    (0 <= id -> KnotVector.at_ okv id = Ok u) /\
    (forall k, id < k -> KnotVector.at_ okv k <> Ok u).
Proof.
  intros E. unfold NURBSPatch.find_knot.
  set (ks := KnotVector.knot okv).
  pose (J := fun (n : Z) (st : Z * Z) (h' : Store.t) =>
               h' = h /\
               st.2 = multiplicity u (take (Z.to_nat n) ks) /\
               -1 <= st.1 < n /\
               (st.2 = 0 -> st.1 = -1) /\
               (0 <= st.1 -> KnotVector.at_ okv st.1 = Ok u) /\
               (forall k, st.1 < k < n -> KnotVector.at_ okv k <> Ok u)).
  assert (R : returns (NURBSPatch.find_knot l u) h
                (fun st h' => J (KnotVector.Size okv) st h')).
  { unfold NURBSPatch.find_knot. apply returns_bind.
    apply (returns_kv_load l okv); [exact E |].
    apply (returns_for J).
    - unfold KnotVector.Size, zlen. lia.
    - unfold J. simpl. split; [reflexivity |]. split; [reflexivity |].
      split; [lia |]. split; [reflexivity |]. split; [lia | intros k Hk; lia].
    - intros j [id m] h' Hj (-> & Hm & Hid & H0 & Hat & Hno). simpl in *.
      destruct (at_in_range okv j Hj) as [x Hx].
      apply returns_bind. apply (returns_kv_at l okv j x); [exact E | exact Hx |].
      apply returns_ret.
      assert (Hlk : ks !! Z.to_nat j = Some x) by (apply at_Ok in Hx; tauto).
      unfold J. split; [reflexivity |].
      replace (Z.to_nat (j + 1)) with (S (Z.to_nat j)) by lia.
      rewrite (multiplicity_take_S u ks _ x Hlk).
      pose proof (multiplicity_nonneg u (take (Z.to_nat j) ks)) as Hnn.
      unfold Qc_eqb. case_bool_decide as Hxu; simpl.
      + split; [lia |]. split; [lia |]. split; [lia |].
        split; [intros _; rewrite Hx, Hxu; reflexivity |].
        intros k Hk. lia.
      + split; [lia |]. split; [lia |]. split; [intros Hz; apply H0; lia |].
        split; [exact Hat |].
        intros k Hk. destruct (Z.eq_dec k j) as [->|Hkj].
        * rewrite Hx. intros [= Hc]. contradiction.
        * apply Hno. lia.
    - intros st h' H. exact H. }
  destruct R as ([id m] & h' & Efk & (-> & Hm & Hid & H0 & Hat & Hno)). simpl in *.
  exists id, m. split; [exact Efk |].
  split.
  { rewrite Hm. f_equal. apply take_ge. unfold KnotVector.Size, zlen. fold ks. lia. }
  split; [exact Hid |]. split; [exact H0 |]. split; [exact Hat |].
  intros k Hk. destruct (Z_lt_ge_dec k (KnotVector.Size okv)) as [Hlt|Hge].
  - apply Hno. lia.
  - intros Hc. apply at_range in Hc. lia.
Qed.

Lemma mbind_Ok {A B} (m : M A) (k : A -> M B) h a h' :
  m h = (Ok a, h') -> mbind m k h = k a h'.
Proof. intros E. unfold mbind. rewrite E. reflexivity. Qed.

Lemma mbind_Err {A B} (m : M A) (k : A -> M B) h e h' :
  m h = (Err e, h') -> mbind m k h = (Err e, h').
Proof. intros E. unfold mbind. rewrite E. reflexivity. Qed.

(** X1. [KnotRemove(dir, knot, ntimes, tol)] rejects a removal count above
    the multiplicity of the knot, a value that is not a knot, and the value
    of the last knot: the precondition check aborts with the store
    untouched. *)
Theorem KnotRemove_rejects (self : NURBSPatch.t) (dir : Z) (knot : real_t) (ntimes : Z)
    (tol : real_t) (h : Store.t) (l : positive) (okv : KnotVector.t) :
  rd (NURBSPatch.kv self) dir = Ok l ->
  Store.kvs h !! l = Some okv ->
  multiplicity knot (KnotVector.knot okv) < ntimes \/
  knot ∉ KnotVector.knot okv \/
  KnotVector.at_ okv (KnotVector.Size okv - 1) = Ok knot ->
  NURBSPatch.KnotRemove self dir knot ntimes tol h =
  (Err (Abort "Only interior knots of sufficient multiplicity may be removed."), h).
Proof.
  intros Hl Hk Hbad.
  assert (Hdir : 0 <= dir < zlen (NURBSPatch.kv self)).
  { apply rd_Ok in Hl as [H0 H1]. apply lookup_lt_Some in H1. unfold zlen. lia. }
  destruct (find_knot_spec l okv knot h Hk) as (id & m & Efk & Hm & Hid & H0 & Hat & Hno).
  unfold NURBSPatch.KnotRemove.
  rewrite bool_decide_eq_false_2 by lia.
  erewrite mbind_Ok by reflexivity.
  erewrite mbind_Ok by (unfold lift; rewrite Hl; reflexivity).
  erewrite mbind_Ok by exact Efk. cbv beta iota.
  erewrite mbind_Ok by (unfold kv_load; rewrite Hk; reflexivity).
  apply mbind_Err. unfold lift. f_equal.
  assert (Hc : bool_decide (0 < id) && bool_decide (id < KnotVector.Size okv - 1)
               && bool_decide (ntimes <= m) = false).
  { destruct Hbad as [Hlt | [Hnot | Hlast]].
    - rewrite (bool_decide_eq_false_2 (ntimes <= m)) by lia.
      rewrite andb_false_r. reflexivity.
    - apply multiplicity_zero in Hnot. rewrite <- Hm in Hnot.
      rewrite (bool_decide_eq_false_2 (0 < id)) by (rewrite H0 by exact Hnot; lia).
      reflexivity.
    - assert (id = KnotVector.Size okv - 1).
      { destruct (Z_lt_ge_dec id (KnotVector.Size okv - 1)) as [Hlt|Hge]; [| lia].
        exfalso. apply (Hno _ Hlt). exact Hlast. }
      rewrite (bool_decide_eq_false_2 (id < KnotVector.Size okv - 1)) by lia.
      rewrite andb_false_r. reflexivity. }
  rewrite Hc. reflexivity.
Qed.

Lemma KnotRemove_rejects_witness :
  (run_on curve (fun p => NURBSPatch.KnotRemove p 0 (qc 1 2) 2 (qc 1 100))).1 =
  Err (Abort "Only interior knots of sufficient multiplicity may be removed.").
Proof.
  unfold run_on.
  destruct (curve Store.empty) as [r h] eqn:E.
  assert (E' : curve Store.empty = (r, h)) by exact E.
  vm_compute in E. injection E as <- <-.
  unfold mbind at 1. rewrite E'.
  match goal with
  | |- (NURBSPatch.KnotRemove ?p 0 ?u 2 ?tol ?h).1 = _ =>
      rewrite (KnotRemove_rejects p 0 u 2 tol h 1%positive kv_quad2)
  end.
  - reflexivity.
  - reflexivity.
  - reflexivity.
  - left. vm_compute. reflexivity.
Defined.

(** C8 at the failing input. The value of the first knot is not an interior
    knot, but its last occurrence sits at index [Order], so the check
    [0 < id && id < Size - 1 && ntimes <= multiplicity] passes: the temporary
    patch is allocated and the first pass reads [slice(-1, ll)]. *)
Theorem KnotRemove_accepts_first_knot :
  (run_on curve (fun p => NURBSPatch.find_knot 1%positive (qc 0 1))).1 = Ok (2, 3) /\
  (run_on curve (fun p => NURBSPatch.KnotRemove p 0 (qc 0 1) 1 (qc 1 100))).1 =
    Err OutOfBounds /\
  size (Store.bufs (run_on curve
                      (fun p => NURBSPatch.KnotRemove p 0 (qc 0 1) 1 (qc 1 100))).2) = 2%nat.
Proof.
  split; [vm_compute; reflexivity |].
  split; vm_compute; reflexivity.
Qed.

(** ** The loop direction of a well-formed patch *)

Lemma slice_index_range p sd n q i j :
  walks p sd n q -> 0 <= i < n -> 0 <= j < sd * q ->
  0 <= NURBSPatch.slice_index p i j < sd * n * q.
Proof.
  intros (Hsd & Hnd & H1 & H2 & H3) Hi Hj. unfold NURBSPatch.slice_index.
  rewrite Hsd, Hnd. rewrite Z.rem_mod_nonneg, Z.quot_div_nonneg by lia.
  pose proof (Z.mod_pos_bound j sd H1) as Hm.
  assert (Hd : 0 <= j / sd < q).
  { split; [apply Z.div_pos; lia |]. apply Z.div_lt_upper_bound; lia. }
  set (a := j mod sd) in *. set (d := j / sd) in *.
  assert (0 <= i + d * n <= n * q - 1) by nia.
  nia.
Qed.

Lemma SetLoopDirection_spec h p dir l k :
  patch_ok h p ->
  rd (NURBSPatch.kv p) dir = Ok l ->
  Store.kvs h !! l = Some k ->
  let sd := (stride p dir).1 in
  let q := (stride p dir).2 in
  exists size,
  (forall h', NURBSPatch.SetLoopDirection p dir h' =
     (Ok (size, NURBSPatch.set_loop p sd (KnotVector.NumOfControlPoints k) size), h')) /\
  size = sd * q /\
  total p = sd * KnotVector.NumOfControlPoints k * q /\
  0 < sd /\ 0 < q /\ 0 < KnotVector.NumOfControlPoints k.
Proof.
  intros (HD & _ & He) Hl Hk sd q. unfold extents_ok in He.
  unfold sd, q, stride, total, NURBSPatch.SetLoopDirection.
  apply rd_Ok in Hl as [Hd0 Hl].
  destruct (NURBSPatch.kv p) as [|l0 [|l1 [|l2 [|l3 ls]]]] eqn:Ekv; try contradiction.
  - destruct He as (k0 & Hk0 & Hni & Hni0 & Hnj & Hnk).
    destruct (Z.to_nat dir) as [|d] eqn:Ed; simpl in Hl; [| destruct d; discriminate].
    injection Hl as <-. assert (dir = 0) by lia. subst dir.
    rewrite Hk0 in Hk. injection Hk as <-.
    rewrite Hnj. simpl. eexists. split; [intros h'; rewrite <- Hni; reflexivity |]. lia.
  - destruct He as (k0 & k1 & Hk0 & Hk1 & Hni & Hni0 & Hnj & Hnj0 & Hnk).
    rewrite (bool_decide_eq_false_2 (NURBSPatch.nj p = -1)) by lia.
    rewrite Hnk. simpl.
    destruct (Z.to_nat dir) as [|[|d]] eqn:Ed; simpl in Hl; try discriminate.
    + injection Hl as <-. assert (dir = 0) by lia. subst dir.
      rewrite Hk0 in Hk. injection Hk as <-. simpl.
      eexists. split; [intros h'; rewrite <- Hni; reflexivity |]. nia.
    + injection Hl as <-. assert (dir = 1) by lia. subst dir.
      rewrite Hk1 in Hk. injection Hk as <-. simpl.
      eexists. split; [intros h'; rewrite <- Hnj; reflexivity |]. nia.
  - destruct He as (k0 & k1 & k2 & Hk0 & Hk1 & Hk2 & Hni & Hni0 & Hnj & Hnj0 & Hnk & Hnk0).
    rewrite (bool_decide_eq_false_2 (NURBSPatch.nj p = -1)) by lia.
    rewrite (bool_decide_eq_false_2 (NURBSPatch.nk p = -1)) by lia.
    destruct (Z.to_nat dir) as [|[|[|d]]] eqn:Ed; simpl in Hl; try discriminate.
    + injection Hl as <-. assert (dir = 0) by lia. subst dir.
      rewrite Hk0 in Hk. injection Hk as <-. simpl.
      eexists. split; [intros h'; rewrite <- Hni; reflexivity |]. nia.
    + injection Hl as <-. assert (dir = 1) by lia. subst dir.
      rewrite Hk1 in Hk. injection Hk as <-. simpl.
      eexists. split; [intros h'; rewrite <- Hnj; reflexivity |]. nia.
    + injection Hl as <-. assert (dir = 2) by lia. subst dir.
      rewrite Hk2 in Hk. injection Hk as <-. simpl.
      eexists. split; [intros h'; rewrite <- Hnk; reflexivity |]. nia.
Qed.

Lemma kv_positions h p j l :
  extents_ok h p -> 0 <= j -> NURBSPatch.kv p !! Z.to_nat j = Some l ->
  exists k, Store.kvs h !! l = Some k /\
            KnotVector.NumOfControlPoints k = extent_at p j /\
            0 < KnotVector.NumOfControlPoints k.
Proof.
  intros He Hj Hl. unfold extents_ok in He. unfold extent_at.
  destruct (NURBSPatch.kv p) as [|l0 [|l1 [|l2 [|l3 ls]]]] eqn:Ekv; try contradiction.
  - destruct He as (k0 & Hk0 & Hni & Hni0 & Hnj & Hnk).
    destruct (Z.to_nat j) as [|d] eqn:Ed; simpl in Hl; [| destruct d; discriminate].
    injection Hl as <-. exists k0. rewrite bool_decide_eq_true_2 by lia.
    split; [exact Hk0 | lia].
  - destruct He as (k0 & k1 & Hk0 & Hk1 & Hni & Hni0 & Hnj & Hnj0 & Hnk).
    destruct (Z.to_nat j) as [|[|d]] eqn:Ed; simpl in Hl; try discriminate.
    + injection Hl as <-. exists k0. rewrite bool_decide_eq_true_2 by lia.
      split; [exact Hk0 | lia].
    + injection Hl as <-. exists k1. rewrite bool_decide_eq_false_2 by lia.
      rewrite bool_decide_eq_true_2 by lia. split; [exact Hk1 | lia].
  - destruct He as (k0 & k1 & k2 & Hk0 & Hk1 & Hk2 & Hni & Hni0 & Hnj & Hnj0 & Hnk & Hnk0).
    destruct (Z.to_nat j) as [|[|[|d]]] eqn:Ed; simpl in Hl; try discriminate.
    + injection Hl as <-. exists k0. rewrite bool_decide_eq_true_2 by lia.
      split; [exact Hk0 | lia].
    + injection Hl as <-. exists k1. rewrite bool_decide_eq_false_2 by lia.
      rewrite bool_decide_eq_true_2 by lia. split; [exact Hk1 | lia].
    + injection Hl as <-. exists k2. rewrite bool_decide_eq_false_2 by lia.
      rewrite bool_decide_eq_false_2 by lia. split; [exact Hk2 | lia].
Qed.

Lemma kv_count h p : extents_ok h p -> 1 <= zlen (NURBSPatch.kv p) <= 3.
Proof.
  unfold extents_ok, zlen.
  destruct (NURBSPatch.kv p) as [|l0 [|l1 [|l2 [|l3 ls]]]]; simpl; intros H;
    try contradiction; lia.
Qed.

Lemma returns_new_kv kv h (Q : positive -> Store.t -> Prop) :
  (forall l, Store.kvs h !! l = None ->
     Q l (Store.mk (Store.bufs h) (<[l := kv]> (Store.kvs h)))) ->
  returns (new_kv kv) h Q.
Proof.
  intros H. eexists _, _. split; [reflexivity |]. apply H.
  apply not_elem_of_dom. apply is_fresh.
Qed.

Lemma returns_new_buf n h (Q : positive -> Store.t -> Prop) :
  0 <= n ->
  (forall l, Store.bufs h !! l = None ->
     Q l (Store.mk (<[l := replicate (Z.to_nat n) filler]> (Store.bufs h)) (Store.kvs h))) ->
  returns (new_buf n) h Q.
Proof.
  intros Hn H. eexists _, _. split.
  - unfold new_buf. rewrite bool_decide_eq_true_2 by exact Hn. reflexivity.
  - apply H. apply not_elem_of_dom. apply is_fresh.
Qed.

Lemma create_from_kvs h p dir order ncp :
  extents_ok h p ->
  returns
    (for_loopM 0 (zlen (NURBSPatch.kv p))
       (fun i kvs =>
          if negb (bool_decide (i = dir)) then
            mbind (lift (rd (NURBSPatch.kv p) i)) (fun l =>
            mbind (NURBSPatch.copy_kv l) (fun l' => mret (kvs ++ [l'])))
          else
            mbind (new_kv (KnotVector.create order ncp)) (fun l' => mret (kvs ++ [l'])))
       []) h
    (fun acc hc => zlen acc = zlen (NURBSPatch.kv p) /\ kv_built h p dir order ncp acc hc).
Proof.
  intros He.
  apply (returns_for (fun i acc hc => zlen acc = i /\ kv_built h p dir order ncp acc hc)).
  - unfold zlen. lia.
  - split; [reflexivity |]. split; [reflexivity |]. split; [constructor |].
    split; [reflexivity |]. split; [intros l Hl; inversion Hl |].
    intros j l' Hj. rewrite lookup_nil in Hj. discriminate.
  - intros j acc hc Hj [Hlen (Hb & Hnd & Hout & Hin & Hpos)].
    assert (Hstep : forall kn l',
              Store.kvs hc !! l' = None ->
              (j = dir -> kn = KnotVector.create order ncp) ->
              KnotVector.NumOfControlPoints kn =
                (if bool_decide (j = dir) then ncp else extent_at p j) ->
              zlen (acc ++ [l']) = j + 1 /\
              kv_built h p dir order ncp (acc ++ [l'])
                (Store.mk (Store.bufs hc) (<[l' := kn]> (Store.kvs hc)))).
    { intros kn l' Hfresh Hcreate Hncp.
      assert (Hnotin : l' ∉ acc).
      { intros Hc. apply list_elem_of_lookup in Hc as [i Hi].
        destruct (Hpos i l' Hi) as (k' & Hk' & _). congruence. }
      split; [unfold zlen in *; rewrite length_app; simpl; lia |].
      split; [exact Hb |]. split.
      { apply NoDup_app. split; [exact Hnd |]. split; [| apply NoDup_singleton].
        intros x Hx Hx'. apply list_elem_of_singleton in Hx'. subst x. contradiction. }
      split.
      { intros l Hl. simpl. rewrite not_elem_of_app in Hl. destruct Hl as [Hl1 Hl2].
        rewrite list_elem_of_singleton in Hl2.
        rewrite lookup_insert_ne by congruence. apply Hout. exact Hl1. }
      split.
      { intros l Hl. apply elem_of_app in Hl as [Hl|Hl]; [apply Hin; exact Hl |].
        apply list_elem_of_singleton in Hl. subst l. rewrite <- Hout by exact Hnotin.
        exact Hfresh. }
      intros i l0 Hi. simpl.
      destruct (decide (i < length acc)%nat) as [Hlt|Hge].
      - rewrite lookup_app_l in Hi by exact Hlt.
        destruct (Hpos i l0 Hi) as (k' & Hk' & Hc' & Hn').
        exists k'. split; [| split; assumption].
        rewrite lookup_insert_ne; [exact Hk' |]. intros ->.
        apply Hnotin. apply list_elem_of_lookup. eauto.
      - rewrite lookup_app_r in Hi by lia.
        destruct (i - length acc)%nat as [|d] eqn:Ed; simpl in Hi; [| discriminate].
        injection Hi as <-. exists kn. rewrite lookup_insert_eq.
        assert (Z.of_nat i = j) by (unfold zlen in Hlen; lia).
        split; [reflexivity |]. split; [intros Hd; apply Hcreate; lia |].
        rewrite Hncp. repeat case_bool_decide; try lia; congruence. }
    case_bool_decide as Hd; simpl.
    + apply returns_bind. apply returns_new_kv. intros l' Hfresh.
      apply returns_ret. apply Hstep; [exact Hfresh | reflexivity |].
      try rewrite bool_decide_eq_true_2 by exact Hd. reflexivity.
    + destruct (rd_in_range (NURBSPatch.kv p) j Hj) as (l & Hrd & Hl).
      destruct (kv_positions h p j l He ltac:(lia) Hl) as (k & Hk & Hn & Hpos0).
      apply returns_bind. apply (returns_lift _ l); [exact Hrd |].
      apply returns_bind. unfold NURBSPatch.copy_kv. apply returns_bind.
      assert (Hlacc : l ∉ acc).
      { intros Hc. apply Hin in Hc. congruence. }
      apply (returns_kv_load l k); [rewrite Hout by exact Hlacc; exact Hk |].
      apply returns_new_kv. intros l' Hfresh. apply returns_ret.
      apply Hstep; [exact Hfresh | intros; contradiction |].
      try rewrite bool_decide_eq_false_2 by exact Hd. simpl. exact Hn.
  - intros acc hc H. exact H.
Qed.
Ltac bd_in H :=
  repeat first [rewrite bool_decide_eq_true_2 in H by lia
               | rewrite bool_decide_eq_false_2 in H by lia].
Ltac bd_goal :=
  repeat first [rewrite bool_decide_eq_true_2 by lia
               | rewrite bool_decide_eq_false_2 by lia].

Lemma create_from_spec h p dir order ncp l :
  patch_ok h p ->
  rd (NURBSPatch.kv p) dir = Ok l ->
  0 < ncp ->
  returns (NURBSPatch.create_from p dir order ncp) h (created h p dir order ncp).
Proof.
  intros (HD & Hbuf & He) Hl Hncp.
  unfold NURBSPatch.create_from. apply returns_bind.
  eapply returns_weaken; [apply (create_from_kvs h p dir order ncp He) |].
  intros acc hc [Hlen (Hb & Hnd & Hout & Hin & Hpos)]. simpl.
  apply rd_Ok in Hl as [Hd0 Hl].
  assert (Hposz : forall j l', 0 <= j -> acc !! Z.to_nat j = Some l' ->
            exists k', Store.kvs hc !! l' = Some k' /\
              (j = dir -> k' = KnotVector.create order ncp) /\
              KnotVector.NumOfControlPoints k' =
                (if bool_decide (j = dir) then ncp else extent_at p j)).
  { intros j l' Hj Hlk. destruct (Hpos _ _ Hlk) as (k' & H1 & H2 & H3).
    rewrite Z2Nat.id in H2, H3 by exact Hj. eauto. }
  unfold extents_ok in He. unfold zlen in Hlen.
  destruct (NURBSPatch.kv p) as [|l0 [|l1 [|l2 [|l3 ls]]]] eqn:Ekv; try contradiction;
    simpl in Hlen.
  - destruct acc as [|a0 [|a1 acc]]; simpl in Hlen; try lia.
    destruct He as (k0 & Hk0 & Hni & Hni0 & Hnj & Hnk).
    destruct (Z.to_nat dir) as [|d] eqn:Ed; simpl in Hl; [| destruct d; discriminate].
    assert (dir = 0) by lia. subst dir.
    destruct (Hposz 0 a0 ltac:(lia) eq_refl) as (k0' & Hk0' & Hc0 & Hn0).
    rewrite bool_decide_eq_true_2 in Hn0 by reflexivity.
    unfold NURBSPatch.init. apply returns_bind. apply (returns_kv_load a0 k0'); [exact Hk0' |].
    apply returns_bind. unfold KnotVector.GetNCP. rewrite Hn0.
    apply returns_new_buf; [nia |]. intros lt Hlt. apply returns_ret.
    unfold created, patch_ok, extents_ok, total, stride. simpl.
    rewrite Ekv. rewrite Hb in *.
    split; [exists lt; split; [reflexivity |]; split; [exact Hlt | reflexivity] |].
    split; [exact Hnd |]. split; [exact Hout |].
    split; [intros l' Hl'; split; [apply Hin; exact Hl' |];
            apply list_elem_of_singleton in Hl'; subst l'; eauto |].
    split; [exists a0; split; [reflexivity | rewrite Hk0', Hc0 by reflexivity; reflexivity] |].
    split; [| split; [reflexivity |]; split; [reflexivity |]; split; [reflexivity |]].
    + split; [exact HD |]. split.
      * exists lt. eexists. split; [reflexivity |]. split; [apply lookup_insert_eq |].
        unfold zlen. rewrite length_replicate. nia.
      * exists k0'. split; [exact Hk0' |]. split; [lia |]. split; [lia |]. split; reflexivity.
    + intros j Hj. unfold zlen in Hj. simpl in Hj. assert (j = 0) as -> by lia.
      unfold extent_at. simpl. bd_goal. reflexivity.
  - destruct acc as [|a0 [|a1 [|a2 acc]]]; simpl in Hlen; try lia.
    destruct He as (k0 & k1 & Hk0 & Hk1 & Hni & Hni0 & Hnj & Hnj0 & Hnk).
    destruct (Hposz 0 a0 ltac:(lia) eq_refl) as (k0' & Hk0' & Hc0 & Hn0).
    destruct (Hposz 1 a1 ltac:(lia) eq_refl) as (k1' & Hk1' & Hc1 & Hn1).
    unfold extent_at in Hn0, Hn1. simpl in Hn0, Hn1.
    assert (Hdir : dir = 0 \/ dir = 1).
    { destruct (Z.to_nat dir) as [|[|d]] eqn:Ed; simpl in Hl; try discriminate; lia. }
    assert (Hp0 : 0 < KnotVector.NumOfControlPoints k0') by (revert Hn0; repeat case_bool_decide; lia).
    assert (Hp1 : 0 < KnotVector.NumOfControlPoints k1') by (revert Hn1; repeat case_bool_decide; lia).
    unfold NURBSPatch.init.
    apply returns_bind. apply (returns_kv_load a0 k0'); [exact Hk0' |].
    apply returns_bind. apply (returns_kv_load a1 k1'); [exact Hk1' |].
    apply returns_bind. unfold KnotVector.GetNCP.
    apply returns_new_buf; [nia |]. intros lt Hlt. apply returns_ret.
    unfold created, patch_ok, extents_ok, total, stride. simpl.
    rewrite Ekv. rewrite Hb in *.
    split; [exists lt; split; [reflexivity |]; split; [exact Hlt | reflexivity] |].
    split; [exact Hnd |]. split; [exact Hout |].
    split.
    { intros l' Hl'. split; [apply Hin; exact Hl' |].
      apply elem_of_cons in Hl' as [->|Hl']; [eauto |].
      apply list_elem_of_singleton in Hl'; subst l'; eauto. }
    split.
    { destruct Hdir as [-> | ->].
      - exists a0. split; [reflexivity | rewrite Hk0', Hc0 by reflexivity; reflexivity].
      - exists a1. split; [reflexivity | rewrite Hk1', Hc1 by reflexivity; reflexivity]. }
    split; [| split; [reflexivity |]].
    + split; [exact HD |]. split.
      * exists lt. eexists. split; [reflexivity |]. split; [apply lookup_insert_eq |].
        unfold zlen. rewrite length_replicate. nia.
      * exists k0', k1'. repeat split; try assumption; reflexivity.
    + split; [| split; [reflexivity |]].
      * destruct Hdir as [-> | ->]; bd_in Hn0; bd_in Hn1; bd_goal; congruence.
      * intros j Hj. unfold zlen in Hj. simpl in Hj. unfold extent_at. simpl.
        assert (Hj' : j = 0 \/ j = 1) by lia.
        destruct Hj' as [-> | ->]; bd_in Hn0; bd_in Hn1; bd_goal; congruence.
  - destruct acc as [|a0 [|a1 [|a2 [|a3 acc]]]]; simpl in Hlen; try lia.
    destruct He as (k0 & k1 & k2 & Hk0 & Hk1 & Hk2 & Hni & Hni0 & Hnj & Hnj0 & Hnk & Hnk0).
    destruct (Hposz 0 a0 ltac:(lia) eq_refl) as (k0' & Hk0' & Hc0 & Hn0).
    destruct (Hposz 1 a1 ltac:(lia) eq_refl) as (k1' & Hk1' & Hc1 & Hn1).
    destruct (Hposz 2 a2 ltac:(lia) eq_refl) as (k2' & Hk2' & Hc2 & Hn2).
    unfold extent_at in Hn0, Hn1, Hn2. simpl in Hn0, Hn1, Hn2.
    assert (Hdir : dir = 0 \/ dir = 1 \/ dir = 2).
    { destruct (Z.to_nat dir) as [|[|[|d]]] eqn:Ed; simpl in Hl; try discriminate; lia. }
    assert (Hp0 : 0 < KnotVector.NumOfControlPoints k0') by (revert Hn0; repeat case_bool_decide; lia).
    assert (Hp1 : 0 < KnotVector.NumOfControlPoints k1') by (revert Hn1; repeat case_bool_decide; lia).
    assert (Hp2 : 0 < KnotVector.NumOfControlPoints k2') by (revert Hn2; repeat case_bool_decide; lia).
    unfold NURBSPatch.init.
    apply returns_bind. apply (returns_kv_load a0 k0'); [exact Hk0' |].
    apply returns_bind. apply (returns_kv_load a1 k1'); [exact Hk1' |].
    apply returns_bind. apply (returns_kv_load a2 k2'); [exact Hk2' |].
    apply returns_bind. unfold KnotVector.GetNCP.
    apply returns_new_buf; [nia |]. intros lt Hlt. apply returns_ret.
    unfold created, patch_ok, extents_ok, total, stride. simpl.
    rewrite Ekv. rewrite Hb in *.
    split; [exists lt; split; [reflexivity |]; split; [exact Hlt | reflexivity] |].
    split; [exact Hnd |]. split; [exact Hout |].
    split.
    { intros l' Hl'. split; [apply Hin; exact Hl' |].
      apply elem_of_cons in Hl' as [->|Hl']; [eauto |].
      apply elem_of_cons in Hl' as [->|Hl']; [eauto |].
      apply list_elem_of_singleton in Hl'; subst l'; eauto. }
    split.
    { destruct Hdir as [-> | [-> | ->]].
      - exists a0. split; [reflexivity | rewrite Hk0', Hc0 by reflexivity; reflexivity].
      - exists a1. split; [reflexivity | rewrite Hk1', Hc1 by reflexivity; reflexivity].
      - exists a2. split; [reflexivity | rewrite Hk2', Hc2 by reflexivity; reflexivity]. }
    split; [| split; [reflexivity |]].
    + split; [exact HD |]. split.
      * exists lt. eexists. split; [reflexivity |]. split; [apply lookup_insert_eq |].
        unfold zlen. rewrite length_replicate. nia.
      * exists k0', k1', k2'. repeat split; try assumption; reflexivity.
    + split; [| split; [reflexivity |]].
      * destruct Hdir as [-> | [-> | ->]]; bd_in Hn0; bd_in Hn1; bd_in Hn2; bd_goal;
          congruence.
      * intros j Hj. unfold zlen in Hj. simpl in Hj. unfold extent_at. simpl.
        assert (Hj' : j = 0 \/ j = 1 \/ j = 2) by lia.
        destruct Hj' as [-> | [-> | ->]]; bd_in Hn0; bd_in Hn1; bd_in Hn2; bd_goal;
          congruence.
Qed.


(** ** C1: knot removal *)

Lemma sized_create m n x : 0 <= m -> 0 <= n -> sized (Array2D.create m n x) m n.
Proof.
  intros Hm Hn. unfold sized, Array2D.create, zlen. simpl.
  rewrite length_replicate. split; [reflexivity |]. split; [reflexivity | nia].
Qed.

Lemma get_sized a m n i j :
  sized a m n -> 0 <= i < m -> 0 <= j < n -> exists x, Array2D.get a i j = Ok x.
Proof.
  intros (Hr & Hc & Hl) Hi Hj. unfold Array2D.get.
  rewrite bool_decide_eq_true_2 by lia.
  destruct (rd_in_range (Array2D.cells a) (i * Array2D.cols a + j)) as (x & Hx & _);
    [rewrite Hl, Hc; nia | eauto].
Qed.

Lemma set_sized a m n i j x :
  sized a m n -> 0 <= i < m -> 0 <= j < n ->
  exists a', Array2D.set a i j x = Ok a' /\ sized a' m n.
Proof.
  intros (Hr & Hc & Hl) Hi Hj. unfold Array2D.set.
  rewrite bool_decide_eq_true_2 by lia.
  rewrite wr_Ok by (rewrite Hl, Hc; nia). simpl.
  eexists. split; [reflexivity |]. unfold sized, zlen in *. simpl.
  rewrite length_insert. auto.
Qed.


Lemma alters_trans l n h0 h1 h2 :
  alters l n h0 h1 -> alters l n h1 h2 -> alters l n h0 h2.
Proof.
  intros (Hk & Ho & _) (Hk' & Ho' & Hb). split; [congruence |].
  split; [| exact Hb]. intros l' Hl'. rewrite Ho', Ho by exact Hl'. reflexivity.
Qed.



Section Pass.

Variables (h0 : Store.t) (oldp tmpp : NURBSPatch.t) (ld lt oldkv : positive).
Variables (b : list real_t) (okv : KnotVector.t) (sd n q p r s ntimes : Z).
Variables (knot tol : real_t).

Hypothesis Hwo : walks oldp sd n q.
Hypothesis Hwt : walks tmpp sd n q.
Hypothesis Hdo : NURBSPatch.data oldp = Some ld.
Hypothesis Hdt : NURBSPatch.data tmpp = Some lt.
Hypothesis Hne : ld <> lt.
Hypothesis Hb : Store.bufs h0 !! ld = Some b.
Hypothesis Hbl : zlen b = sd * n * q.
Hypothesis Hkv : Store.kvs h0 !! oldkv = Some okv.
Hypothesis Hsize : KnotVector.Size okv = n + p + 1.
Hypothesis Hp : 0 <= p.
Hypothesis Hfirst : p + s <= r.
Hypothesis Hlast : r <= n - 1.
Hypothesis Hnt : ntimes <= s.
Hypothesis Hmult : s <= p + 2.










End Pass.


(** ** Deletion *)

Lemma release_spec p h ld b :
  NURBSPatch.data p = Some ld -> Store.bufs h !! ld = Some b ->
  NoDup (NURBSPatch.kv p) ->
  (forall l, l ∈ NURBSPatch.kv p -> is_Some (Store.kvs h !! l)) ->
  returns (NURBSPatch.release p) h
    (fun _ h' =>
       Store.bufs h' = delete ld (Store.bufs h) /\
       (forall l, l ∈ NURBSPatch.kv p -> Store.kvs h' !! l = None) /\
       (forall l, l ∉ NURBSPatch.kv p -> Store.kvs h' !! l = Store.kvs h !! l)).
Proof.
  intros Hd Hb Hnd Hall. unfold NURBSPatch.release. rewrite Hd.
  apply returns_bind. eexists tt, _. split; [unfold delete_buf; rewrite Hb; reflexivity |].
  set (ks := NURBSPatch.kv p) in *.
  apply (returns_for
           (fun i (_ : unit) h' =>
              Store.bufs h' = delete ld (Store.bufs h) /\
              (forall l, l ∈ take (Z.to_nat i) ks -> Store.kvs h' !! l = None) /\
              (forall l, l ∉ take (Z.to_nat i) ks -> Store.kvs h' !! l = Store.kvs h !! l))).
  - unfold zlen. lia.
  - simpl. split; [reflexivity |]. split; [intros l Hl; inversion Hl | reflexivity].
  - intros j [] h' Hj (Hbufs & Hin & Hout).
    destruct (rd_in_range ks j Hj) as (l & El & Hl).
    apply returns_bind. apply (returns_lift _ l _ _ El). cbv beta.
    assert (Hfresh : l ∉ take (Z.to_nat j) ks).
    { intros Hc. apply list_elem_of_lookup in Hc as [i Hi].
      apply lookup_take_Some in Hi as [Hi Hlt].
      pose proof (NoDup_lookup _ _ _ _ Hnd Hi Hl). lia. }
    destruct (Hall l (list_elem_of_lookup_2 _ _ _ Hl)) as [k Hk].
    eexists tt, _. split.
    { unfold delete_kv. rewrite (Hout l Hfresh), Hk. reflexivity. }
    simpl. split; [exact Hbufs |].
    replace (Z.to_nat (j + 1)) with (S (Z.to_nat j)) by lia.
    rewrite (take_S_r _ _ _ Hl).
    split.
    + intros l' Hl'. apply elem_of_app in Hl' as [Hl' | Hl'].
      * destruct (decide (l' = l)) as [->|Hne]; [apply lookup_delete_eq |].
        rewrite lookup_delete_ne by congruence. apply Hin. exact Hl'.
      * apply list_elem_of_singleton in Hl'. subst l'. apply lookup_delete_eq.
    + intros l' Hl'. rewrite not_elem_of_app in Hl'. destruct Hl' as [Hl1 Hl2].
      rewrite lookup_delete_ne by (intros ->; apply Hl2; apply list_elem_of_singleton; reflexivity).
      apply Hout. exact Hl1.
  - intros [] h' (Hbufs & Hin & Hout). rewrite take_ge in Hin, Hout by (unfold zlen; lia).
    auto.
Qed.

Lemma patch_ok_set_loop h p a b c :
  patch_ok h p -> patch_ok h (NURBSPatch.set_loop p a b c).
Proof. intros H. exact H. Qed.

Lemma extents_ok_transfer h h' p p' :
  NURBSPatch.kv p' = NURBSPatch.kv p ->
  NURBSPatch.ni p' = NURBSPatch.ni p ->
  NURBSPatch.nj p' = NURBSPatch.nj p ->
  NURBSPatch.nk p' = NURBSPatch.nk p ->
  (forall l k, l ∈ NURBSPatch.kv p -> Store.kvs h !! l = Some k ->
     exists k', Store.kvs h' !! l = Some k' /\
                KnotVector.NumOfControlPoints k' = KnotVector.NumOfControlPoints k) ->
  extents_ok h p -> extents_ok h' p'.
Proof.
  intros Ekv Eni Enj Enk Hk He. unfold extents_ok in *. rewrite Ekv, Eni, Enj, Enk.
  destruct (NURBSPatch.kv p) as [|l0 [|l1 [|l2 [|l3 ls]]]]; try contradiction.
  - destruct He as (k0 & Hk0 & H).
    destruct (Hk l0 k0 ltac:(repeat constructor) Hk0) as (k0' & Hk0' & E0).
    exists k0'. rewrite E0. auto.
  - destruct He as (k0 & k1 & Hk0 & Hk1 & H).
    destruct (Hk l0 k0 ltac:(repeat constructor) Hk0) as (k0' & Hk0' & E0).
    destruct (Hk l1 k1 ltac:(repeat constructor) Hk1) as (k1' & Hk1' & E1).
    exists k0', k1'. rewrite E0, E1. auto.
  - destruct He as (k0 & k1 & k2 & Hk0 & Hk1 & Hk2 & H).
    destruct (Hk l0 k0 ltac:(repeat constructor) Hk0) as (k0' & Hk0' & E0).
    destruct (Hk l1 k1 ltac:(repeat constructor) Hk1) as (k1' & Hk1' & E1).
    destruct (Hk l2 k2 ltac:(repeat constructor) Hk2) as (k2' & Hk2' & E2).
    exists k0', k1', k2'. rewrite E0, E1, E2. auto.
Qed.

Lemma extents_ok_allocated h p l :
  extents_ok h p -> l ∈ NURBSPatch.kv p -> is_Some (Store.kvs h !! l).
Proof.
  unfold extents_ok. intros He Hl.
  destruct (NURBSPatch.kv p) as [|l0 [|l1 [|l2 [|l3 ls]]]]; try contradiction.
  - destruct He as (k0 & Hk0 & _).
    repeat (apply elem_of_cons in Hl as [-> | Hl]; [eauto |]); inversion Hl.
  - destruct He as (k0 & k1 & Hk0 & Hk1 & _).
    repeat (apply elem_of_cons in Hl as [-> | Hl]; [eauto |]); inversion Hl.
  - destruct He as (k0 & k1 & k2 & Hk0 & Hk1 & Hk2 & _).
    repeat (apply elem_of_cons in Hl as [-> | Hl]; [eauto |]); inversion Hl.
Qed.

Lemma total_eq p p' :
  NURBSPatch.kv p' = NURBSPatch.kv p -> NURBSPatch.ni p' = NURBSPatch.ni p ->
  NURBSPatch.nj p' = NURBSPatch.nj p -> NURBSPatch.nk p' = NURBSPatch.nk p ->
  NURBSPatch.Dim p' = NURBSPatch.Dim p -> total p' = total p.
Proof. intros E1 E2 E3 E4 E5. unfold total. rewrite E1, E2, E3, E4, E5. reflexivity. Qed.

Lemma extent_at_eq p p' j :
  NURBSPatch.ni p' = NURBSPatch.ni p ->
  NURBSPatch.nj p' = NURBSPatch.nj p -> NURBSPatch.nk p' = NURBSPatch.nk p ->
  extent_at p' j = extent_at p j.
Proof. intros E2 E3 E4. unfold extent_at. rewrite E2, E3, E4. reflexivity. Qed.

(** The extent of a patch along a direction is the number of control points
    of the knot vector of that direction. *)
Lemma extent_at_kv h p dir l k :
  extents_ok h p -> rd (NURBSPatch.kv p) dir = Ok l -> Store.kvs h !! l = Some k ->
  extent_at p dir = KnotVector.NumOfControlPoints k.
Proof.
  unfold extents_ok, extent_at. intros He Hl Hk. apply rd_Ok in Hl as [H0 Hl].
  destruct (NURBSPatch.kv p) as [|l0 [|l1 [|l2 [|l3 ls]]]]; try contradiction.
  - destruct He as (k0 & Hk0 & Hni & _).
    destruct (Z.to_nat dir) as [|d] eqn:Ed; simpl in Hl; [| destruct d; discriminate].
    injection Hl as <-. assert (dir = 0) as -> by lia. bd_goal. congruence.
  - destruct He as (k0 & k1 & Hk0 & Hk1 & Hni & _ & Hnj & _).
    destruct (Z.to_nat dir) as [|[|d]] eqn:Ed; simpl in Hl; try discriminate;
      injection Hl as <-.
    + assert (dir = 0) as -> by lia. bd_goal. congruence.
    + assert (dir = 1) as -> by lia. bd_goal. congruence.
  - destruct He as (k0 & k1 & k2 & Hk0 & Hk1 & Hk2 & Hni & _ & Hnj & _ & Hnk & _).
    destruct (Z.to_nat dir) as [|[|[|d]]] eqn:Ed; simpl in Hl; try discriminate;
      injection Hl as <-.
    + assert (dir = 0) as -> by lia. bd_goal. congruence.
    + assert (dir = 1) as -> by lia. bd_goal. congruence.
    + assert (dir = 2) as -> by lia. bd_goal. congruence.
Qed.

(** ** The loops of KnotRemove *)

Section Rows.

Local Open Scope m_scope.

Variables (h0 : Store.t) (src dst : NURBSPatch.t) (ls ld : positive).
Variables (b : list real_t) (sd n n' q : Z).

Hypothesis Hws : walks src sd n q.
Hypothesis Hwd : walks dst sd n' q.
Hypothesis Hds : NURBSPatch.data src = Some ls.
Hypothesis Hdd : NURBSPatch.data dst = Some ld.
Hypothesis Hne : ls <> ld.
Hypothesis Hb : Store.bufs h0 !! ls = Some b.
Hypothesis Hbl : zlen b = sd * n * q.




End Rows.

(** ** The knots of the shrunk knot vector *)

Lemma returns_kv_store l kv0 kv h (Q : unit -> Store.t -> Prop) :
  Store.kvs h !! l = Some kv0 ->
  Q tt (Store.mk (Store.bufs h) (<[l := kv]> (Store.kvs h))) ->
  returns (kv_store l kv) h Q.
Proof.
  intros E H. eexists tt, _. split; [| exact H]. unfold kv_store. rewrite E. reflexivity.
Qed.


Lemma kv_fields_like_trans a b c :
  kv_fields_like a b -> kv_fields_like b c -> kv_fields_like a c.
Proof. unfold kv_fields_like. intros (? & ? & ?) (? & ? & ?). repeat split; congruence. Qed.






(** The two outcomes, run: on the refined curve the knot 1/2 is removed; on a
    curve that is not a refinement the step fails, 0 is returned and the
    store is the one before the call. *)
Example KnotRemove_curve_removed :
  exists p' h',
    NURBSPatch.KnotRemove (built curve).1 0 (qc 1 2) 1 (qc 1 100) (built curve).2 =
    (Ok (1, p'), h') /\ NURBSPatch.ni p' = 3.
Proof. eexists. eexists. split; vm_compute; reflexivity. Qed.

Example KnotRemove_bent_curve_fails :
  exists p',
    NURBSPatch.KnotRemove (built bent_curve).1 0 (qc 1 2) 1 (qc 1 100)
      (built bent_curve).2 =
    (Ok (0, p'), (built bent_curve).2) /\ NURBSPatch.ni p' = 4.
Proof. eexists. split; vm_compute; reflexivity. Qed.

(** ** C3: Difference *)















(** The difference, run: the knot 1/2 is what [kv_lin2] has in excess of
    [kv_lin1], whichever operand comes first. *)
Example Difference_lin1_lin2 :
  KnotVector.Difference epsilon_double kv_lin1 kv_lin2 = Ok [qc 1 2] /\
  KnotVector.Difference epsilon_double kv_lin2 kv_lin1 = Ok [qc 1 2].
Proof. split; vm_compute; f_equal; f_equal; apply Qc_is_canon; reflexivity. Qed.

(** ** C9: the old objects during an operation *)


Lemma keeps_trans h0 h1 h2 : keeps h0 h1 -> keeps h1 h2 -> keeps h0 h2.
Proof. intros [H1 H2] [H3 H4]. split; eauto. Qed.

Lemma grows_refl h : grows h h.
Proof. split; auto. Qed.

Lemma grows_trans h0 h1 h2 : grows h0 h1 -> grows h1 h2 -> grows h0 h2.
Proof. intros [H1 H2] [H3 H4]. split; eauto. Qed.


(** *** Computations that leave the old objects alone *)

Lemma tame_ret {A} h0 (a : A) : tame h0 (mret a).
Proof. intros h Hk. split; [exact Hk | apply grows_refl]. Qed.

Lemma tame_lift {A} h0 (r : Res A) : tame h0 (lift r).
Proof. intros h Hk. split; [exact Hk | apply grows_refl]. Qed.

Lemma tame_fail {A} h0 e : tame h0 (@mfail A e).
Proof. intros h Hk. split; [exact Hk | apply grows_refl]. Qed.

Lemma tame_bind {A B} h0 (m : M A) (k : A -> M B) :
  tame h0 m -> (forall a, tame h0 (k a)) -> tame h0 (mbind m k).
Proof.
  intros Hm Hk h Hh. unfold mbind. destruct (Hm h Hh) as [H1 H2].
  destruct (m h) as [[a|e] h1]; simpl in *.
  - destruct (Hk a h1 H1) as [H3 H4]. split; [exact H3 | eapply grows_trans; eassumption].
  - auto.
Qed.

Lemma tame_for_iter {St} h0 (body : Z -> St -> M St) n :
  (forall j s, tame h0 (body j s)) -> forall i s, tame h0 (for_iterM n i body s).
Proof.
  intros Hb. induction n as [|n IH]; intros i s; simpl.
  - apply tame_ret.
  - apply tame_bind; [apply Hb | intros s'; apply IH].
Qed.

Lemma tame_for {St} h0 lo hi (body : Z -> St -> M St) s :
  (forall j s, tame h0 (body j s)) -> tame h0 (for_loopM lo hi body s).
Proof. intros Hb. apply tame_for_iter. exact Hb. Qed.

Lemma tame_for_iter_down {St} h0 (body : Z -> St -> M St) n :
  (forall j s, tame h0 (body j s)) -> forall i s, tame h0 (for_iter_downM n i body s).
Proof.
  intros Hb. induction n as [|n IH]; intros i s; simpl.
  - apply tame_ret.
  - apply tame_bind; [apply Hb | intros s'; apply IH].
Qed.

Lemma tame_for_down {St} h0 hi lo (body : Z -> St -> M St) s :
  (forall j s, tame h0 (body j s)) -> tame h0 (for_downM hi lo body s).
Proof. intros Hb. apply tame_for_iter_down. exact Hb. Qed.

Lemma tame_while {St} h0 (cond : St -> M bool) (body : St -> M St) fuel :
  (forall s, tame h0 (cond s)) -> (forall s, tame h0 (body s)) ->
  forall s, tame h0 (while_loopM fuel cond body s).
Proof.
  intros Hc Hb. induction fuel as [|fuel IH]; intros s; simpl.
  - apply tame_fail.
  - apply tame_bind; [apply Hc |]. intros [|].
    + apply tame_bind; [apply Hb | intros s'; apply IH].
    + apply tame_ret.
Qed.

Lemma tame_kv_load h0 l : tame h0 (kv_load l).
Proof.
  intros h Hk. unfold kv_load. destruct (Store.kvs h !! l); simpl;
    (split; [exact Hk | apply grows_refl]).
Qed.

Lemma tame_kv_at h0 l i : tame h0 (kv_at l i).
Proof. apply tame_bind; [apply tame_kv_load | intros kv; apply tame_lift]. Qed.

Lemma tame_buf_rd h0 l i : tame h0 (buf_rd l i).
Proof.
  intros h Hk. unfold buf_rd. destruct (Store.bufs h !! l); simpl;
    (split; [exact Hk | apply grows_refl]).
Qed.

Lemma tame_slice h0 p i j : tame h0 (NURBSPatch.slice p i j).
Proof.
  unfold NURBSPatch.slice. case_bool_decide; [apply tame_fail |].
  destruct (NURBSPatch.data p); [apply tame_buf_rd | apply tame_fail].
Qed.

Lemma tame_buf_wr h0 l i x : Store.bufs h0 !! l = None -> tame h0 (buf_wr l i x).
Proof.
  intros Hl h [Hb Hk]. unfold buf_wr.
  destruct (Store.bufs h !! l) as [b|] eqn:E; simpl.
  - destruct (wr b i x) as [b'|e]; simpl.
    + split; [split |]; simpl.
      * intros l' b0 Hl'. rewrite lookup_insert_ne by congruence. apply Hb. exact Hl'.
      * exact Hk.
      * split; simpl; [| auto]. intros l' Hl'.
        destruct (decide (l' = l)) as [->|Hne];
          [rewrite lookup_insert_eq; eauto | rewrite lookup_insert_ne by congruence; exact Hl'].
    + split; [split; assumption | apply grows_refl].
  - split; [split; assumption | apply grows_refl].
Qed.

Lemma tame_set_slice h0 p i j x :
  (forall l, NURBSPatch.data p = Some l -> Store.bufs h0 !! l = None) ->
  tame h0 (NURBSPatch.set_slice p i j x).
Proof.
  intros Hp. unfold NURBSPatch.set_slice. case_bool_decide; [apply tame_fail |].
  destruct (NURBSPatch.data p) as [l|]; [apply tame_buf_wr; auto | apply tame_fail].
Qed.

Lemma tame_kv_store h0 l kv : Store.kvs h0 !! l = None -> tame h0 (kv_store l kv).
Proof.
  intros Hl h [Hb Hk]. unfold kv_store.
  destruct (Store.kvs h !! l) as [k|] eqn:E; simpl.
  - split; [split |]; simpl.
    + exact Hb.
    + intros l' k0 Hl'. rewrite lookup_insert_ne by congruence. apply Hk. exact Hl'.
    + split; simpl; [auto |]. intros l' Hl'.
      destruct (decide (l' = l)) as [->|Hne];
        [rewrite lookup_insert_eq; eauto | rewrite lookup_insert_ne by congruence; exact Hl'].
  - split; [split; assumption | apply grows_refl].
Qed.

Lemma tame_kv_set h0 l i x : Store.kvs h0 !! l = None -> tame h0 (kv_set l i x).
Proof.
  intros Hl. apply tame_bind; [apply tame_kv_load |]. intros kv.
  apply tame_bind; [apply tame_lift |]. intros kv'. apply tame_kv_store. exact Hl.
Qed.

Lemma tame_kv_GetElements h0 l : Store.kvs h0 !! l = None -> tame h0 (kv_GetElements l).
Proof.
  intros Hl. apply tame_bind; [apply tame_kv_load |]. intros kv.
  apply tame_bind; [apply tame_lift |]. intros kv'. apply tame_kv_store. exact Hl.
Qed.

Lemma tame_new_kv h0 kv : tame h0 (new_kv kv).
Proof.
  intros h [Hb Hk]. unfold new_kv. simpl. split; [split |]; simpl.
  - exact Hb.
  - intros l k Hl. rewrite lookup_insert_ne; [apply Hk; exact Hl |].
    intros <-. apply Hk in Hl.
    apply (is_fresh (dom (Store.kvs h))). apply elem_of_dom. eauto.
  - split; simpl; [auto |]. intros l Hl.
    destruct (decide (l = fresh (dom (Store.kvs h)))) as [->|Hne];
      [rewrite lookup_insert_eq; eauto | rewrite lookup_insert_ne by congruence; exact Hl].
Qed.

Lemma tame_new_buf h0 n : tame h0 (new_buf n).
Proof.
  intros h [Hb Hk]. unfold new_buf. case_bool_decide; simpl.
  - split; [split |]; simpl.
    + intros l b Hl. rewrite lookup_insert_ne; [apply Hb; exact Hl |].
      intros <-. apply Hb in Hl.
      apply (is_fresh (dom (Store.bufs h))). apply elem_of_dom. eauto.
    + exact Hk.
    + split; simpl; [| auto]. intros l Hl.
      destruct (decide (l = fresh (dom (Store.bufs h)))) as [->|Hne];
        [rewrite lookup_insert_eq; eauto | rewrite lookup_insert_ne by congruence; exact Hl].
  - split; [split; assumption | apply grows_refl].
Qed.

Lemma tame_SetLoopDirection h0 p dir : tame h0 (NURBSPatch.SetLoopDirection p dir).
Proof.
  unfold NURBSPatch.SetLoopDirection.
  repeat case_bool_decide; first [apply tame_ret | apply tame_fail].
Qed.

Ltac tame_step :=
  cbv beta;
  match goal with
  | |- tame _ (mret _) => apply tame_ret
  | |- tame _ (lift _) => apply tame_lift
  | |- tame _ (mfail _) => apply tame_fail
  | |- tame _ (mbind _ _) => apply tame_bind; [| intros ?]
  | |- tame _ (for_loopM _ _ _ _) => apply tame_for; intros ? ?
  | |- tame _ (for_downM _ _ _ _) => apply tame_for_down; intros ? ?
  | |- tame _ (while_loopM _ _ _ _) => apply tame_while; intros ?
  | |- tame _ (kv_load _) => apply tame_kv_load
  | |- tame _ (kv_at _ _) => apply tame_kv_at
  | |- tame _ (NURBSPatch.slice _ _ _) => apply tame_slice
  | |- tame _ (NURBSPatch.set_slice _ _ _ _) => apply tame_set_slice; assumption
  | |- tame _ (kv_set _ _ _) => apply tame_kv_set; assumption
  | |- tame _ (kv_store _ _) => apply tame_kv_store; assumption
  | |- tame _ (kv_GetElements _) => apply tame_kv_GetElements; assumption
  | |- tame _ (new_kv _) => apply tame_new_kv
  | |- tame _ (new_buf _) => apply tame_new_buf
  | |- tame _ (NURBSPatch.copy_kv _) => unfold NURBSPatch.copy_kv
  | |- tame _ (NURBSPatch.SetLoopDirection _ _) => apply tame_SetLoopDirection
  | |- tame _ (if ?c then _ else _) => destruct c
  | |- tame _ (match ?x with _ => _ end) => destruct x
  end.

Ltac tame_auto := repeat tame_step.






(** *** Outcomes *)

Lemma outcome_ret {A} (a : A) h E (Q : A -> Store.t -> Prop) :
  Q a h -> outcome (mret a) h E Q.
Proof. intros H. exact H. Qed.


Lemma outcome_lift {A} (r : Res A) h (E : Store.t -> Prop) (Q : A -> Store.t -> Prop) :
  E h -> (forall a, r = Ok a -> Q a h) -> outcome (lift r) h E Q.
Proof. intros He HQ. unfold outcome, lift. destruct r; auto. Qed.

Lemma outcome_bind {A B} (m : M A) (k : A -> M B) h E (Q : B -> Store.t -> Prop) :
  outcome m h E (fun a h' => outcome (k a) h' E Q) -> outcome (mbind m k) h E Q.
Proof.
  unfold outcome, mbind. destruct (m h) as [[a|e] h']; auto.
Qed.

Lemma outcome_weaken {A} (m : M A) h (E E' : Store.t -> Prop) (Q Q' : A -> Store.t -> Prop) :
  outcome m h E Q -> (forall h', E h' -> E' h') -> (forall a h', Q a h' -> Q' a h') ->
  outcome m h E' Q'.
Proof. unfold outcome. destruct (m h) as [[a|e] h']; auto. Qed.

Lemma outcome_and {A} (m : M A) h (E E' : Store.t -> Prop) (Q Q' : A -> Store.t -> Prop) :
  outcome m h E Q -> outcome m h E' Q' ->
  outcome m h (fun h' => E h' /\ E' h') (fun a h' => Q a h' /\ Q' a h').
Proof. unfold outcome. destruct (m h) as [[a|e] h']; auto. Qed.

Lemma outcome_returns {A} (m : M A) h E (Q : A -> Store.t -> Prop) :
  returns m h Q -> outcome m h E Q.
Proof. intros (a & h' & Em & H). unfold outcome. rewrite Em. exact H. Qed.


Lemma outcome_for_iter {St} (J : Z -> St -> Store.t -> Prop) E (body : Z -> St -> M St) n :
  forall i s h,
    J i s h ->
    (forall j s h, i <= j < i + Z.of_nat n -> J j s h -> outcome (body j s) h E (J (j + 1))) ->
    outcome (for_iterM n i body s) h E (J (i + Z.of_nat n)).
Proof.
  induction n as [|n IH]; intros i s h Hi Hstep; simpl.
  - apply outcome_ret. rewrite Z.add_0_r. exact Hi.
  - apply outcome_bind. eapply outcome_weaken; [apply (Hstep i s h); [lia | exact Hi] | auto |].
    intros s1 h1 H1. cbv beta.
    replace (i + Z.of_nat (S n)) with (i + 1 + Z.of_nat n) by lia.
    apply IH; [exact H1 |]. intros j s' h' Hj. apply Hstep. lia.
Qed.


(** *** New patches *)

Lemma init_fresh kvs dim hc :
  outcome (NURBSPatch.init kvs dim) hc (fun _ => True)
    (fun np h' =>
       NURBSPatch.kv np = kvs /\
       (exists d, NURBSPatch.data np = Some d /\ Store.bufs hc !! d = None /\
                  is_Some (Store.bufs h' !! d)) /\
       Store.kvs h' = Store.kvs hc).
Proof.
  assert (Hnew : forall n,
            outcome (new_buf n) hc (fun _ => True)
              (fun d h' => Store.bufs hc !! d = None /\ is_Some (Store.bufs h' !! d) /\
                           Store.kvs h' = Store.kvs hc)).
  { intros n. unfold outcome, new_buf. case_bool_decide; [| exact I]. simpl.
    split; [apply not_elem_of_dom, is_fresh |]. split; [| reflexivity].
    rewrite lookup_insert_eq. eauto. }
  unfold NURBSPatch.init.
  destruct kvs as [|l0 [|l1 [|l2 [|l3 ls]]]]; try exact I;
    unfold outcome, mbind, kv_load.
  - destruct (Store.kvs hc !! l0); [| exact I].
    match goal with |- context [new_buf ?n hc] => specialize (Hnew n) end.
    unfold outcome in Hnew. destruct (new_buf _ hc) as [[d|e] h']; [| exact I].
    destruct Hnew as (H1 & H2 & H3). simpl. split; [reflexivity |].
    split; [exists d; auto | exact H3].
  - destruct (Store.kvs hc !! l0); [| exact I].
    destruct (Store.kvs hc !! l1); [| exact I].
    match goal with |- context [new_buf ?n hc] => specialize (Hnew n) end.
    unfold outcome in Hnew. destruct (new_buf _ hc) as [[d|e] h']; [| exact I].
    destruct Hnew as (H1 & H2 & H3). simpl. split; [reflexivity |].
    split; [exists d; auto | exact H3].
  - destruct (Store.kvs hc !! l0); [| exact I].
    destruct (Store.kvs hc !! l1); [| exact I].
    destruct (Store.kvs hc !! l2); [| exact I].
    match goal with |- context [new_buf ?n hc] => specialize (Hnew n) end.
    unfold outcome in Hnew. destruct (new_buf _ hc) as [[d|e] h']; [| exact I].
    destruct Hnew as (H1 & H2 & H3). simpl. split; [reflexivity |].
    split; [exists d; auto | exact H3].
Qed.

Section Fresh.

Variable h : Store.t.






End Fresh.





(** *** Deletion *)

Lemma release_released p h :
  owned h p -> returns (NURBSPatch.release p) h (fun _ h' => released p h h').
Proof.
  intros ((ld & Hd & [b Hb]) & Hnd & Hk).
  eapply returns_weaken; [apply (release_spec p h ld b Hd Hb Hnd Hk) |].
  intros [] h' (H1 & H2 & H3). split; [| split; assumption].
  rewrite Hd. exact H1.
Qed.




(** *** The operations *)



Lemma same_objects_trans p q r : same_objects p q -> same_objects q r -> same_objects p r.
Proof. intros [H1 H2] [H3 H4]. split; congruence. Qed.











Lemma tame_DegreeElevate_segment h0 oldp newp oldkv newkv bezalfs p t m size st :
  (forall l, NURBSPatch.data newp = Some l -> Store.bufs h0 !! l = None) ->
  Store.kvs h0 !! newkv = None ->
  tame h0 (NURBSPatch.DegreeElevate_segment oldp newp oldkv newkv bezalfs p t m size st).
Proof.
  intros Hd Hk. unfold NURBSPatch.DegreeElevate_segment. cbv zeta. tame_auto.
Qed.






(** * Further properties of the code *)

(** ** Order facts on [real_t] *)

Ltac qc_lra :=
  unfold Qclt, Qcle in *; unfold Qcminus, Qcplus, Qcopp, Q2Qc in *; simpl in *;
  rewrite ?Qred_correct in *; lra.

Lemma Qc_ltb_false x y : Qc_ltb x y = false -> (y <= x)%Qc.
Proof.
  unfold Qc_ltb. intros H. apply bool_decide_eq_false in H. apply Qcnot_lt_le. exact H.
Qed.

Lemma Qc_ltb_true x y : Qc_ltb x y = true -> (x < y)%Qc.
Proof. unfold Qc_ltb. intros H. apply bool_decide_eq_true in H. exact H. Qed.

(** ** Loops that test a condition *)

Lemma while_loop_sound {St} (I : St -> Prop) (cond : St -> Res bool) (body : St -> Res St) fuel :
  forall s s',
    I s ->
    (forall s s1, I s -> cond s = Ok true -> body s = Ok s1 -> I s1) ->
    while_loop fuel cond body s = Ok s' ->
    I s' /\ cond s' = Ok false.
Proof.
  induction fuel as [|f IH]; intros s s' Hs Hstep E; simpl in E; [discriminate |].
  destruct (cond s) as [[|]|e] eqn:Ec; simpl in E; try discriminate.
  - destruct (body s) as [s1|e] eqn:Eb; simpl in E; [| discriminate].
    apply (IH s1 s'); [eapply Hstep; eauto | exact Hstep | exact E].
  - injection E as <-. auto.
Qed.

Lemma while_loop_total {St} (I : St -> Prop) (mu : St -> nat) (cond : St -> Res bool)
    (body : St -> Res St) fuel :
  forall s,
    I s -> (mu s < fuel)%nat ->
    (forall s, I s -> exists c, cond s = Ok c /\
       (c = true -> exists s1, body s = Ok s1 /\ I s1 /\ (mu s1 < mu s)%nat)) ->
    exists s', while_loop fuel cond body s = Ok s' /\ I s' /\ cond s' = Ok false.
Proof.
  induction fuel as [|f IH]; intros s Hs Hmu Hstep; [lia |]. simpl.
  destruct (Hstep s Hs) as (c & Ec & Hc). rewrite Ec. simpl. destruct c.
  - destruct (Hc eq_refl) as (s1 & Eb & H1 & Hlt). rewrite Eb. simpl.
    apply IH; [exact H1 | lia | exact Hstep].
  - exists s. auto.
Qed.

(** ** KnotVector::Flip *)

Lemma Flip_at kv :
  well_sized kv -> 0 <= KnotVector.Order kv -> 0 <= KnotVector.NumOfControlPoints kv ->
  exists kv' k0 kl,
    KnotVector.Flip kv = Ok kv' /\
    KnotVector.at_ kv 0 = Ok k0 /\
    KnotVector.at_ kv (KnotVector.Size kv - 1) = Ok kl /\
    same_fields kv' kv /\
    forall j, 0 <= j < KnotVector.Size kv ->
      KnotVector.at_ kv' j =
        if bool_decide (KnotVector.Order kv < j < KnotVector.NumOfControlPoints kv)
        then y ← KnotVector.at_ kv (KnotVector.Order kv + KnotVector.NumOfControlPoints kv - j);
             Ok (k0 + kl - y)%Qc
        else KnotVector.at_ kv j.
Proof.
  intros Hws Hp Hn. unfold well_sized in Hws.
  destruct (at_in_range kv 0) as [k0 E0]; [lia |].
  destruct (at_in_range kv (KnotVector.Size kv - 1)) as [kl El]; [lia |].
  unfold KnotVector.Flip. rewrite E0, El. simpl.
  set (p := KnotVector.Order kv) in *. set (n := KnotVector.NumOfControlPoints kv) in *.
  set (ns := (n - p) `quot` 2).
  set (apb := (k0 + kl)%Qc).
  assert (Hns : n - p <= 2 * ns + 1 /\ (0 < ns -> 2 * ns <= n - p)).
  { unfold ns. destruct (Z_lt_ge_dec (n - p) 0) as [Hneg|Hpos].
    - pose proof (Z.quot_le_mono (n - p) 0 2 ltac:(lia) ltac:(lia)) as H1.
      rewrite Z.quot_0_l in H1 by lia.
      pose proof (Z.mul_quot_ge (n - p) 2 ltac:(lia) ltac:(lia)). lia.
    - rewrite Z.quot_div_nonneg by lia.
      pose proof (Z.div_mod (n - p) 2 ltac:(lia)).
      pose proof (Z.mod_pos_bound (n - p) 2 ltac:(lia)). lia. }
  set (body := fun (i : Z) (kv0 : KnotVector.t) =>
       a ← KnotVector.at_ kv0 (KnotVector.Order kv0 + i);
       b ← KnotVector.at_ kv0 (KnotVector.NumOfControlPoints kv0 - i);
       kv1 ← KnotVector.set kv0 (KnotVector.Order kv0 + i) (apb - b)%Qc;
       KnotVector.set kv1 (KnotVector.NumOfControlPoints kv1 - i) (apb - a)%Qc).
  change (exists kv' k0' kl', for_loop 1 (ns + 1) body kv = Ok kv' /\ Ok k0 = Ok k0' /\
            Ok kl = Ok kl' /\ same_fields kv' kv /\
            forall j, 0 <= j < KnotVector.Size kv ->
              KnotVector.at_ kv' j =
                if bool_decide (p < j < n)
                then y ← KnotVector.at_ kv (p + n - j); Ok (k0' + kl' - y)%Qc
                else KnotVector.at_ kv j).
  assert (Hloop : forall hi, 1 <= hi <= Z.max 1 (ns + 1) ->
            exists kv', for_loop 1 hi body kv = Ok kv' /\ same_fields kv' kv /\
              forall j, 0 <= j < KnotVector.Size kv ->
                KnotVector.at_ kv' j = flipped kv apb (hi - 1) j).
  { intros hi Hhi.
    apply (for_loop_inv (fun i kv' => same_fields kv' kv /\
              forall j, 0 <= j < KnotVector.Size kv ->
                KnotVector.at_ kv' j = flipped kv apb (i - 1) j)); [lia | |].
    - split; [repeat split |]. intros j Hj. unfold flipped.
      rewrite bool_decide_eq_false_2 by (fold p n; lia). reflexivity.
    - intros i kv1 Hi (Hf & Hat). destruct Hf as (Ho & Hc & Hne & Hco & Hsp & Hsz).
      unfold body. rewrite Ho, Hc. fold p n.
      assert (Hr1 : 0 <= p + i < KnotVector.Size kv) by lia.
      assert (Hr2 : 0 <= n - i < KnotVector.Size kv) by lia.
      rewrite (Hat (p + i) Hr1), (Hat (n - i) Hr2). unfold flipped. fold p n.
      rewrite !bool_decide_eq_false_2 by lia.
      destruct (at_in_range kv (p + i) Hr1) as [a Ea].
      destruct (at_in_range kv (n - i) Hr2) as [b Eb].
      rewrite Ea, Eb. simpl.
      destruct (set_total kv1 (p + i) (apb - b)%Qc) as (kv2 & E2 & K2 & O2 & C2 & N2 & Co2 & S2 & Z2);
        [lia |].
      rewrite E2. simpl. rewrite C2, Hc. fold n.
      destruct (set_total kv2 (n - i) (apb - a)%Qc) as (kv3 & E3 & K3 & O3 & C3 & N3 & Co3 & S3 & Z3);
        [lia |].
      rewrite E3. eexists. split; [reflexivity |]. split.
      + unfold same_fields. repeat split; congruence.
      + intros j Hj. replace (i + 1 - 1) with i by lia.
        destruct (decide (j = n - i)) as [->|Hj1].
        * rewrite (at_insert_eq kv2 kv3 (n - i) _ ltac:(lia) K3).
          rewrite bool_decide_eq_true_2 by lia.
          replace (p + n - (n - i)) with (p + i) by lia. rewrite Ea. reflexivity.
        * rewrite (at_insert_ne kv2 kv3 (n - i) j _ ltac:(lia) ltac:(lia) ltac:(lia) K3).
          destruct (decide (j = p + i)) as [->|Hj2].
          -- rewrite (at_insert_eq kv1 kv2 (p + i) _ ltac:(lia) K2).
             rewrite bool_decide_eq_true_2 by lia.
             replace (p + n - (p + i)) with (n - i) by lia. rewrite Eb. reflexivity.
          -- rewrite (at_insert_ne kv1 kv2 (p + i) j _ ltac:(lia) ltac:(lia) ltac:(lia) K2).
             rewrite (Hat j Hj). unfold flipped. fold p n.
             repeat case_bool_decide; try reflexivity; lia. }
  destruct (Z_lt_ge_dec ns 1) as [Hsmall|Hbig].
  - rewrite for_loop_empty by lia. exists kv, k0, kl. repeat split.
    intros j Hj. rewrite bool_decide_eq_false_2 by lia. reflexivity.
  - destruct (Hloop (ns + 1) ltac:(lia)) as (kv' & E & Hf & Hat).
    exists kv', k0, kl. repeat split; try apply Hf; [exact E |].
    intros j Hj. rewrite (Hat j Hj). unfold flipped. fold p n.
    replace (ns + 1 - 1) with ns by lia.
    repeat case_bool_decide; try reflexivity; lia.
Qed.

Lemma kv_ext (a b : KnotVector.t) :
  same_fields a b ->
  (forall j, 0 <= j < KnotVector.Size b -> KnotVector.at_ a j = KnotVector.at_ b j) ->
  a = b.
Proof.
  intros (Ho & Hc & Hn & Hco & Hsp & Hsz) Hat.
  destruct a as [ka oa ca na coa spa], b as [kb ob cb nb cob spb]. simpl in *.
  subst. f_equal. unfold KnotVector.Size, zlen in *. simpl in *.
  apply list_eq. intros i.
  destruct (decide (i < length kb)%nat) as [Hi|Hi].
  - specialize (Hat (Z.of_nat i) ltac:(lia)).
    unfold KnotVector.at_, rd in Hat. simpl in Hat.
    rewrite bool_decide_eq_true_2 in Hat by lia. rewrite Nat2Z.id in Hat.
    destruct (lookup_lt_is_Some_2 ka i ltac:(lia)) as [x Hx].
    destruct (lookup_lt_is_Some_2 kb i ltac:(lia)) as [y Hy].
    rewrite Hx, Hy in *. congruence.
  - rewrite !lookup_ge_None_2 by lia. reflexivity.
Qed.

(** Flipping back undoes a flip. *)
Lemma Flip_Flip kv kv' :
  well_sized kv -> 0 <= KnotVector.Order kv -> 0 <= KnotVector.NumOfControlPoints kv ->
  KnotVector.Flip kv = Ok kv' -> KnotVector.Flip kv' = Ok kv.
Proof.
  intros Hws Hp Hn E.
  destruct (Flip_at kv Hws Hp Hn) as (kv1 & k0 & kl & E1 & E0 & El & Hf & Hat).
  assert (kv1 = kv') by congruence. subst kv1. clear E1.
  pose proof Hf as (Ho & Hc & Hne & Hco & Hsp & Hsz).
  assert (Hws' : well_sized kv') by (unfold well_sized in *; congruence).
  destruct (Flip_at kv' Hws' ltac:(lia) ltac:(lia))
    as (kv'' & k0' & kl' & E' & E0' & El' & Hf' & Hat').
  rewrite E'. f_equal. unfold well_sized in Hws.
  assert (k0' = k0).
  { rewrite (Hat 0 ltac:(lia)) in E0'. rewrite bool_decide_eq_false_2 in E0' by lia. congruence. }
  assert (kl' = kl).
  { rewrite Hsz in El'. rewrite (Hat (KnotVector.Size kv - 1)) in El' by lia.
    rewrite bool_decide_eq_false_2 in El' by lia. congruence. }
  subst k0' kl'.
  apply kv_ext.
  - unfold same_fields in *. intuition congruence.
  - intros j Hj. rewrite (Hat' j) by lia. rewrite Ho, Hc.
    case_bool_decide as Hin.
    + rewrite Hat by lia. rewrite bool_decide_eq_true_2 by lia.
      replace (KnotVector.Order kv + KnotVector.NumOfControlPoints kv -
               (KnotVector.Order kv + KnotVector.NumOfControlPoints kv - j)) with j by lia.
      destruct (at_in_range kv j Hj) as [x ->]. simpl. f_equal. ring.
    + rewrite Hat by lia. rewrite bool_decide_eq_false_2 by lia. reflexivity.
Qed.



(** X3. On a non-decreasing knot vector whose end knots are repeated up to
    index [Order] and from index [NumOfControlPoints], [Flip] gives a
    non-decreasing knot vector again. *)
Theorem Flip_keeps_knots_ordered (kv : KnotVector.t) :
  well_sized kv -> 0 <= KnotVector.Order kv -> 0 <= KnotVector.NumOfControlPoints kv ->
  nondecreasing (KnotVector.knot kv) ->
  KnotVector.at_ kv (KnotVector.Order kv) = KnotVector.at_ kv 0 ->
  KnotVector.at_ kv (KnotVector.NumOfControlPoints kv) =
    KnotVector.at_ kv (KnotVector.Size kv - 1) ->
  exists kv', KnotVector.Flip kv = Ok kv' /\ nondecreasing (KnotVector.knot kv').
Proof.
  intros Hws Hp Hn Hnd Hfirst Hlast.
  destruct (Flip_at kv Hws Hp Hn) as (kv' & k0 & kl & E & E0 & El & Hf & Hat).
  exists kv'. split; [exact E |].
  pose proof Hf as (Ho & Hc & Hne & Hco & Hsp & Hsz).
  unfold well_sized in Hws.
  set (p := KnotVector.Order kv) in *. set (n := KnotVector.NumOfControlPoints kv) in *.
  rewrite E0 in Hfirst. rewrite El in Hlast.
  assert (Hle : forall a b x y, a <= b -> KnotVector.at_ kv a = Ok x ->
                  KnotVector.at_ kv b = Ok y -> (x <= y)%Qc).
  { intros a b x y Hab Ha Hb. apply at_Ok in Ha as [Ha0 Ha], Hb as [Hb0 Hb].
    apply (Hnd (Z.to_nat a) (Z.to_nat b) x y); [lia | exact Ha | exact Hb]. }
  intros i j x y Hij Hx Hy.
  assert (Hi : 0 <= Z.of_nat i < KnotVector.Size kv).
  { apply lookup_lt_Some in Hx. unfold KnotVector.Size, zlen in *. lia. }
  assert (Hj : 0 <= Z.of_nat j < KnotVector.Size kv).
  { apply lookup_lt_Some in Hy. unfold KnotVector.Size, zlen in *. lia. }
  assert (Ex : KnotVector.at_ kv' (Z.of_nat i) = Ok x).
  { apply at_Ok. rewrite Nat2Z.id. split; [lia | exact Hx]. }
  assert (Ey : KnotVector.at_ kv' (Z.of_nat j) = Ok y).
  { apply at_Ok. rewrite Nat2Z.id. split; [lia | exact Hy]. }
  rewrite (Hat _ Hi) in Ex. rewrite (Hat _ Hj) in Ey.
  destruct (decide (p < Z.of_nat i < n)) as [Ii|Ii];
    [rewrite bool_decide_eq_true_2 in Ex by exact Ii
    | rewrite bool_decide_eq_false_2 in Ex by exact Ii];
    (destruct (decide (p < Z.of_nat j < n)) as [Ij|Ij];
     [rewrite bool_decide_eq_true_2 in Ey by exact Ij
     | rewrite bool_decide_eq_false_2 in Ey by exact Ij]).
  - apply rbind_ok in Ex as (x' & Ex' & [= <-]). apply rbind_ok in Ey as (y' & Ey' & [= <-]).
    assert (y' <= x')%Qc by (eapply Hle; [| exact Ey' | exact Ex']; lia). qc_lra.
  - apply rbind_ok in Ex as (x' & Ex' & [= <-]).
    assert (kl <= y)%Qc by (eapply Hle; [| exact Hlast | exact Ey]; lia).
    assert (k0 <= x')%Qc by (eapply Hle; [| exact E0 | exact Ex']; lia). qc_lra.
  - apply rbind_ok in Ey as (y' & Ey' & [= <-]).
    assert (x <= k0)%Qc by (eapply Hle; [| exact Ex | exact Hfirst]; lia).
    assert (y' <= kl)%Qc by (eapply Hle; [| exact Ey' | exact El]; lia). qc_lra.
  - eapply Hle; [| exact Ex | exact Ey]. lia.
Qed.

Lemma Flip_keeps_knots_ordered_witness :
  exists kv', KnotVector.Flip kv_quad3 = Ok kv' /\ nondecreasing (KnotVector.knot kv').
Proof.
  apply (Flip_keeps_knots_ordered kv_quad3);
    [reflexivity | vm_compute; discriminate | vm_compute; discriminate
    | apply nondecreasingb_sound; vm_compute; reflexivity | reflexivity | reflexivity].
Defined.

(** ** KnotVector::findKnotSpan *)

Lemma findKnotSpan_exit kv u mid :
  KnotVector.findKnotSpan kv u = Ok mid ->
  (KnotVector.at_ kv (KnotVector.NumOfControlPoints kv + KnotVector.Order kv) = Ok u /\
   mid = KnotVector.NumOfControlPoints kv) \/
  brackets kv u mid.
Proof.
  unfold KnotVector.findKnotSpan. intros H.
  apply rbind_ok in H as (e & Ee & H).
  unfold Qc_eqb in H. case_bool_decide as Hue.
  - injection H as <-. left. subst e. auto.
  - right. apply rbind_ok in H as ([[low high] m] & Ew & [= ->]).
    apply (while_loop_sound (fun _ => True)) in Ew as [_ Ec]; [| exact I | auto].
    apply rbind_ok in Ec as (a & Ea & Ec).
    destruct (Qc_ltb u a) eqn:Eua; [discriminate |].
    apply rbind_ok in Ec as (b & Eb & [= Ec]).
    exists a, b. repeat split; auto using Qc_ltb_false.
Qed.

(** X4. [findKnotSpan] returns no span for a value above every knot or below
    every knot. *)
Theorem findKnotSpan_needs_value_in_range (kv : KnotVector.t) (u : real_t) (mid : Z) :
  (forall x, x ∈ KnotVector.knot kv -> (x < u)%Qc) \/
  (forall x, x ∈ KnotVector.knot kv -> (u < x)%Qc) ->
  KnotVector.findKnotSpan kv u <> Ok mid.
Proof.
  intros Hout E.
  assert (Hin : forall i x, KnotVector.at_ kv i = Ok x -> x ∈ KnotVector.knot kv).
  { intros i x Hx. apply at_Ok in Hx as [_ Hx]. eapply list_elem_of_lookup_2. exact Hx. }
  assert (Hirr : forall x : Qc, ~ (x < x)%Qc).
  { intros x Hx. apply (Qclt_not_le _ _ Hx), Qcle_refl. }
  apply findKnotSpan_exit in E as [[E _] | (a & b & Ea & Eb & Hau & Hub)].
  - apply Hin in E. destruct Hout as [Hout|Hout]; apply (Hirr u), Hout, E.
  - apply Hin in Ea, Eb. destruct Hout as [Hout|Hout].
    + apply (Qclt_not_le _ _ (Hout b Eb)), Hub.
    + apply (Qclt_not_le _ _ (Hout a Ea)), Hau.
Qed.

Lemma findKnotSpan_needs_value_in_range_witness :
  KnotVector.findKnotSpan kv_quad2 (qc 2 1) <> Ok 4.
Proof.
  apply (findKnotSpan_needs_value_in_range kv_quad2 (qc 2 1) 4).
  left. intros x Hx. 
  repeat (apply elem_of_cons in Hx as [-> | Hx]; [reflexivity |]).
  apply elem_of_nil in Hx. destruct Hx.
Defined.

(** X5. On a non-decreasing knot vector, [findKnotSpan] terminates for every
    [u] between [knot(Order)] and [knot(NumOfControlPoints)] and returns an
    index [mid] between [Order] and [NumOfControlPoints] with
    [knot(mid-1) <= u <= knot(mid)]. *)
Theorem findKnotSpan_brackets (kv : KnotVector.t) (u ka kb : real_t) :
  well_sized kv ->
  0 <= KnotVector.Order kv <= KnotVector.NumOfControlPoints kv ->
  1 <= KnotVector.NumOfControlPoints kv ->
  nondecreasing (KnotVector.knot kv) ->
  KnotVector.at_ kv (KnotVector.Order kv) = Ok ka ->
  KnotVector.at_ kv (KnotVector.NumOfControlPoints kv) = Ok kb ->
  (ka <= u)%Qc -> (u <= kb)%Qc ->
  exists mid,
    KnotVector.findKnotSpan kv u = Ok mid /\
    KnotVector.Order kv <= mid <= KnotVector.NumOfControlPoints kv /\
    brackets kv u mid.
Proof.
  intros Hws Hp Hn Hnd Eka Ekb Hka Hkb. unfold well_sized in Hws.
  set (p := KnotVector.Order kv) in *. set (n := KnotVector.NumOfControlPoints kv) in *.
  assert (Hle : forall a b x y, a <= b -> KnotVector.at_ kv a = Ok x ->
                  KnotVector.at_ kv b = Ok y -> (x <= y)%Qc).
  { intros a b x y Hab Ha Hb. apply at_Ok in Ha as [Ha0 Ha], Hb as [Hb0 Hb].
    apply (Hnd (Z.to_nat a) (Z.to_nat b) x y); [lia | exact Ha | exact Hb]. }
  destruct (at_in_range kv (n + p)) as [e Ee]; [lia |].
  unfold KnotVector.findKnotSpan. fold p n. rewrite Ee. cbn [rbind].
  unfold Qc_eqb. case_bool_decide as Hue.
  - (* the last knot *)
    exists n. split; [reflexivity |]. split; [lia |].
    destruct (at_in_range kv (n - 1)) as [a Ea]; [lia |].
    exists a, kb. repeat split; auto.
    apply (Qcle_trans _ kb).
    + eapply Hle; [| exact Ea | exact Ekb]. lia.
    + subst u. eapply Hle; [| exact Ekb | exact Ee]. lia.
  - set (cond := fun '(low, high, mid) =>
           a ← KnotVector.at_ kv (mid - 1);
           if Qc_ltb u a then Ok true
           else b ← KnotVector.at_ kv mid; Ok (Qc_ltb b u)).
    set (body := fun '(low, high, mid) =>
           a ← KnotVector.at_ kv (mid - 1);
           let '(low, high) := if Qc_ltb u a then (low, mid) else (mid, high) in
           Ok (low, high, (low + high) `quot` 2)).
    destruct (while_loop_total
                (fun '(low, high, mid) =>
                   p <= low < high /\ high <= n + 1 /\ 2 <= low + high /\
                   mid = (low + high) `quot` 2 /\
                   (exists a, KnotVector.at_ kv low = Ok a /\ (a <= u)%Qc) /\
                   (exists b, KnotVector.at_ kv (high - 1) = Ok b /\ (u <= b)%Qc))
                (fun '(low, high, mid) => Z.to_nat (high - low))
                cond body (S (Z.to_nat (n + 1 - p))) (p, n + 1, (p + (n + 1)) `quot` 2))
      as ([[low high] mid] & -> & HI & Ec).
    + repeat split; try lia.
      * exists ka. auto.
      * exists kb. replace (n + 1 - 1) with n by lia. auto.
    + lia.
    + intros [[low high] mid] (Hlow & Hhigh & Hsum & -> & (a & Ea & Hau) & (b & Eb & Hub)).
      set (mid := (low + high) `quot` 2).
      assert (Hmid : low <= mid < high /\ 1 <= mid /\ (high - low >= 2 -> low < mid)).
      { unfold mid. rewrite Z.quot_div_nonneg by lia.
        pose proof (Z.div_mod (low + high) 2 ltac:(lia)).
        pose proof (Z.mod_pos_bound (low + high) 2 ltac:(lia)). lia. }
      destruct (at_in_range kv (mid - 1)) as [x Ex]; [lia |].
      destruct (at_in_range kv mid) as [y Ey]; [lia |].
      unfold cond, body. rewrite Ex. simpl.
      destruct (Qc_ltb u x) eqn:Eux.
      * exists true. split; [reflexivity |]. intros _.
        eexists. split; [reflexivity |].
        apply Qc_ltb_true in Eux.
        assert (low < mid - 1).
        { destruct (Z_lt_ge_dec low (mid - 1)) as [?|Hge]; [assumption |].
          exfalso. assert (x <= a)%Qc by (eapply Hle; [| exact Ex | exact Ea]; lia).
          apply (Qclt_not_le _ _ Eux). apply (Qcle_trans _ a); assumption. }
        repeat split; try lia.
        -- exists a. auto.
        -- exists x. split; [exact Ex |]. apply Qclt_le_weak. exact Eux.
      * rewrite Ey. simpl. exists (Qc_ltb y u). split; [reflexivity |].
        intros Eyu. apply Qc_ltb_true in Eyu.
        eexists. split; [reflexivity |].
        assert (low < mid).
        { destruct (Z_lt_ge_dec low mid) as [?|Hge]; [assumption |].
          exfalso. assert (b <= y)%Qc by (eapply Hle; [| exact Eb | exact Ey]; lia).
          apply (Qclt_not_le _ _ Eyu). apply (Qcle_trans _ b); assumption. }
        repeat split; try lia.
        -- exists y. split; [exact Ey |]. apply Qclt_le_weak. exact Eyu.
        -- exists b. auto.
    + simpl. destruct HI as (Hlow & Hhigh & Hsum & -> & _).
      set (mid := (low + high) `quot` 2) in *.
      assert (Hmid : low <= mid < high).
      { unfold mid. rewrite Z.quot_div_nonneg by lia.
        pose proof (Z.div_mod (low + high) 2 ltac:(lia)).
        pose proof (Z.mod_pos_bound (low + high) 2 ltac:(lia)). lia. }
      exists mid. split; [reflexivity |]. split; [lia |].
      unfold cond in Ec. apply rbind_ok in Ec as (x & Ex & Ec).
      destruct (Qc_ltb u x) eqn:Eux; [discriminate |].
      apply rbind_ok in Ec as (y & Ey & [= Ec]).
      exists x, y. repeat split; auto using Qc_ltb_false.
Qed.

Lemma findKnotSpan_brackets_witness :
  exists mid,
    KnotVector.findKnotSpan kv_quad2 (qc 1 4) = Ok mid /\
    KnotVector.Order kv_quad2 <= mid <= KnotVector.NumOfControlPoints kv_quad2 /\
    brackets kv_quad2 (qc 1 4) mid.
Proof.
  apply (findKnotSpan_brackets kv_quad2 (qc 1 4) (qc 0 1) (qc 1 1));
    [reflexivity | vm_compute; split; discriminate | vm_compute; discriminate
    | apply nondecreasingb_sound; vm_compute; reflexivity
    | reflexivity | reflexivity | vm_compute; discriminate | vm_compute; discriminate].
Defined.

(** ** KnotVector::Difference *)

Lemma Difference_loop_sublist eps self kv s0 d :
  0 < s0 -> s0 = KnotVector.Size kv - KnotVector.Size self ->
  KnotVector.Difference_loop eps self kv s0 = Ok d ->
  zlen d = s0 /\ sublist d (KnotVector.knot kv).
Proof.
  intros Hpos Hs0 E. unfold KnotVector.Difference_loop in E.
  apply rbind_ok in E as ([[i s] diff] & E & [= ->]).
  apply (for_loop_sound
           (fun j '(i, s, diff) =>
              0 <= i <= KnotVector.Size self /\ 0 <= s <= s0 /\ i + s = j /\
              zlen diff = s0 /\
              sublist (take (Z.to_nat s) diff) (take (Z.to_nat j) (KnotVector.knot kv))))
    in E.
  - destruct E as (Hi & Hs & Hsum & Hlen & Hsub).
    assert (s = s0) by lia. subst s.
    rewrite take_ge in Hsub by (unfold zlen in Hlen; lia).
    rewrite take_ge in Hsub by (unfold KnotVector.Size, zlen; lia).
    auto.
  - unfold KnotVector.Size, zlen. lia.
  - unfold zlen. rewrite length_replicate. simpl.
    repeat split; try lia.
    + unfold KnotVector.Size, zlen. lia.
    + apply sublist_nil_l.
  - intros j [[i1 s1] diff1] [[i2 s2] diff2] Hj (Hi & Hs & Hsum & Hlen & Hsub) Eb.
    apply rbind_ok in Eb as (a & Ea & Eb). apply rbind_ok in Eb as (b & Eb' & Eb).
    pose proof (at_range _ _ _ Ea) as Hra.
    apply at_Ok in Eb' as [_ Hb].
    replace (Z.to_nat (j + 1)) with (S (Z.to_nat j)) by lia.
    rewrite (take_S_r _ _ _ Hb).
    destruct (Qc_ltb (Qcabs (a - b)) (2 * eps)).
    + injection Eb as <- <- <-. repeat split; try lia.
      apply sublist_inserts_r. exact Hsub.
    + apply rbind_ok in Eb as (diff' & Ew & [= <- <- <-]).
      apply wr_inv in Ew as [Hw ->].
      repeat split; try lia.
      * unfold zlen in *. rewrite length_insert. exact Hlen.
      * replace (Z.to_nat (s1 + 1)) with (S (Z.to_nat s1)) by lia.
        assert (Hlk : <[Z.to_nat s1 := b]> diff1 !! Z.to_nat s1 = Some b)
          by (apply list_lookup_insert_eq; unfold zlen in Hw; lia).
        rewrite (take_S_r _ _ _ Hlk), take_insert_ge by lia.
        apply sublist_app; [exact Hsub | reflexivity].
Qed.

(** X6. Whenever [Difference] returns, the result has as many entries as the
    two knot arrays differ in length, and it is a subsequence of the knots of
    the longer vector: knots are only ever copied from it, in order. *)
Theorem Difference_is_subsequence (eps : real_t) (a b : KnotVector.t) (d : list real_t) :
  KnotVector.Difference eps a b = Ok d ->
  zlen d = Z.abs (KnotVector.Size b - KnotVector.Size a) /\
  sublist d (if bool_decide (KnotVector.Size a <= KnotVector.Size b)
             then KnotVector.knot b else KnotVector.knot a).
Proof.
  unfold KnotVector.Difference, KnotVector.Difference_ordered, KnotVector.GetOrder.
  intros E. apply rbind_ok in E as ([] & _ & E).
  destruct (Z.lt_trichotomy (KnotVector.Size a) (KnotVector.Size b)) as [Hs|[Hs|Hs]].
  - rewrite (bool_decide_eq_false_2 (KnotVector.Size b - KnotVector.Size a < 0)) in E by lia.
    rewrite (bool_decide_eq_false_2 (KnotVector.Size b - KnotVector.Size a = 0)) in E by lia.
    rewrite bool_decide_eq_true_2 by lia.
    apply Difference_loop_sublist in E as [Hl Hsub]; [| lia | reflexivity].
    split; [lia | exact Hsub].
  - rewrite (bool_decide_eq_false_2 (KnotVector.Size b - KnotVector.Size a < 0)) in E by lia.
    rewrite (bool_decide_eq_true_2 (KnotVector.Size b - KnotVector.Size a = 0)) in E by lia.
    injection E as <-. split; [unfold zlen; simpl; lia | apply sublist_nil_l].
  - rewrite (bool_decide_eq_true_2 (KnotVector.Size b - KnotVector.Size a < 0)) in E by lia.
    apply rbind_ok in E as ([] & _ & E).
    rewrite (bool_decide_eq_false_2 (KnotVector.Size a - KnotVector.Size b = 0)) in E by lia.
    rewrite bool_decide_eq_false_2 by lia.
    apply Difference_loop_sublist in E as [Hl Hsub]; [| lia | reflexivity].
    split; [lia | exact Hsub].
Qed.

Lemma Difference_is_subsequence_witness :
  zlen [qc 3 10; qc 6 10] = Z.abs (KnotVector.Size kv_lin3 - KnotVector.Size kv_lin1) /\
  sublist [qc 3 10; qc 6 10]
    (if bool_decide (KnotVector.Size kv_lin1 <= KnotVector.Size kv_lin3)
     then KnotVector.knot kv_lin3 else KnotVector.knot kv_lin1).
Proof.
  apply (Difference_is_subsequence epsilon_double kv_lin1 kv_lin3 [qc 3 10; qc 6 10]).
  vm_compute. reflexivity.
Defined.

(** ** KnotVector::GetElements *)

Lemma zlen_nonneg {A} (l : list A) : 0 <= zlen l.
Proof. unfold zlen. lia. Qed.

Lemma Qc_eqb_refl x : Qc_eqb x x = true.
Proof. unfold Qc_eqb. apply bool_decide_eq_true_2. reflexivity. Qed.

Lemma spans_cons a b l :
  spans (a :: b :: l) = if Qc_eqb a b then spans (b :: l) else (a, b) :: spans (b :: l).
Proof. reflexivity. Qed.

Lemma spans_replicate n c : spans (replicate n c) = [].
Proof.
  induction n as [|n IH]; [reflexivity |].
  destruct n as [|n]; [reflexivity |].
  change (replicate (S (S n)) c) with (c :: c :: replicate n c).
  rewrite spans_cons, Qc_eqb_refl. exact IH.
Qed.

Lemma spans_repeated_front n c l : spans (replicate n c ++ c :: l) = spans (c :: l).
Proof.
  induction n as [|n IH]; [reflexivity |].
  rewrite <- IH. destruct n as [|n].
  - change (replicate 1 c ++ c :: l) with (c :: c :: l).
    rewrite spans_cons, Qc_eqb_refl. reflexivity.
  - change (replicate (S (S n)) c ++ c :: l) with (c :: c :: (replicate n c ++ c :: l)).
    change (replicate (S n) c ++ c :: l) with (c :: (replicate n c ++ c :: l)).
    rewrite spans_cons, Qc_eqb_refl. reflexivity.
Qed.

Lemma spans_repeated_back n c l :
  last l = Some c -> spans (l ++ replicate n c) = spans l.
Proof.
  induction l as [|a l IH]; [discriminate |]. intros Hl.
  destruct l as [|b rest].
  - injection Hl as ->. change ([c] ++ replicate n c) with (replicate (S n) c).
    rewrite spans_replicate. reflexivity.
  - change ((a :: b :: rest) ++ replicate n c) with (a :: b :: (rest ++ replicate n c)).
    rewrite !spans_cons.
    change (b :: (rest ++ replicate n c)) with ((b :: rest) ++ replicate n c).
    rewrite (IH Hl). reflexivity.
Qed.

(** The loop of [GetElements] over a stretch [ls] of the knots counts the
    non-empty spans of the stretch. *)
Lemma count_elements_iter kv ls : forall i n rest,
  0 <= i ->
  drop (Z.to_nat i) (KnotVector.knot kv) = ls ++ rest ->
  for_iter (length ls - 1) i
    (fun i n =>
       a ← KnotVector.at_ kv i;
       b ← KnotVector.at_ kv (i + 1);
       Ok (if Qc_eqb a b then n else n + 1))
    n = Ok (n + zlen (spans ls)).
Proof.
  induction ls as [|a ls IH]; intros i n rest Hi Hdrop.
  - simpl. rewrite Z.add_0_r. reflexivity.
  - destruct ls as [|b ls'].
    + simpl. rewrite Z.add_0_r. reflexivity.
    + assert (Ha : KnotVector.knot kv !! Z.to_nat i = Some a).
      { rewrite <- (Nat.add_0_r (Z.to_nat i)), <- lookup_drop, Hdrop. reflexivity. }
      assert (Hdrop' : drop (Z.to_nat (i + 1)) (KnotVector.knot kv) = (b :: ls') ++ rest).
      { replace (Z.to_nat (i + 1)) with (S (Z.to_nat i)) by lia.
        rewrite (drop_S _ _ _ Ha) in Hdrop. simpl in Hdrop. simpl. congruence. }
      assert (Hb : KnotVector.knot kv !! Z.to_nat (i + 1) = Some b).
      { rewrite <- (Nat.add_0_r (Z.to_nat (i + 1))), <- lookup_drop, Hdrop'. reflexivity. }
      assert (Hi1 : 0 <= i + 1) by lia.
      replace (length (a :: b :: ls') - 1)%nat with (S (length (b :: ls') - 1))
        by (simpl; lia).
      cbn [for_iter].
      rewrite (proj2 (at_Ok kv i a) (conj Hi Ha)). cbn [rbind].
      rewrite (proj2 (at_Ok kv (i + 1) b) (conj Hi1 Hb)). cbn [rbind].
      rewrite (IH (i + 1) _ rest Hi1 Hdrop'). f_equal.
      rewrite spans_cons. destruct (Qc_eqb a b); [reflexivity |].
      unfold zlen. simpl length. lia.
Qed.

(** X7. On a knot vector whose first [Order+1] knots are equal and whose last
    [Order+1] knots are equal, [GetElements] sets [NumOfElements] to the
    number of non-empty spans of the whole knot array, and changes nothing
    else. *)
Theorem GetElements_counts_spans (kv : KnotVector.t) :
  well_sized kv ->
  0 <= KnotVector.Order kv <= KnotVector.NumOfControlPoints kv ->
  (forall j, 0 <= j < KnotVector.Order kv ->
     KnotVector.at_ kv j = KnotVector.at_ kv (KnotVector.Order kv)) ->
  (forall j, KnotVector.NumOfControlPoints kv < j < KnotVector.Size kv ->
     KnotVector.at_ kv j = KnotVector.at_ kv (KnotVector.NumOfControlPoints kv)) ->
  exists kv',
    KnotVector.GetElements kv = Ok kv' /\
    KnotVector.NumOfElements kv' = zlen (spans (KnotVector.knot kv)) /\
    KnotVector.knot kv' = KnotVector.knot kv /\
    KnotVector.Order kv' = KnotVector.Order kv /\
    KnotVector.NumOfControlPoints kv' = KnotVector.NumOfControlPoints kv.
Proof.
  intros Hws Hp Hfirst Hlast. unfold well_sized in Hws.
  set (p := KnotVector.Order kv) in *. set (n := KnotVector.NumOfControlPoints kv) in *.
  set (ks := KnotVector.knot kv) in *.
  assert (Hlen : length ks = Z.to_nat (n + p + 1)).
  { unfold KnotVector.Size, zlen in Hws. fold ks in Hws. lia. }
  destruct (at_in_range kv p) as [k0 E0]; [lia |].
  destruct (at_in_range kv n) as [kl El]; [lia |].
  set (ls := take (Z.to_nat (n - p + 1)) (drop (Z.to_nat p) ks)).
  assert (Hls : length ls = Z.to_nat (n - p + 1)).
  { unfold ls. rewrite length_take, length_drop. lia. }
  assert (Hks : ks = replicate (Z.to_nat p) k0 ++ ls ++ replicate (Z.to_nat p) kl).
  { apply list_eq. intros i.
    destruct (decide (i < Z.to_nat p)%nat) as [H1|H1].
    - rewrite lookup_app_l by (rewrite length_replicate; lia).
      rewrite lookup_replicate_2 by lia.
      specialize (Hfirst (Z.of_nat i) ltac:(lia)). rewrite E0 in Hfirst.
      apply at_Ok in Hfirst as [_ Hfirst]. rewrite Nat2Z.id in Hfirst. exact Hfirst.
    - rewrite lookup_app_r by (rewrite length_replicate; lia). rewrite length_replicate.
      destruct (decide (i - Z.to_nat p < Z.to_nat (n - p + 1))%nat) as [H2|H2].
      + rewrite lookup_app_l by lia. unfold ls.
        rewrite lookup_take_lt by lia. rewrite lookup_drop. f_equal. lia.
      + rewrite lookup_app_r by lia. rewrite Hls.
        destruct (decide (i < length ks)%nat) as [H3|H3].
        * rewrite lookup_replicate_2 by lia.
          specialize (Hlast (Z.of_nat i) ltac:(unfold KnotVector.Size, zlen; fold ks; lia)).
          rewrite El in Hlast. apply at_Ok in Hlast as [_ Hlast].
          rewrite Nat2Z.id in Hlast. exact Hlast.
        * rewrite lookup_ge_None_2 by lia. symmetry. apply lookup_replicate_None. lia. }
  assert (Hhead : exists ls', ls = k0 :: ls').
  { destruct ls as [|x ls'] eqn:Els; [simpl in Hls; lia |]. exists ls'. f_equal.
    apply at_Ok in E0 as [_ E0]. fold ks in E0.
    assert (ls !! 0%nat = Some x) by (rewrite Els; reflexivity).
    unfold ls in H. rewrite lookup_take_lt in H by lia. rewrite lookup_drop in H.
    rewrite Nat.add_0_r in H. congruence. }
  assert (Hlastl : last ls = Some kl).
  { rewrite last_lookup. rewrite Hls.
    apply at_Ok in El as [_ El]. fold ks in El.
    unfold ls. rewrite lookup_take_lt by lia. rewrite lookup_drop. rewrite <- El. f_equal. lia. }
  assert (Hspans : spans ks = spans ls).
  { rewrite Hks. destruct Hhead as [ls' Els]. rewrite app_assoc.
    rewrite spans_repeated_back.
    - rewrite Els. apply spans_repeated_front.
    - rewrite last_app, Hlastl. reflexivity. }
  unfold KnotVector.GetElements, KnotVector.count_elements. fold p n.
  unfold for_loop. replace (Z.to_nat (n - p)) with (length ls - 1)%nat by lia.
  rewrite (count_elements_iter kv ls p 0 (drop (Z.to_nat (n + 1)) ks)).
  - cbn [rbind]. eexists. split; [reflexivity |]. simpl. rewrite Hspans. repeat split. 
  - lia.
  - fold ks. unfold ls. rewrite <- (take_drop (Z.to_nat (n - p + 1)) (drop (Z.to_nat p) ks)) at 1.
    f_equal. rewrite drop_drop. f_equal. lia.
Qed.

Lemma GetElements_counts_spans_witness :
  exists kv',
    KnotVector.GetElements kv_quad3 = Ok kv' /\
    KnotVector.NumOfElements kv' = zlen (spans (KnotVector.knot kv_quad3)) /\
    KnotVector.knot kv' = KnotVector.knot kv_quad3 /\
    KnotVector.Order kv' = KnotVector.Order kv_quad3 /\
    KnotVector.NumOfControlPoints kv' = KnotVector.NumOfControlPoints kv_quad3.
Proof.
  apply (GetElements_counts_spans kv_quad3).
  - reflexivity.
  - vm_compute. split; discriminate.
  - intros j Hj. change (KnotVector.Order kv_quad3) with 2 in Hj.
    assert (j = 0 \/ j = 1) as [-> | ->] by lia; reflexivity.
  - intros j Hj. change (KnotVector.NumOfControlPoints kv_quad3) with 5 in Hj.
    change (KnotVector.Size kv_quad3) with 8 in Hj.
    assert (j = 6 \/ j = 7) as [-> | ->] by lia; reflexivity.
Defined.

(** ** KnotVector::UniformRefinement *)

Lemma zlen_app {A} (l k : list A) : zlen (l ++ k) = zlen l + zlen k.
Proof. unfold zlen. rewrite length_app. lia. Qed.

Lemma zlen_subdivide rf ab : 1 <= rf -> zlen (subdivide rf ab) = rf - 1.
Proof. intros H. unfold subdivide, zlen. rewrite length_fmap, length_seqZ. lia. Qed.

Lemma zlen_refined rf ks : 1 <= rf -> zlen (refined rf ks) = zlen (spans ks) * (rf - 1).
Proof.
  intros H. unfold refined. induction (spans ks) as [|ab l IH]; [reflexivity |].
  rewrite fmap_cons. cbn [concat]. rewrite zlen_app, IH, zlen_subdivide by exact H.
  unfold zlen. simpl length. lia.
Qed.

(** The inner loop writes the knots of one span. *)
Lemma UniformRefinement_span rf (a b : real_t) (nk : list real_t) (j : Z) :
  1 <= rf -> 0 <= j -> j + (rf - 1) <= zlen nk ->
  for_loop 1 rf
    (fun m '(newknots, j) =>
       newknots ← wr newknots j
                    ((1 - of_int m * (1 / of_int rf)) * a + of_int m * (1 / of_int rf) * b)%Qc;
       Ok (newknots, j + 1))
    (nk, j) =
  Ok (take (Z.to_nat j) nk ++ subdivide rf (a, b) ++ drop (Z.to_nat (j + (rf - 1))) nk,
      j + (rf - 1)).
Proof.
  intros Hrf Hj Hfit.
  match goal with
  | |- for_loop 1 rf ?body ?init = _ =>
      destruct (for_loop_inv
                  (fun m '(nk', j') =>
                     j' = j + (m - 1) /\
                     nk' = take (Z.to_nat j) nk ++
                           ((fun m => ((1 - of_int m * (1 / of_int rf)) * a +
                                       of_int m * (1 / of_int rf) * b)%Qc) <$> seqZ 1 (m - 1))
                           ++ drop (Z.to_nat (j + (m - 1))) nk)
                  1 rf body init) as ([nk' j'] & E & -> & ->)
  end.
  - lia.
  - split; [lia |]. replace (1 - 1) with 0 by lia. rewrite Z.add_0_r.
    rewrite seqZ_nil by lia. simpl. rewrite take_drop. reflexivity.
  - intros m [nk1 j1] Hm [-> ->].
    assert (Hl : zlen (take (Z.to_nat j) nk ++
                  ((fun m => ((1 - of_int m * (1 / of_int rf)) * a +
                              of_int m * (1 / of_int rf) * b)%Qc) <$> seqZ 1 (m - 1))
                  ++ drop (Z.to_nat (j + (m - 1))) nk) = zlen nk).
    { unfold zlen in *. rewrite !length_app, length_take, length_fmap, length_seqZ, length_drop.
      lia. }
    rewrite wr_Ok by lia. cbn [rbind]. eexists. split; [reflexivity |].
    split; [lia |].
    replace (m + 1 - 1) with ((m - 1) + 1) by lia.
    rewrite seqZ_app by lia. rewrite fmap_app.
    replace (1 + (m - 1)) with m by lia.
    rewrite (seqZ_cons m 1) by lia. rewrite (seqZ_nil (Z.succ m)) by lia.
    rewrite fmap_cons, fmap_nil.
    set (pre := take (Z.to_nat j) nk).
    set (mid := (fun m => ((1 - of_int m * (1 / of_int rf)) * a +
                           of_int m * (1 / of_int rf) * b)%Qc) <$> seqZ 1 (m - 1)).
    assert (Hpre : length pre = Z.to_nat j).
    { unfold pre. rewrite length_take. unfold zlen in Hfit. lia. }
    assert (Hmid : length mid = Z.to_nat (m - 1)).
    { unfold mid. rewrite length_fmap, length_seqZ. reflexivity. }
    destruct (drop (Z.to_nat (j + (m - 1))) nk) as [|x rest] eqn:Ed.
    { exfalso. apply (f_equal length) in Ed. rewrite length_drop in Ed. simpl in Ed.
      unfold zlen in Hfit. lia. }
    assert (Hrest : drop (Z.to_nat (j + (m - 1 + 1))) nk = rest).
    { replace (Z.to_nat (j + (m - 1 + 1))) with (S (Z.to_nat (j + (m - 1)))) by lia.
      replace (S (Z.to_nat (j + (m - 1)))) with (Z.to_nat (j + (m - 1)) + 1)%nat by lia.
      rewrite <- (drop_drop nk 1 (Z.to_nat (j + (m - 1)))), Ed. reflexivity. }
    rewrite Hrest.
    replace (Z.to_nat (j + (m - 1))) with (length pre + length mid + 0)%nat by lia.
    rewrite (app_assoc pre mid), <- length_app.
    rewrite insert_app_r. simpl. rewrite <- !app_assoc. reflexivity.
  - rewrite E. reflexivity.
Qed.

Lemma refined_cons_eq rf a b rest :
  Qc_eqb a b = true -> refined rf (a :: b :: rest) = refined rf (b :: rest).
Proof. intros H. unfold refined. cbn [spans]. rewrite H. reflexivity. Qed.

Lemma refined_cons_ne rf a b rest :
  Qc_eqb a b = false ->
  refined rf (a :: b :: rest) = subdivide rf (a, b) ++ refined rf (b :: rest).
Proof. intros H. unfold refined. cbn [spans]. rewrite H. reflexivity. Qed.

(** The outer loop writes the knots of the spans one after the other. *)
Lemma UniformRefinement_loop rf kv ls : forall i j nk,
  1 <= rf -> 0 <= i -> 0 <= j ->
  drop (Z.to_nat i) (KnotVector.knot kv) = ls ->
  j + zlen (refined rf ls) <= zlen nk ->
  for_iter (length ls - 1) i
    (fun i '(newknots, j) =>
       a ← KnotVector.at_ kv i;
       b ← KnotVector.at_ kv (i + 1);
       if negb (Qc_eqb a b) then
         for_loop 1 rf
           (fun m '(newknots, j) =>
              newknots ← wr newknots j
                           ((1 - of_int m * (1 / of_int rf)) * a +
                            of_int m * (1 / of_int rf) * b)%Qc;
              Ok (newknots, j + 1))
           (newknots, j)
       else Ok (newknots, j))
    (nk, j) =
  Ok (take (Z.to_nat j) nk ++ refined rf ls ++
        drop (Z.to_nat (j + zlen (refined rf ls))) nk,
      j + zlen (refined rf ls)).
Proof.
  induction ls as [|a ls IH]; intros i j nk Hrf Hi Hj Hdrop Hfit.
  - simpl. unfold refined, zlen. simpl. rewrite Z.add_0_r, take_drop. reflexivity.
  - destruct ls as [|b rest].
    + simpl. unfold refined, zlen. simpl. rewrite Z.add_0_r, take_drop. reflexivity.
    + assert (Ha : KnotVector.knot kv !! Z.to_nat i = Some a).
      { rewrite <- (Nat.add_0_r (Z.to_nat i)), <- lookup_drop, Hdrop. reflexivity. }
      assert (Hdrop' : drop (Z.to_nat (i + 1)) (KnotVector.knot kv) = b :: rest).
      { replace (Z.to_nat (i + 1)) with (S (Z.to_nat i)) by lia.
        rewrite (drop_S _ _ _ Ha) in Hdrop. congruence. }
      assert (Hb : KnotVector.knot kv !! Z.to_nat (i + 1) = Some b).
      { rewrite <- (Nat.add_0_r (Z.to_nat (i + 1))), <- lookup_drop, Hdrop'. reflexivity. }
      replace (length (a :: b :: rest) - 1)%nat with (S (length (b :: rest) - 1)) by (simpl; lia).
      cbn [for_iter].
      rewrite (proj2 (at_Ok kv i a) (conj Hi Ha)). cbn [rbind].
      assert (Hi1 : 0 <= i + 1) by lia.
      rewrite (proj2 (at_Ok kv (i + 1) b) (conj Hi1 Hb)). cbn [rbind].
      destruct (Qc_eqb a b) eqn:Eab; cbn [negb].
      * cbn [rbind]. rewrite (refined_cons_eq rf a b rest Eab) in *.
        apply IH; auto; lia.
      * rewrite (refined_cons_ne rf a b rest Eab) in *. rewrite zlen_app in *.
        rewrite zlen_subdivide in * by exact Hrf.
        pose proof (zlen_nonneg (refined rf (b :: rest))) as Hnn.
        rewrite UniformRefinement_span by lia. cbn [rbind].
        set (nk1 := take (Z.to_nat j) nk ++ subdivide rf (a, b) ++
                    drop (Z.to_nat (j + (rf - 1))) nk).
        assert (Hl1 : zlen nk1 = zlen nk).
        { unfold nk1. rewrite !zlen_app, zlen_subdivide by exact Hrf.
          unfold zlen in *. rewrite length_take, length_drop. lia. }
        rewrite (IH (i + 1) (j + (rf - 1)) nk1) by (auto; lia).
        assert (Hpre : length (take (Z.to_nat j) nk) = Z.to_nat j).
        { rewrite length_take. unfold zlen in Hfit. lia. }
        assert (Hsub : length (subdivide rf (a, b)) = Z.to_nat (rf - 1)).
        { pose proof (zlen_subdivide rf (a, b) Hrf). unfold zlen in *. lia. }
        assert (T : take (Z.to_nat (j + (rf - 1))) nk1 =
                    take (Z.to_nat j) nk ++ subdivide rf (a, b)).
        { unfold nk1. rewrite app_assoc. apply take_app_length'. rewrite length_app. lia. }
        assert (Dr : drop (Z.to_nat (j + (rf - 1) + zlen (refined rf (b :: rest)))) nk1 =
                     drop (Z.to_nat (j + (rf - 1 + zlen (refined rf (b :: rest))))) nk).
        { unfold nk1. rewrite app_assoc.
          rewrite drop_app_ge by (rewrite length_app; lia).
          rewrite drop_drop. f_equal. rewrite length_app. lia. }
        rewrite T, Dr. rewrite <- !app_assoc. f_equal. f_equal. lia.
Qed.

Lemma of_int_lt m n : m < n -> (of_int m < of_int n)%Qc.
Proof.
  intros H. unfold of_int, Qclt, Q2Qc. simpl. rewrite !Qred_correct.
  unfold Qlt. simpl. lia.
Qed.

(** The fraction [m / rf] for [0 < m < rf]. *)
Lemma fraction_bounds rf m :
  1 <= m < rf -> (0 < of_int m * (1 / of_int rf))%Qc /\ (of_int m * (1 / of_int rf) < 1)%Qc.
Proof.
  intros Hm.
  assert (Hr : (0 < of_int rf)%Qc) by (apply (of_int_lt 0 rf); lia).
  assert (Hi : (0 < 1 / of_int rf)%Qc).
  { unfold Qcdiv. rewrite Qcmult_1_l. apply Qcinv_pos. exact Hr. }
  split.
  - apply Qcmult_pos_pos; [apply (of_int_lt 0 m); lia | exact Hi].
  - assert (E : (of_int rf * (1 / of_int rf))%Qc = 1%Qc).
    { unfold Qcdiv. rewrite Qcmult_1_l. apply Qcmult_inv_r.
      intros E. rewrite E in Hr. apply (Qclt_not_le _ _ Hr), Qcle_refl. }
    revert Hi E. generalize (1 / of_int rf)%Qc. intros t Hi E.
    apply (Qclt_le_trans _ (of_int rf * t)).
    + apply Qcmult_lt_compat_r; [exact Hi | apply of_int_lt; lia].
    + rewrite E. apply Qcle_refl.
Qed.

Lemma subdivide_lookup rf ab (k : nat) x :
  subdivide rf ab !! k = Some x ->
  exists m, m = 1 + Z.of_nat k /\ 1 <= m < rf /\
    x = ((1 - of_int m * (1 / of_int rf)) * ab.1 + of_int m * (1 / of_int rf) * ab.2)%Qc.
Proof.
  unfold subdivide. rewrite list_lookup_fmap. intros H.
  destruct (seqZ 1 (rf - 1) !! k) as [m|] eqn:E; [| discriminate].
  injection H as <-. apply lookup_seqZ in E as [-> Hk]. eexists. split; [reflexivity |].
  split; [lia | reflexivity].
Qed.

Lemma subdivide_between rf (a b x : real_t) :
  (a < b)%Qc -> x ∈ subdivide rf (a, b) -> (a < x)%Qc /\ (x < b)%Qc.
Proof.
  intros Hab Hx. apply list_elem_of_lookup in Hx as [k Hk].
  apply subdivide_lookup in Hk as (m & _ & Hm & ->). simpl.
  destruct (fraction_bounds rf m Hm) as [H0 H1].
  set (t := (of_int m * (1 / of_int rf))%Qc) in *.
  assert (P1 : (0 < t * (b - a))%Qc).
  { apply Qcmult_pos_pos; [exact H0 |]. clear -Hab. qc_lra. }
  assert (P2 : (0 < (1 - t) * (b - a))%Qc).
  { apply Qcmult_pos_pos; [clear -H1; qc_lra | clear -Hab; qc_lra]. }
  replace ((1 - t) * a + t * b)%Qc with (a + t * (b - a))%Qc by ring.
  split.
  - revert P1. generalize (t * (b - a))%Qc. clear. intros y Hy. qc_lra.
  - replace (t * (b - a))%Qc with ((b - a) - (1 - t) * (b - a))%Qc by ring.
    revert P2. generalize ((1 - t) * (b - a))%Qc. clear. intros y Hy. qc_lra.
Qed.

Lemma StronglySorted_lookup {A} (R : relation A) (l : list A) :
  (forall (i j : nat) x y, (i < j)%nat -> l !! i = Some x -> l !! j = Some y -> R x y) ->
  StronglySorted R l.
Proof.
  induction l as [|a l IH]; intros H; constructor.
  - apply IH. intros i j x y Hij Hx Hy. apply (H (S i) (S j)); [lia | exact Hx | exact Hy].
  - apply Forall_forall. intros y Hy. apply list_elem_of_lookup in Hy as [k Hk].
    apply (H 0%nat (S k)); [lia | reflexivity | exact Hk].
Qed.

Lemma subdivide_sorted rf (a b : real_t) :
  (a < b)%Qc -> StronglySorted Qclt (subdivide rf (a, b)).
Proof.
  intros Hab. apply StronglySorted_lookup. intros i j x y Hij Hx Hy.
  apply subdivide_lookup in Hx as (m & Em & Hm & ->).
  apply subdivide_lookup in Hy as (m' & Em' & Hm' & ->). simpl.
  set (h := (1 / of_int rf)%Qc).
  assert (Hh : (0 < h)%Qc).
  { unfold h, Qcdiv. rewrite Qcmult_1_l. apply Qcinv_pos. apply (of_int_lt 0 rf). lia. }
  assert (P : (0 < (of_int m' * h - of_int m * h) * (b - a))%Qc).
  { apply Qcmult_pos_pos; [| clear -Hab; qc_lra].
    assert (of_int m * h < of_int m' * h)%Qc
      by (apply Qcmult_lt_compat_r; [exact Hh | apply of_int_lt; lia]).
    revert H. generalize (of_int m * h)%Qc (of_int m' * h)%Qc. clear. intros u v H. qc_lra. }
  replace ((1 - of_int m' * h) * a + of_int m' * h * b)%Qc
    with (((1 - of_int m * h) * a + of_int m * h * b) +
          (of_int m' * h - of_int m * h) * (b - a))%Qc by ring.
  revert P. generalize ((of_int m' * h - of_int m * h) * (b - a))%Qc.
  generalize ((1 - of_int m * h) * a + of_int m * h * b)%Qc. clear. intros u v H. qc_lra.
Qed.

(** On non-decreasing knots the new knots are strictly increasing, and each
    of them lies strictly inside a span. *)
Lemma refined_sorted rf ks :
  nondecreasing ks ->
  StronglySorted Qclt (refined rf ks) /\
  forall x, x ∈ refined rf ks ->
    exists (i : nat) a b, ks !! i = Some a /\ ks !! S i = Some b /\ (a < x)%Qc /\ (x < b)%Qc.
Proof.
  induction ks as [|a ks IH]; intros Hnd.
  - split; [constructor | intros x Hx; inversion Hx].
  - destruct ks as [|b rest].
    + split; [constructor | intros x Hx; inversion Hx].
    + apply nondecreasing_cons_inv in Hnd as [Hnd' Hhead].
      destruct (IH Hnd') as [IHs IHx].
      destruct (Qc_eqb a b) eqn:Eab.
      * rewrite (refined_cons_eq rf a b rest Eab). split; [exact IHs |].
        intros x Hx. destruct (IHx x Hx) as (i & a' & b' & Ha' & Hb' & H1 & H2).
        exists (S i), a', b'. auto.
      * rewrite (refined_cons_ne rf a b rest Eab).
        assert (Hab : (a < b)%Qc).
        { unfold Qc_eqb in Eab. apply bool_decide_eq_false in Eab.
          destruct (Qcle_lt_or_eq a b) as [H|H]; [| exact H | contradiction].
          apply Hhead. left. }
        split.
        -- apply StronglySorted_app_2; [| apply subdivide_sorted; exact Hab | exact IHs].
           intros x1 x2 Hx1 Hx2. apply (subdivide_between rf a b x1 Hab) in Hx1 as [_ Hx1].
           destruct (IHx x2 Hx2) as (i & a' & b' & Ha' & _ & H1 & _).
           assert (b <= a')%Qc by (apply (Hnd' 0%nat i b a'); [lia | reflexivity | exact Ha']).
           apply (Qclt_le_trans _ b); [exact Hx1 |].
           apply (Qcle_trans _ a'); [assumption | apply Qclt_le_weak; exact H1].
        -- intros x Hx. apply elem_of_app in Hx as [Hx|Hx].
           ++ apply (subdivide_between rf a b x Hab) in Hx as [H1 H2].
              exists 0%nat, a, b. auto.
           ++ destruct (IHx x Hx) as (i & a' & b' & Ha' & Hb' & H1 & H2).
              exists (S i), a', b'. auto.
Qed.

(** X8. On a non-decreasing knot vector whose element count is the number of
    its non-empty spans, [UniformRefinement] with a factor [rf] of at least 2
    returns [rf - 1] new knots for every non-empty span, the points that
    divide it into [rf] equal parts: [NumOfElements * (rf - 1)] knots in
    strictly increasing order, each strictly between two neighbouring knots
    and hence none of them a knot already. *)
Theorem UniformRefinement_divides_spans (kv : KnotVector.t) (newknots : list real_t) (rf : Z) :
  1 < rf ->
  nondecreasing (KnotVector.knot kv) ->
  KnotVector.NumOfElements kv = zlen (spans (KnotVector.knot kv)) ->
  exists d,
    UniformRefinement kv newknots rf = Ok d /\
    d = refined rf (KnotVector.knot kv) /\
    zlen d = KnotVector.NumOfElements kv * (rf - 1) /\
    StronglySorted Qclt d /\
    forall x, x ∈ d ->
      (x ∉ KnotVector.knot kv) /\
      exists (i : nat) a b,
        KnotVector.knot kv !! i = Some a /\ KnotVector.knot kv !! S i = Some b /\
        (a < x)%Qc /\ (x < b)%Qc.
Proof.
  intros Hrf Hnd Hne.
  destruct (refined_sorted rf (KnotVector.knot kv) Hnd) as [Hs Hx].
  pose proof (zlen_refined rf (KnotVector.knot kv) ltac:(lia)) as Hlen.
  exists (refined rf (KnotVector.knot kv)).
  split; [| split; [reflexivity | split; [rewrite Hlen, Hne; reflexivity | split; [exact Hs |]]]].
  - unfold UniformRefinement, MFEM_VERIFY.
    rewrite bool_decide_eq_true_2 by exact Hrf. cbn [rbind].
    set (nk := resize (Z.to_nat (KnotVector.NumOfElements kv * (rf - 1))) filler newknots).
    assert (Hnk : zlen nk = zlen (refined rf (KnotVector.knot kv))).
    { unfold nk, zlen at 1. rewrite length_resize, Hlen, Hne.
      pose proof (zlen_nonneg (spans (KnotVector.knot kv))). nia. }
    cbv zeta. unfold for_loop at 1.
    replace (Z.to_nat (KnotVector.Size kv - 1 - 0))
      with (length (KnotVector.knot kv) - 1)%nat by (unfold KnotVector.Size, zlen; lia).
    rewrite (UniformRefinement_loop rf kv (KnotVector.knot kv) 0 0 nk);
      [| lia | lia | lia | reflexivity | lia].
    cbn [rbind]. f_equal. simpl take.
    rewrite drop_ge by (unfold zlen in *; lia). rewrite app_nil_r. reflexivity.
  - intros x Hxd. destruct (Hx x Hxd) as (i & a & b & Ha & Hb & H1 & H2).
    split; [| eauto 8].
    intros Hin. apply list_elem_of_lookup in Hin as [k Hk].
    destruct (decide (k <= i)%nat) as [Hki|Hki].
    + assert (x <= a)%Qc by (apply (Hnd k i x a); [lia | exact Hk | exact Ha]).
      apply (Qclt_not_le _ _ H1). assumption.
    + assert (b <= x)%Qc by (apply (Hnd (S i) k b x); [lia | exact Hb | exact Hk]).
      apply (Qclt_not_le _ _ H2). assumption.
Qed.

Lemma UniformRefinement_divides_spans_witness :
  exists d,
    UniformRefinement kv_quad2 [] 2 = Ok d /\
    d = refined 2 (KnotVector.knot kv_quad2) /\
    zlen d = KnotVector.NumOfElements kv_quad2 * (2 - 1) /\
    StronglySorted Qclt d /\
    forall x, x ∈ d ->
      (x ∉ KnotVector.knot kv_quad2) /\
      exists (i : nat) a b,
        KnotVector.knot kv_quad2 !! i = Some a /\ KnotVector.knot kv_quad2 !! S i = Some b /\
        (a < x)%Qc /\ (x < b)%Qc.
Proof.
  apply (UniformRefinement_divides_spans kv_quad2 [] 2);
    [lia | apply nondecreasingb_sound; vm_compute; reflexivity | vm_compute; reflexivity].
Defined.


(** ** KnotVector::CalcDShape *)

Lemma sum_first_scale (n : nat) (v : list real_t) (c : real_t) :
  sum_first n ((fun x => (x * c)%Qc) <$> v) = (sum_first n v * c)%Qc.
Proof.
  unfold sum_first. rewrite <- fmap_take.
  induction (take n v) as [|x l IH].
  - simpl. ring.
  - rewrite fmap_cons. cbn [foldr]. rewrite IH. ring.
Qed.

(** The table [ndu] is filled without leaving the arrays. *)
Lemma CalcDShape_table kv (u : real_t) (ip : Z) :
  let p := KnotVector.Order kv in
  let m := KnotVector.MaxOrder + 1 in
  0 <= p <= KnotVector.MaxOrder ->
  p <= ip -> ip + p < KnotVector.Size kv ->
  forall ndu0, sized ndu0 m m ->
  exists ndu l r,
    for_loop 1 (p + 1)
      (fun j '(ndu, lft, rgt) =>
         a ← KnotVector.at_ kv (ip - j + 1);
         lft ← wr lft j (u - a)%Qc;
         b ← KnotVector.at_ kv (ip + j);
         rgt ← wr rgt j (b - u)%Qc;
         '(ndu, saved) ←
           for_loop 0 j
             (fun r '(ndu, saved) =>
                rr ← rd rgt (r + 1);
                lj ← rd lft (j - r);
                ndu ← Array2D.set ndu j r (rr + lj)%Qc;
                x ← Array2D.get ndu r (j - 1);
                y ← Array2D.get ndu j r;
                let temp := (x / y)%Qc in
                ndu ← Array2D.set ndu r j (saved + rr * temp)%Qc;
                Ok (ndu, (lj * temp)%Qc))
             (ndu, Q2Qc 0);
         ndu ← Array2D.set ndu j j saved;
         Ok (ndu, lft, rgt))
      (ndu0, replicate (Z.to_nat m) (Q2Qc 0), replicate (Z.to_nat m) (Q2Qc 0)) =
    Ok (ndu, l, r) /\ sized ndu m m.
Proof.
  intros p m Hp Hlo Hhi ndu0 H0.
  match goal with
  | |- exists ndu l r, for_loop 1 (p + 1) ?body ?init = _ /\ _ =>
      destruct (for_loop_inv
                  (fun _ '(ndu, lft, rgt) =>
                     sized ndu m m /\ zlen lft = m /\ zlen rgt = m)
                  1 (p + 1) body init) as ([[ndu l] r] & E & HI & _)
  end.
  - lia.
  - unfold zlen. rewrite !length_replicate. unfold m, KnotVector.MaxOrder.
    split; [exact H0 |]. split; lia.
  - intros j [[ndu lft] rgt] Hj (Hn & Hl & Hr).
    destruct (at_in_range kv (ip - j + 1)) as [a ->]; [lia |]. cbn [rbind].
    rewrite wr_Ok by (unfold m in *; lia). cbn [rbind].
    destruct (at_in_range kv (ip + j)) as [b ->]; [lia |]. cbn [rbind].
    rewrite wr_Ok by (unfold m in *; lia). cbn [rbind].
    set (left' := <[Z.to_nat j := (u - a)%Qc]> lft).
    set (right' := <[Z.to_nat j := (b - u)%Qc]> rgt).
    assert (Hl' : zlen left' = m) by (unfold left', zlen in *; rewrite length_insert; exact Hl).
    assert (Hr' : zlen right' = m) by (unfold right', zlen in *; rewrite length_insert; exact Hr).
    match goal with
    | |- exists s', rbind (for_loop 0 j ?body ?init) _ = _ /\ _ =>
        destruct (for_loop_inv (fun _ '(ndu, saved) => sized ndu m m) 0 j body init)
          as ([ndu' saved] & -> & Hn')
    end.
    + lia.
    + exact Hn.
    + intros r [ndu1 saved] Hr1 Hn1.
      destruct (rd_in_range right' (r + 1)) as (rr & -> & _); [unfold m in *; lia |].
      cbn [rbind].
      destruct (rd_in_range left' (j - r)) as (lj & -> & _); [unfold m in *; lia |].
      cbn [rbind].
      destruct (set_sized ndu1 m m j r (rr + lj)%Qc Hn1) as (ndu2 & -> & Hn2);
        [unfold m in *; lia | unfold m in *; lia |]. cbn [rbind].
      destruct (get_sized ndu2 m m r (j - 1) Hn2) as (x & ->);
        [unfold m in *; lia | unfold m in *; lia |]. cbn [rbind].
      destruct (get_sized ndu2 m m j r Hn2) as (y & ->);
        [unfold m in *; lia | unfold m in *; lia |]. cbn [rbind].
      destruct (set_sized ndu2 m m r j (saved + rr * (x / y))%Qc Hn2) as (ndu3 & -> & Hn3);
        [unfold m in *; lia | unfold m in *; lia |]. cbn [rbind].
      eexists. split; [reflexivity | exact Hn3].
    + cbn [rbind].
      destruct (set_sized ndu' m m j j saved Hn') as (ndu3 & -> & Hn3);
        [unfold m in *; lia | unfold m in *; lia |]. cbn [rbind].
      eexists. split; [reflexivity |]. split; [exact Hn3 | split; assumption].
  - exists ndu, l, r. split; [exact E | exact HI].
Qed.

(** The entries that the second loop writes telescope. *)
Lemma CalcDShape_telescope (ndu : Array2D.t real_t) (p : Z) (grad : list real_t) :
  let m := KnotVector.MaxOrder + 1 in
  sized ndu m m -> 0 <= p <= KnotVector.MaxOrder -> p + 1 <= zlen grad ->
  exists g,
    for_loop 0 (p + 1)
      (fun r grad =>
         let rk := r - 1 in
         let pk := p - 1 in
         d ← (if bool_decide (1 <= r)
              then x ← Array2D.get ndu rk pk; y ← Array2D.get ndu p rk; Ok (x / y)%Qc
              else Ok (Q2Qc 0));
         d ← (if bool_decide (r <= pk)
              then x ← Array2D.get ndu r pk; y ← Array2D.get ndu p r; Ok (d - x / y)%Qc
              else Ok d);
         wr grad r d)
      grad = Ok g /\
    zlen g = zlen grad /\ sum_first (Z.to_nat (p + 1)) g = Q2Qc 0.
Proof.
  intros m Hn Hp Hlen.
  match goal with
  | |- exists g, for_loop 0 (p + 1) ?body ?init = _ /\ _ =>
      destruct (for_loop_inv
                  (fun r g => zlen g = zlen grad /\
                     sum_first (Z.to_nat r) g =
                       (- (if bool_decide (1 <= r <= p)%Z then ndu_quotient ndu p (r - 1)%Z
                           else Q2Qc 0))%Qc)
                  0 (p + 1) body init) as (g & E & Hg & Hsum)
  end.
  - lia.
  - split; [reflexivity |]. rewrite bool_decide_eq_false_2 by lia. reflexivity.
  - intros r g Hr (Hg & Hsum). cbv zeta.
    assert (E1 : (if bool_decide (1 <= r)
                  then x ← Array2D.get ndu (r - 1) (p - 1);
                       y ← Array2D.get ndu p (r - 1); Ok (x / y)%Qc
                  else Ok (Q2Qc 0)) =
                 Ok (if bool_decide (1 <= r <= p) then ndu_quotient ndu p (r - 1)
                     else Q2Qc 0)).
    { destruct (decide (1 <= r)) as [H1|H1].
      - rewrite bool_decide_eq_true_2 by exact H1. rewrite bool_decide_eq_true_2 by lia.
        unfold ndu_quotient.
        destruct (get_sized ndu m m (r - 1) (p - 1) Hn) as (x & ->);
          [unfold m; lia | unfold m; lia |].
        destruct (get_sized ndu m m p (r - 1) Hn) as (y & ->);
          [unfold m; lia | unfold m; lia |]. reflexivity.
      - rewrite bool_decide_eq_false_2 by exact H1. rewrite bool_decide_eq_false_2 by lia.
        reflexivity. }
    rewrite E1. cbn [rbind].
    set (d1 := if bool_decide (1 <= r <= p) then ndu_quotient ndu p (r - 1) else Q2Qc 0) in *.
    assert (E2 : (if bool_decide (r <= p - 1)
                  then x ← Array2D.get ndu r (p - 1);
                       y ← Array2D.get ndu p r; Ok (d1 - x / y)%Qc
                  else Ok d1) =
                 Ok (d1 - (if bool_decide (1 <= r + 1 <= p)%Z then ndu_quotient ndu p r
                           else Q2Qc 0))%Qc).
    { destruct (decide (r <= p - 1)) as [H1|H1].
      - rewrite bool_decide_eq_true_2 by exact H1. rewrite bool_decide_eq_true_2 by lia.
        unfold ndu_quotient.
        destruct (get_sized ndu m m r (p - 1) Hn) as (x & ->);
          [unfold m; lia | unfold m; lia |].
        destruct (get_sized ndu m m p r Hn) as (y & ->);
          [unfold m; lia | unfold m; lia |]. reflexivity.
      - rewrite bool_decide_eq_false_2 by exact H1. rewrite bool_decide_eq_false_2 by lia.
        f_equal. ring. }
    rewrite E2. cbn [rbind].
    rewrite wr_Ok by lia. eexists. split; [reflexivity |]. split.
    + unfold zlen in *. rewrite length_insert. exact Hg.
    + replace (Z.to_nat (r + 1)) with (S (Z.to_nat r)) by lia.
      rewrite (sum_first_snoc _ _ (d1 - (if bool_decide (1 <= r + 1 <= p)%Z
                                         then ndu_quotient ndu p r else Q2Qc 0))%Qc).
      2:{ apply list_lookup_insert_eq. unfold zlen in *. lia. }
      rewrite sum_first_insert_ge by lia. rewrite Hsum.
      replace (r + 1 - 1) with r by lia. ring.
  - exists g. split; [exact E |]. split; [exact Hg |].
    rewrite Hsum. rewrite bool_decide_eq_false_2 by lia. ring.
Qed.

(** X9. The derivatives that [CalcDShape] leaves in [grad] sum to zero: on a
    knot vector of order at most [MaxOrder], for every span and every local
    parameter, the call returns and the first [Order+1] entries of [grad]
    cancel. Non-decreasing knots and a span that is an element are the
    conditions under which no divisor of the recurrence is zero. *)
Theorem CalcDShape_sums_to_zero
    (getKnotLocation : KnotVector.t -> real_t -> Z -> Res real_t)
    (kv : KnotVector.t) (grad : list real_t) (i : Z) (xi u : real_t) :
  let p := KnotVector.Order kv in
  let e := if bool_decide (0 <= i) then i else -1 - i in
  well_sized kv ->
  0 <= p <= KnotVector.MaxOrder ->
  nondecreasing (KnotVector.knot kv) ->
  p + 1 <= zlen grad ->
  0 <= e < KnotVector.GetNKS kv ->
  KnotVector.isElement kv e = Ok true ->
  getKnotLocation kv (if bool_decide (0 <= i) then xi else (1 - xi)%Qc) (e + p) = Ok u ->
  exists grad',
    CalcDShape getKnotLocation kv grad i xi = Ok grad' /\
    zlen grad' = zlen grad /\
    sum_first (Z.to_nat (p + 1)) grad' = Q2Qc 0.
Proof.
  intros p e Hws Hp _ Hlen He _ Hu.
  unfold well_sized in Hws. unfold KnotVector.GetNKS in He. fold p in Hws, He.
  unfold CalcDShape. fold p.
  assert (Hip : (if bool_decide (0 <= i) then i + p else -1 - i + p) = e + p).
  { unfold e. case_bool_decide; lia. }
  rewrite Hip, Hu. cbn [rbind].
  set (ip := e + p) in *. set (m := KnotVector.MaxOrder + 1).
  destruct (set_sized (Array2D.create m m (Q2Qc 0)) m m 0 0 (Q2Qc 1))
    as (ndu0 & -> & H0);
    [apply sized_create; unfold m, KnotVector.MaxOrder; lia
    | unfold m, KnotVector.MaxOrder; lia | unfold m, KnotVector.MaxOrder; lia |].
  cbn [rbind].
  destruct (CalcDShape_table kv u ip Hp ltac:(unfold ip; lia) ltac:(unfold ip; lia) ndu0 H0)
    as (ndu & l & r & Et & Hn).
  destruct (CalcDShape_telescope ndu p grad Hn Hp Hlen) as (g & Eg & Hg & Hsum).
  cbv zeta in Et, Eg. fold p m in Et. fold p in Eg.
  rewrite Et. cbn [rbind]. rewrite Eg. cbn [rbind].
  destruct (at_in_range kv (ip + 1)) as [ka ->]; [unfold ip; lia |]. cbn [rbind].
  destruct (at_in_range kv ip) as [kb ->]; [unfold ip; lia |]. cbn [rbind].
  eexists. split; [reflexivity |]. split.
  - unfold zlen in *. rewrite length_fmap. exact Hg.
  - rewrite sum_first_scale, Hsum. ring.
Qed.

Lemma CalcDShape_sums_to_zero_witness :
  exists grad',
    CalcDShape getKnotLocation kv_quad2 (replicate 3 (Q2Qc 0)) 1 (qc 1 3) = Ok grad' /\
    zlen grad' = zlen (replicate 3 (Q2Qc 0)) /\
    sum_first (Z.to_nat (KnotVector.Order kv_quad2 + 1)) grad' = Q2Qc 0.
Proof.
  apply (CalcDShape_sums_to_zero getKnotLocation kv_quad2 (replicate 3 (Q2Qc 0)) 1
           (qc 1 3) (qc 2 3)).
  - reflexivity.
  - vm_compute. split; discriminate.
  - apply nondecreasingb_sound. vm_compute. reflexivity.
  - vm_compute. discriminate.
  - vm_compute. split; [discriminate | reflexivity].
  - vm_compute. reflexivity.
  - vm_compute. f_equal. apply Qc_is_canon. reflexivity.
Defined.


(** ** NURBSPatch: construction and destruction *)

(** X10. A patch built by [NURBSPatch(parent, dir, Order, NCP)] and destroyed
    again leaves the store as it was before the construction: the destructor
    frees the buffer and every knot vector the constructor allocated, and
    nothing else. *)
Theorem create_from_destroy_restores (h : Store.t) (p : NURBSPatch.t) (dir order ncp : Z)
    (l : positive) :
  patch_ok h p ->
  rd (NURBSPatch.kv p) dir = Ok l ->
  0 < ncp ->
  returns (mbind (NURBSPatch.create_from p dir order ncp) NURBSPatch.destroy) h
    (fun _ h' => h' = h).
Proof.
  intros Hok Hl Hncp. apply returns_bind.
  eapply returns_weaken; [apply (create_from_spec h p dir order ncp l Hok Hl Hncp) |].
  intros np h1 ((lt & Hd & Hfresh & Hb) & Hnd & Hout & Hin & _).
  assert (Hown : owned h1 np).
  { split; [| split; [exact Hnd |]].
    - exists lt. split; [exact Hd |]. rewrite Hb, lookup_insert_eq. eauto.
    - intros l' Hl'. apply (Hin l' Hl'). }
  unfold NURBSPatch.destroy.
  eapply returns_weaken; [apply (release_released np h1 Hown) |].
  intros [] h' (R1 & R2 & R3). simpl.
  rewrite Hd, Hb in R1.
  destruct h' as [b' k'], h as [b k]. simpl in *. f_equal.
  - rewrite R1. apply delete_insert_id. exact Hfresh.
  - apply map_eq. intros l'. destruct (decide (l' ∈ NURBSPatch.kv np)) as [Hl'|Hl'].
    + rewrite (R2 l' Hl'). symmetry. apply (Hin l' Hl').
    + rewrite (R3 l' Hl'). apply (Hout l' Hl').
Qed.

Lemma create_from_destroy_restores_witness :
  returns (mbind (NURBSPatch.create_from (built curve).1 0 2 5) NURBSPatch.destroy)
    (built curve).2 (fun _ h' => h' = (built curve).2).
Proof.
  apply (create_from_destroy_restores (built curve).2 (built curve).1 0 2 5 1%positive).
  - split; [vm_compute; reflexivity |]. split.
    + exists 1%positive. eexists. split; [vm_compute; reflexivity |].
      split; vm_compute; reflexivity.
    + exists kv_quad2. vm_compute. repeat split; reflexivity.
  - vm_compute. reflexivity.
  - lia.
Defined.

(** ** NURBSExtension::CheckKVDirection *)

Lemma directions_wr b kvdir k v kvdir' (c : bool) :
  directions b kvdir -> v = 1 \/ v = -1 -> (Z.to_nat k < b)%nat ->
  (if c then wr kvdir k v else Ok kvdir) = Ok kvdir' ->
  directions b kvdir' /\ length kvdir' = length kvdir.
Proof.
  intros Hd Hv Hk E. destruct c.
  - apply wr_inv in E as [Hr ->]. split; [| apply length_insert].
    intros i x Hx. destruct (decide (i = Z.to_nat k)) as [->|Hne].
    + rewrite list_lookup_insert_eq in Hx by (unfold zlen in Hr; lia).
      injection Hx as <-. split; [lia | lia].
    + rewrite list_lookup_insert_ne in Hx by congruence. apply (Hd i x Hx).
  - injection E as <-. auto.
Qed.

Lemma directions_mono b b' kvdir : (b <= b')%nat -> directions b kvdir -> directions b' kvdir.
Proof.
  intros Hb Hd i x Hx. destruct (Hd i x Hx) as [H1 H2]. split; [exact H1 |].
  intros Hi. apply H2. lia.
Qed.

(** X11. When [CheckKVDirection] returns, the patch is a 2D or 3D patch and
    [kvdir] holds one entry per direction, each of them 1 or -1. *)
Theorem CheckKVDirection_signs (ext : NURBSExtension.t) (p : Z) (kvdir : list Z) :
  NURBSExtension.CheckKVDirection ext p = Ok kvdir ->
  (NURBSExtension.Dimension ext = 2 \/ NURBSExtension.Dimension ext = 3) /\
  zlen kvdir = NURBSExtension.Dimension ext /\
  forall x, x ∈ kvdir -> x = 1 \/ x = -1.
Proof.
  unfold NURBSExtension.CheckKVDirection. intros H.
  apply rbind_ok in H as ([] & Hdim & H).
  unfold MFEM_VERIFY in Hdim.
  destruct (bool_decide (1 < NURBSExtension.Dimension ext)) eqn:Hd1; [| discriminate].
  apply bool_decide_eq_true in Hd1. clear Hdim.
  destruct (Mesh.GetElementEdges (NURBSExtension.patchTopo ext) p) as [edges orient].
  apply rbind_ok in H as (k1 & E1 & H).
  apply rbind_ok in H as (k2 & E2 & H).
  apply rbind_ok in H as ([] & Hv & [= <-]).
  set (dim := NURBSExtension.Dimension ext) in *.
  assert (H1 : directions 2 k1 /\ length k1 = Z.to_nat dim).
  { apply (for_loop_preserves (fun k => directions 2 k /\ length k = Z.to_nat dim)) in E1;
      [exact E1 | |].
    - split; [| apply length_replicate].
      intros i x Hx. apply lookup_replicate in Hx as [-> _]. auto.
    - clear. intros j k k' _ [Hd Hl] E. inv_bind E.
      apply (directions_wr 2) in E2 as [Hd2 Hl2]; [| assumption | lia | simpl; lia].
      apply (directions_wr 2) in E4 as [Hd4 Hl4]; [| assumption | lia | simpl; lia].
      apply (directions_wr 2) in E6 as [Hd6 Hl6]; [| assumption | lia | simpl; lia].
      apply (directions_wr 2) in E as [Hd8 Hl8]; [| assumption | lia | simpl; lia].
      split; [assumption | congruence]. }
  assert (H2 : directions 3 k2 /\ length k2 = Z.to_nat dim /\ (dim <> 3 -> k2 = k1)).
  { destruct (decide (dim = 3)) as [Hd3|Hd3];
      [rewrite bool_decide_eq_true_2 in E2 by exact Hd3
      | rewrite bool_decide_eq_false_2 in E2 by exact Hd3].
    - apply (for_loop_preserves (fun k => directions 3 k /\ length k = Z.to_nat dim)) in E2.
      + destruct E2 as [Ha Hb]. split; [exact Ha |]. split; [exact Hb |].
        intros Hc. contradiction.
      + destruct H1. split; [apply (directions_mono 2); [lia | assumption] | assumption].
      + clear. intros j k k' _ [Hd Hl] E. inv_bind E.
        apply (directions_wr 3) in E2 as [Hd2 Hl2]; [| assumption | lia | simpl; lia].
        apply (directions_wr 3) in E as [Hd4 Hl4]; [| assumption | lia | simpl; lia].
        split; [assumption | congruence].
    - injection E2 as <-. destruct H1 as [Ha Hb].
      split; [apply (directions_mono 2); [lia | exact Ha] |]. split; [exact Hb | reflexivity]. }
  destruct H2 as (Hd & Hl & Hsame).
  unfold MFEM_VERIFY in Hv.
  destruct (forallb (fun x => negb (bool_decide (x = 0))) k2) eqn:Hall; [| discriminate].
  rewrite forallb_forall in Hall.
  assert (Hnz : forall (i : nat) x, k2 !! i = Some x -> x <> 0).
  { intros i x Hx Hz. assert (Hin : In x k2).
    { apply list_elem_of_In. eapply list_elem_of_lookup_2. exact Hx. }
    apply Hall in Hin. rewrite bool_decide_eq_true_2 in Hin by exact Hz. discriminate. }
  assert (Hdim : dim = 2 \/ dim = 3).
  { destruct (Z_le_gt_dec dim 3) as [?|Hbig]; [lia |]. exfalso.
    destruct (lookup_lt_is_Some_2 k2 3%nat ltac:(lia)) as [x Hx].
    apply (Hnz _ _ Hx). apply (Hd _ _ Hx). lia. }
  split; [exact Hdim |]. split; [unfold zlen; lia |].
  intros x Hx. apply list_elem_of_lookup in Hx as [i Hx].
  pose proof (Hnz _ _ Hx). destruct (Hd _ _ Hx) as [[?|?] _]; [contradiction | assumption].
Qed.

Lemma CheckKVDirection_signs_witness :
  (NURBSExtension.Dimension ext_quad_mismatch = 2 \/
   NURBSExtension.Dimension ext_quad_mismatch = 3) /\
  zlen [1; 1] = NURBSExtension.Dimension ext_quad_mismatch /\
  forall x, x ∈ [1; 1] -> x = 1 \/ x = -1.
Proof.
  apply (CheckKVDirection_signs ext_quad_mismatch 0 [1; 1]). reflexivity.
Defined.

(** ** NURBSExtension::CheckPatches *)

Lemma signed_edges_spec ext edges oedge edges' :
  signed_edges ext edges oedge = Ok edges' ->
  length edges' = length edges /\
  forall i, 0 <= i < zlen edges ->
    exists s, rd edges' i = Ok s /\ signed_edge ext edges oedge i = Ok s.
Proof.
  unfold signed_edges. intros E.
  apply (for_loop_sound
           (fun i es => length es = length edges /\
              (forall k, 0 <= k < i ->
                 exists s, rd es k = Ok s /\ signed_edge ext edges oedge k = Ok s) /\
              (forall k, i <= k -> rd es k = rd edges k))) in E.
  - destruct E as (Hl & Hlow & _). auto.
  - unfold zlen. lia.
  - repeat split; auto. intros k Hk. lia.
  - clear E edges'. intros i es es' Hi (Hl & Hlow & Hhigh) E.
    apply rbind_ok in E as (e & Ee & E). apply rbind_ok in E as (u & Eu & E).
    apply rbind_ok in E as (es1 & E1 & E). apply rbind_ok in E as (o & Eo & E).
    apply wr_inv in E1 as [Hr1 ->].
    rewrite (Hhigh i ltac:(lia)) in Ee.
    assert (Es : signed_edge ext edges oedge i = Ok (if bool_decide (o < 0) then -1 - u else u)).
    { unfold signed_edge. rewrite Ee. simpl. rewrite Eu. simpl. rewrite Eo. reflexivity. }
    assert (Hes' : es' = <[Z.to_nat i := if bool_decide (o < 0) then -1 - u else u]> es).
    { case_bool_decide.
      - apply rbind_ok in E as (x & Ex & E). apply wr_inv in E as [_ ->].
        apply rd_Ok in Ex as [_ Ex].
        rewrite list_lookup_insert_eq in Ex by (unfold zlen in Hr1; lia).
        injection Ex as <-. apply list_insert_insert_eq.
      - injection E as <-. reflexivity. }
    subst es'. clear E. revert Es.
    generalize (if bool_decide (o < 0) then -1 - u else u). intros s Es.
    split; [rewrite length_insert; exact Hl |]. split.
    + intros k Hk. destruct (decide (k = i)) as [->|Hne].
      * eexists. split; [| exact Es]. apply rd_lookup; [lia |].
        apply list_lookup_insert_eq. unfold zlen in Hr1. lia.
      * destruct (Hlow k ltac:(lia)) as (s' & Hs & Hs'). exists s'. split; [| exact Hs'].
        unfold rd in *. rewrite list_lookup_insert_ne by lia. exact Hs.
    + intros k Hk. rewrite <- (Hhigh k ltac:(lia)).
      unfold rd. destruct (bool_decide (0 <= k)); [| reflexivity].
      rewrite list_lookup_insert_ne by lia. reflexivity.
Qed.

Lemma signed_edge_KnotInd ext edges oedge i s :
  signed_edge ext edges oedge i = Ok s ->
  exists e, rd edges i = Ok e /\
    NURBSExtension.KnotInd ext e = Ok (if bool_decide (0 <= s) then s else -1 - s).
Proof.
  unfold signed_edge, NURBSExtension.KnotInd. intros E.
  apply rbind_ok in E as (e & Ee & E). apply rbind_ok in E as (u & Eu & E).
  apply rbind_ok in E as (o & Eo & [= <-]).
  exists e. split; [exact Ee |]. rewrite Eu. simpl. f_equal.
  repeat case_bool_decide; lia.
Qed.

Lemma orelse_false a b : orelse a b = Ok false -> a = Ok false /\ b = Ok false.
Proof.
  unfold orelse. intros E. apply rbind_ok in E as ([|] & Ea & E); [discriminate | auto].
Qed.

(** Two slots whose signed entries are equal, or complementary, carry the
    same unique knot vector. *)
Lemma differ_false ext edges oedge edges' i j (f : Z -> Z) :
  signed_edges ext edges oedge = Ok edges' ->
  (forall x, f x = x \/ f x = -1 - x) ->
  differ edges' i j f = Ok false ->
  exists k ei ej, rd edges i = Ok ei /\ rd edges j = Ok ej /\
    NURBSExtension.KnotInd ext ei = Ok k /\ NURBSExtension.KnotInd ext ej = Ok k.
Proof.
  intros Hs Hf E. apply signed_edges_spec in Hs as [Hl Hs].
  unfold differ in E. apply rbind_ok in E as (a & Ea & E).
  apply rbind_ok in E as (b & Eb & [= E]). apply negb_false_iff in E.
  apply bool_decide_eq_true in E.
  assert (Hi : 0 <= i < zlen edges).
  { apply rd_Ok in Ea as [? Ea]. apply lookup_lt_Some in Ea. unfold zlen. lia. }
  assert (Hj : 0 <= j < zlen edges).
  { apply rd_Ok in Eb as [? Eb]. apply lookup_lt_Some in Eb. unfold zlen. lia. }
  destruct (Hs i Hi) as (a' & Ea' & Sa). destruct (Hs j Hj) as (b' & Eb' & Sb).
  assert (a' = a) by congruence. assert (b' = b) by congruence. subst a' b'.
  apply signed_edge_KnotInd in Sa as (ei & Ei & Ki), Sb as (ej & Ej & Kj).
  exists (if bool_decide (0 <= a) then a else -1 - a), ei, ej.
  repeat split; try assumption. rewrite Kj. f_equal.
  destruct (Hf b) as [Hfb|Hfb]; rewrite Hfb in E; subst a; repeat case_bool_decide; lia.
Qed.

(** X12. When [CheckPatches] returns, opposite edges of every patch carry the
    same unique knot vector: the edge slots 0 and 2, and 1 and 3, of a 2D
    patch, and the slots 0, 2, 4, 6, the slots 1, 3, 5, 7 and the slots 8, 9,
    10, 11 of a 3D patch. *)
Theorem CheckPatches_opposite_edges_agree (ext : NURBSExtension.t) (p : Z) :
  CheckPatches ext = Ok tt ->
  0 <= p < NURBSExtension.GetNP ext ->
  let edges := (Mesh.GetElementEdges (NURBSExtension.patchTopo ext) p).1 in
  (NURBSExtension.Dimension ext = 2 ->
     share_knot_vector ext edges [0; 2] /\ share_knot_vector ext edges [1; 3]) /\
  (NURBSExtension.Dimension ext = 3 ->
     share_knot_vector ext edges [0; 2; 4; 6] /\
     share_knot_vector ext edges [1; 3; 5; 7] /\
     share_knot_vector ext edges [8; 9; 10; 11]).
Proof.
  intros E Hp edges.
  assert (Hone : NURBSExtension.Dimension ext <> 1 ->
            exists es, signed_edges ext edges
                (Mesh.GetElementEdges (NURBSExtension.patchTopo ext) p).2 = Ok es /\
              inconsistent_edges ext es = Ok false).
  { intros Hd. unfold CheckPatches in E.
    rewrite bool_decide_eq_false_2 in E by exact Hd.
    apply (for_loop_sound
             (fun q _ => p < q ->
                exists es, signed_edges ext edges
                    (Mesh.GetElementEdges (NURBSExtension.patchTopo ext) p).2 = Ok es /\
                  inconsistent_edges ext es = Ok false)) in E.
    - exact E.
    - lia.
    - intros Hq. lia.
    - intros q [] [] Hq IH Eb Hlt.
      destruct (decide (q = p)) as [->|Hne]; [| apply IH; lia].
      unfold edges. destruct (Mesh.GetElementEdges (NURBSExtension.patchTopo ext) p)
        as [ed oe]. simpl.
      apply rbind_ok in Eb as (es & Es & Eb). apply rbind_ok in Eb as (bad & Ebad & Eb).
      exists es. split; [exact Es |].
      destruct bad; [discriminate | exact Ebad].
    - lia. }
  split; intros Hd.
  - destruct Hone as (es & Es & Ebad); [lia |].
    apply orelse_false in Ebad as [E2 _].
    rewrite bool_decide_eq_true_2 in E2 by exact Hd.
    apply orelse_false in E2 as [Ea Eb].
    apply (differ_false _ _ _ _ _ _ _ Es) in Ea as (k0 & e0 & e2 & R0 & R2 & K0 & K2);
      [| intros x; right; reflexivity].
    apply (differ_false _ _ _ _ _ _ _ Es) in Eb as (k1 & e1 & e3 & R1 & R3 & K1 & K3);
      [| intros x; right; reflexivity].
    split; [exists k0 | exists k1]; intros i Hi;
      repeat (apply elem_of_cons in Hi as [-> | Hi]; [eauto |]);
      apply elem_of_nil in Hi; destruct Hi.
  - destruct Hone as (es & Es & Ebad); [lia |].
    apply orelse_false in Ebad as [_ E3].
    rewrite bool_decide_eq_true_2 in E3 by exact Hd.
    repeat match type of E3 with
           | orelse _ _ = Ok false =>
               let Ex := fresh "Ex" in apply orelse_false in E3 as [Ex E3]
           end.
    repeat match goal with
           | H : differ _ _ _ id = Ok false |- _ =>
               let k := fresh "k" in let a := fresh "a" in let b := fresh "b" in
               let Ra := fresh "Ra" in let Rb := fresh "Rb" in
               let Ka := fresh "Ka" in let Kb := fresh "Kb" in
               apply (differ_false _ _ _ _ _ _ _ Es) in H as (k & a & b & Ra & Rb & Ka & Kb);
               [| intros x; left; reflexivity]
           end.
    repeat match goal with
           | H1 : rd edges ?i = Ok ?a, H2 : rd edges ?i = Ok ?b |- _ =>
               assert (a = b) by congruence; subst a; clear H2
           end.
    repeat match goal with
           | H1 : NURBSExtension.KnotInd ext ?e = Ok ?a,
             H2 : NURBSExtension.KnotInd ext ?e = Ok ?b |- _ =>
               assert (a = b) by congruence; subst a; clear H2
           end.
    split; [| split];
      (match goal with
       | H : rd edges 0 = Ok ?e, K : NURBSExtension.KnotInd ext ?e = Ok ?k
         |- share_knot_vector _ _ (0 :: _) => exists k
       | H : rd edges 1 = Ok ?e, K : NURBSExtension.KnotInd ext ?e = Ok ?k
         |- share_knot_vector _ _ (1 :: _) => exists k
       | H : rd edges 8 = Ok ?e, K : NURBSExtension.KnotInd ext ?e = Ok ?k
         |- share_knot_vector _ _ (8 :: _) => exists k
       end);
      intros i Hi;
      repeat (apply elem_of_cons in Hi as [-> | Hi]; [eauto |]);
      apply elem_of_nil in Hi; destruct Hi.
Qed.

Lemma CheckPatches_opposite_edges_agree_witness :
  let edges := (Mesh.GetElementEdges (NURBSExtension.patchTopo ext_quad_mismatch) 0).1 in
  (NURBSExtension.Dimension ext_quad_mismatch = 2 ->
     share_knot_vector ext_quad_mismatch edges [0; 2] /\
     share_knot_vector ext_quad_mismatch edges [1; 3]) /\
  (NURBSExtension.Dimension ext_quad_mismatch = 3 ->
     share_knot_vector ext_quad_mismatch edges [0; 2; 4; 6] /\
     share_knot_vector ext_quad_mismatch edges [1; 3; 5; 7] /\
     share_knot_vector ext_quad_mismatch edges [8; 9; 10; 11]).
Proof.
  apply (CheckPatches_opposite_edges_agree ext_quad_mismatch 0);
    [reflexivity | vm_compute; split; [discriminate | reflexivity]].
Defined.

(** ** NURBSExtension::GenerateOffsets *)



Lemma rd_insert_eq {A} (v : list A) i x : 0 <= i < zlen v -> rd (<[Z.to_nat i := x]> v) i = Ok x.
Proof.
  intros H. apply rd_lookup; [lia |]. apply list_lookup_insert_eq. unfold zlen in H. lia.
Qed.

Lemma rd_insert_ne {A} (v : list A) i j x :
  0 <= i -> 0 <= j -> i <> j -> rd (<[Z.to_nat i := x]> v) j = rd v j.
Proof.
  intros Hi Hj Hne. unfold rd. rewrite list_lookup_insert_ne by lia. reflexivity.
Qed.





(** ** NURBSExtension::ConsistentKVSets *)

Lemma set_knotVectorsCompr_id ext :
  NURBSExtension.set_knotVectorsCompr ext (NURBSExtension.knotVectorsCompr ext) = ext.
Proof. destruct ext. reflexivity. Qed.

Lemma ConsistentKVSets_direction_unchanged (eps : real_t) (ext ext' : NURBSExtension.t)
    (edges kvdir e : list Z) (p d : Z) (r : option bool) :
  (forall kv, kv ∈ NURBSExtension.knotVectorsCompr ext ->
     well_sized kv /\ 0 <= KnotVector.Order kv /\ 0 <= KnotVector.NumOfControlPoints kv) ->
  NURBSExtension.ConsistentKVSets_direction eps ext edges kvdir e p d = Ok (r, ext') ->
  ext' = ext.
Proof.
  intros Hkv Eb. unfold NURBSExtension.ConsistentKVSets_direction in Eb.
  apply rbind_ok in Eb as (kd & _ & Eb). apply rbind_ok in Eb as (ed & _ & Eb).
  apply rbind_ok in Eb as (iun & _ & Eb). apply rbind_ok in Eb as (ku & _ & Eb).
  apply rbind_ok in Eb as (kc & Ekc & Eb).
  destruct (negb _); [injection Eb as _ <-; reflexivity |].
  apply rbind_ok in Eb as (kc1 & E1 & Eb). apply rbind_ok in Eb as (diff & _ & Eb).
  apply rbind_ok in Eb as (kc2 & E2 & Eb). apply rbind_ok in Eb as (kvc & Ew & Eb).
  assert (Hin : kc ∈ NURBSExtension.knotVectorsCompr ext).
  { apply rd_Ok in Ekc as [_ Ekc]. eapply list_elem_of_lookup_2. exact Ekc. }
  destruct (Hkv kc Hin) as (Hws & Hp & Hn).
  assert (kc2 = kc).
  { destruct (bool_decide (kd = -1)).
    - rewrite (Flip_Flip kc kc1 Hws Hp Hn E1) in E2. congruence.
    - congruence. }
  subst kc2. apply wr_inv in Ew as [_ ->].
  rewrite list_insert_id in Eb by (apply rd_Ok in Ekc as [_ Ekc]; exact Ekc).
  rewrite set_knotVectorsCompr_id in Eb.
  destruct (bool_decide (0 < zlen diff)); injection Eb as _ <-; reflexivity.
Qed.



(** ** NURBSPatch::KnotInsert and DegreeElevate: the shape of the result *)

Lemma kv_fields_like_refl k : kv_fields_like k k.
Proof. repeat split. Qed.

Lemma same_shape_refl h : same_shape h h.
Proof.
  split; [intros l b Hb; exists b; auto | intros l k Hk; exists k; split; [exact Hk |]].
  apply kv_fields_like_refl.
Qed.

Lemma same_shape_trans h0 h1 h2 : same_shape h0 h1 -> same_shape h1 h2 -> same_shape h0 h2.
Proof.
  intros [B1 K1] [B2 K2]. split.
  - intros l b Hb. destruct (B1 l b Hb) as (b1 & Hb1 & E1).
    destruct (B2 l b1 Hb1) as (b2 & Hb2 & E2). exists b2. split; [exact Hb2 | lia].
  - intros l k Hk. destruct (K1 l k Hk) as (k1 & Hk1 & E1).
    destruct (K2 l k1 Hk1) as (k2 & Hk2 & E2). exists k2. split; [exact Hk2 |].
    eapply kv_fields_like_trans; eassumption.
Qed.

Lemma steady_ret {A} (a : A) : steady (mret a).
Proof. intros h. apply same_shape_refl. Qed.

Lemma steady_lift {A} (r : Res A) : steady (lift r).
Proof. intros h. apply same_shape_refl. Qed.

Lemma steady_fail {A} e : steady (@mfail A e).
Proof. intros h. apply same_shape_refl. Qed.

Lemma steady_bind {A B} (m : M A) (k : A -> M B) :
  steady m -> (forall a, steady (k a)) -> steady (mbind m k).
Proof.
  intros Hm Hk h. unfold mbind. pose proof (Hm h) as H1.
  destruct (m h) as [[a|e] h1]; simpl in *; [| exact H1].
  eapply same_shape_trans; [exact H1 | apply Hk].
Qed.

Lemma steady_for_iter {St} (body : Z -> St -> M St) n :
  (forall j s, steady (body j s)) -> forall i s, steady (for_iterM n i body s).
Proof.
  intros Hb. induction n as [|n IH]; intros i s; simpl.
  - apply steady_ret.
  - apply steady_bind; [apply Hb | intros s'; apply IH].
Qed.

Lemma steady_for {St} lo hi (body : Z -> St -> M St) s :
  (forall j s, steady (body j s)) -> steady (for_loopM lo hi body s).
Proof. intros Hb. apply steady_for_iter. exact Hb. Qed.

Lemma steady_for_iter_down {St} (body : Z -> St -> M St) n :
  (forall j s, steady (body j s)) -> forall i s, steady (for_iter_downM n i body s).
Proof.
  intros Hb. induction n as [|n IH]; intros i s; simpl.
  - apply steady_ret.
  - apply steady_bind; [apply Hb | intros s'; apply IH].
Qed.

Lemma steady_for_down {St} hi lo (body : Z -> St -> M St) s :
  (forall j s, steady (body j s)) -> steady (for_downM hi lo body s).
Proof. intros Hb. apply steady_for_iter_down. exact Hb. Qed.

Lemma steady_while {St} (cond : St -> M bool) (body : St -> M St) fuel :
  (forall s, steady (cond s)) -> (forall s, steady (body s)) ->
  forall s, steady (while_loopM fuel cond body s).
Proof.
  intros Hc Hb. induction fuel as [|fuel IH]; intros s; simpl.
  - apply steady_fail.
  - apply steady_bind; [apply Hc |]. intros [|].
    + apply steady_bind; [apply Hb | intros s'; apply IH].
    + apply steady_ret.
Qed.

Lemma steady_kv_load l : steady (kv_load l).
Proof. intros h. unfold kv_load. destruct (Store.kvs h !! l); apply same_shape_refl. Qed.

Lemma steady_kv_at l i : steady (kv_at l i).
Proof. apply steady_bind; [apply steady_kv_load | intros kv; apply steady_lift]. Qed.

Lemma steady_buf_rd l i : steady (buf_rd l i).
Proof. intros h. unfold buf_rd. destruct (Store.bufs h !! l); apply same_shape_refl. Qed.

Lemma steady_slice p i j : steady (NURBSPatch.slice p i j).
Proof.
  unfold NURBSPatch.slice. case_bool_decide; [apply steady_fail |].
  destruct (NURBSPatch.data p); [apply steady_buf_rd | apply steady_fail].
Qed.

Lemma steady_buf_wr l i x : steady (buf_wr l i x).
Proof.
  intros h. unfold buf_wr.
  destruct (Store.bufs h !! l) as [b|] eqn:E; [| apply same_shape_refl].
  destruct (wr b i x) as [b'|e] eqn:Ew; [| apply same_shape_refl].
  apply wr_inv in Ew as [_ ->]. split; simpl.
  - intros l' b0 Hl'. destruct (decide (l' = l)) as [->|Hne].
    + rewrite lookup_insert_eq. eexists. split; [reflexivity |].
      unfold zlen. rewrite length_insert. congruence.
    + rewrite lookup_insert_ne by congruence. eauto.
  - intros l' k Hk. exists k. split; [exact Hk | apply kv_fields_like_refl].
Qed.

Lemma steady_set_slice p i j x : steady (NURBSPatch.set_slice p i j x).
Proof.
  unfold NURBSPatch.set_slice. case_bool_decide; [apply steady_fail |].
  destruct (NURBSPatch.data p) as [l|]; [apply steady_buf_wr | apply steady_fail].
Qed.

(** Writing a knot vector of the same order and sizes where one is. *)
Lemma same_shape_kv_store l k k' h :
  Store.kvs h !! l = Some k -> kv_fields_like k' k -> same_shape h (kv_store l k' h).2.
Proof.
  intros Hk Hf. unfold kv_store. rewrite Hk. split; simpl.
  - intros l' b Hb. exists b. auto.
  - intros l' k0 Hk0. destruct (decide (l' = l)) as [->|Hne].
    + rewrite lookup_insert_eq. exists k'. split; [reflexivity |]. congruence.
    + rewrite lookup_insert_ne by congruence. exists k0. split; [exact Hk0 |].
      apply kv_fields_like_refl.
Qed.

Lemma steady_kv_update l (f : KnotVector.t -> Res KnotVector.t) :
  (forall k k', f k = Ok k' -> kv_fields_like k' k) ->
  steady (mbind (kv_load l) (fun kv => mbind (lift (f kv)) (fun kv' => kv_store l kv'))).
Proof.
  intros Hf h. unfold mbind, kv_load, lift.
  destruct (Store.kvs h !! l) as [k|] eqn:Ek; [| apply same_shape_refl].
  destruct (f k) as [k'|e] eqn:Efk; [| apply same_shape_refl].
  apply (same_shape_kv_store l k k' h Ek). apply Hf. exact Efk.
Qed.

Lemma steady_kv_set l i x : steady (kv_set l i x).
Proof.
  apply steady_kv_update. intros k k' E. unfold KnotVector.set in E.
  apply rbind_ok in E as (ks & Ew & [= <-]). apply wr_inv in Ew as [_ ->].
  unfold kv_fields_like, KnotVector.Size, zlen. simpl. rewrite length_insert. auto.
Qed.

Lemma steady_kv_GetElements l : steady (kv_GetElements l).
Proof.
  apply steady_kv_update. intros k k' E. unfold KnotVector.GetElements in E.
  apply rbind_ok in E as (n & _ & [= <-]). repeat split.
Qed.

Lemma steady_SetLoopDirection p dir : steady (NURBSPatch.SetLoopDirection p dir).
Proof.
  unfold NURBSPatch.SetLoopDirection.
  repeat case_bool_decide; first [apply steady_ret | apply steady_fail].
Qed.

Ltac steady_step :=
  cbv beta;
  match goal with
  | |- steady (mret _) => apply steady_ret
  | |- steady (lift _) => apply steady_lift
  | |- steady (mfail _) => apply steady_fail
  | |- steady (mbind _ _) => apply steady_bind; [| intros ?]
  | |- steady (for_loopM _ _ _ _) => apply steady_for; intros ? ?
  | |- steady (for_downM _ _ _ _) => apply steady_for_down; intros ? ?
  | |- steady (while_loopM _ _ _ _) => apply steady_while; intros ?
  | |- steady (kv_load _) => apply steady_kv_load
  | |- steady (kv_at _ _) => apply steady_kv_at
  | |- steady (NURBSPatch.slice _ _ _) => apply steady_slice
  | |- steady (NURBSPatch.set_slice _ _ _ _) => apply steady_set_slice
  | |- steady (kv_set _ _ _) => apply steady_kv_set
  | |- steady (kv_GetElements _) => apply steady_kv_GetElements
  | |- steady (NURBSPatch.SetLoopDirection _ _) => apply steady_SetLoopDirection
  | |- steady (if ?c then _ else _) => destruct c
  | |- steady (match ?x with _ => _ end) => destruct x
  end.

Ltac steady_auto := repeat steady_step.

Lemma steady_DegreeElevate_segment oldp newp oldkv newkv bezalfs p t m size st :
  steady (NURBSPatch.DegreeElevate_segment oldp newp oldkv newkv bezalfs p t m size st).
Proof. unfold NURBSPatch.DegreeElevate_segment. cbv zeta. steady_auto. Qed.

(** A step that neither touches the old objects nor resizes anything. *)
Lemma outcome_steady {A} h0 h1 (m : M A) h (Q : A -> Store.t -> Prop) :
  tame h0 m -> steady m -> keeps h0 h -> same_shape h1 h ->
  (forall a h', keeps h0 h' -> same_shape h1 h' -> Q a h') ->
  outcome m h (fun _ => True) Q.
Proof.
  intros Ht Hs Hk Hsh HQ. destruct (Ht h Hk) as [H1 _]. pose proof (Hs h) as H2.
  unfold outcome. destruct (m h) as [[a|e] h']; simpl in *; [| exact I].
  apply HQ; [exact H1 | eapply same_shape_trans; eassumption].
Qed.

Lemma SetLoopDirection_set_loop p dir h (Q : Z * NURBSPatch.t -> Store.t -> Prop) :
  (forall s a b c, Q (s, NURBSPatch.set_loop p a b c) h) ->
  outcome (NURBSPatch.SetLoopDirection p dir) h (fun _ => True) Q.
Proof.
  intros HQ. unfold NURBSPatch.SetLoopDirection.
  repeat case_bool_decide; first [exact I | apply outcome_ret; apply HQ].
Qed.

(** The constructor leaves the objects of the old store alone. *)
Lemma created_keeps h p dir order ncp np h1 :
  created h p dir order ncp np h1 -> keeps h h1.
Proof.
  intros ((lt & Hd & Hfresh & Hb) & _ & Hout & Hin & _). split.
  - intros l b E. rewrite Hb. rewrite lookup_insert_ne; [exact E |]. intros <-. congruence.
  - intros l k E. rewrite Hout; [exact E |]. intros Hl.
    destruct (Hin l Hl) as [H0 _]. congruence.
Qed.

(** The last step of the operators that build a new patch: the swap. *)
Lemma swap_reshaped h self dir order ncp newp h1 hc self' a b c :
  patch_ok h self -> NoDup (NURBSPatch.kv self) ->
  created h self dir order ncp newp h1 ->
  keeps h hc -> same_shape h1 hc ->
  same_objects self self' ->
  returns (NURBSPatch.swap self' (NURBSPatch.set_loop newp a b c)) hc
    (reshaped self dir order ncp).
Proof.
  intros Hok Hnd Hcr Hkeep Hsh [Sd Sk].
  pose proof Hok as (HD & (ld & bd & Hld & Hbd & _) & Hext).
  pose proof Hcr as ((lt & Hlt & Hfresh & Hb1) & Hnd' & Hout & Hin & (ln & Hln & Hkn) &
                     Hok1 & HDim & _ & Hzl & Hextent).
  destruct Hkeep as [Kb Kk]. destruct Hsh as [Sb Skv].
  assert (Hown' : owned hc self').
  { split; [| split].
    - exists ld. rewrite Sd. split; [exact Hld |]. rewrite (Kb ld bd Hbd). eauto.
    - rewrite Sk. exact Hnd.
    - intros l Hl. rewrite Sk in Hl.
      destruct (extents_ok_allocated h self l Hext Hl) as [k Hk]. rewrite (Kk l k Hk). eauto. }
  unfold NURBSPatch.swap. apply returns_bind.
  eapply returns_weaken; [apply (release_released self' hc Hown') |].
  intros [] h' (R1 & R2 & R3). apply returns_ret.
  rewrite Sd, Hld in R1. rewrite Sk in R2, R3.
  assert (Hfk : forall l, l ∈ NURBSPatch.kv newp -> l ∉ NURBSPatch.kv self).
  { intros l Hl Hc. destruct (Hin l Hl) as [H0 _].
    destruct (extents_ok_allocated h self l Hext Hc) as [k Hk]. congruence. }
  assert (Hkv' : forall l k, l ∈ NURBSPatch.kv newp -> Store.kvs h1 !! l = Some k ->
            exists k', Store.kvs h' !! l = Some k' /\ kv_fields_like k' k).
  { intros l k Hl Hk. destruct (Skv l k Hk) as (k' & Hk' & Hf). exists k'.
    split; [| exact Hf]. rewrite (R3 l (Hfk l Hl)). exact Hk'. }
  pose proof Hok1 as (_ & (lt' & b1 & Hlt' & Hb1' & Hlen1) & Hext1).
  assert (lt' = lt) by congruence. subst lt'.
  destruct (Sb lt b1 Hb1') as (bc & Hbc & Hlenc).
  split; [| split; [exact Hnd' | split; [exact HDim | split; [exact Hzl | split]]]].
  - split; [simpl; lia |]. split.
    + exists lt, bc. simpl. split; [exact Hlt |]. split.
      * rewrite R1. rewrite lookup_delete_ne; [exact Hbc |]. intros <-. congruence.
      * rewrite Hlenc, Hlen1. reflexivity.
    + apply (extents_ok_transfer h1 h' newp); try reflexivity; [| exact Hext1].
      intros l k Hl Hk. destruct (Hkv' l k Hl Hk) as (k' & Hk' & (_ & Hn & _)). eauto.
  - intros j Hj. rewrite <- (Hextent j Hj). reflexivity.
  - destruct (Hkv' ln (KnotVector.create order ncp)) as (k' & Hk' & (Ho & Hn & Hs));
      [apply rd_Ok in Hln as [_ Hln]; eapply list_elem_of_lookup_2; exact Hln | exact Hkn |].
    exists ln, k'. simpl. split; [exact Hln |]. split; [exact Hk' |].
    split; [exact Ho |]. split; [exact Hn |]. rewrite Hs.
    unfold KnotVector.Size, KnotVector.create, zlen. simpl. rewrite length_replicate. lia.
Qed.

Lemma outcome_kv_load l h (E : Store.t -> Prop) (Q : KnotVector.t -> Store.t -> Prop) :
  E h -> (forall k, Store.kvs h !! l = Some k -> Q k h) -> outcome (kv_load l) h E Q.
Proof.
  intros He HQ. unfold outcome, kv_load. destruct (Store.kvs h !! l) as [k|]; auto.
Qed.

Lemma outcome_kv_store_like h0 h1 l k k' hc (Q : unit -> Store.t -> Prop) :
  Store.kvs hc !! l = Some k -> kv_fields_like k' k -> Store.kvs h0 !! l = None ->
  keeps h0 hc -> same_shape h1 hc ->
  (forall h', keeps h0 h' -> same_shape h1 h' -> Q tt h') ->
  outcome (kv_store l k') hc (fun _ => True) Q.
Proof.
  intros Hk Hf H0 Hkeep Hsh HQ.
  pose proof (same_shape_kv_store l k k' hc Hk Hf) as Hs.
  destruct (tame_kv_store h0 l k' H0 hc Hkeep) as [Hk' _].
  unfold outcome. destruct (kv_store l k' hc) as [[[]|e] h']; simpl in *; [| exact I].
  apply HQ; [exact Hk' | eapply same_shape_trans; eassumption].
Qed.

Ltac oc_steady h0 h1 :=
  apply outcome_bind, (outcome_steady h0 h1);
  [tame_auto | steady_auto | eassumption | eassumption |];
  let a := fresh "a" in
  let h' := fresh "h" in
  let Hk := fresh "Hk" in
  let Hs := fresh "Hs" in
  intros a h' Hk Hs; cbv beta.

Ltac oc_pure :=
  apply outcome_bind, outcome_lift; [exact I |];
  let a := fresh "a" in
  let E := fresh "E" in
  intros a E; cbv beta.

(** X15. Whenever [KnotInsert(dir, knot)] returns for a non-empty [knot], the
    patch is well formed again, has one control point more along [dir] for
    every inserted knot, a knot vector of the old order and of the matching
    size along [dir], and the extents it had in the other directions. *)
Theorem KnotInsert_adds_control_points (h : Store.t) (self : NURBSPatch.t) (dir : Z)
    (knot : list real_t) (l : positive) (okv : KnotVector.t) :
  patch_ok h self -> NoDup (NURBSPatch.kv self) ->
  rd (NURBSPatch.kv self) dir = Ok l -> Store.kvs h !! l = Some okv ->
  knot <> [] ->
  outcome (NURBSPatch.KnotInsert self dir knot) h (fun _ => True)
    (reshaped self dir (KnotVector.Order okv)
       (KnotVector.NumOfControlPoints okv + zlen knot)).
Proof.
  intros Hok Hnd Hl Hk Hknot.
  assert (Hz : 0 < zlen knot) by (destruct knot; [contradiction | unfold zlen; simpl; lia]).
  assert (Hdir : 0 <= dir < zlen (NURBSPatch.kv self)).
  { apply rd_Ok in Hl as [H0 H1]. apply lookup_lt_Some in H1. unfold zlen. lia. }
  assert (Hncp : 0 < KnotVector.NumOfControlPoints okv).
  { destruct Hok as (_ & _ & He). pose proof Hl as Hl'. apply rd_Ok in Hl' as [H0 H1].
    destruct (kv_positions h self dir l He H0 H1) as (k & Ek & _ & Hpos). congruence. }
  unfold NURBSPatch.KnotInsert.
  rewrite bool_decide_eq_false_2 by lia.
  apply outcome_bind. rewrite bool_decide_eq_false_2 by lia. apply outcome_ret.
  oc_pure. assert (a = l) by congruence. subst a.
  apply outcome_bind, outcome_kv_load; [exact I |]. intros k Ek.
  assert (k = okv) by congruence. subst k. cbv beta.
  unfold KnotVector.GetOrder, KnotVector.GetNCP.
  apply outcome_bind, outcome_returns.
  eapply returns_weaken;
    [apply (create_from_spec h self dir (KnotVector.Order okv)
              (KnotVector.NumOfControlPoints okv + zlen knot) l Hok Hl); lia |].
  intros newp h1 Hcr. cbv beta.
  pose proof (created_keeps _ _ _ _ _ _ _ Hcr) as Hk1.
  pose proof (same_shape_refl h1) as Hs1.
  pose proof Hcr as ((lt & Hlt & Hfresh & _) & _ & _ & Hin & (ln & Hln & Hkn) & _).
  oc_pure. assert (a = ln) by congruence. subst a.
  assert (Hnew : Store.kvs h !! ln = None).
  { apply Hin. apply rd_Ok in Hln as [_ Hln]. eapply list_elem_of_lookup_2. exact Hln. }
  assert (Hbuf : forall l', NURBSPatch.data newp = Some l' -> Store.bufs h !! l' = None).
  { intros l' Hl'. congruence. }
  apply outcome_bind, outcome_kv_load; [exact I |]. intros nkv Enkv. cbv beta.
  apply outcome_bind.
  apply (outcome_kv_store_like h h1 ln nkv _ h1 _ Enkv); [repeat split | exact Hnew | exact Hk1
    | exact Hs1 |].
  intros h2 Hk2 Hs2.
  apply outcome_bind, SetLoopDirection_set_loop. intros size a b c.
  apply outcome_bind, SetLoopDirection_set_loop. intros size' a' b' c'.
  cbv beta iota zeta.
  assert (Hbuf' : forall l', NURBSPatch.data (NURBSPatch.set_loop newp a' b' c') = Some l' ->
            Store.bufs h !! l' = None) by exact Hbuf.
  apply outcome_bind.
  destruct (negb (bool_decide (size = size'))); [exact I | apply outcome_ret].
  oc_pure. oc_pure. oc_pure. oc_pure.
  oc_steady h h1. oc_steady h h1. oc_steady h h1. oc_steady h h1. oc_steady h h1.
  oc_steady h h1.
  apply outcome_returns.
  apply (swap_reshaped h self dir _ _ newp h1 _ (NURBSPatch.set_loop self a b c) a' b' c'
           Hok Hnd Hcr); [assumption | assumption | split; reflexivity].
Qed.

Lemma KnotInsert_adds_control_points_witness :
  outcome (NURBSPatch.KnotInsert (built curve).1 0 [qc 1 4]) (built curve).2 (fun _ => True)
    (reshaped (built curve).1 0 (KnotVector.Order kv_quad2)
       (KnotVector.NumOfControlPoints kv_quad2 + zlen [qc 1 4])).
Proof.
  apply (KnotInsert_adds_control_points (built curve).2 (built curve).1 0 [qc 1 4]
           1%positive kv_quad2).
  - split; [vm_compute; reflexivity |]. split.
    + exists 1%positive. eexists. split; [vm_compute; reflexivity |].
      split; vm_compute; reflexivity.
    + exists kv_quad2. vm_compute. repeat split; reflexivity.
  - vm_compute. apply NoDup_singleton.
  - vm_compute. reflexivity.
  - vm_compute. reflexivity.
  - discriminate.
Defined.

Example KnotInsert_curve_returns :
  exists p' h',
    NURBSPatch.KnotInsert (built curve).1 0 [qc 1 4] (built curve).2 = (Ok p', h') /\
    NURBSPatch.ni p' = 5.
Proof. eexists. eexists. split; vm_compute; reflexivity. Qed.

Lemma count_elements_nonneg kv n : KnotVector.count_elements kv = Ok n -> 0 <= n.
Proof.
  unfold KnotVector.count_elements. intros E.
  apply (for_loop_preserves (fun n => 0 <= n)) in E; [exact E | lia |].
  intros j s s1 _ Hs Eb. apply rbind_ok in Eb as (a & _ & Eb).
  apply rbind_ok in Eb as (b & _ & [= <-]). destruct (Qc_eqb a b); lia.
Qed.

(** X16. Whenever [DegreeElevate(dir, t)] returns, the patch is well formed
    again, its knot vector along [dir] has the order raised by [t], and it
    has [t] control points more along [dir] for every element that
    [GetElements] counts in the old knot vector; the other extents are as
    before. *)
Theorem DegreeElevate_raises_order (h : Store.t) (self : NURBSPatch.t) (dir t : Z)
    (l : positive) (okv : KnotVector.t) (ne : Z) :
  patch_ok h self -> NoDup (NURBSPatch.kv self) ->
  rd (NURBSPatch.kv self) dir = Ok l -> Store.kvs h !! l = Some okv ->
  KnotVector.count_elements okv = Ok ne ->
  0 <= t ->
  outcome (NURBSPatch.DegreeElevate self dir t) h (fun _ => True)
    (reshaped self dir (KnotVector.Order okv + t)
       (KnotVector.NumOfControlPoints okv + ne * t)).
Proof.
  intros Hok Hnd Hl Hk Hne Ht.
  pose proof (count_elements_nonneg okv ne Hne) as Hne0.
  assert (Hdir : 0 <= dir < zlen (NURBSPatch.kv self)).
  { apply rd_Ok in Hl as [H0 H1]. apply lookup_lt_Some in H1. unfold zlen. lia. }
  assert (Hncp : 0 < KnotVector.NumOfControlPoints okv).
  { destruct Hok as (_ & _ & He). pose proof Hl as Hl'. apply rd_Ok in Hl' as [H0 H1].
    destruct (kv_positions h self dir l He H0 H1) as (k & Ek & _ & Hpos). congruence. }
  unfold NURBSPatch.DegreeElevate.
  apply outcome_bind. rewrite bool_decide_eq_false_2 by lia. apply outcome_ret.
  oc_pure. assert (a = l) by congruence. subst a.
  (* the element count of the old knot vector is brought up to date *)
  set (okv' := KnotVector.mk (KnotVector.knot okv) (KnotVector.Order okv)
                 (KnotVector.NumOfControlPoints okv) ne (KnotVector.coarse okv)
                 (KnotVector.spacing okv)).
  set (h0 := Store.mk (Store.bufs h) (<[l := okv']> (Store.kvs h))).
  assert (Eg : kv_GetElements l h = (Ok tt, h0)).
  { unfold kv_GetElements, mbind, kv_load, lift, kv_store, KnotVector.GetElements.
    rewrite Hk, Hne. simpl. rewrite Hk. reflexivity. }
  apply outcome_bind. unfold outcome at 1. rewrite Eg.
  assert (Hk0 : Store.kvs h0 !! l = Some okv') by (simpl; apply lookup_insert_eq).
  assert (Hok0 : patch_ok h0 self).
  { destruct Hok as (HD & Hb & He). split; [exact HD |]. split; [exact Hb |].
    apply (extents_ok_transfer h h0 self self); try reflexivity; [| exact He].
    intros l' k' _ Hk'. simpl. destruct (decide (l' = l)) as [->|Hne'].
    - rewrite lookup_insert_eq. exists okv'. split; [reflexivity |]. simpl. congruence.
    - rewrite lookup_insert_ne by congruence. eauto. }
  apply outcome_bind, outcome_kv_load; [exact I |]. intros k Ek.
  assert (k = okv') by congruence. subst k. cbv beta.
  unfold KnotVector.GetOrder, KnotVector.GetNCP, KnotVector.GetNE.
  change (KnotVector.Order okv') with (KnotVector.Order okv).
  change (KnotVector.NumOfControlPoints okv') with (KnotVector.NumOfControlPoints okv).
  change (KnotVector.NumOfElements okv') with ne.
  apply outcome_bind, outcome_returns.
  eapply returns_weaken;
    [apply (create_from_spec h0 self dir (KnotVector.Order okv + t)
              (KnotVector.NumOfControlPoints okv + ne * t) l Hok0 Hl); nia |].
  intros newp h1 Hcr. cbv beta.
  pose proof (created_keeps _ _ _ _ _ _ _ Hcr) as Hk1.
  pose proof (same_shape_refl h1) as Hs1.
  pose proof Hcr as ((lt & Hlt & Hfresh & _) & _ & _ & Hin & (ln & Hln & Hkn) & _).
  oc_pure. assert (a = ln) by congruence. subst a.
  assert (Hnew : Store.kvs h0 !! ln = None).
  { apply Hin. apply rd_Ok in Hln as [_ Hln]. eapply list_elem_of_lookup_2. exact Hln. }
  assert (Hbuf : forall l', NURBSPatch.data newp = Some l' -> Store.bufs h0 !! l' = None).
  { intros l' Hl'. congruence. }
  apply outcome_bind.
  assert (Hsp : outcome
            match KnotVector.spacing okv' with
            | Some _ =>
                mbind (kv_load ln) (fun nkv =>
                  kv_store ln
                    (KnotVector.mk (KnotVector.knot nkv) (KnotVector.Order nkv)
                       (KnotVector.NumOfControlPoints nkv) (KnotVector.NumOfElements nkv)
                       (KnotVector.coarse nkv) (KnotVector.spacing okv')))
            | None => mret tt
            end h1 (fun _ => True)
            (fun _ h2 => keeps h0 h2 /\ same_shape h1 h2)).
  { destruct (KnotVector.spacing okv').
    - apply outcome_bind, outcome_kv_load; [exact I |]. intros nkv Enkv. cbv beta.
      apply (outcome_kv_store_like h0 h1 ln nkv _ h1 _ Enkv);
        [repeat split | exact Hnew | exact Hk1 | exact Hs1 | auto].
    - apply outcome_ret. auto. }
  eapply outcome_weaken; [exact Hsp | auto |]. clear Hsp.
  intros [] h2 [Hk2 Hs2]. cbv beta.
  apply outcome_bind, SetLoopDirection_set_loop. intros size a b c.
  apply outcome_bind, SetLoopDirection_set_loop. intros size' a' b' c'.
  cbv beta iota zeta.
  assert (Hbuf' : forall l', NURBSPatch.data (NURBSPatch.set_loop newp a' b' c') = Some l' ->
            Store.bufs h0 !! l' = None) by exact Hbuf.
  apply outcome_bind.
  destruct (negb (bool_decide (size = size'))); [exact I | apply outcome_ret].
  oc_pure.
  oc_steady h0 h1. oc_steady h0 h1. oc_steady h0 h1. oc_steady h0 h1.
  apply outcome_bind, (outcome_steady h0 h1);
    [apply tame_while; intros ?; [tame_auto | apply tame_DegreeElevate_segment; assumption]
    | apply steady_while; intros ?; [steady_auto | apply steady_DegreeElevate_segment]
    | eassumption | eassumption |].
  intros st h' Hk' Hs'. cbv beta.
  oc_steady h0 h1.
  apply outcome_returns.
  eapply returns_weaken.
  - apply (swap_reshaped h0 self dir _ _ newp h1 _ (NURBSPatch.set_loop self a b c) a' b' c'
             Hok0 Hnd Hcr); [assumption | assumption | split; reflexivity].
  - intros p' hf Hr. exact Hr.
Qed.

Lemma DegreeElevate_raises_order_witness :
  outcome (NURBSPatch.DegreeElevate (built curve).1 0 1) (built curve).2 (fun _ => True)
    (reshaped (built curve).1 0 (KnotVector.Order kv_quad2 + 1)
       (KnotVector.NumOfControlPoints kv_quad2 + 2 * 1)).
Proof.
  apply (DegreeElevate_raises_order (built curve).2 (built curve).1 0 1 1%positive kv_quad2 2).
  - split; [vm_compute; reflexivity |]. split.
    + exists 1%positive. eexists. split; [vm_compute; reflexivity |].
      split; vm_compute; reflexivity.
    + exists kv_quad2. vm_compute. repeat split; reflexivity.
  - vm_compute. apply NoDup_singleton.
  - vm_compute. reflexivity.
  - vm_compute. reflexivity.
  - vm_compute. reflexivity.
  - lia.
Defined.

Example DegreeElevate_curve_returns :
  exists p' h',
    NURBSPatch.DegreeElevate (built curve).1 0 1 (built curve).2 = (Ok p', h') /\
    NURBSPatch.ni p' = 6.
Proof. eexists. eexists. split; vm_compute; reflexivity. Qed.

(** ** KnotVector::CalcShape: the values are not negative *)

Lemma Qc_div_nonneg (a d : Qc) : (0 <= a)%Qc -> (0 < d)%Qc -> (0 <= a / d)%Qc.
Proof.
  intros Ha Hd. unfold Qcdiv.
  destruct (Qcle_lt_or_eq _ _ Ha) as [Hlt | <-].
  - apply Qclt_le_weak. apply Qcmult_pos_pos; [exact Hlt | apply Qcinv_pos; exact Hd].
  - rewrite Qcmult_0_l. apply Qcle_refl.
Qed.

Lemma Qc_mul_nonneg (a b : Qc) : (0 <= a)%Qc -> (0 <= b)%Qc -> (0 <= a * b)%Qc.
Proof.
  intros Ha Hb.
  destruct (Qcle_lt_or_eq _ _ Ha) as [Hlt | <-]; [| rewrite Qcmult_0_l; apply Qcle_refl].
  destruct (Qcle_lt_or_eq _ _ Hb) as [Hlt' | <-]; [| rewrite Qcmult_0_r; apply Qcle_refl].
  apply Qclt_le_weak. apply Qcmult_pos_pos; assumption.
Qed.

(** X17. Under the conditions of the partition of unity, and for a location
    [u] inside the span ([knot(ip) <= u <= knot(ip+1)], which is where
    [getKnotLocation] puts it for a local parameter in [0, 1]), none of the
    [Order+1] values that [CalcShape] leaves in [shape] is negative. *)
Theorem CalcShape_nonnegative
    (getKnotLocation : KnotVector.t -> real_t -> Z -> Res real_t)
    (kv : KnotVector.t) (shape : list real_t) (i : Z) (xi u ka kb : real_t) :
  let p := KnotVector.Order kv in
  let e := if bool_decide (0 <= i) then i else -1 - i in
  well_sized kv ->
  0 <= p <= KnotVector.MaxOrder ->
  nondecreasing (KnotVector.knot kv) ->
  p + 1 <= zlen shape ->
  0 <= e < KnotVector.GetNKS kv ->
  KnotVector.isElement kv e = Ok true ->
  getKnotLocation kv (if bool_decide (0 <= i) then xi else (1 - xi)%Qc) (e + p) = Ok u ->
  KnotVector.at_ kv (e + p) = Ok ka ->
  KnotVector.at_ kv (e + p + 1) = Ok kb ->
  (ka <= u)%Qc -> (u <= kb)%Qc ->
  exists shape',
    CalcShape getKnotLocation kv shape i xi = Ok shape' /\
    forall k x, 0 <= k <= p -> rd shape' k = Ok x -> (0 <= x)%Qc.
Proof.
  intros p e Hws Hp Hsorted Hlen He Helem Hu Hka Hkb Hua Hub.
  unfold well_sized in Hws. unfold KnotVector.GetNKS in He. fold p in Hws, He.
  set (n := KnotVector.NumOfControlPoints kv) in *.
  unfold CalcShape. fold p.
  assert (Hip : (if bool_decide (0 <= i) then i + p else -1 - i + p) = e + p).
  { unfold e. case_bool_decide; lia. }
  rewrite Hip, Hu. simpl.
  set (ip := e + p) in *.
  unfold KnotVector.isElement in Helem. fold p in Helem.
  replace (p + e) with ip in Helem by (unfold ip; lia).
  rewrite Hka, Hkb in Helem. simpl in Helem. injection Helem as Hneq.
  apply negb_true_iff in Hneq. unfold Qc_eqb in Hneq. apply bool_decide_eq_false in Hneq.
  assert (Hlt : (ka < kb)%Qc).
  { destruct (Qcle_lt_or_eq ka kb) as [H|H]; [| exact H | contradiction].
    apply (nondecreasing_at kv ip (ip + 1) ka kb Hsorted); [lia | exact Hka | exact Hkb]. }
  pose (K := fun k => match KnotVector.at_ kv k with Ok x => x | Err _ => Q2Qc 0 end).
  assert (HK : forall k, 0 <= k < KnotVector.Size kv -> KnotVector.at_ kv k = Ok (K k)).
  { intros k Hk. unfold K. destruct (at_in_range kv k Hk) as [x ->]. reflexivity. }
  assert (Hlo : forall lo, 0 <= lo <= ip -> (K lo <= u)%Qc).
  { intros lo Hl. apply Qcle_trans with ka; [| exact Hua].
    eapply nondecreasing_at; [exact Hsorted | | apply HK | exact Hka]; lia. }
  assert (Hhi : forall hi, ip + 1 <= hi < KnotVector.Size kv -> (u <= K hi)%Qc).
  { intros hi Hh. apply Qcle_trans with kb; [exact Hub |].
    eapply nondecreasing_at; [exact Hsorted | | exact Hkb | apply HK]; lia. }
  assert (Hgap : forall lo hi, 0 <= lo <= ip -> ip + 1 <= hi < KnotVector.Size kv ->
                   (K lo < K hi)%Qc).
  { intros lo hi Hl Hh.
    apply Qcle_lt_trans with ka.
    - eapply nondecreasing_at; [exact Hsorted | | apply HK | exact Hka]; lia.
    - apply Qclt_le_trans with kb; [exact Hlt |].
      eapply nondecreasing_at; [exact Hsorted | | exact Hkb | apply HK]; lia. }
  rewrite wr_Ok by (unfold zlen in *; lia). simpl.
  set (sh0 := <[Z.to_nat 0 := Q2Qc 1]> shape).
  set (z11 := replicate (Z.to_nat (KnotVector.MaxOrder + 1)) (Q2Qc 0)).
  assert (Hz11 : zlen z11 = KnotVector.MaxOrder + 1).
  { unfold z11, zlen. rewrite length_replicate. unfold KnotVector.MaxOrder. lia. }
  pose (Outer := fun (j : Z) (st : list real_t * list real_t * list real_t) =>
     let '(sh, lf, rg) := st in
     zlen sh = zlen shape /\ zlen lf = KnotVector.MaxOrder + 1 /\
     zlen rg = KnotVector.MaxOrder + 1 /\
     (forall k, 1 <= k < j -> rd lf k = Ok (u - K (ip + 1 - k)%Z)%Qc /\
                              rd rg k = Ok (K (ip + k)%Z - u)%Qc) /\
     (forall k x, 0 <= k < j -> rd sh k = Ok x -> (0 <= x)%Qc)).
  match goal with
  | |- context [for_loop 1 (p + 1) ?body ?init] =>
      destruct (for_loop_inv Outer 1 (p + 1) body init) as ([[sh lf] rg] & -> & HO)
  end.
  { lia. }
  { unfold Outer. split; [unfold sh0, zlen; rewrite length_insert; reflexivity |].
    split; [exact Hz11 |]. split; [exact Hz11 |]. split; [intros k Hk; lia |].
    intros k x Hk Hx. assert (k = 0) by lia. subst k.
    apply rd_Ok in Hx as [_ Hx]. unfold sh0 in Hx.
    rewrite list_lookup_insert_eq in Hx by (unfold zlen in Hlen; simpl; lia).
    injection Hx as <-. discriminate. }
  { intros j [[sh lf] rg] Hj (Hsl & Hll & Hrl & Hlr & Hpos).
    rewrite (HK (ip + 1 - j)%Z) by (unfold ip; lia). simpl.
    rewrite wr_Ok by (unfold KnotVector.MaxOrder in *; lia). simpl.
    rewrite (HK (ip + j)%Z) by (unfold ip; lia). simpl.
    rewrite wr_Ok by (unfold KnotVector.MaxOrder in *; lia). simpl.
    set (lf' := <[Z.to_nat j := (u - K (ip + 1 - j)%Z)%Qc]> lf).
    set (rg' := <[Z.to_nat j := (K (ip + j)%Z - u)%Qc]> rg).
    assert (Hlr' : forall k, 1 <= k < j + 1 ->
                     rd lf' k = Ok (u - K (ip + 1 - k)%Z)%Qc /\
                     rd rg' k = Ok (K (ip + k)%Z - u)%Qc).
    { intros k Hk. destruct (Z.eq_dec k j) as [->|Hkj].
      - split; apply rd_lookup; try lia; unfold lf', rg';
          apply list_lookup_insert_eq; unfold zlen, KnotVector.MaxOrder in *; lia.
      - destruct (Hlr k) as [Hl Hr]; [lia |].
        apply rd_Ok in Hl as [_ Hl]. apply rd_Ok in Hr as [_ Hr].
        split; apply rd_lookup; try lia; unfold lf', rg';
          rewrite list_lookup_insert_ne by lia; assumption. }
    pose (Inner := fun (r : Z) (st : list real_t * real_t) =>
       let '(sh', saved) := st in
       zlen sh' = zlen shape /\
       (forall k : nat, (Z.to_nat r <= k)%nat -> sh' !! k = sh !! k) /\
       (forall k x, 0 <= k < r -> rd sh' k = Ok x -> (0 <= x)%Qc) /\
       (0 <= saved)%Qc).
    match goal with
    | |- context [for_loop 0 j ?body ?init] =>
        destruct (for_loop_inv Inner 0 j body init) as ([sh' saved] & -> & HI)
    end.
    { lia. }
    { unfold Inner. split; [exact Hsl |]. split; [reflexivity |].
      split; [intros k x Hk; lia | apply Qcle_refl]. }
    { intros r [sh' saved] Hr (Hsl' & Hun & Hps & Hsv).
      destruct (rd_in_range sh' r) as (sr & -> & Hsr); [lia |]. simpl.
      destruct (Hlr' (r + 1)) as [_ ->]; [lia |]. simpl.
      destruct (Hlr' (j - r)) as [-> _]; [lia |]. simpl.
      rewrite wr_Ok by lia. simpl. eexists. split; [reflexivity |].
      assert (Hsr0 : (0 <= sr)%Qc).
      { apply (Hpos r sr); [lia |]. apply rd_lookup; [lia |].
        rewrite <- Hun by lia. exact Hsr. }
      assert (Hr0 : (0 <= K (ip + (r + 1))%Z - u)%Qc).
      { pose proof (Hhi (ip + (r + 1))%Z ltac:(unfold ip; lia)). qc_lra. }
      assert (Hl0 : (0 <= u - K (ip + 1 - (j - r))%Z)%Qc).
      { pose proof (Hlo (ip + 1 - (j - r))%Z ltac:(unfold ip; lia)). qc_lra. }
      assert (Hd : (0 < K (ip + (r + 1))%Z - u + (u - K (ip + 1 - (j - r))%Z))%Qc).
      { pose proof (Hgap (ip + 1 - (j - r))%Z (ip + (r + 1))%Z
                      ltac:(unfold ip; lia) ltac:(unfold ip; lia)). qc_lra. }
      pose proof (Qc_div_nonneg _ _ Hsr0 Hd) as Ht.
      unfold Inner. split; [unfold zlen in *; rewrite length_insert; exact Hsl' |].
      split; [intros k Hk; rewrite list_lookup_insert_ne by lia; apply Hun; lia |].
      split.
      - intros k x Hk Hx. apply rd_Ok in Hx as [_ Hx].
        destruct (Z.eq_dec k r) as [->|Hkr].
        + rewrite list_lookup_insert_eq in Hx by (unfold zlen in *; lia).
          injection Hx as <-.
          pose proof (Qc_mul_nonneg _ _ Hr0 Ht) as Hm.
          revert Hm Hsv. generalize ((K (ip + (r + 1))%Z - u) *
            (sr / (K (ip + (r + 1))%Z - u + (u - K (ip + 1 - (j - r))%Z))))%Qc.
          intros q Hq Hsv. qc_lra.
        + rewrite list_lookup_insert_ne in Hx by lia.
          apply (Hps k x); [lia |]. apply rd_lookup; [lia | exact Hx].
      - apply Qc_mul_nonneg; assumption. }
    simpl. destruct HI as (Hsl' & Hun & Hps & Hsv).
    rewrite wr_Ok by lia. simpl. eexists. split; [reflexivity |].
    unfold Outer. split; [unfold zlen in *; rewrite length_insert; exact Hsl' |].
    split; [unfold lf', zlen in *; rewrite length_insert; exact Hll |].
    split; [unfold rg', zlen in *; rewrite length_insert; exact Hrl |].
    split; [exact Hlr' |].
    intros k x Hk Hx. apply rd_Ok in Hx as [_ Hx].
    destruct (Z.eq_dec k j) as [->|Hkj].
    - rewrite list_lookup_insert_eq in Hx by (unfold zlen in *; lia).
      injection Hx as <-. exact Hsv.
    - rewrite list_lookup_insert_ne in Hx by lia.
      apply (Hps k x); [lia |]. apply rd_lookup; [lia | exact Hx]. }
  simpl. destruct HO as (_ & _ & _ & _ & Hpos).
  eexists. split; [reflexivity |]. intros k x Hk. apply Hpos. lia.
Qed.

Lemma CalcShape_nonnegative_witness :
  exists shape',
    CalcShape getKnotLocation kv_quad2 (replicate 3 (Q2Qc 0)) 1 (qc 1 3) = Ok shape' /\
    forall k x, 0 <= k <= KnotVector.Order kv_quad2 -> rd shape' k = Ok x -> (0 <= x)%Qc.
Proof.
  apply (CalcShape_nonnegative getKnotLocation kv_quad2 (replicate 3 (Q2Qc 0)) 1
           (qc 1 3) (qc 2 3) (qc 1 2) (qc 1 1)).
  - reflexivity.
  - vm_compute. split; discriminate.
  - apply nondecreasingb_sound. vm_compute. reflexivity.
  - vm_compute. discriminate.
  - vm_compute. split; [discriminate | reflexivity].
  - vm_compute. reflexivity.
  - vm_compute. f_equal. apply Qc_is_canon. reflexivity.
  - vm_compute. reflexivity.
  - vm_compute. reflexivity.
  - vm_compute. discriminate.
  - vm_compute. discriminate.
Defined.

(** ** NURBSPatch::FlipDirection: the rows are reversed in place *)

Lemma slice_index_inj p sd n q i j i' j' :
  walks p sd n q -> 0 <= i < n -> 0 <= i' < n -> 0 <= j < sd * q -> 0 <= j' < sd * q ->
  NURBSPatch.slice_index p i j = NURBSPatch.slice_index p i' j' -> i = i' /\ j = j'.
Proof.
  intros (Hsd & Hnd & H1 & H2 & H3) Hi Hi' Hj Hj'. unfold NURBSPatch.slice_index.
  rewrite Hsd, Hnd. rewrite !Z.rem_mod_nonneg, !Z.quot_div_nonneg by lia.
  pose proof (Z.mod_pos_bound j sd H1) as Hm.
  pose proof (Z.mod_pos_bound j' sd H1) as Hm'.
  pose proof (Z.div_mod j sd ltac:(lia)) as Ej.
  pose proof (Z.div_mod j' sd ltac:(lia)) as Ej'.
  assert (Hd : 0 <= j / sd) by (apply Z.div_pos; lia).
  assert (Hd' : 0 <= j' / sd) by (apply Z.div_pos; lia).
  set (a := j mod sd) in *. set (d := j / sd) in *.
  set (a' := j' mod sd) in *. set (d' := j' / sd) in *.
  intros E.
  assert (EX : i + d * n = i' + d' * n) by nia.
  assert (a = a') by nia.
  assert (d = d') by nia.
  split; [nia | congruence].
Qed.

Lemma half_bounds n : 0 <= n -> 2 * (n `quot` 2) <= n < 2 * (n `quot` 2) + 2.
Proof.
  intros Hn. rewrite Z.quot_div_nonneg by lia.
  pose proof (Z.div_mod n 2 ltac:(lia)). pose proof (Z.mod_pos_bound n 2 ltac:(lia)). lia.
Qed.

(** X18. On a well-formed patch [FlipDirection(dir)] returns. It allocates and
    frees nothing: the buffer of the patch and the knot vector along [dir]
    are rewritten where they are and nothing else changes. Afterwards
    [slice(i, j)] holds what [slice(nd - 1 - i, j)] held before the call, for
    every row [i] along [dir] and every position [j] of a row, and the knot
    vector along [dir] is the one that [Flip] makes of the old one. *)
Theorem FlipDirection_reverses_rows (h : Store.t) (self : NURBSPatch.t) (dir : Z)
    (l ld : positive) (k : KnotVector.t) (b : list real_t) :
  patch_ok h self ->
  rd (NURBSPatch.kv self) dir = Ok l -> Store.kvs h !! l = Some k ->
  well_sized k -> 0 <= KnotVector.Order k ->
  NURBSPatch.data self = Some ld -> Store.bufs h !! ld = Some b ->
  let n := KnotVector.NumOfControlPoints k in
  let size := (stride self dir).1 * (stride self dir).2 in
  returns (NURBSPatch.FlipDirection self dir) h (fun p' h' =>
    p' = NURBSPatch.set_loop self (stride self dir).1 n size /\
    exists k' b',
      KnotVector.Flip k = Ok k' /\
      Store.kvs h' = <[l := k']> (Store.kvs h) /\
      Store.bufs h' = <[ld := b']> (Store.bufs h) /\
      zlen b' = zlen b /\
      forall i j, 0 <= i < n -> 0 <= j < size ->
        rd b' (NURBSPatch.slice_index p' i j) =
        rd b (NURBSPatch.slice_index p' (n - 1 - i) j)).
Proof.
  intros Hok Hl Hk Hws Hord Hd Hb n size.
  destruct (SetLoopDirection_spec h self dir l k Hok Hl Hk)
    as (size' & Hset & Hsize & Htot & Hsd & Hq & Hn).
  fold n in Hset, Htot, Hn. fold size in Hsize. subst size'.
  set (sd := (stride self dir).1) in *. set (q := (stride self dir).2) in *.
  set (p' := NURBSPatch.set_loop self sd n size).
  assert (Hw : walks p' sd n q) by (repeat split; assumption).
  assert (Hbl : zlen b = sd * n * q).
  { destruct Hok as (_ & (ld' & b0 & Hd' & Hb' & Hlen) & _).
    assert (ld' = ld) by congruence. subst ld'.
    assert (b0 = b) by congruence. subst b0. lia. }
  destruct (Flip_at k Hws Hord ltac:(lia)) as (k' & _ & _ & Ef & _).
  pose proof (half_bounds n ltac:(lia)) as Hhalf.
  unfold NURBSPatch.FlipDirection.
  apply returns_bind. exists (size, p'), h. split; [apply Hset |]. cbv beta iota.
  change (NURBSPatch.nd p') with n.
  pose (Inv := fun (id0 i0 : Z) (h' : Store.t) =>
     Store.kvs h' = Store.kvs h /\
     exists b', Store.bufs h' = <[ld := b']> (Store.bufs h) /\
       rows_exchanged p' n size id0 i0 b b').
  assert (Hidx : forall i j, 0 <= i < n -> 0 <= j < size ->
            0 <= NURBSPatch.slice_index p' i j < zlen b).
  { intros i j Hi Hj. rewrite Hbl. apply (slice_index_range p' sd n q i j Hw Hi Hj). }
  apply returns_bind.
  apply (returns_for (fun id0 (_ : unit) h' => Inv id0 0 h')).
  - lia.
  - split; [reflexivity |]. exists b. split.
    + symmetry. apply insert_id. exact Hb.
    + split; [reflexivity |]. intros i j Hi Hj.
      unfold exchanged. rewrite bool_decide_eq_false_2 by lia. reflexivity.
  - intros id [] h1 Hid HI.
    apply (returns_for (fun i0 (_ : unit) h' => Inv id i0 h')).
    + unfold size. nia.
    + exact HI.
    + intros i [] h2 Hi (Hk2 & b2 & Hb2 & Hl2 & Hc2).
      assert (Hb2' : Store.bufs h2 !! ld = Some b2) by (rewrite Hb2; apply lookup_insert_eq).
      assert (Hr1 : 0 <= NURBSPatch.slice_index p' id i < zlen b2)
        by (rewrite Hl2; apply Hidx; lia).
      assert (Hr2 : 0 <= NURBSPatch.slice_index p' (n - 1 - id) i < zlen b2)
        by (rewrite Hl2; apply Hidx; lia).
      destruct (rd_in_range b2 _ Hr1) as (x1 & Ex1 & _).
      destruct (rd_in_range b2 _ Hr2) as (x2 & Ex2 & _).
      apply returns_bind. unfold NURBSPatch.slice at 1.
      rewrite bool_decide_eq_false_2 by (change (NURBSPatch.sd p') with sd; lia).
      change (NURBSPatch.data p') with (NURBSPatch.data self). rewrite Hd.
      apply (returns_buf_rd ld b2 _ x1 h2 _ Hb2' Ex1).
      apply returns_bind. unfold NURBSPatch.slice at 1.
      rewrite bool_decide_eq_false_2 by (change (NURBSPatch.sd p') with sd; lia).
      change (NURBSPatch.data p') with (NURBSPatch.data self). rewrite Hd.
      apply (returns_buf_rd ld b2 _ x2 h2 _ Hb2' Ex2).
      apply returns_bind. unfold NURBSPatch.set_slice at 1.
      rewrite bool_decide_eq_false_2 by (change (NURBSPatch.sd p') with sd; lia).
      change (NURBSPatch.data p') with (NURBSPatch.data self). rewrite Hd.
      apply (returns_buf_wr ld b2 _ _ h2 _ Hb2' Hr1).
      unfold NURBSPatch.set_slice.
      rewrite bool_decide_eq_false_2 by (change (NURBSPatch.sd p') with sd; lia).
      change (NURBSPatch.data p') with (NURBSPatch.data self). rewrite Hd.
      set (I1 := NURBSPatch.slice_index p' id i) in *.
      set (I2 := NURBSPatch.slice_index p' (n - 1 - id) i) in *.
      apply (returns_buf_wr ld (<[Z.to_nat I1 := x2]> b2)).
      { simpl. apply lookup_insert_eq. }
      { unfold zlen in *. rewrite length_insert. exact Hr2. }
      simpl. split; [exact Hk2 |].
      exists (<[Z.to_nat I2 := x1]> (<[Z.to_nat I1 := x2]> b2)). split.
      { rewrite insert_insert_eq, Hb2, insert_insert_eq. reflexivity. }
      split; [unfold zlen in *; rewrite !length_insert; exact Hl2 |].
      assert (Hne12 : I1 <> I2).
      { intros E. apply (slice_index_inj p' sd n q id i (n - 1 - id) i Hw) in E;
          fold size; lia. }
      intros i' j' Hi' Hj'.
      pose proof (Hidx i' j' Hi' Hj') as Hr'.
      destruct (decide (i' = n - 1 - id /\ j' = i)) as [[-> ->] | Hn2].
      { fold I2. rewrite rd_insert_eq
          by (unfold zlen in *; rewrite length_insert; exact Hr2).
        unfold exchanged. rewrite bool_decide_eq_true_2 by lia.
        replace (n - 1 - (n - 1 - id)) with id by lia. fold I1.
        rewrite <- Ex1. unfold I1. rewrite (Hc2 id i) by lia.
        unfold exchanged. rewrite bool_decide_eq_false_2 by lia. reflexivity. }
      destruct (decide (i' = id /\ j' = i)) as [[-> ->] | Hn1].
      { fold I1. rewrite rd_insert_ne by lia.
        rewrite rd_insert_eq by exact Hr1.
        unfold exchanged. rewrite bool_decide_eq_true_2 by lia.
        fold I2. rewrite <- Ex2. unfold I2. rewrite (Hc2 (n - 1 - id) i) by lia.
        unfold exchanged. rewrite bool_decide_eq_false_2 by lia. reflexivity. }
      assert (NURBSPatch.slice_index p' i' j' <> I1).
      { intros E. apply (slice_index_inj p' sd n q i' j' id i Hw) in E; fold size; lia. }
      assert (NURBSPatch.slice_index p' i' j' <> I2).
      { intros E. apply (slice_index_inj p' sd n q i' j' (n - 1 - id) i Hw) in E;
          fold size; lia. }
      rewrite !rd_insert_ne by lia.
      rewrite (Hc2 i' j' Hi' Hj').
      replace (exchanged n id (i + 1) i' j') with (exchanged n id i i' j'); [reflexivity |].
      unfold exchanged. apply bool_decide_ext. lia.
    + intros [] h2 (Hk2 & b2 & Hb2 & Hl2 & Hc2). split; [exact Hk2 |].
      exists b2. split; [exact Hb2 |]. split; [exact Hl2 |].
      intros i' j' Hi' Hj'. rewrite (Hc2 i' j' Hi' Hj').
      replace (exchanged n (id + 1) 0 i' j') with (exchanged n id size i' j'); [reflexivity |].
      unfold exchanged. apply bool_decide_ext. lia.
  - intros [] h1 (Hk1 & b1 & Hb1 & Hl1 & Hc1). cbv beta.
    apply returns_bind. apply (returns_lift _ l); [exact Hl |].
    apply returns_bind. apply (returns_kv_load l k); [rewrite Hk1; exact Hk |].
    apply returns_bind. apply (returns_lift _ k'); [exact Ef |].
    apply returns_bind. apply (returns_kv_store l k); [rewrite Hk1; exact Hk |].
    apply returns_ret. split; [reflexivity |].
    exists k', b1. split; [exact Ef |]. simpl.
    split; [rewrite Hk1; reflexivity |]. split; [exact Hb1 |]. split; [exact Hl1 |].
    intros i j Hi Hj. rewrite (Hc1 i j Hi Hj).
    unfold exchanged. case_bool_decide; [reflexivity |].
    f_equal. f_equal. lia.
Qed.

Lemma FlipDirection_reverses_rows_witness :
  returns (NURBSPatch.FlipDirection (built curve).1 0) (built curve).2 (fun p' h' =>
    p' = NURBSPatch.set_loop (built curve).1 (stride (built curve).1 0).1
           (KnotVector.NumOfControlPoints kv_quad2)
           ((stride (built curve).1 0).1 * (stride (built curve).1 0).2) /\
    exists k' b',
      KnotVector.Flip kv_quad2 = Ok k' /\
      Store.kvs h' = <[1%positive := k']> (Store.kvs (built curve).2) /\
      Store.bufs h' = <[1%positive := b']> (Store.bufs (built curve).2) /\
      zlen b' = zlen curve_ctrl /\
      forall i j, 0 <= i < KnotVector.NumOfControlPoints kv_quad2 ->
        0 <= j < (stride (built curve).1 0).1 * (stride (built curve).1 0).2 ->
        rd b' (NURBSPatch.slice_index p' i j) =
        rd curve_ctrl
          (NURBSPatch.slice_index p' (KnotVector.NumOfControlPoints kv_quad2 - 1 - i) j)).
Proof.
  apply (FlipDirection_reverses_rows (built curve).2 (built curve).1 0 1%positive 1%positive
           kv_quad2 curve_ctrl).
  - split; [vm_compute; reflexivity |]. split.
    + exists 1%positive. eexists. split; [vm_compute; reflexivity |].
      split; vm_compute; reflexivity.
    + exists kv_quad2. vm_compute. repeat split; reflexivity.
  - vm_compute. reflexivity.
  - vm_compute. reflexivity.
  - reflexivity.
  - vm_compute. discriminate.
  - vm_compute. reflexivity.
  - vm_compute. reflexivity.
Defined.

(** ** NURBSExtension::CreateComprehensiveKV and UpdateUniqueKV *)

Lemma KnotVec_elem ext iun k :
  NURBSExtension.KnotVec ext iun = Ok k -> k ∈ NURBSExtension.knotVectors ext.
Proof.
  unfold NURBSExtension.KnotVec. intros E. apply rbind_ok in E as (i & _ & E).
  apply rd_Ok in E as [_ E]. eapply list_elem_of_lookup_2. exact E.
Qed.

Lemma comprehensive_kv_ok ext p d k :
  (forall kv, kv ∈ NURBSExtension.knotVectors ext ->
     well_sized kv /\ 0 <= KnotVector.Order kv /\ 0 <= KnotVector.NumOfControlPoints kv) ->
  comprehensive_kv ext p d = Ok k ->
  well_sized k /\ 0 <= KnotVector.Order k /\ 0 <= KnotVector.NumOfControlPoints k.
Proof.
  intros Hkv E. unfold comprehensive_kv in E.
  apply rbind_ok in E as (kvdir & _ & E).
  destruct (Mesh.GetElementEdges (NURBSExtension.patchTopo ext) p) as [edges orient].
  apply rbind_ok in E as (ed & _ & E). apply rbind_ok in E as (iun & _ & E).
  apply rbind_ok in E as (k0 & Ek & E). apply rbind_ok in E as (kd & _ & E).
  destruct (Hkv k0 (KnotVec_elem _ _ _ Ek)) as (Hws & Hp & Hn).
  destruct (bool_decide (kd = -1)); [| injection E as <-; auto].
  destruct (Flip_at k0 Hws Hp Hn) as (k' & _ & _ & Ef & _ & _ & (Ho & Hc & _ & _ & _ & Hs) & _).
  assert (k' = k) by congruence. subst k'.
  unfold well_sized in *. repeat split; lia.
Qed.

Lemma CreateComprehensiveKV_spec (eps : real_t) (ext ext' : NURBSExtension.t) :
  NURBSExtension.Dimension ext = 2 \/ NURBSExtension.Dimension ext = 3 ->
  (forall kv, kv ∈ NURBSExtension.knotVectors ext ->
     well_sized kv /\ 0 <= KnotVector.Order kv /\ 0 <= KnotVector.NumOfControlPoints kv) ->
  NURBSExtension.CreateComprehensiveKV eps ext = Ok ext' ->
  exists kvc,
    ext' = NURBSExtension.set_knotVectorsCompr ext kvc /\
    zlen kvc = Z.max 0 (NURBSExtension.GetNP ext * NURBSExtension.Dimension ext) /\
    (forall p d, 0 <= p < NURBSExtension.GetNP ext -> 0 <= d < NURBSExtension.Dimension ext ->
      exists k, rd kvc (NURBSExtension.Dimension ext * p + d) = Ok k /\
                comprehensive_kv ext p d = Ok k) /\
    NURBSExtension.ConsistentKVSets eps ext' = Ok (true, ext').
Proof.
  intros Hdim Hkv E. unfold NURBSExtension.CreateComprehensiveKV in E.
  set (dim := NURBSExtension.Dimension ext) in *.
  set (np := NURBSExtension.GetNP ext) in *.
  rewrite bool_decide_eq_false_2 in E by lia.
  rewrite (bool_decide_eq_true_2 (dim = 2 \/ dim = 3)) in E by exact Hdim.
  cbv zeta in E.
  apply rbind_ok in E as (kvc & Eloop & E).
  apply rbind_ok in E as ([ok ext1] & Ec & E).
  apply rbind_ok in E as ([] & Eok & [= <-]).
  assert (ok = true) by (destruct ok; [reflexivity | discriminate Eok]). subst ok.
  pose (Inv := fun (p0 d0 : Z) (kvc : list KnotVector.t) =>
     zlen kvc = Z.max 0 (np * dim) /\
     forall p d, 0 <= p < np -> 0 <= d < dim -> p < p0 \/ p = p0 /\ d < d0 ->
       exists k, rd kvc (dim * p + d) = Ok k /\ comprehensive_kv ext p d = Ok k).
  assert (HI : Inv np 0 kvc).
  { destruct (Z_le_gt_dec 0 np) as [Hnp | Hnp].
    2:{ rewrite for_loop_empty in Eloop by lia. injection Eloop as <-. split.
        - unfold zlen. rewrite length_replicate. nia.
        - intros p d Hp. lia. }
    revert Eloop. apply for_loop_sound with (I := fun p0 => Inv p0 0).
    - exact Hnp.
    - split; [unfold zlen; rewrite length_replicate; lia | intros p d Hp Hd; lia].
    - intros p kv0 kv1 Hp HI0 Eb.
      apply rbind_ok in Eb as (kvdir & Edir & Eb).
      destruct (Mesh.GetElementEdges (NURBSExtension.patchTopo ext) p)
        as [edges orient] eqn:Eedges.
      assert (Hin : Inv p dim kv1).
      { revert Eb. apply for_loop_sound with (I := fun d0 => Inv p d0).
        - lia.
        - exact HI0.
        - intros d kv2 kv3 Hd [Hlen HI2] Eb.
          apply rbind_ok in Eb as (ed & Eed & Eb). apply rbind_ok in Eb as (iun & Eiun & Eb).
          apply rbind_ok in Eb as (k & Ek & Eb). apply rbind_ok in Eb as (kd & Ekd & Eb).
          apply rbind_ok in Eb as (k' & Ek' & Eb).
          apply wr_inv in Eb as [Hr ->]. split.
          + unfold zlen in *. rewrite length_insert. exact Hlen.
          + intros p' d' Hp' Hd' Hlt.
            destruct (decide (p' = p /\ d' = d)) as [[-> ->] | Hne].
            * exists k'. split; [apply rd_insert_eq; exact Hr |].
              unfold comprehensive_kv. fold dim. rewrite Edir, Eedges. simpl.
              rewrite Eed. simpl. rewrite Eiun. simpl. rewrite Ek. simpl.
              rewrite Ekd. simpl. exact Ek'.
            * rewrite rd_insert_ne by nia. apply HI2; [exact Hp' | exact Hd' | lia]. }
      destruct Hin as [Hlen Hin]. split; [exact Hlen |].
      intros p' d' Hp' Hd' Hlt. apply Hin; [exact Hp' | exact Hd' | lia]. }
  destruct HI as [Hlen HI].
  assert (ext1 = NURBSExtension.set_knotVectorsCompr ext kvc).
  { assert (Hwf : forall kv, kv ∈ kvc ->
              well_sized kv /\ 0 <= KnotVector.Order kv /\
              0 <= KnotVector.NumOfControlPoints kv).
    {
      intros kv Hin. change (kv ∈ kvc) in Hin.
      apply list_elem_of_lookup in Hin as [i Hi].
      pose proof (lookup_lt_Some _ _ _ Hi) as Hlt.
      assert (Hpos : 0 < dim) by lia.
      assert (Hi' : 0 <= Z.of_nat i < np * dim) by (unfold zlen in Hlen; lia).
      pose proof (Z.div_mod (Z.of_nat i) dim ltac:(lia)) as Edm.
      pose proof (Z.mod_pos_bound (Z.of_nat i) dim Hpos) as Hm.
      assert (Hq : 0 <= Z.of_nat i / dim < np).
      { split; [apply Z.div_pos; lia | apply Z.div_lt_upper_bound; lia]. }
      destruct (HI (Z.of_nat i / dim) (Z.of_nat i mod dim) Hq Hm ltac:(lia))
        as (k & Erd & Ek).
      rewrite <- Edm in Erd. apply rd_Ok in Erd as [_ Erd]. rewrite Nat2Z.id in Erd.
      assert (k = kv) by congruence. subst k.
      apply (comprehensive_kv_ok ext _ _ kv Hkv Ek). }
    unfold NURBSExtension.ConsistentKVSets in Ec.
    apply rbind_ok in Ec as ([] & _ & Ec).
    apply rbind_ok in Ec as ([r0 e0] & Ec & [= _ <-]).
    apply (for_loop_preserves
             (fun '(_, e) => e = NURBSExtension.set_knotVectorsCompr ext kvc)) in Ec;
      [exact Ec | reflexivity |].
    clear Ec. intros p [r1 e1] [r2 e2] _ -> Eb.
    destruct r1 as [b1|]; [injection Eb as _ <-; reflexivity |].
    destruct (Mesh.GetElementEdges
                (NURBSExtension.patchTopo (NURBSExtension.set_knotVectorsCompr ext kvc)) p)
      as [edges orient].
    apply rbind_ok in Eb as (kvdir & _ & Eb).
    apply (for_loop_preserves
             (fun '(_, e) => e = NURBSExtension.set_knotVectorsCompr ext kvc)) in Eb;
      [exact Eb | reflexivity |].
    clear Eb. intros d [r3 e3] [r4 e4] _ -> Eb.
    destruct r3 as [b3|]; [injection Eb as _ <-; reflexivity |].
    apply (ConsistentKVSets_direction_unchanged eps
             (NURBSExtension.set_knotVectorsCompr ext kvc) e4 _ _ _ _ _ _ Hwf Eb). }
  subst ext1. exists kvc. split; [reflexivity |]. split; [exact Hlen |].
  split; [| exact Ec].
  intros p d Hp Hd. apply HI; [exact Hp | exact Hd | lia].
Qed.

(** X19. In 2D and 3D, when [CreateComprehensiveKV] returns it has changed
    nothing but the comprehensive set, which holds one knot vector for every
    direction of every patch: the one at index [Dimension * p + d] is the
    unique knot vector of the edge that carries direction [d] of patch [p],
    flipped when [CheckKVDirection] gives the direction the sign -1. *)
Theorem CreateComprehensiveKV_copies_unique (eps : real_t) (ext ext' : NURBSExtension.t) :
  NURBSExtension.Dimension ext = 2 \/ NURBSExtension.Dimension ext = 3 ->
  (forall kv, kv ∈ NURBSExtension.knotVectors ext ->
     well_sized kv /\ 0 <= KnotVector.Order kv /\ 0 <= KnotVector.NumOfControlPoints kv) ->
  NURBSExtension.CreateComprehensiveKV eps ext = Ok ext' ->
  exists kvc,
    ext' = NURBSExtension.set_knotVectorsCompr ext kvc /\
    zlen kvc = Z.max 0 (NURBSExtension.GetNP ext * NURBSExtension.Dimension ext) /\
    forall p d, 0 <= p < NURBSExtension.GetNP ext -> 0 <= d < NURBSExtension.Dimension ext ->
      exists k, rd kvc (NURBSExtension.Dimension ext * p + d) = Ok k /\
                comprehensive_kv ext p d = Ok k.
Proof.
  intros Hdim Hkv E.
  destruct (CreateComprehensiveKV_spec eps ext ext' Hdim Hkv E) as (kvc & H1 & H2 & H3 & _).
  exists kvc. auto.
Qed.

Lemma CreateComprehensiveKV_copies_unique_witness :
  exists kvc,
    ext_quad_reversed = NURBSExtension.set_knotVectorsCompr ext_quad_reversed kvc /\
    zlen kvc = Z.max 0 (NURBSExtension.GetNP ext_quad_reversed *
                        NURBSExtension.Dimension ext_quad_reversed) /\
    forall p d, 0 <= p < NURBSExtension.GetNP ext_quad_reversed ->
      0 <= d < NURBSExtension.Dimension ext_quad_reversed ->
      exists k, rd kvc (NURBSExtension.Dimension ext_quad_reversed * p + d) = Ok k /\
                comprehensive_kv ext_quad_reversed p d = Ok k.
Proof.
  apply (CreateComprehensiveKV_copies_unique epsilon_double ext_quad_reversed
           ext_quad_reversed).
  - left. reflexivity.
  - intros kv Hkv.
    repeat (apply elem_of_cons in Hkv as [-> | Hkv];
            [split; [reflexivity | split; vm_compute; discriminate] |]).
    apply elem_of_nil in Hkv. destruct Hkv.
  - vm_compute. reflexivity.
Defined.

Lemma Difference_self eps k : KnotVector.Difference eps k k = Ok [].
Proof.
  unfold KnotVector.Difference, KnotVector.GetOrder.
  rewrite bool_decide_eq_false_2 by (intros H; apply H; reflexivity). simpl.
  rewrite bool_decide_eq_false_2 by lia.
  rewrite bool_decide_eq_true_2 by lia. reflexivity.
Qed.

(** X20. In 2D and 3D, [UpdateUniqueKV] on the extension that
    [CreateComprehensiveKV] has just left returns and changes nothing: every
    comprehensive knot vector has the order of its unique knot vector and,
    turned back, its knots, so no unique knot vector is overwritten. *)
Theorem UpdateUniqueKV_after_create (eps : real_t) (ext ext' : NURBSExtension.t) :
  NURBSExtension.Dimension ext = 2 \/ NURBSExtension.Dimension ext = 3 ->
  (forall kv, kv ∈ NURBSExtension.knotVectors ext ->
     well_sized kv /\ 0 <= KnotVector.Order kv /\ 0 <= KnotVector.NumOfControlPoints kv) ->
  NURBSExtension.CreateComprehensiveKV eps ext = Ok ext' ->
  NURBSExtension.UpdateUniqueKV eps ext' = Ok ext'.
Proof.
  intros Hdim Hkv E.
  destruct (CreateComprehensiveKV_spec eps ext ext' Hdim Hkv E)
    as (kvc & -> & Hlen & Hall & Hcons).
  set (ext' := NURBSExtension.set_knotVectorsCompr ext kvc) in *.
  unfold NURBSExtension.UpdateUniqueKV.
  change (NURBSExtension.Dimension ext') with (NURBSExtension.Dimension ext).
  change (NURBSExtension.GetNP ext') with (NURBSExtension.GetNP ext).
  set (dim := NURBSExtension.Dimension ext) in *.
  set (np := NURBSExtension.GetNP ext) in *.
  rewrite bool_decide_eq_false_2 by lia. cbv zeta.
  match goal with
  | |- rbind (for_loop 0 np ?body ext') _ = _ =>
      assert (Hloop : for_loop 0 np body ext' = Ok ext')
  end.
  { destruct (Z_le_gt_dec 0 np) as [Hnp | Hnp]; [| apply for_loop_empty; lia].
    match goal with
    | |- for_loop 0 np ?body ext' = _ =>
        destruct (for_loop_inv (fun _ e => e = ext') 0 np body ext' Hnp eq_refl)
          as (s' & Es & ->); [| exact Es]
    end.
    intros p e Hp ->. exists ext'. split; [| reflexivity].
    change (NURBSExtension.patchTopo ext') with (NURBSExtension.patchTopo ext).
    destruct (Hall p 0 Hp ltac:(lia)) as (k0 & _ & Ek0).
    unfold comprehensive_kv in Ek0. apply rbind_ok in Ek0 as (kvdir & Edir & _).
    destruct (Mesh.GetElementEdges (NURBSExtension.patchTopo ext) p)
      as [edges orient] eqn:Eedges.
    change (NURBSExtension.CheckKVDirection ext' p) with (NURBSExtension.CheckKVDirection ext p).
    rewrite Edir. cbn [rbind].
    match goal with
    | |- for_loop 0 dim ?body ext' = _ =>
        destruct (for_loop_inv (fun _ e => e = ext') 0 dim body ext' ltac:(lia) eq_refl)
          as (s' & Es & ->); [| exact Es]
    end.
    intros d e Hd ->. exists ext'. split; [| reflexivity].
    destruct (Hall p d Hp Hd) as (k & Erd & Ek).
    unfold comprehensive_kv in Ek. fold dim in Ek. rewrite Edir, Eedges in Ek.
    cbn [rbind] in Ek.
    apply rbind_ok in Ek as (ed & Eed & Ek). apply rbind_ok in Ek as (iun & Eiun & Ek).
    apply rbind_ok in Ek as (ku & Eku & Ek). apply rbind_ok in Ek as (kd & Ekd & Ek).
    destruct (Hkv ku (KnotVec_elem _ _ _ Eku)) as (Hws & Hp0 & Hn0).
    rewrite Ekd. cbn [rbind]. rewrite Eed. cbn [rbind]. rewrite Eiun. cbn [rbind].
    change (NURBSExtension.KnotVec ext' iun) with (NURBSExtension.KnotVec ext iun).
    rewrite Eku. cbn [rbind].
    change (NURBSExtension.knotVectorsCompr ext') with kvc.
    rewrite Erd. cbn [rbind].
    assert (Ho : KnotVector.GetOrder ku = KnotVector.GetOrder k).
    { destruct (bool_decide (kd = -1)); [| congruence].
      destruct (Flip_at ku Hws Hp0 Hn0) as (k' & _ & _ & Ef & _ & _ & (Ho & _) & _).
      unfold KnotVector.GetOrder. congruence. }
    rewrite Ho, Z.sub_diag. change (Z.abs 0) with 0.
    rewrite bool_decide_eq_true_2 by reflexivity. cbn [negb rbind].
    assert (E1 : (if bool_decide (kd = -1) then KnotVector.Flip k else Ok k) = Ok ku).
    { destruct (bool_decide (kd = -1)); [| congruence].
      apply (Flip_Flip ku k Hws Hp0 Hn0 Ek). }
    rewrite E1. cbn [rbind].
    change (NURBSExtension.KnotVec ext' iun) with (NURBSExtension.KnotVec ext iun).
    rewrite Eku. cbn [rbind]. rewrite Difference_self. cbn [rbind].
    rewrite Ek. cbn [rbind].
    change (NURBSExtension.knotVectorsCompr ext') with kvc.
    unfold wr. rewrite bool_decide_eq_true_2.
    2:{ apply rd_Ok in Erd as [H0 Hl]. apply lookup_lt_Some in Hl. lia. }
    cbn [rbind]. rewrite list_insert_id by (apply rd_Ok in Erd as [_ Hl]; exact Hl).
    reflexivity. }
  rewrite Hloop. cbn [rbind]. rewrite Hcons. reflexivity.
Qed.

Lemma UpdateUniqueKV_after_create_witness :
  NURBSExtension.UpdateUniqueKV epsilon_double ext_quad_reversed = Ok ext_quad_reversed.
Proof.
  apply (UpdateUniqueKV_after_create epsilon_double ext_quad_reversed ext_quad_reversed).
  - left. reflexivity.
  - intros kv Hkv.
    repeat (apply elem_of_cons in Hkv as [-> | Hkv];
            [split; [reflexivity | split; vm_compute; discriminate] |]).
    apply elem_of_nil in Hkv. destruct Hkv.
  - vm_compute. reflexivity.
Defined.

(** ** NURBSExtension::CheckBdrPatches *)

Lemma negative_false ext edges oedge edges' i :
  signed_edges ext edges oedge = Ok edges' ->
  negative edges' i = Ok false ->
  runs_forward ext edges oedge i.
Proof.
  intros Hs E. apply signed_edges_spec in Hs as [Hl Hs].
  unfold negative in E. apply rbind_ok in E as (a & Ea & [= E]).
  apply bool_decide_eq_false in E.
  assert (Hi : 0 <= i < zlen edges).
  { apply rd_Ok in Ea as [? Ea]. apply lookup_lt_Some in Ea. unfold zlen. lia. }
  destruct (Hs i Hi) as (a' & Ea' & Sa). assert (a' = a) by congruence. subst a'.
  unfold signed_edge in Sa. apply rbind_ok in Sa as (e & Ee & Sa).
  apply rbind_ok in Sa as (u & Eu & Sa). apply rbind_ok in Sa as (o & Eo & [= Sa]).
  exists e, u, o. repeat split; try assumption; case_bool_decide; lia.
Qed.

(** X21. When [CheckBdrPatches] returns, the first edge of every boundary
    patch of a 2D mesh, and the first two edges of every boundary patch of a
    3D mesh, run with their knot vectors. *)
Theorem CheckBdrPatches_edges_run_forward (GetBdrElementEdges : Z -> list Z * list Z)
    (ext : NURBSExtension.t) (p : Z) :
  CheckBdrPatches GetBdrElementEdges ext = Ok tt ->
  0 <= p < NURBSExtension.GetNBP ext ->
  let edges := (GetBdrElementEdges p).1 in
  let oedge := (GetBdrElementEdges p).2 in
  (NURBSExtension.Dimension ext = 2 -> runs_forward ext edges oedge 0) /\
  (NURBSExtension.Dimension ext = 3 ->
     runs_forward ext edges oedge 0 /\ runs_forward ext edges oedge 1).
Proof.
  intros E Hp edges oedge.
  assert (Hone : exists es, signed_edges ext edges oedge = Ok es /\
                   bad_orientation ext es = Ok false).
  { unfold CheckBdrPatches in E.
    apply (for_loop_sound
             (fun q _ => p < q ->
                exists es, signed_edges ext edges oedge = Ok es /\
                  bad_orientation ext es = Ok false)) in E.
    - exact E.
    - lia.
    - intros Hq. lia.
    - intros q [] [] Hq IH Eb Hlt.
      destruct (decide (q = p)) as [->|Hne]; [| apply IH; lia].
      unfold edges, oedge. destruct (GetBdrElementEdges p) as [ed oe]. simpl.
      apply rbind_ok in Eb as (es & Es & Eb). apply rbind_ok in Eb as (bad & Ebad & Eb).
      exists es. split; [exact Es |].
      destruct bad; [discriminate | exact Ebad].
    - lia. }
  destruct Hone as (es & Es & Ebad). apply orelse_false in Ebad as [E2 E3].
  split; intros Hd.
  - rewrite bool_decide_eq_true_2 in E2 by exact Hd.
    apply (negative_false _ _ _ _ _ Es E2).
  - rewrite bool_decide_eq_true_2 in E3 by exact Hd.
    apply orelse_false in E3 as [Ea Eb].
    split; [apply (negative_false _ _ _ _ _ Es Ea) | apply (negative_false _ _ _ _ _ Es Eb)].
Qed.

Lemma CheckBdrPatches_edges_run_forward_witness :
  let edges := (bdr_edges_quad 2).1 in
  let oedge := (bdr_edges_quad 2).2 in
  (NURBSExtension.Dimension ext_quad_mismatch = 2 ->
     runs_forward ext_quad_mismatch edges oedge 0) /\
  (NURBSExtension.Dimension ext_quad_mismatch = 3 ->
     runs_forward ext_quad_mismatch edges oedge 0 /\
     runs_forward ext_quad_mismatch edges oedge 1).
Proof.
  apply (CheckBdrPatches_edges_run_forward bdr_edges_quad ext_quad_mismatch 2);
    [reflexivity | vm_compute; split; [discriminate | reflexivity]].
Defined.

(** ** KnotVector: the constructor from intervals and continuities *)

Lemma Sum_cons c cs : Sum (c :: cs) = c + Sum cs.
Proof. reflexivity. Qed.

Lemma blocks_length order a cs ivs :
  (forall c, c ∈ cs -> c <= order) ->
  zlen (blocks order a cs ivs) = order * zlen cs - Sum cs.
Proof.
  revert a ivs. induction cs as [|c cs IH]; intros a ivs Hc.
  - unfold zlen. simpl. lia.
  - assert (Hc0 : c <= order) by (apply Hc; left).
    assert (Hcs : forall c', c' ∈ cs -> c' <= order) by (intros c' H; apply Hc; right; exact H).
    cbn [blocks]. rewrite zlen_app. unfold zlen at 1. rewrite length_replicate.
    rewrite Sum_cons. unfold zlen at 2. cbn [length]. fold (zlen cs).
    destruct ivs as [|iv ivs]; rewrite IH by exact Hcs; unfold zlen; lia.
Qed.

Lemma blocks_sorted order a cs ivs :
  (forall x, x ∈ ivs -> (0 <= x)%Qc) ->
  nondecreasing (blocks order a cs ivs) /\
  forall y, y ∈ blocks order a cs ivs -> (a <= y)%Qc.
Proof.
  revert a ivs. induction cs as [|c cs IH]; intros a ivs Hiv.
  - simpl. split; [| intros y Hy; inversion Hy].
    intros i j x y _ Hx. rewrite lookup_nil in Hx. discriminate.
  - cbn [blocks].
    set (rest := match ivs with
                 | [] => blocks order a cs []
                 | iv :: ivs' => blocks order (a + iv)%Qc cs ivs'
                 end).
    assert (Hrest : nondecreasing rest /\ forall y, y ∈ rest -> (a <= y)%Qc).
    { unfold rest. destruct ivs as [|iv ivs'].
      - apply IH. exact Hiv.
      - destruct (IH (a + iv)%Qc ivs') as [Hs Hge].
        { intros x Hx. apply Hiv. right. exact Hx. }
        split; [exact Hs |]. intros y Hy. apply Qcle_trans with (a + iv)%Qc; [| apply Hge, Hy].
        assert (0 <= iv)%Qc by (apply Hiv; left). qc_lra. }
    destruct Hrest as [Hs Hge]. clearbody rest.
    induction (Z.to_nat (order - c)) as [|n IHn]; simpl.
    + split; assumption.
    + destruct IHn as [Hs' Hge']. split.
      * apply nondecreasing_cons; assumption.
      * intros y Hy. apply elem_of_cons in Hy as [-> | Hy]; [apply Qcle_refl | apply Hge', Hy].
Qed.

Lemma drop_lookup_cons {A} (l : list A) (i : nat) x :
  l !! i = Some x -> drop i l = x :: drop (S i) l.
Proof. intros H. apply drop_S. exact H. Qed.

(** X22. For an order that is not negative and continuities that do not
    exceed it, the constructor [KnotVector(order, intervals, continuity)]
    returns a knot vector of [Order * continuity.Size() - continuity.Sum()]
    knots, every one of which it has written: [order - continuity[i]]
    copies of the sum of the first [i] intervals, for each [i] in turn. The
    knots are in non-decreasing order when no interval is negative. *)
Theorem KnotVector_of_intervals_lays_out_blocks (order : Z) (intervals : list real_t)
    (continuity : list Z) :
  0 <= order ->
  (forall c, c ∈ continuity -> c <= order) ->
  exists kv,
    KnotVector_of_intervals order intervals continuity = Ok kv /\
    KnotVector.knot kv = blocks order (Q2Qc 0) continuity intervals /\
    KnotVector.Order kv = order /\
    KnotVector.Size kv = order * zlen continuity - Sum continuity /\
    well_sized kv /\
    ((forall x, x ∈ intervals -> (0 <= x)%Qc) -> nondecreasing (KnotVector.knot kv)).
Proof.
  intros Hord Hc.
  pose proof (blocks_length order (Q2Qc 0) continuity intervals Hc) as HN.
  set (N := order * zlen continuity - Sum continuity) in *.
  assert (HN0 : 0 <= N) by (rewrite <- HN; unfold zlen; lia).
  unfold KnotVector_of_intervals. fold N. cbv zeta.
  rewrite bool_decide_eq_false_2 by lia. cbn [rbind].
  pose (Inv := fun (i : Z) (st : list real_t * real_t * Z) =>
     let '(knot, accum, iknot) := st in
     zlen knot = N /\ 0 <= iknot /\
     iknot + zlen (blocks order accum (drop (Z.to_nat i) continuity)
                     (drop (Z.to_nat i) intervals)) = N /\
     take (Z.to_nat iknot) knot ++
       blocks order accum (drop (Z.to_nat i) continuity) (drop (Z.to_nat i) intervals) =
     blocks order (Q2Qc 0) continuity intervals).
  match goal with
  | |- context [for_loop 0 (zlen continuity) ?body ?init] =>
      destruct (for_loop_inv Inv 0 (zlen continuity) body init)
        as ([[knot accum] iknot] & -> & HI)
  end.
  { unfold zlen. lia. }
  { unfold Inv. change (Z.to_nat 0) with 0%nat. rewrite !drop_0, take_0.
    split; [unfold zlen; rewrite length_replicate; lia |]. split; [lia |].
    split; [lia | reflexivity]. }
  { intros i [[knot accum] iknot] Hi (Hlen & Hik & Hsum & Hpre).
    destruct (rd_in_range continuity i Hi) as (c & Ec & Hlc). rewrite Ec. cbn [rbind].
    assert (Hc0 : c <= order) by (apply Hc; eapply list_elem_of_lookup_2; exact Hlc).
    rewrite (drop_lookup_cons continuity _ c Hlc) in Hsum, Hpre.
    cbn [blocks] in Hsum, Hpre.
    set (rest := match drop (Z.to_nat i) intervals with
                 | [] => blocks order accum (drop (S (Z.to_nat i)) continuity) []
                 | iv :: ivs => blocks order (accum + iv)%Qc
                                  (drop (S (Z.to_nat i)) continuity) ivs
                 end) in *.
    rewrite zlen_app in Hsum. unfold zlen at 1 in Hsum. rewrite length_replicate in Hsum.
    assert (Hrest0 : 0 <= zlen rest) by (unfold zlen; lia).
    pose (Inner := fun (j : Z) (st : list real_t * Z) =>
       let '(knot', iknot') := st in
       zlen knot' = N /\ iknot' = iknot + j /\
       take (Z.to_nat iknot') knot' =
         take (Z.to_nat iknot) knot ++ replicate (Z.to_nat j) accum).
    match goal with
    | |- context [for_loop 0 (order - c) ?body ?init] =>
        destruct (for_loop_inv Inner 0 (order - c) body init)
          as ([knot' iknot'] & -> & (Hlen' & -> & Htake))
    end.
    { lia. }
    { unfold Inner. split; [exact Hlen |]. split; [lia |].
      change (Z.to_nat 0) with 0%nat. simpl. rewrite app_nil_r.
      reflexivity. }
    { intros j [knot1 iknot1] Hj (Hlen1 & -> & Htake1).
      rewrite wr_Ok by lia. cbn [rbind]. eexists. split; [reflexivity |].
      unfold Inner. split; [unfold zlen in *; rewrite length_insert; exact Hlen1 |].
      split; [lia |].
      replace (Z.to_nat (iknot + j + 1)) with (S (Z.to_nat (iknot + j))) by lia.
      erewrite take_S_r
        by (apply list_lookup_insert_eq; unfold zlen in Hlen1; lia).
      rewrite take_insert_ge by lia. rewrite Htake1.
      replace (Z.to_nat (j + 1)) with (S (Z.to_nat j)) by lia.
      rewrite replicate_S_end, app_assoc. reflexivity. }
    cbn [rbind].
    assert (Hdrop : drop (Z.to_nat (i + 1)) continuity = drop (S (Z.to_nat i)) continuity)
      by (f_equal; lia).
    destruct (decide (i < zlen intervals)) as [Hlt | Hge].
    - rewrite bool_decide_eq_true_2 by exact Hlt.
      destruct (rd_in_range intervals i ltac:(lia)) as (iv & Eiv & Hliv).
      rewrite Eiv. cbn [rbind]. eexists. split; [reflexivity |].
      unfold rest in *. rewrite (drop_lookup_cons intervals _ iv Hliv) in *.
      unfold Inv. rewrite Hdrop.
      replace (Z.to_nat (i + 1)) with (S (Z.to_nat i)) by lia.
      split; [exact Hlen' |]. split; [lia |]. split; [lia |].
      rewrite Htake, <- app_assoc. exact Hpre.
    - rewrite bool_decide_eq_false_2 by exact Hge.
      eexists. split; [reflexivity |].
      assert (Hnil : drop (Z.to_nat i) intervals = []).
      { apply drop_ge. unfold zlen in Hge. lia. }
      assert (Hnil' : drop (Z.to_nat (i + 1)) intervals = []).
      { apply drop_ge. unfold zlen in Hge. lia. }
      unfold rest in *. rewrite Hnil in *.
      unfold Inv. rewrite Hdrop, Hnil'.
      split; [exact Hlen' |]. split; [lia |]. split; [lia |].
      rewrite Htake, <- app_assoc. exact Hpre. }
  cbn [rbind]. destruct HI as (Hlen & Hik & Hsum & Hpre).
  rewrite drop_ge in Hsum, Hpre by (unfold zlen; lia).
  cbn [blocks] in Hsum, Hpre. unfold zlen at 1 in Hsum. cbn [length] in Hsum.
  rewrite app_nil_r in Hpre.
  rewrite take_ge in Hpre by (unfold zlen in Hlen; lia).
  set (kv0 := KnotVector.mk knot order (N - order - 1) 0 false None).
  assert (Hne : exists ne,
            for_loop 0 (KnotVector.GetNKS kv0)
              (fun i ne => e ← KnotVector.isElement kv0 i;
                           Ok (if (e : bool) then ne + 1 else ne)) 0 = Ok ne).
  { destruct (Z_le_gt_dec 0 (KnotVector.GetNKS kv0)) as [Hle | Hgt].
    2:{ exists 0. apply for_loop_empty. lia. }
    match goal with
    | |- exists ne, for_loop 0 ?hi ?body 0 = Ok ne =>
        destruct (for_loop_inv (fun _ _ => True) 0 hi body 0 Hle I) as (ne & E & _);
          [| exists ne; exact E]
    end.
    intros i ne Hi _. unfold KnotVector.GetNKS in Hi. simpl in Hi.
    unfold KnotVector.isElement. simpl.
    destruct (at_in_range kv0 (order + i)) as [a ->];
      [unfold KnotVector.Size; simpl; lia |].
    destruct (at_in_range kv0 (order + i + 1)) as [b ->];
      [unfold KnotVector.Size; simpl; lia |].
    simpl. eexists. split; [reflexivity | exact I]. }
  destruct Hne as (ne & ->). cbn [rbind].
  eexists. split; [reflexivity |]. simpl.
  split; [exact Hpre |]. split; [reflexivity |].
  split; [unfold KnotVector.Size; simpl; exact Hlen |].
  split; [unfold well_sized, KnotVector.Size; simpl; lia |].
  intros Hiv. rewrite Hpre. apply blocks_sorted. exact Hiv.
Qed.

Lemma KnotVector_of_intervals_lays_out_blocks_witness :
  exists kv,
    KnotVector_of_intervals 2 [qc 1 2; qc 1 2] [-1; 1; -1] = Ok kv /\
    KnotVector.knot kv = blocks 2 (Q2Qc 0) [-1; 1; -1] [qc 1 2; qc 1 2] /\
    KnotVector.Order kv = 2 /\
    KnotVector.Size kv = 2 * zlen [-1; 1; -1] - Sum [-1; 1; -1] /\
    well_sized kv /\
    nondecreasing (KnotVector.knot kv).
Proof.
  destruct (KnotVector_of_intervals_lays_out_blocks 2 [qc 1 2; qc 1 2] [-1; 1; -1])
    as (kv & E & Hk & Ho & Hs & Hw & Hnd).
  - lia.
  - intros c Hc. repeat (apply elem_of_cons in Hc as [-> | Hc]; [lia |]).
    apply elem_of_nil in Hc. destruct Hc.
  - exists kv. repeat (split; [assumption |]). apply Hnd.
    intros x Hx. repeat (apply elem_of_cons in Hx as [-> | Hx]; [vm_compute; discriminate |]).
    apply elem_of_nil in Hx. destruct Hx.
Defined.

Example KnotVector_of_intervals_quad2 :
  KnotVector_of_intervals 2 [qc 1 2; qc 1 2] [-1; 1; -1] = Ok kv_quad2.
Proof.
  vm_compute. do 2 f_equal.
  repeat (f_equal; try (apply Qc_is_canon; reflexivity)).
Qed.

(** ** NURBSExtension::SetOrdersFromKnotVectors *)

Lemma SetOrderFromOrders_spec vo mo m :
  SetOrderFromOrders vo mo = Ok m ->
  (forall x, x ∈ mo -> x = m) \/
  (m = vo /\ exists x y, x ∈ mo /\ y ∈ mo /\ x <> y).
Proof.
  unfold SetOrderFromOrders. intros E.
  apply rbind_ok in E as ([] & Ev & E). unfold MFEM_VERIFY in Ev.
  case_bool_decide as Hlen; [| discriminate]. clear Ev.
  apply rbind_ok in E as (m0 & E0 & E). apply rbind_ok in E as (r & Er & [= <-]).
  apply (for_loop_sound
           (fun i r =>
              match r with
              | Some v => v = vo /\ exists x y, x ∈ mo /\ y ∈ mo /\ x <> y
              | None => forall k, 0 <= k < i -> rd mo k = Ok m0
              end)) in Er.
  - destruct r as [v|]; [right; exact Er | left].
    intros x Hx. apply list_elem_of_lookup in Hx as [k Hk].
    pose proof (lookup_lt_Some _ _ _ Hk) as Hlt.
    specialize (Er (Z.of_nat k) ltac:(unfold zlen; lia)).
    apply rd_Ok in Er as [_ Er]. rewrite Nat2Z.id in Er. congruence.
  - lia.
  - intros k Hk. assert (k = 0) by lia. subst k. exact E0.
  - intros i [v|] r' Hi HI Eb.
    + injection Eb as <-. exact HI.
    + apply rbind_ok in Eb as (x & Ex & Eb). case_bool_decide as Hne.
      * injection Eb as <-. split; [reflexivity |]. exists x, m0.
        split; [apply rd_Ok in Ex as [_ Ex]; eapply list_elem_of_lookup_2; exact Ex |].
        split; [apply rd_Ok in E0 as [_ E0]; eapply list_elem_of_lookup_2; exact E0 |].
        exact Hne.
      * injection Eb as <-. intros k Hk. destruct (decide (k = i)) as [-> | ?].
        -- rewrite Ex. f_equal. destruct (decide (x = m0)); [assumption | contradiction].
        -- apply HI. lia.
Qed.

(** X23. When [SetOrdersFromKnotVectors] returns, [mOrders] lists the orders
    of the unique knot vectors, and [mOrder] is their common order, or
    [VariableOrder] when two of them differ. *)
Theorem SetOrdersFromKnotVectors_common_order (VariableOrder : Z)
    (ext ext' : NURBSExtension.t) (m : Z) :
  NURBSExtension.NumOfKnotVectors ext = zlen (NURBSExtension.knotVectors ext) ->
  SetOrdersFromKnotVectors VariableOrder ext = Ok (ext', m) ->
  NURBSExtension.mOrders ext' = KnotVector.Order <$> NURBSExtension.knotVectors ext /\
  ((forall k, k ∈ NURBSExtension.knotVectors ext -> KnotVector.Order k = m) \/
   (m = VariableOrder /\
    exists k k', k ∈ NURBSExtension.knotVectors ext /\ k' ∈ NURBSExtension.knotVectors ext /\
      KnotVector.Order k <> KnotVector.Order k')).
Proof.
  intros Hn E. unfold SetOrdersFromKnotVectors in E. cbv zeta in E.
  apply rbind_ok in E as (mo & Emo & E). apply rbind_ok in E as (m' & Em & [= <- <-]).
  set (kvs := NURBSExtension.knotVectors ext) in *.
  set (n := NURBSExtension.NumOfKnotVectors ext) in *.
  assert (Hmo : mo = KnotVector.Order <$> kvs).
  { apply (for_loop_sound
             (fun i mo => zlen mo = n /\
                forall k, 0 <= k < i ->
                  exists kv, rd kvs k = Ok kv /\ rd mo k = Ok (KnotVector.Order kv))) in Emo.
    - destruct Emo as [Hl Hall]. apply list_eq. intros k.
      rewrite list_lookup_fmap.
      destruct (decide (k < length kvs)%nat) as [Hk | Hk].
      + destruct (Hall (Z.of_nat k) ltac:(unfold zlen in Hn; lia)) as (kv & Hkv & Hmo).
        apply rd_Ok in Hkv as [_ Hkv]. apply rd_Ok in Hmo as [_ Hmo].
        rewrite Nat2Z.id in Hkv, Hmo. rewrite Hmo, Hkv. reflexivity.
      + rewrite (lookup_ge_None_2 kvs k) by lia.
        rewrite (lookup_ge_None_2 mo k) by (unfold zlen in *; lia). reflexivity.
    - unfold zlen in Hn. lia.
    - split; [unfold zlen in *; rewrite length_resize; lia | intros k Hk; lia].
    - intros i mo0 mo1 Hi [Hl HI] Eb.
      apply rbind_ok in Eb as (k & Ek & Eb). apply wr_inv in Eb as [Hr ->]. split.
      + unfold zlen in *. rewrite length_insert. exact Hl.
      + intros j Hj. destruct (decide (j = i)) as [-> | ?].
        * exists k. split; [exact Ek | apply rd_insert_eq; exact Hr].
        * rewrite rd_insert_ne by lia. apply HI. lia. }
  simpl. split; [exact Hmo |].
  destruct (SetOrderFromOrders_spec _ _ _ Em) as [Hall | (-> & x & y & Hx & Hy & Hne)].
  - left. intros k Hk. apply Hall. rewrite Hmo. apply list_elem_of_fmap. eauto.
  - right. split; [reflexivity |]. rewrite Hmo in Hx, Hy.
    apply list_elem_of_fmap in Hx as (k & -> & Hk), Hy as (k' & -> & Hk'). eauto.
Qed.

Lemma SetOrdersFromKnotVectors_common_order_witness :
  NURBSExtension.mOrders (set_mOrders ext_quad_mismatch [1; 1]) =
    KnotVector.Order <$> NURBSExtension.knotVectors ext_quad_mismatch /\
  ((forall k, k ∈ NURBSExtension.knotVectors ext_quad_mismatch -> KnotVector.Order k = 1) \/
   (1 = -1 /\
    exists k k', k ∈ NURBSExtension.knotVectors ext_quad_mismatch /\
      k' ∈ NURBSExtension.knotVectors ext_quad_mismatch /\
      KnotVector.Order k <> KnotVector.Order k')).
Proof.
  apply (SetOrdersFromKnotVectors_common_order (-1) ext_quad_mismatch
           (set_mOrders ext_quad_mismatch [1; 1]) 1); vm_compute; reflexivity.
Defined.

(** ** KnotVector::GetFineKnots *)

Lemma keep_fine_length n cf d :
  1 <= cf -> Z.of_nat n * cf <= zlen d -> zlen (keep_fine n cf d) = Z.of_nat n * (cf - 1).
Proof.
  intros Hcf. revert d. induction n as [|n IH]; intros d Hd.
  - reflexivity.
  - cbn [keep_fine]. rewrite zlen_app. rewrite IH.
    + unfold zlen in *. rewrite length_take. lia.
    + unfold zlen in *. rewrite length_drop. lia.
Qed.

(** X24. For a coarsening factor [cf >= 2] that divides [NumOfElements], on a
    knot vector that has at least [NumOfElements] changes of knot value
    after [knot(Order)], [GetFineKnots(cf)] returns the knots at which the
    value changes, taken in groups of [cf] without the last one of each
    group: the knots that lie inside the coarse elements. *)
Theorem GetFineKnots_keeps_inner_knots (kv : KnotVector.t) (cf : Z) (k0 : real_t) :
  2 <= cf ->
  0 < KnotVector.NumOfElements kv ->
  (KnotVector.NumOfElements kv `quot` cf) * cf = KnotVector.NumOfElements kv ->
  KnotVector.at_ kv (KnotVector.Order kv) = Ok k0 ->
  let d := changes k0 (drop (Z.to_nat (KnotVector.Order kv + 1)) (KnotVector.knot kv)) in
  KnotVector.NumOfElements kv <= zlen d ->
  GetFineKnots kv cf =
    Ok (keep_fine (Z.to_nat (KnotVector.NumOfElements kv `quot` cf)) cf d).
Proof.
  intros Hcf Hne Hdiv Hk0 d Hd.
  set (cne := KnotVector.NumOfElements kv `quot` cf) in *.
  set (ks := KnotVector.knot kv) in *.
  assert (Hcne : 0 < cne) by nia.
  set (target := keep_fine (Z.to_nat cne) cf d).
  set (T := cne * (cf - 1)).
  assert (Htl : zlen target = T).
  { unfold target. rewrite keep_fine_length by lia. unfold T. lia. }
  assert (Hord : 0 <= KnotVector.Order kv) by (apply at_Ok in Hk0 as [? _]; lia).
  unfold GetFineKnots. fold cne.
  rewrite bool_decide_eq_false_2 by lia. cbv zeta.
  rewrite (bool_decide_eq_true_2 (0 < cne)) by exact Hcne.
  rewrite (bool_decide_eq_true_2 (cne * cf = _)) by exact Hdiv.
  cbn [andb MFEM_VERIFY rbind]. rewrite Hk0. cbn [rbind]. fold T.
  pose (R := fun (i : Z) (kprev : real_t) => changes kprev (drop (Z.to_nat (i + 1)) ks)).
  pose (Outer := fun (c : Z) (st : list real_t * Z * Z * real_t) =>
     let '(fine, fcnt, i, kprev) := st in
     zlen fine = T /\ 0 <= fcnt <= T /\ 0 <= i /\
     (cne - c) * cf <= zlen (R i kprev) /\
     take (Z.to_nat fcnt) fine ++ keep_fine (Z.to_nat (cne - c)) cf (R i kprev) = target).
  match goal with
  | |- context [for_loop 0 cne ?body ?init] =>
      destruct (for_loop_inv Outer 0 cne body init)
        as ([[[fine fcnt] i] kprev] & -> & HO)
  end.
  { lia. }
  { unfold Outer. split; [unfold zlen; rewrite length_replicate; unfold T; nia |].
    split; [unfold T; nia |]. split; [exact Hord |].
    rewrite Z.sub_0_r. fold d. unfold R. split; [fold d; lia |]. reflexivity. }
  { intros c [[[fine fcnt] i] kprev] Hc (Hfl & Hfc & Hi & Hlen & Htake).
    pose (Inner := fun (st : list real_t * Z * Z * real_t * Z) =>
       let '(fine', fcnt', i', kprev', cnt) := st in
       zlen fine' = T /\ 0 <= fcnt' <= T /\ 0 <= i' /\ 0 <= cnt <= cf /\
       (cf - cnt) + (cne - c - 1) * cf <= zlen (R i' kprev') /\
       take (Z.to_nat fcnt') fine' ++
         take (Z.to_nat (cf - 1 - cnt)) (R i' kprev') ++
         keep_fine (Z.to_nat (cne - c - 1)) cf (drop (Z.to_nat (cf - cnt)) (R i' kprev')) =
       target).
    pose (mu := fun (st : list real_t * Z * Z * real_t * Z) =>
       let '(_, _, i', _, _) := st in Z.to_nat (KnotVector.Size kv - i')).
    match goal with
    | |- context [while_loop ?fuel ?cond ?body ?init] =>
        destruct (while_loop_total Inner mu cond body fuel init)
          as ([[[[fine' fcnt'] i'] kprev'] cnt] & -> & HI & Hex)
    end.
    { unfold Inner. split; [exact Hfl |]. split; [exact Hfc |]. split; [exact Hi |].
      split; [lia |]. split; [lia |].
      rewrite !Z.sub_0_r. rewrite <- Htake. f_equal.
      replace (Z.to_nat (cne - c)) with (S (Z.to_nat (cne - c - 1))) by lia.
      reflexivity. }
    { unfold mu, KnotVector.Size, zlen. cbv beta iota. lia. }
    { intros [[[[fine1 fcnt1] i1] kprev1] cnt1] (Hfl1 & Hfc1 & Hi1 & Hcnt1 & Hlen1 & Htake1).
      eexists. split; [reflexivity |]. intros Hlt. apply bool_decide_eq_true in Hlt.
      (* the next knot exists, since a change of value is still to come *)
      assert (Hnext : (Z.to_nat (i1 + 1) < length ks)%nat).
      { destruct (decide (Z.to_nat (i1 + 1) < length ks)%nat) as [H | H]; [exact H |].
        exfalso. unfold R in Hlen1. rewrite drop_ge in Hlen1 by lia.
        unfold zlen in Hlen1. simpl in Hlen1. nia. }
      destruct (lookup_lt_is_Some_2 ks _ Hnext) as [ki Hki].
      assert (Eki : KnotVector.at_ kv (i1 + 1) = Ok ki).
      { unfold KnotVector.at_. fold ks. apply rd_lookup; [lia | exact Hki]. }
      assert (ER : R i1 kprev1 =
                   if Qc_eqb ki kprev1 then R (i1 + 1) kprev1 else ki :: R (i1 + 1) ki).
      { unfold R. rewrite (drop_S ks ki (Z.to_nat (i1 + 1)) Hki). cbn [changes].
        replace (Z.to_nat (i1 + 1 + 1)) with (S (Z.to_nat (i1 + 1))) by lia. reflexivity. }
      cbv zeta. rewrite Eki. cbn [rbind].
      destruct (Qc_eqb ki kprev1) eqn:Eeq; cbn [negb].
      - eexists. split; [reflexivity |]. split.
        + unfold Inner. rewrite <- ER. repeat split; try assumption; lia.
        + unfold mu, KnotVector.Size, zlen. cbv beta iota. fold ks. lia.
      - destruct (decide (cnt1 + 1 < cf)) as [Hlt' | Hge'].
        + rewrite (bool_decide_eq_true_2 (cnt1 + 1 < cf)) by exact Hlt'.
          rewrite ER in Hlen1, Htake1.
          replace (Z.to_nat (cf - 1 - cnt1)) with (S (Z.to_nat (cf - 1 - (cnt1 + 1))))
            in Htake1 by lia.
          replace (Z.to_nat (cf - cnt1)) with (S (Z.to_nat (cf - (cnt1 + 1))))
            in Htake1 by lia.
          cbn [take drop] in Htake1.
          assert (Hroom : fcnt1 < T).
          { apply (f_equal zlen) in Htake1. rewrite Htl, zlen_app in Htake1.
            unfold zlen at 1 in Htake1. rewrite length_take in Htake1.
            unfold zlen in Htake1 at 1. cbn [app length] in Htake1.
            unfold zlen in Hfl1. lia. }
          rewrite wr_Ok by lia. cbn [rbind]. eexists. split; [reflexivity |]. split.
          * unfold Inner. split; [unfold zlen in *; rewrite length_insert; exact Hfl1 |].
            split; [lia |]. split; [lia |]. split; [lia |]. split.
            { unfold zlen in *. cbn [length] in Hlen1. lia. }
            rewrite <- Htake1.
            replace (Z.to_nat (fcnt1 + 1)) with (S (Z.to_nat fcnt1)) by lia.
            erewrite take_S_r
              by (apply list_lookup_insert_eq; unfold zlen in Hfl1; lia).
            rewrite take_insert_ge by lia. rewrite <- app_assoc. reflexivity.
          * unfold mu, KnotVector.Size, zlen. cbv beta iota. fold ks. lia.
        + rewrite (bool_decide_eq_false_2 (cnt1 + 1 < cf)) by exact Hge'.
          assert (cnt1 = cf - 1) by lia. subst cnt1.
          rewrite ER in Hlen1, Htake1.
          replace (Z.to_nat (cf - 1 - (cf - 1))) with 0%nat in Htake1 by lia.
          replace (Z.to_nat (cf - (cf - 1))) with 1%nat in Htake1 by lia.
          cbn [take drop] in Htake1.
          eexists. split; [reflexivity |]. split.
          * unfold Inner. split; [exact Hfl1 |]. split; [exact Hfc1 |]. split; [lia |].
            split; [lia |]. split.
            { unfold zlen in *. cbn [length] in Hlen1. lia. }
            replace (cf - 1 + 1) with cf by lia.
            replace (Z.to_nat (cf - 1 - cf)) with 0%nat by lia.
            replace (Z.to_nat (cf - cf)) with 0%nat by lia.
            cbn [take drop]. exact Htake1.
          * unfold mu, KnotVector.Size, zlen. cbv beta iota. fold ks. lia. }
    cbn [rbind]. eexists. split; [reflexivity |].
    destruct HI as (Hfl1 & Hfc1 & Hi1 & Hcnt1 & Hlen1 & Htake1).
    injection Hex as Hex. apply bool_decide_eq_false in Hex.
    assert (cnt = cf) by lia. subst cnt.
    unfold Outer. split; [exact Hfl1 |]. split; [exact Hfc1 |]. split; [exact Hi1 |].
    split; [lia |].
    replace (Z.to_nat (cf - 1 - cf)) with 0%nat in Htake1 by lia.
    replace (Z.to_nat (cf - cf)) with 0%nat in Htake1 by lia.
    cbn [take drop app] in Htake1.
    replace (cne - (c + 1)) with (cne - c - 1) by lia. exact Htake1. }
  cbn [rbind]. destruct HO as (Hfl & Hfc & Hi & Hlen & Htake).
  rewrite Z.sub_diag in Htake. cbn [keep_fine Z.to_nat] in Htake.
  rewrite app_nil_r in Htake.
  assert (fcnt = T).
  { apply (f_equal zlen) in Htake. rewrite Htl in Htake. unfold zlen in Htake, Hfl.
    rewrite length_take in Htake. lia. }
  subst fcnt. rewrite take_ge in Htake by (unfold zlen in Hfl; lia).
  rewrite Hfl. rewrite bool_decide_eq_true_2 by reflexivity. cbn [MFEM_VERIFY rbind].
  f_equal. exact Htake.
Qed.

Lemma GetFineKnots_keeps_inner_knots_witness :
  GetFineKnots kv_quad2 2 =
    Ok (keep_fine (Z.to_nat (KnotVector.NumOfElements kv_quad2 `quot` 2)) 2
          (changes (qc 0 1)
             (drop (Z.to_nat (KnotVector.Order kv_quad2 + 1)) (KnotVector.knot kv_quad2)))).
Proof.
  apply (GetFineKnots_keeps_inner_knots kv_quad2 2 (qc 0 1)).
  - lia.
  - vm_compute. reflexivity.
  - vm_compute. reflexivity.
  - vm_compute. reflexivity.
  - vm_compute. discriminate.
Defined.

Example GetFineKnots_quad2 : GetFineKnots kv_quad2 2 = Ok [qc 1 2].
Proof. vm_compute. reflexivity. Qed.

(** ** NURBSPatch::SwapDirections: the control points are transposed *)

Lemma create_of_kvs h kvs :
  (forall l, l ∈ kvs -> is_Some (Store.kvs h !! l)) ->
  returns
    (for_loopM 0 (zlen kvs)
       (fun i acc =>
          mbind (lift (rd kvs i)) (fun l =>
          mbind (NURBSPatch.copy_kv l) (fun l' => mret (acc ++ [l']))))
       []) h
    (fun acc hc =>
       Store.bufs hc = Store.bufs h /\ NoDup acc /\
       (forall l, l ∉ acc -> Store.kvs hc !! l = Store.kvs h !! l) /\
       (forall l, l ∈ acc -> Store.kvs h !! l = None) /\
       zlen acc = zlen kvs /\
       (forall (j : nat) l', acc !! j = Some l' ->
          exists l k, kvs !! j = Some l /\ Store.kvs h !! l = Some k /\
            Store.kvs hc !! l' = Some (KnotVector.assign KnotVector.null k))).
Proof.
  intros Hall.
  apply (returns_for (fun i acc hc =>
       Store.bufs hc = Store.bufs h /\ NoDup acc /\
       (forall l, l ∉ acc -> Store.kvs hc !! l = Store.kvs h !! l) /\
       (forall l, l ∈ acc -> Store.kvs h !! l = None) /\
       zlen acc = i /\
       (forall (j : nat) l', acc !! j = Some l' ->
          exists l k, kvs !! j = Some l /\ Store.kvs h !! l = Some k /\
            Store.kvs hc !! l' = Some (KnotVector.assign KnotVector.null k)))).
  - unfold zlen. lia.
  - split; [reflexivity |]. split; [constructor |]. split; [reflexivity |].
    split; [intros l Hl; inversion Hl |]. split; [reflexivity |].
    intros j l' Hj. rewrite lookup_nil in Hj. discriminate.
  - intros j acc hc Hj (Hb & Hnd & Hout & Hin & Hlen & Hpos).
    destruct (rd_in_range kvs j Hj) as (l & Hrd & Hl).
    destruct (Hall l ltac:(eapply list_elem_of_lookup_2; exact Hl)) as [k Hk].
    assert (Hlacc : l ∉ acc) by (intros Hc; apply Hin in Hc; congruence).
    apply returns_bind. apply (returns_lift _ l); [exact Hrd |].
    apply returns_bind. unfold NURBSPatch.copy_kv. apply returns_bind.
    apply (returns_kv_load l k); [rewrite Hout by exact Hlacc; exact Hk |].
    apply returns_new_kv. intros l' Hfresh. apply returns_ret.
    assert (Hnotin : l' ∉ acc).
    { intros Hc. apply list_elem_of_lookup in Hc as [i Hi].
      destruct (Hpos i l' Hi) as (? & ? & _ & _ & Hk'). congruence. }
    split; [exact Hb |]. split.
    { apply NoDup_app. split; [exact Hnd |]. split; [| apply NoDup_singleton].
      intros x Hx Hx'. apply list_elem_of_singleton in Hx'. subst x. contradiction. }
    split.
    { intros l0 Hl0. simpl. rewrite not_elem_of_app in Hl0. destruct Hl0 as [Hl1 Hl2].
      rewrite list_elem_of_singleton in Hl2.
      rewrite lookup_insert_ne by congruence. apply Hout. exact Hl1. }
    split.
    { intros l0 Hl0. apply elem_of_app in Hl0 as [Hl0|Hl0]; [apply Hin; exact Hl0 |].
      apply list_elem_of_singleton in Hl0. subst l0. rewrite <- Hout by exact Hnotin.
      exact Hfresh. }
    split; [unfold zlen in *; rewrite length_app; simpl; lia |].
    intros i l0 Hi. simpl.
    destruct (decide (i < length acc)%nat) as [Hlt|Hge].
    + rewrite lookup_app_l in Hi by exact Hlt.
      destruct (Hpos i l0 Hi) as (l1 & k1 & H1 & H2 & H3).
      exists l1, k1. split; [exact H1 |]. split; [exact H2 |].
      rewrite lookup_insert_ne; [exact H3 |]. intros ->.
      apply Hnotin. apply list_elem_of_lookup. eauto.
    + rewrite lookup_app_r in Hi by lia.
      destruct (i - length acc)%nat as [|d] eqn:Ed; simpl in Hi; [| discriminate].
      injection Hi as <-. exists l, k. rewrite lookup_insert_eq.
      assert (i = Z.to_nat j) as -> by (unfold zlen in Hlen; lia).
      split; [exact Hl |]. split; [exact Hk | reflexivity].
  - intros acc hc H. exact H.
Qed.

Lemma create_of_spec h kvs dim :
  1 <= zlen kvs <= 3 -> 0 < dim ->
  (forall l, l ∈ kvs ->
     exists k, Store.kvs h !! l = Some k /\ 0 < KnotVector.NumOfControlPoints k) ->
  returns (NURBSPatch.create_of kvs dim) h (copied h kvs dim).
Proof.
  intros Hn Hdim Hall.
  unfold NURBSPatch.create_of. apply returns_bind.
  eapply returns_weaken.
  { apply (create_of_kvs h kvs). intros l Hl. destruct (Hall l Hl) as (k & Hk & _). eauto. }
  intros acc hc (Hb & Hnd & Hout & Hin & Hlen & Hpos). cbv beta.
  assert (Hposk : forall (j : nat) l', acc !! j = Some l' ->
            exists k', Store.kvs hc !! l' = Some k' /\ 0 < KnotVector.NumOfControlPoints k').
  { intros j l' Hj. destruct (Hpos j l' Hj) as (l & k & Hl & Hk & Hk').
    destruct (Hall l ltac:(eapply list_elem_of_lookup_2; exact Hl)) as (k0 & Hk0 & Hp).
    assert (k0 = k) by congruence. subst k0.
    eexists. split; [exact Hk' | exact Hp]. }
  unfold zlen in Hlen, Hn.
  destruct acc as [|a0 [|a1 [|a2 [|a3 acc]]]]; simpl in Hlen; try lia.
  - destruct (Hposk 0%nat a0 eq_refl) as (k0 & Hk0 & Hp0).
    unfold NURBSPatch.init. apply returns_bind. apply (returns_kv_load a0 k0); [exact Hk0 |].
    apply returns_bind. unfold KnotVector.GetNCP.
    apply returns_new_buf; [nia |]. intros lt Hlt. apply returns_ret.
    unfold copied, patch_ok, extents_ok, total. simpl. rewrite Hb in *.
    split; [exists lt; split; [reflexivity |]; split; [exact Hlt | reflexivity] |].
    split; [exact Hnd |]. split; [exact Hout |]. split; [exact Hin |].
    split; [unfold zlen; simpl; lia |]. split; [exact Hpos |].
    split; [| reflexivity].
    split; [exact Hdim |]. split.
    + exists lt. eexists. split; [reflexivity |]. split; [apply lookup_insert_eq |].
      unfold zlen. rewrite length_replicate. nia.
    + exists k0. split; [exact Hk0 |]. split; [reflexivity |]. split; [exact Hp0 |].
      split; reflexivity.
  - destruct (Hposk 0%nat a0 eq_refl) as (k0 & Hk0 & Hp0).
    destruct (Hposk 1%nat a1 eq_refl) as (k1 & Hk1 & Hp1).
    unfold NURBSPatch.init.
    apply returns_bind. apply (returns_kv_load a0 k0); [exact Hk0 |].
    apply returns_bind. apply (returns_kv_load a1 k1); [exact Hk1 |].
    apply returns_bind. unfold KnotVector.GetNCP.
    apply returns_new_buf; [nia |]. intros lt Hlt. apply returns_ret.
    unfold copied, patch_ok, extents_ok, total. simpl. rewrite Hb in *.
    split; [exists lt; split; [reflexivity |]; split; [exact Hlt | reflexivity] |].
    split; [exact Hnd |]. split; [exact Hout |]. split; [exact Hin |].
    split; [unfold zlen; simpl; lia |]. split; [exact Hpos |].
    split; [| reflexivity].
    split; [exact Hdim |]. split.
    + exists lt. eexists. split; [reflexivity |]. split; [apply lookup_insert_eq |].
      unfold zlen. rewrite length_replicate. nia.
    + exists k0, k1. repeat split; assumption.
  - destruct (Hposk 0%nat a0 eq_refl) as (k0 & Hk0 & Hp0).
    destruct (Hposk 1%nat a1 eq_refl) as (k1 & Hk1 & Hp1).
    destruct (Hposk 2%nat a2 eq_refl) as (k2 & Hk2 & Hp2).
    unfold NURBSPatch.init.
    apply returns_bind. apply (returns_kv_load a0 k0); [exact Hk0 |].
    apply returns_bind. apply (returns_kv_load a1 k1); [exact Hk1 |].
    apply returns_bind. apply (returns_kv_load a2 k2); [exact Hk2 |].
    apply returns_bind. unfold KnotVector.GetNCP.
    apply returns_new_buf; [nia |]. intros lt Hlt. apply returns_ret.
    unfold copied, patch_ok, extents_ok, total. simpl. rewrite Hb in *.
    split; [exists lt; split; [reflexivity |]; split; [exact Hlt | reflexivity] |].
    split; [exact Hnd |]. split; [exact Hout |]. split; [exact Hin |].
    split; [unfold zlen; simpl; lia |]. split; [exact Hpos |].
    split; [| reflexivity].
    split; [exact Hdim |]. split.
    + exists lt. eexists. split; [reflexivity |]. split; [apply lookup_insert_eq |].
      unfold zlen. rewrite length_replicate. nia.
    + exists k0, k1, k2. repeat split; assumption.
Qed.

Lemma swapped_lookup (kvs : list positive) dir1 dir2 l1 l2 j :
  rd kvs dir1 = Ok l1 -> rd kvs dir2 = Ok l2 -> 0 <= j ->
  rd (<[Z.to_nat dir2 := l1]> (<[Z.to_nat dir1 := l2]> kvs)) j = rd kvs (swapped dir1 dir2 j).
Proof.
  intros H1 H2 Hj. unfold swapped.
  pose proof H1 as H1'. pose proof H2 as H2'.
  apply rd_Ok in H1' as [Hd1 Hl1]. apply rd_Ok in H2' as [Hd2 Hl2].
  pose proof (lookup_lt_Some _ _ _ Hl1) as Hlt1. pose proof (lookup_lt_Some _ _ _ Hl2) as Hlt2.
  destruct (decide (j = dir2)) as [-> | Hne2].
  - rewrite rd_insert_eq by (unfold zlen; rewrite length_insert; lia).
    case_bool_decide as E; [rewrite E; rewrite H1; reflexivity |].
    rewrite bool_decide_eq_true_2 by reflexivity. rewrite H1. reflexivity.
  - rewrite rd_insert_ne by lia.
    destruct (decide (j = dir1)) as [-> | Hne1].
    + rewrite rd_insert_eq by (unfold zlen; lia).
      rewrite bool_decide_eq_true_2 by reflexivity. rewrite H2. reflexivity.
    + rewrite rd_insert_ne by lia.
      rewrite !bool_decide_eq_false_2 by assumption. reflexivity.
Qed.

Lemma copied_extents h self nkv dim np h1 (f : Z -> Z) :
  patch_ok h self -> copied h nkv dim np h1 ->
  zlen nkv = zlen (NURBSPatch.kv self) ->
  (forall j, 0 <= j < zlen nkv -> 0 <= f j /\ rd nkv j = rd (NURBSPatch.kv self) (f j)) ->
  forall j, 0 <= j < zlen nkv -> extent_at np j = extent_at self (f j).
Proof.
  intros (_ & _ & He) (_ & _ & _ & _ & Hlen & Hpos & (_ & _ & He1) & _) Hz Hf j Hj.
  destruct (rd_in_range (NURBSPatch.kv np) j ltac:(lia)) as (l' & Hrd' & Hl').
  destruct (Hpos _ _ Hl') as (l & k & Hl & Hk & Hk').
  rewrite (extent_at_kv h1 np j l' _ He1 Hrd' Hk').
  destruct (Hf j Hj) as [Hfj Hrd].
  rewrite (rd_lookup nkv j l) in Hrd by (try lia; exact Hl).
  symmetry in Hrd. rewrite (extent_at_kv h self (f j) l k He Hrd Hk). reflexivity.
Qed.

Lemma swapped_range dir1 dir2 j n :
  0 <= dir1 < n -> 0 <= dir2 < n -> 0 <= j < n -> 0 <= swapped dir1 dir2 j < n.
Proof. intros H1 H2 Hj. unfold swapped. repeat case_bool_decide; lia. Qed.

(** The buffer of a patch has as many entries whatever the order of its
    directions. *)
Lemma total_swapped self np dir1 dir2 :
  1 <= zlen (NURBSPatch.kv self) <= 3 ->
  zlen (NURBSPatch.kv np) = zlen (NURBSPatch.kv self) ->
  NURBSPatch.Dim np = NURBSPatch.Dim self ->
  0 <= dir1 < zlen (NURBSPatch.kv self) -> 0 <= dir2 < zlen (NURBSPatch.kv self) ->
  (forall j, 0 <= j < zlen (NURBSPatch.kv self) ->
     extent_at np j = extent_at self (swapped dir1 dir2 j)) ->
  total np = total self.
Proof.
  intros Hn Hlen HD H1 H2 Hext. unfold total. rewrite HD. unfold zlen in *.
  assert (Hc1 : dir1 = 0 \/ dir1 = 1 \/ dir1 = 2) by lia.
  assert (Hc2 : dir2 = 0 \/ dir2 = 1 \/ dir2 = 2) by lia.
  destruct (NURBSPatch.kv self) as [|s0 [|s1 [|s2 [|s3 ss]]]]; simpl in *; try lia;
    destruct (NURBSPatch.kv np) as [|a0 [|a1 [|a2 [|a3 aa]]]]; simpl in *; try lia.
  - pose proof (Hext 0 ltac:(lia)) as E0.
    destruct Hc1 as [-> | [-> | ->]]; try lia; destruct Hc2 as [-> | [-> | ->]]; try lia;
      unfold extent_at, swapped in E0; simpl in E0; rewrite E0; ring.
  - pose proof (Hext 0 ltac:(lia)) as E0. pose proof (Hext 1 ltac:(lia)) as E1.
    destruct Hc1 as [-> | [-> | ->]]; try lia; destruct Hc2 as [-> | [-> | ->]]; try lia;
      unfold extent_at, swapped in E0, E1; simpl in E0, E1; rewrite E0, E1; ring.
  - pose proof (Hext 0 ltac:(lia)) as E0. pose proof (Hext 1 ltac:(lia)) as E1.
    pose proof (Hext 2 ltac:(lia)) as E2.
    destruct Hc1 as [-> | [-> | ->]]; destruct Hc2 as [-> | [-> | ->]];
      unfold extent_at, swapped in E0, E1, E2; simpl in E0, E1, E2;
      rewrite E0, E1, E2; ring.
Qed.

(** X25. On a well-formed patch, for two directions of the patch that are not
    the directions 0 and 2, [SwapDirections(dir1, dir2)] returns a
    well-formed patch in which the extents along [dir1] and [dir2] are
    exchanged and the others kept, with a buffer of the old size in which
    [slice(id, i)], walked along [dir2], holds what [slice(id, i)] of the
    old patch held when walked along [dir1]. *)
Theorem SwapDirections_transposes (h : Store.t) (self : NURBSPatch.t) (dir1 dir2 : Z)
    (l1 ld : positive) (k1 : KnotVector.t) (b : list real_t) :
  patch_ok h self -> NoDup (NURBSPatch.kv self) ->
  Z.abs (dir1 - dir2) <> 2 ->
  rd (NURBSPatch.kv self) dir1 = Ok l1 -> Store.kvs h !! l1 = Some k1 ->
  0 <= dir2 < zlen (NURBSPatch.kv self) ->
  NURBSPatch.data self = Some ld -> Store.bufs h !! ld = Some b ->
  let n := KnotVector.NumOfControlPoints k1 in
  let size := (stride self dir1).1 * (stride self dir1).2 in
  returns (NURBSPatch.SwapDirections self dir1 dir2) h (fun p' h' =>
    patch_ok h' p' /\
    (forall j, 0 <= j < zlen (NURBSPatch.kv self) ->
       extent_at p' j = extent_at self (swapped dir1 dir2 j)) /\
    exists ld' b',
      NURBSPatch.data p' = Some ld' /\ Store.bufs h' !! ld' = Some b' /\
      zlen b' = zlen b /\
      forall id i, 0 <= id < n -> 0 <= i < size ->
        rd b' (NURBSPatch.slice_index
                 (NURBSPatch.set_loop p' (stride p' dir2).1 n size) id i) =
        rd b (NURBSPatch.slice_index
                (NURBSPatch.set_loop self (stride self dir1).1 n size) id i)).
Proof.
  intros Hok Hnd Habs Hl1 Hk1 Hd2 Hd Hb n size.
  pose proof Hok as (HD & (ld0 & b0 & Hd0 & Hb0 & Hbl) & He).
  assert (ld0 = ld) by congruence. subst ld0.
  assert (b0 = b) by congruence. subst b0.
  assert (Hd1 : 0 <= dir1 < zlen (NURBSPatch.kv self)).
  { apply rd_Ok in Hl1 as [H0 H1]. apply lookup_lt_Some in H1. unfold zlen. lia. }
  destruct (rd_in_range (NURBSPatch.kv self) dir2 Hd2) as (l2 & Hl2 & _).
  pose proof (kv_count h self He) as Hcount.
  destruct (SetLoopDirection_spec h self dir1 l1 k1 Hok Hl1 Hk1)
    as (size0 & Hset & Hsize & Htot & Hsd & Hq & Hn).
  fold n in Hset, Htot, Hn. fold size in Hsize. subst size0.
  set (sd := (stride self dir1).1) in *. set (q := (stride self dir1).2) in *.
  set (self' := NURBSPatch.set_loop self sd n size) in *.
  unfold NURBSPatch.SwapDirections.
  apply returns_bind. rewrite bool_decide_eq_false_2 by exact Habs. apply returns_ret.
  apply returns_bind. apply (returns_lift _ l1); [exact Hl1 |].
  apply returns_bind. apply (returns_lift _ l2); [exact Hl2 |].
  apply returns_bind. eapply returns_lift; [apply wr_Ok; unfold zlen in *; lia |].
  apply returns_bind.
  eapply returns_lift; [apply wr_Ok; unfold zlen in *; rewrite length_insert; lia |].
  set (nkv := <[Z.to_nat dir2 := l1]> (<[Z.to_nat dir1 := l2]> (NURBSPatch.kv self))).
  assert (Hnlen : zlen nkv = zlen (NURBSPatch.kv self)).
  { unfold nkv, zlen. rewrite !length_insert. reflexivity. }
  assert (Hnkv : forall j, 0 <= j < zlen nkv ->
            0 <= swapped dir1 dir2 j /\
            rd nkv j = rd (NURBSPatch.kv self) (swapped dir1 dir2 j)).
  { intros j Hj. split.
    - apply (swapped_range dir1 dir2 j (zlen (NURBSPatch.kv self))); lia.
    - apply swapped_lookup; [exact Hl1 | exact Hl2 | lia]. }
  apply returns_bind.
  eapply returns_weaken.
  { apply (create_of_spec h nkv (NURBSPatch.Dim self)); [lia | exact HD |].
    intros l Hl. apply list_elem_of_lookup in Hl as [j Hj].
    pose proof (lookup_lt_Some _ _ _ Hj) as Hlt.
    destruct (Hnkv (Z.of_nat j) ltac:(unfold zlen; lia)) as [Hs0 Hrd].
    rewrite (rd_lookup nkv (Z.of_nat j) l) in Hrd by (try lia; rewrite Nat2Z.id; exact Hj).
    symmetry in Hrd. apply rd_Ok in Hrd as [_ Hrd].
    destruct (kv_positions h self _ l He Hs0 Hrd) as (k & Hk & _ & Hp). eauto. }
  intros np h1 Hcp. cbv beta.
  pose proof Hcp as ((lt & Hlt & Hfresh & Hb1) & Hnd' & Hout & Hin & Hlen & Hpos & Hok1 & HDim).
  pose proof Hok1 as (_ & (lt0 & bt0 & Hlt0 & Hbt0 & Hbtl) & He1).
  assert (lt0 = lt) by congruence. subst lt0.
  assert (Hne : ld <> lt) by (intros ->; congruence).
  pose proof (copied_extents h self nkv _ np h1 (swapped dir1 dir2) Hok Hcp Hnlen Hnkv)
    as Hext.
  rewrite Hnlen in Hext.
  assert (Htot' : total np = total self).
  { apply (total_swapped self np dir1 dir2); try assumption; lia. }
  (* the knot vector of the new patch along dir2 is a copy of the old one along dir1 *)
  destruct (rd_in_range (NURBSPatch.kv np) dir2 ltac:(lia)) as (l2' & Hrd2' & Hl2').
  destruct (Hpos _ _ Hl2') as (lx & kx & Hlx & Hkx & Hk2').
  assert (lx = l1).
  { destruct (Hnkv dir2 ltac:(lia)) as [_ Hrd].
    rewrite (rd_lookup nkv dir2 lx) in Hrd by (try lia; exact Hlx).
    unfold swapped in Hrd. revert Hrd. repeat case_bool_decide; subst; congruence. }
  subst lx. assert (kx = k1) by congruence. subst kx.
  destruct (SetLoopDirection_spec h1 np dir2 l2' _ Hok1 Hrd2' Hk2')
    as (size' & Hset' & Hsize' & Htot1 & Hsd' & Hq' & Hn').
  change (KnotVector.NumOfControlPoints (KnotVector.assign KnotVector.null k1)) with n
    in Hset', Htot1, Hn'.
  set (sd' := (stride np dir2).1) in *. set (q' := (stride np dir2).2) in *.
  assert (Hss : sd' * q' = size) by (unfold size; nia).
  rewrite Hss in Hsize'. subst size'.
  set (np' := NURBSPatch.set_loop np sd' n size) in *.
  apply returns_bind. exists (size, self'), h1. split; [apply Hset |]. cbv beta iota.
  apply returns_bind. exists (size, np'), h1. split; [apply Hset' |]. cbv beta iota.
  change (NURBSPatch.nd self') with n.
  assert (Hw : walks self' sd n q) by (repeat split; assumption).
  assert (Hw' : walks np' sd' n q') by (repeat split; assumption).
  assert (Hb1' : Store.bufs h1 !! ld = Some b).
  { rewrite Hb1. rewrite lookup_insert_ne by congruence. exact Hb. }
  pose (Inv := fun (id0 i0 : Z) (h2 : Store.t) =>
     Store.kvs h2 = Store.kvs h1 /\
     exists bt, Store.bufs h2 = <[lt := bt]> (Store.bufs h1) /\
       zlen bt = sd' * n * q' /\
       forall id i, 0 <= id < n -> 0 <= i < size -> id < id0 \/ id = id0 /\ i < i0 ->
         rd bt (NURBSPatch.slice_index np' id i) = rd b (NURBSPatch.slice_index self' id i)).
  apply returns_bind.
  apply (returns_for (fun id0 (_ : unit) h2 => Inv id0 0 h2)).
  - lia.
  - split; [reflexivity |]. exists bt0. split.
    + symmetry. apply insert_id. exact Hbt0.
    + split; [lia |]. intros id i Hid Hi Hlt'. lia.
  - intros id [] h2 Hid HI.
    apply (returns_for (fun i0 (_ : unit) h3 => Inv id i0 h3)).
    + unfold size. nia.
    + exact HI.
    + intros i [] h3 Hi (Hk3 & bt & Hb3 & Hl3 & Hc3).
      assert (Hb3l : Store.bufs h3 !! lt = Some bt) by (rewrite Hb3; apply lookup_insert_eq).
      assert (Hb3d : Store.bufs h3 !! ld = Some b).
      { rewrite Hb3. rewrite lookup_insert_ne by congruence. exact Hb1'. }
      pose proof (slice_index_range self' sd n q id i Hw Hid ltac:(fold size; lia)) as Hr.
      pose proof (slice_index_range np' sd' n q' id i Hw' Hid ltac:(lia)) as Hr'.
      destruct (rd_in_range b _ ltac:(rewrite Hbl, Htot; exact Hr)) as (x & Ex & _).
      apply returns_bind. unfold NURBSPatch.slice.
      rewrite bool_decide_eq_false_2 by (change (NURBSPatch.sd self') with sd; lia).
      change (NURBSPatch.data self') with (NURBSPatch.data self). rewrite Hd.
      apply (returns_buf_rd ld b _ x h3 _ Hb3d Ex).
      unfold NURBSPatch.set_slice.
      rewrite bool_decide_eq_false_2 by (change (NURBSPatch.sd np') with sd'; lia).
      change (NURBSPatch.data np') with (NURBSPatch.data np). rewrite Hlt.
      apply (returns_buf_wr lt bt (NURBSPatch.slice_index np' id i) x h3 _ Hb3l); [lia |].
      split; [exact Hk3 |]. simpl.
      exists (<[Z.to_nat (NURBSPatch.slice_index np' id i) := x]> bt). split.
      { rewrite Hb3, insert_insert_eq. reflexivity. }
      split; [unfold zlen in *; rewrite length_insert; exact Hl3 |].
      intros id' i' Hid' Hi' Hlt'.
      destruct (decide (id' = id /\ i' = i)) as [[-> ->] | Hn2].
      * rewrite rd_insert_eq by lia. symmetry. exact Ex.
      * assert (NURBSPatch.slice_index np' id' i' <> NURBSPatch.slice_index np' id i).
        { intros E. apply (slice_index_inj np' sd' n q' id' i' id i Hw') in E; lia. }
        pose proof (slice_index_range np' sd' n q' id' i' Hw' Hid' ltac:(lia)).
        rewrite rd_insert_ne by lia. apply Hc3; [exact Hid' | exact Hi' | lia].
    + intros [] h3 (Hk3 & bt & Hb3 & Hl3 & Hc3). split; [exact Hk3 |].
      exists bt. split; [exact Hb3 |]. split; [exact Hl3 |].
      intros id' i' Hid' Hi' Hlt'. apply Hc3; [exact Hid' | exact Hi' | lia].
  - intros [] h2 (Hk2 & bt & Hb2 & Hbtl2 & Hc2). cbv beta.
    (* the swap *)
    assert (Hfk : forall l, l ∈ NURBSPatch.kv np -> l ∉ NURBSPatch.kv self).
    { intros l Hl Hc. pose proof (Hin l Hl) as H0.
      destruct (extents_ok_allocated h self l He Hc) as [k Hk]. congruence. }
    unfold NURBSPatch.swap. apply returns_bind.
    eapply returns_weaken.
    { apply (release_spec self' h2 ld b); [exact Hd | | exact Hnd |].
      - rewrite Hb2. rewrite lookup_insert_ne by congruence. exact Hb1'.
      - intros l Hl. rewrite Hk2. rewrite Hout.
        + apply (extents_ok_allocated h self l He Hl).
        + intros Hc. apply (Hfk l Hc Hl). }
    intros [] h' (R1 & R2 & R3). apply returns_ret.
    change (NURBSPatch.kv self') with (NURBSPatch.kv self) in R2, R3.
    assert (Hbt' : Store.bufs h' !! lt = Some bt).
    { rewrite R1. rewrite lookup_delete_ne by congruence. rewrite Hb2.
      apply lookup_insert_eq. }
    split; [| split].
    + split; [simpl; lia |]. split.
      * exists lt, bt. simpl. split; [exact Hlt |]. split; [exact Hbt' |].
        rewrite Hbtl2. rewrite <- Htot1. reflexivity.
      * apply (extents_ok_transfer h1 h' np); try reflexivity; [| exact He1].
        intros l k Hl Hk. exists k. split; [| reflexivity].
        rewrite (R3 l (Hfk l Hl)). rewrite Hk2. exact Hk.
    + intros j Hj. rewrite <- (Hext j Hj). reflexivity.
    + exists lt, bt. simpl. split; [exact Hlt |]. split; [exact Hbt' |].
      split; [rewrite Hbtl2, Hbl, <- Htot', Htot1; reflexivity |].
      intros id i Hid Hi. apply Hc2; [exact Hid | exact Hi | lia].
Qed.

Lemma SwapDirections_transposes_witness :
  returns (NURBSPatch.SwapDirections (built surface).1 0 1) (built surface).2 (fun p' h' =>
    patch_ok h' p' /\
    (forall j, 0 <= j < zlen (NURBSPatch.kv (built surface).1) ->
       extent_at p' j = extent_at (built surface).1 (swapped 0 1 j)) /\
    exists ld' b',
      NURBSPatch.data p' = Some ld' /\ Store.bufs h' !! ld' = Some b' /\
      zlen b' = zlen surface_ctrl /\
      forall id i, 0 <= id < KnotVector.NumOfControlPoints kv_lin1 ->
        0 <= i < (stride (built surface).1 0).1 * (stride (built surface).1 0).2 ->
        rd b' (NURBSPatch.slice_index
                 (NURBSPatch.set_loop p' (stride p' 1).1
                    (KnotVector.NumOfControlPoints kv_lin1)
                    ((stride (built surface).1 0).1 * (stride (built surface).1 0).2))
                 id i) =
        rd surface_ctrl
           (NURBSPatch.slice_index
              (NURBSPatch.set_loop (built surface).1 (stride (built surface).1 0).1
                 (KnotVector.NumOfControlPoints kv_lin1)
                 ((stride (built surface).1 0).1 * (stride (built surface).1 0).2))
              id i)).
Proof.
  apply (SwapDirections_transposes (built surface).2 (built surface).1 0 1 1%positive
           1%positive kv_lin1 surface_ctrl).
  - split; [vm_compute; reflexivity |]. split.
    + exists 1%positive. eexists. split; [vm_compute; reflexivity |].
      split; vm_compute; reflexivity.
    + exists kv_lin1, kv_lin2. vm_compute. repeat split; reflexivity.
  - vm_compute. apply NoDup_cons. split; [| apply NoDup_singleton].
    intros H. apply list_elem_of_singleton in H. discriminate H.
  - vm_compute. discriminate.
  - vm_compute. reflexivity.
  - vm_compute. reflexivity.
  - vm_compute. split; [discriminate | reflexivity].
  - vm_compute. reflexivity.
  - vm_compute. reflexivity.
Defined.

Example SwapDirections_surface :
  exists p' h' ld',
    NURBSPatch.SwapDirections (built surface).1 0 1 (built surface).2 = (Ok p', h') /\
    NURBSPatch.ni p' = 3 /\ NURBSPatch.nj p' = 2 /\
    NURBSPatch.data p' = Some ld' /\
    Store.bufs h' !! ld' = Some [qc 1 1; qc 3 1; qc 5 1; qc 2 1; qc 4 1; qc 6 1].
Proof. do 3 eexists. repeat split; vm_compute; reflexivity. Qed.

(** ** Elevating the directions of a patch in turn *)

Lemma returns_and {A} (m : M A) h (Q Q' : A -> Store.t -> Prop) :
  returns m h Q -> returns m h Q' -> returns m h (fun a h' => Q a h' /\ Q' a h').
Proof.
  intros (a & h1 & E & H) (a' & h1' & E' & H'). rewrite E in E'. injection E' as <- <-.
  exists a, h1. auto.
Qed.

(** The constructor from a parent copies the knot vectors of the other
    directions, position by position. *)
Lemma create_from_copies h p dir order ncp :
  (forall l, l ∈ NURBSPatch.kv p -> is_Some (Store.kvs h !! l)) ->
  outcome (NURBSPatch.create_from p dir order ncp) h (fun _ => True)
    (fun np h1 =>
       forall (j : nat) l', Z.of_nat j <> dir -> NURBSPatch.kv np !! j = Some l' ->
         exists l k, NURBSPatch.kv p !! j = Some l /\ Store.kvs h !! l = Some k /\
           Store.kvs h1 !! l' = Some (KnotVector.assign KnotVector.null k)).
Proof.
  intros Hall. unfold NURBSPatch.create_from. apply outcome_bind.
  pose (J := fun (i : Z) (acc : list positive) (hc : Store.t) =>
     zlen acc = i /\
     (forall l k, Store.kvs h !! l = Some k -> Store.kvs hc !! l = Some k) /\
     forall (j : nat) l', Z.of_nat j <> dir -> acc !! j = Some l' ->
       exists l k, NURBSPatch.kv p !! j = Some l /\ Store.kvs h !! l = Some k /\
         Store.kvs hc !! l' = Some (KnotVector.assign KnotVector.null k)).
  unfold for_loopM.
  eapply outcome_weaken.
  { apply (outcome_for_iter J (fun _ => True) _ (Z.to_nat (zlen (NURBSPatch.kv p) - 0)) 0 [] h).
    - split; [reflexivity |]. split; [auto |]. intros j l' _ Hj.
      rewrite lookup_nil in Hj. discriminate.
    - intros j acc hc Hj (Hlen & Hkeep & Hpos).
      assert (Hstep : forall kn l', Store.kvs hc !! l' = None ->
                (j <> dir -> exists l k, NURBSPatch.kv p !! Z.to_nat j = Some l /\
                   Store.kvs h !! l = Some k /\ kn = KnotVector.assign KnotVector.null k) ->
                J (j + 1) (acc ++ [l'])
                  (Store.mk (Store.bufs hc) (<[l' := kn]> (Store.kvs hc)))).
      { intros kn l' Hfresh Hkn. split; [unfold zlen in *; rewrite length_app; simpl; lia |].
        split.
        - intros l k Hk. simpl. rewrite lookup_insert_ne; [apply Hkeep; exact Hk |].
          intros ->. rewrite (Hkeep _ _ Hk) in Hfresh. discriminate.
        - intros i l0 Hi Hl0. simpl.
          destruct (decide (i < length acc)%nat) as [Hlt|Hge].
          + rewrite lookup_app_l in Hl0 by exact Hlt.
            destruct (Hpos i l0 Hi Hl0) as (l1 & k1 & H1 & H2 & H3).
            exists l1, k1. split; [exact H1 |]. split; [exact H2 |].
            rewrite lookup_insert_ne; [exact H3 |]. intros ->. congruence.
          + rewrite lookup_app_r in Hl0 by lia.
            destruct (i - length acc)%nat as [|d] eqn:Ed; simpl in Hl0; [| discriminate].
            injection Hl0 as <-.
            assert (Z.of_nat i = j) by (unfold zlen in Hlen; lia).
            destruct Hkn as (l1 & k1 & H1 & H2 & ->); [lia |].
            exists l1, k1. replace i with (Z.to_nat j) by lia.
            split; [exact H1 |]. split; [exact H2 |]. apply lookup_insert_eq. }
      case_bool_decide as Hd; simpl.
      + apply outcome_bind. unfold outcome, new_kv. cbv beta.
        apply outcome_ret. apply Hstep; [apply not_elem_of_dom, is_fresh |].
        intros Hc. contradiction.
      + apply outcome_bind, outcome_lift; [exact I |]. intros l Hl.
        apply outcome_bind. unfold NURBSPatch.copy_kv. apply outcome_bind.
        apply outcome_kv_load; [exact I |]. intros k Hk.
        unfold outcome, new_kv. cbv beta. apply outcome_ret.
        apply Hstep; [apply not_elem_of_dom, is_fresh |].
        intros _. apply rd_Ok in Hl as [_ Hl].
        destruct (Hall l ltac:(eapply list_elem_of_lookup_2; exact Hl)) as [k0 Ek0].
        exists l, k0. rewrite (Hkeep _ _ Ek0) in Hk. injection Hk as <-. auto. }
  { auto. }
  intros acc hc (Hlen & Hkeep & Hpos). cbv beta.
  eapply outcome_weaken; [apply (init_fresh acc (NURBSPatch.Dim p) hc) | auto |].
  intros np h1 (Ekv & _ & Ekvs). rewrite Ekv, Ekvs. exact Hpos.
Qed.

Lemma swap_keeps_new self' newp hc :
  owned hc self' ->
  (forall l, l ∈ NURBSPatch.kv newp -> l ∉ NURBSPatch.kv self') ->
  returns (NURBSPatch.swap self' newp) hc
    (fun p' h' => NURBSPatch.kv p' = NURBSPatch.kv newp /\
       forall l, l ∈ NURBSPatch.kv newp -> Store.kvs h' !! l = Store.kvs hc !! l).
Proof.
  intros Hown Hfk. unfold NURBSPatch.swap. apply returns_bind.
  eapply returns_weaken; [apply (release_released self' hc Hown) |].
  intros [] h' (R1 & R2 & R3). apply returns_ret. simpl.
  split; [reflexivity |]. intros l Hl. apply R3. apply Hfk. exact Hl.
Qed.

(** What [DegreeElevate(dir, t)] leaves when it returns: the element count
    of the old knot vector along [dir] was computable, the patch has the
    new shape along [dir], and the knot vectors of the other directions have
    the orders they had. *)
Lemma DegreeElevate_shape (h : Store.t) (self : NURBSPatch.t) (dir t : Z)
    (l : positive) (okv : KnotVector.t) :
  patch_ok h self -> NoDup (NURBSPatch.kv self) ->
  rd (NURBSPatch.kv self) dir = Ok l -> Store.kvs h !! l = Some okv ->
  0 <= t ->
  outcome (NURBSPatch.DegreeElevate self dir t) h (fun _ => True)
    (fun p' h' =>
       exists ne, KnotVector.count_elements okv = Ok ne /\
         reshaped self dir (KnotVector.Order okv + t)
           (KnotVector.NumOfControlPoints okv + ne * t) p' h' /\
         forall j o, j <> dir -> order_along h self j o -> order_along h' p' j o).
Proof.
  intros Hok Hnd Hl Hk Ht.
  assert (Hdir : 0 <= dir < zlen (NURBSPatch.kv self)).
  { apply rd_Ok in Hl as [H0 H1]. apply lookup_lt_Some in H1. unfold zlen. lia. }
  assert (Hncp : 0 < KnotVector.NumOfControlPoints okv).
  { destruct Hok as (_ & _ & He). pose proof Hl as Hl'. apply rd_Ok in Hl' as [H0 H1].
    destruct (kv_positions h self dir l He H0 H1) as (k & Ek & _ & Hpos). congruence. }
  unfold NURBSPatch.DegreeElevate.
  apply outcome_bind. rewrite bool_decide_eq_false_2 by lia. apply outcome_ret.
  oc_pure. assert (a = l) by congruence. subst a.
  destruct (KnotVector.count_elements okv) as [ne|e] eqn:Hne.
  2:{ apply outcome_bind. unfold outcome at 1.
      assert (Eg : kv_GetElements l h = (Err e, h)).
      { unfold kv_GetElements, mbind, kv_load, lift, kv_store, KnotVector.GetElements.
        rewrite Hk, Hne. reflexivity. }
      rewrite Eg. exact I. }
  pose proof (count_elements_nonneg okv ne Hne) as Hne0.
  (* the element count of the old knot vector is brought up to date *)
  set (okv' := KnotVector.mk (KnotVector.knot okv) (KnotVector.Order okv)
                 (KnotVector.NumOfControlPoints okv) ne (KnotVector.coarse okv)
                 (KnotVector.spacing okv)).
  set (h0 := Store.mk (Store.bufs h) (<[l := okv']> (Store.kvs h))).
  assert (Eg : kv_GetElements l h = (Ok tt, h0)).
  { unfold kv_GetElements, mbind, kv_load, lift, kv_store, KnotVector.GetElements.
    rewrite Hk, Hne. simpl. rewrite Hk. reflexivity. }
  apply outcome_bind. unfold outcome at 1. rewrite Eg.
  assert (Hk0 : Store.kvs h0 !! l = Some okv') by (simpl; apply lookup_insert_eq).
  assert (Hok0 : patch_ok h0 self).
  { destruct Hok as (HD & Hb & He). split; [exact HD |]. split; [exact Hb |].
    apply (extents_ok_transfer h h0 self self); try reflexivity; [| exact He].
    intros l' k' _ Hk'. simpl. destruct (decide (l' = l)) as [->|Hne'].
    - rewrite lookup_insert_eq. exists okv'. split; [reflexivity |]. simpl. congruence.
    - rewrite lookup_insert_ne by congruence. eauto. }
  apply outcome_bind, outcome_kv_load; [exact I |]. intros k Ek.
  assert (k = okv') by congruence. subst k. cbv beta.
  unfold KnotVector.GetOrder, KnotVector.GetNCP, KnotVector.GetNE.
  change (KnotVector.Order okv') with (KnotVector.Order okv).
  change (KnotVector.NumOfControlPoints okv') with (KnotVector.NumOfControlPoints okv).
  change (KnotVector.NumOfElements okv') with ne.
  apply outcome_bind.
  eapply outcome_weaken.
  { apply (outcome_and _ _ (fun _ => True) (fun _ => True)).
    - apply outcome_returns.
      apply (create_from_spec h0 self dir (KnotVector.Order okv + t)
               (KnotVector.NumOfControlPoints okv + ne * t) l Hok0 Hl). nia.
    - apply (create_from_copies h0 self dir).
      destruct Hok0 as (_ & _ & He0). intros l0 Hl0.
      apply (extents_ok_allocated h0 self l0 He0 Hl0). }
  { intros ? _. exact I. }
  intros newp h1 [Hcr Hcp]. cbv beta.
  pose proof (created_keeps _ _ _ _ _ _ _ Hcr) as Hk1.
  pose proof (same_shape_refl h1) as Hs1.
  pose proof Hcr as ((lt & Hlt & Hfresh & _) & _ & _ & Hin & (ln & Hln & Hkn) & _).
  oc_pure. assert (a = ln) by congruence. subst a.
  assert (Hnew : Store.kvs h0 !! ln = None).
  { apply Hin. apply rd_Ok in Hln as [_ Hln]. eapply list_elem_of_lookup_2. exact Hln. }
  assert (Hbuf : forall l', NURBSPatch.data newp = Some l' -> Store.bufs h0 !! l' = None).
  { intros l' Hl'. congruence. }
  apply outcome_bind.
  assert (Hsp : outcome
            match KnotVector.spacing okv' with
            | Some _ =>
                mbind (kv_load ln) (fun nkv =>
                  kv_store ln
                    (KnotVector.mk (KnotVector.knot nkv) (KnotVector.Order nkv)
                       (KnotVector.NumOfControlPoints nkv) (KnotVector.NumOfElements nkv)
                       (KnotVector.coarse nkv) (KnotVector.spacing okv')))
            | None => mret tt
            end h1 (fun _ => True)
            (fun _ h2 => keeps h0 h2 /\ same_shape h1 h2)).
  { destruct (KnotVector.spacing okv').
    - apply outcome_bind, outcome_kv_load; [exact I |]. intros nkv Enkv. cbv beta.
      apply (outcome_kv_store_like h0 h1 ln nkv _ h1 _ Enkv);
        [repeat split | exact Hnew | exact Hk1 | exact Hs1 | auto].
    - apply outcome_ret. auto. }
  eapply outcome_weaken; [exact Hsp | auto |]. clear Hsp.
  intros [] h2 [Hk2 Hs2]. cbv beta.
  apply outcome_bind, SetLoopDirection_set_loop. intros size a b c.
  apply outcome_bind, SetLoopDirection_set_loop. intros size' a' b' c'.
  cbv beta iota zeta.
  assert (Hbuf' : forall l', NURBSPatch.data (NURBSPatch.set_loop newp a' b' c') = Some l' ->
            Store.bufs h0 !! l' = None) by exact Hbuf.
  apply outcome_bind.
  destruct (negb (bool_decide (size = size'))); [exact I | apply outcome_ret].
  oc_pure.
  oc_steady h0 h1. oc_steady h0 h1. oc_steady h0 h1. oc_steady h0 h1.
  apply outcome_bind, (outcome_steady h0 h1);
    [apply tame_while; intros ?; [tame_auto | apply tame_DegreeElevate_segment; assumption]
    | apply steady_while; intros ?; [steady_auto | apply steady_DegreeElevate_segment]
    | eassumption | eassumption |].
  intros st h' Hk' Hs'. cbv beta.
  apply outcome_bind, (outcome_steady h0 h1);
    [tame_auto | steady_auto | eassumption | eassumption |].
  intros [] hz Hkz Hsz. cbv beta.
  apply outcome_returns.
  assert (Hfk : forall l0, l0 ∈ NURBSPatch.kv newp -> l0 ∉ NURBSPatch.kv self).
  { intros l0 Hl0 Hc. destruct (Hin l0 Hl0) as [Hn0 _].
    destruct Hok0 as (_ & _ & He0).
    destruct (extents_ok_allocated h0 self l0 He0 Hc) as [k Ek0]. congruence. }
  assert (Hown : owned hz (NURBSPatch.set_loop self a b c)).
  { destruct Hok0 as (_ & (ld & bd & Hld & Hbd & _) & He0). destruct Hkz as [Kb Kk].
    split; [| split].
    - exists ld. split; [exact Hld |]. rewrite (Kb ld bd Hbd). eauto.
    - exact Hnd.
    - intros l0 Hl0. destruct (extents_ok_allocated h0 self l0 He0 Hl0) as [k Ek0].
      rewrite (Kk l0 k Ek0). eauto. }
  eapply returns_weaken.
  - apply returns_and.
    + apply (swap_reshaped h0 self dir _ _ newp h1 _ (NURBSPatch.set_loop self a b c)
               a' b' c' Hok0 Hnd Hcr); [assumption | assumption | split; reflexivity].
    + apply (swap_keeps_new (NURBSPatch.set_loop self a b c)
               (NURBSPatch.set_loop newp a' b' c') hz Hown Hfk).
  - intros p' hf [Hr [Ekv Hkept]]. cbv beta in *.
    exists ne. split; [reflexivity |]. split; [exact Hr |].
    intros j o Hj (lj & kj & Hlj & Hkj & Ho).
    pose proof Hlj as Hlj'. apply rd_Ok in Hlj' as [Hj0 Hlj'].
    assert (Hjn : (Z.to_nat j < length (NURBSPatch.kv newp))%nat).
    { pose proof Hcr as (_ & _ & _ & _ & _ & _ & _ & _ & Hzl & _).
      apply lookup_lt_Some in Hlj'. unfold zlen in Hzl. lia. }
    destruct (lookup_lt_is_Some_2 _ _ Hjn) as [l' Hl'].
    destruct (Hcp (Z.to_nat j) l' ltac:(lia) Hl') as (l0 & k0 & Hl0 & Hk0' & Hk1').
    assert (l0 = lj) by congruence. subst l0.
    assert (Hoj : KnotVector.Order k0 = o).
    { simpl in Hk0'. destruct (decide (lj = l)) as [-> | Hne'].
      - rewrite lookup_insert_eq in Hk0'. injection Hk0' as <-. simpl. congruence.
      - rewrite lookup_insert_ne in Hk0' by congruence. congruence. }
    destruct Hsz as [_ Skv]. destruct (Skv l' _ Hk1') as (kz & Hkz' & (Ho' & _)).
    exists l', kz. split; [| split].
    + simpl in Ekv. rewrite Ekv. apply rd_lookup; [lia | exact Hl'].
    + rewrite Hkept; [exact Hkz' |]. eapply list_elem_of_lookup_2. exact Hl'.
    + rewrite Ho'. simpl. exact Hoj.
Qed.

Lemma order_along_unique h p j o o' :
  order_along h p j o -> order_along h p j o' -> o = o'.
Proof. intros (l & k & H1 & H2 & <-) (l' & k' & H1' & H2' & <-). congruence. Qed.

Lemma order_along_exists h p j :
  patch_ok h p -> 0 <= j < zlen (NURBSPatch.kv p) -> exists o, order_along h p j o.
Proof.
  intros (_ & _ & He) Hj. destruct (rd_in_range (NURBSPatch.kv p) j Hj) as (l & Hrd & Hl).
  destruct (kv_positions h p j l He ltac:(lia) Hl) as (k & Hk & _).
  exists (KnotVector.Order k), l, k. auto.
Qed.

(** One round of the loops that elevate the directions in turn: the
    direction [dir] gets the order [f o], the other directions keep theirs. *)
Lemma elevate_round (h : Store.t) (self : NURBSPatch.t) (f : Z -> Z) (hc : Store.t)
    (cur : NURBSPatch.t) (dir t : Z) (l : positive) (k : KnotVector.t) :
  patch_ok hc cur -> NoDup (NURBSPatch.kv cur) ->
  zlen (NURBSPatch.kv cur) = zlen (NURBSPatch.kv self) ->
  (forall j o, order_along h self j o ->
     order_along hc cur j (if bool_decide (j < dir) then f o else o)) ->
  rd (NURBSPatch.kv cur) dir = Ok l -> Store.kvs hc !! l = Some k ->
  0 <= t -> f (KnotVector.Order k) = KnotVector.Order k + t ->
  outcome (NURBSPatch.DegreeElevate cur dir t) hc (fun _ => True)
    (fun p' h' =>
       patch_ok h' p' /\ NoDup (NURBSPatch.kv p') /\
       zlen (NURBSPatch.kv p') = zlen (NURBSPatch.kv self) /\
       forall j o, order_along h self j o ->
         order_along h' p' j (if bool_decide (j < dir + 1) then f o else o)).
Proof.
  intros Hok Hnd Hlen HJ Hl Hk Ht Hf.
  eapply outcome_weaken; [apply (DegreeElevate_shape hc cur dir t l k Hok Hnd Hl Hk Ht) | auto |].
  intros p' h' (ne & _ & (Hok' & Hnd' & _ & Hlen' & _ & (l' & nkv & Hl' & Hk' & Ho' & _)) & Hkept).
  split; [exact Hok' |]. split; [exact Hnd' |]. split; [lia |].
  intros j o Hjo. specialize (HJ j o Hjo).
  destruct (decide (j = dir)) as [-> | Hne].
  - rewrite bool_decide_eq_false_2 in HJ by lia.
    rewrite bool_decide_eq_true_2 by lia.
    assert (o = KnotVector.Order k).
    { apply (order_along_unique hc cur dir); [exact HJ |]. exists l, k. auto. }
    subst o. rewrite Hf. exists l', nkv. auto.
  - apply Hkept in HJ; [| exact Hne].
    destruct (decide (j < dir)).
    + rewrite bool_decide_eq_true_2 in HJ by assumption.
      rewrite bool_decide_eq_true_2 by lia. exact HJ.
    + rewrite bool_decide_eq_false_2 in HJ by assumption.
      rewrite bool_decide_eq_false_2 by lia. exact HJ.
Qed.

(** X26. Whenever [DegreeElevate(t)] returns for [t >= 0] on a well-formed
    patch, the patch is well formed again and the knot vector of every
    direction has its order raised by [t]. *)
Theorem DegreeElevate_all_raises_every_order (h : Store.t) (self : NURBSPatch.t) (t : Z) :
  patch_ok h self -> NoDup (NURBSPatch.kv self) -> 0 <= t ->
  outcome (DegreeElevate_all self t) h (fun _ => True)
    (fun p' h' =>
       patch_ok h' p' /\ zlen (NURBSPatch.kv p') = zlen (NURBSPatch.kv self) /\
       forall j o, order_along h self j o -> order_along h' p' j (o + t)).
Proof.
  intros Hok Hnd Ht. unfold DegreeElevate_all, for_loopM.
  set (n := zlen (NURBSPatch.kv self)).
  pose (J := fun (dir : Z) (cur : NURBSPatch.t) (hc : Store.t) =>
     patch_ok hc cur /\ NoDup (NURBSPatch.kv cur) /\
     zlen (NURBSPatch.kv cur) = n /\
     forall j o, order_along h self j o ->
       order_along hc cur j (if bool_decide (j < dir) then o + t else o)).
  eapply outcome_weaken.
  { apply (outcome_for_iter J (fun _ => True) _ (Z.to_nat (n - 0)) 0 self h).
    - split; [exact Hok |]. split; [exact Hnd |]. split; [reflexivity |].
      intros j o Hjo. destruct Hjo as (l & k & Hl & Hjo). pose proof Hl as Hl'.
      apply rd_Ok in Hl' as [Hj0 _].
      rewrite bool_decide_eq_false_2 by lia. exists l, k. auto.
    - intros dir cur hc Hdir (Hokc & Hndc & Hlenc & HJ).
      destruct (rd_in_range (NURBSPatch.kv cur) dir ltac:(unfold n in *; lia))
        as (l & Hrd & Hl).
      destruct Hokc as (HD & Hbuf & He).
      destruct (kv_positions hc cur dir l He ltac:(lia) Hl) as (k & Hk & _).
      apply (elevate_round h self (fun o => o + t) hc cur dir t l k);
        [split; [exact HD | split; assumption] | exact Hndc | exact Hlenc | exact HJ
        | exact Hrd | exact Hk | exact Ht | reflexivity]. }
  { auto. }
  intros p' h' (Hok' & _ & Hlen' & HJ). split; [exact Hok' |]. split; [exact Hlen' |].
  intros j o Hjo. specialize (HJ j o Hjo).
  destruct Hjo as (l & k & Hl & _). apply rd_Ok in Hl as [Hj0 Hl].
  apply lookup_lt_Some in Hl.
  rewrite bool_decide_eq_true_2 in HJ by (unfold n, zlen; lia). exact HJ.
Qed.

(** Reading the knot vector of a direction of a well-formed patch. *)
Lemma outcome_direction {B} (hc : Store.t) (cur : NURBSPatch.t) (dir : Z)
    (f : KnotVector.t -> M B) (Q : B -> Store.t -> Prop) :
  (forall l k, rd (NURBSPatch.kv cur) dir = Ok l -> Store.kvs hc !! l = Some k ->
     outcome (f k) hc (fun _ => True) Q) ->
  outcome (mbind (lift (rd (NURBSPatch.kv cur) dir)) (fun l => mbind (kv_load l) f))
    hc (fun _ => True) Q.
Proof.
  intros H. apply outcome_bind, outcome_lift; [exact I |]. intros l Hl.
  apply outcome_bind, outcome_kv_load; [exact I |]. intros k Hk. apply (H l k Hl Hk).
Qed.

(** X27. Whenever [MakeUniformDegree(degree)] returns on a well-formed patch,
    the patch is well formed again and a direction of order [o] has the
    order [max maxd o]; a given [degree] is the returned [maxd], and for
    [degree = -1] every direction ends with the same order [maxd]. *)
Theorem MakeUniformDegree_levels_orders (h : Store.t) (self : NURBSPatch.t) (degree : Z) :
  patch_ok h self -> NoDup (NURBSPatch.kv self) ->
  outcome (MakeUniformDegree self degree) h (fun _ => True)
    (fun r h' =>
       patch_ok h' r.2 /\ zlen (NURBSPatch.kv r.2) = zlen (NURBSPatch.kv self) /\
       (degree <> -1 -> r.1 = degree) /\
       (forall j o, order_along h self j o -> order_along h' r.2 j (Z.max r.1 o)) /\
       (degree = -1 -> forall j, 0 <= j < zlen (NURBSPatch.kv self) ->
          order_along h' r.2 j r.1)).
Proof.
  intros Hok Hnd. unfold MakeUniformDegree.
  set (n := zlen (NURBSPatch.kv self)).
  apply outcome_bind.
  apply outcome_weaken with (E := fun _ => True)
    (Q := fun maxd h1 => h1 = h /\ (degree <> -1 -> maxd = degree) /\
            (degree = -1 -> forall j o, order_along h self j o -> o <= maxd));
    [| auto |].
  { case_bool_decide as Hd.
    - unfold for_loopM.
      pose (J := fun (i : Z) (m : Z) (hc : Store.t) =>
         hc = h /\ forall j o, 0 <= j < i -> order_along h self j o -> o <= m).
      eapply outcome_weaken.
      { apply (outcome_for_iter J (fun _ => True) _ (Z.to_nat (n - 0)) 0 degree h).
        - split; [reflexivity | intros; lia].
        - intros dir m hc Hdir (-> & HJ).
          apply outcome_direction. intros l k Hl Hk. apply outcome_ret.
          split; [reflexivity |]. intros j o Hj Hjo.
          destruct (decide (j = dir)) as [-> | Hne].
          + assert (o = KnotVector.Order k).
            { apply (order_along_unique h self dir); [exact Hjo |]. exists l, k. auto. }
            subst o. unfold KnotVector.GetOrder. lia.
          + specialize (HJ j o ltac:(lia) Hjo). lia. }
      { auto. }
      intros m h1 (-> & HJ). split; [reflexivity |]. split; [intros; congruence |].
      intros _ j o Hjo. apply (HJ j o); [| exact Hjo].
      destruct Hjo as (l & k & Hl & _). apply rd_Ok in Hl as [Hj0 Hl].
      apply lookup_lt_Some in Hl. unfold n, zlen. lia.
    - apply outcome_ret. split; [reflexivity |].
      split; [reflexivity | intros; congruence]. }
  intros maxd h1 (-> & Hdeg & Hmax).
  apply outcome_bind.
  apply outcome_weaken with (E := fun _ => True)
    (Q := fun p' h' =>
       patch_ok h' p' /\ zlen (NURBSPatch.kv p') = n /\
       forall j o, order_along h self j o -> order_along h' p' j (Z.max maxd o));
    [| auto |].
  { unfold for_loopM.
    pose (J := fun (dir : Z) (cur : NURBSPatch.t) (hc : Store.t) =>
       patch_ok hc cur /\ NoDup (NURBSPatch.kv cur) /\
       zlen (NURBSPatch.kv cur) = n /\
       forall j o, order_along h self j o ->
         order_along hc cur j (if bool_decide (j < dir) then Z.max maxd o else o)).
    eapply outcome_weaken.
    { apply (outcome_for_iter J (fun _ => True) _ (Z.to_nat (n - 0)) 0 self h).
      - split; [exact Hok |]. split; [exact Hnd |]. split; [reflexivity |].
        intros j o Hjo. destruct Hjo as (l & k & Hl & Hjo). pose proof Hl as Hl'.
        apply rd_Ok in Hl' as [Hj0 _].
        rewrite bool_decide_eq_false_2 by lia. exists l, k. auto.
      - intros dir cur hc Hdir (Hokc & Hndc & Hlenc & HJ).
        apply outcome_direction. intros l k Hrd Hk. unfold KnotVector.GetOrder.
        case_bool_decide as Hlt.
        + apply (elevate_round h self (Z.max maxd) hc cur dir _ l k);
            [exact Hokc | exact Hndc | exact Hlenc | exact HJ
            | exact Hrd | exact Hk | lia | lia].
        + apply outcome_ret.
          split; [exact Hokc |]. split; [exact Hndc |]. split; [exact Hlenc |].
          intros j o Hjo. specialize (HJ j o Hjo).
          destruct (decide (j = dir)) as [-> | Hne].
          * rewrite bool_decide_eq_false_2 in HJ by lia.
            rewrite bool_decide_eq_true_2 by lia.
            assert (o = KnotVector.Order k).
            { apply (order_along_unique hc cur dir); [exact HJ |]. exists l, k. auto. }
            subst o. replace (Z.max maxd (KnotVector.Order k)) with (KnotVector.Order k) by lia.
            exact HJ.
          * destruct (decide (j < dir)).
            -- rewrite bool_decide_eq_true_2 in HJ by assumption.
               rewrite bool_decide_eq_true_2 by lia. exact HJ.
            -- rewrite bool_decide_eq_false_2 in HJ by assumption.
               rewrite bool_decide_eq_false_2 by lia. exact HJ. }
    { auto. }
    intros p' h' (Hok' & _ & Hlen' & HJ). split; [exact Hok' |]. split; [exact Hlen' |].
    intros j o Hjo. specialize (HJ j o Hjo).
    destruct Hjo as (l & k & Hl & _). apply rd_Ok in Hl as [Hj0 Hl].
    apply lookup_lt_Some in Hl.
    rewrite bool_decide_eq_true_2 in HJ by (unfold n, zlen; lia). exact HJ. }
  intros p' h' (Hok' & Hlen' & HJ). apply outcome_ret. simpl.
  split; [exact Hok' |]. split; [exact Hlen' |]. split; [exact Hdeg |].
  split; [exact HJ |].
  intros Hd j Hj. destruct (order_along_exists h self j Hok Hj) as (o & Hjo).
  pose proof (Hmax Hd j o Hjo). pose proof (HJ j o Hjo) as Hn.
  replace (Z.max maxd o) with maxd in Hn by lia. exact Hn.
Qed.

Lemma MakeUniformDegree_levels_orders_witness :
  outcome (MakeUniformDegree (built mixed).1 (-1)) (built mixed).2 (fun _ => True)
    (fun r h' =>
       patch_ok h' r.2 /\
       zlen (NURBSPatch.kv r.2) = zlen (NURBSPatch.kv (built mixed).1) /\
       (-1 <> -1 -> r.1 = -1) /\
       (forall j o, order_along (built mixed).2 (built mixed).1 j o ->
          order_along h' r.2 j (Z.max r.1 o)) /\
       (-1 = -1 -> forall j, 0 <= j < zlen (NURBSPatch.kv (built mixed).1) ->
          order_along h' r.2 j r.1)).
Proof.
  apply (MakeUniformDegree_levels_orders (built mixed).2 (built mixed).1 (-1)).
  - split; [vm_compute; reflexivity |]. split.
    + exists 1%positive. eexists. split; [vm_compute; reflexivity |].
      split; vm_compute; reflexivity.
    + exists kv_lin1, kv_quad2. vm_compute. repeat split; reflexivity.
  - vm_compute. apply NoDup_cons. split; [| apply NoDup_singleton].
    intros H. apply list_elem_of_singleton in H. discriminate H.
Defined.

(** On the surface of orders 1 and 2 the call returns 2 and a patch of
    orders 2 and 2, with 3 x 4 control points. *)
Example MakeUniformDegree_mixed :
  exists p' h',
    MakeUniformDegree (built mixed).1 (-1) (built mixed).2 = (Ok (2, p'), h') /\
    orders_of h' p' = [Some 2; Some 2] /\
    NURBSPatch.ni p' = 3 /\ NURBSPatch.nj p' = 4.
Proof. eexists. eexists. split; [vm_compute; reflexivity |]. vm_compute. auto. Qed.

Lemma DegreeElevate_all_raises_every_order_witness :
  outcome (DegreeElevate_all (built mixed).1 1) (built mixed).2 (fun _ => True)
    (fun p' h' =>
       patch_ok h' p' /\
       zlen (NURBSPatch.kv p') = zlen (NURBSPatch.kv (built mixed).1) /\
       forall j o, order_along (built mixed).2 (built mixed).1 j o ->
         order_along h' p' j (o + 1)).
Proof.
  apply (DegreeElevate_all_raises_every_order (built mixed).2 (built mixed).1 1).
  - split; [vm_compute; reflexivity |]. split.
    + exists 1%positive. eexists. split; [vm_compute; reflexivity |].
      split; vm_compute; reflexivity.
    + exists kv_lin1, kv_quad2. vm_compute. repeat split; reflexivity.
  - vm_compute. apply NoDup_cons. split; [| apply NoDup_singleton].
    intros H. apply list_elem_of_singleton in H. discriminate H.
  - lia.
Defined.

(** On the surface of orders 1 and 2, [DegreeElevate(1)] returns a patch of
    orders 2 and 3. *)
Example DegreeElevate_all_mixed :
  exists p' h',
    DegreeElevate_all (built mixed).1 1 (built mixed).2 = (Ok p', h') /\
    orders_of h' p' = [Some 2; Some 3] /\
    NURBSPatch.ni p' = 3 /\ NURBSPatch.nj p' = 6.
Proof. eexists. eexists. split; [vm_compute; reflexivity |]. vm_compute. auto. Qed.
